(** * Field symmetrization on a half reciprocal-space grid

    A shallow embedding of [qimpy/symmetries/_field.py] (class
    [FieldSymmetrizer]): the index reduction [get_index], the set-up of the
    orbits in [__init__] and the symmetrization pass [__call__]. *)

From Stdlib Require Import ZArith List Lia Bool Arith.
From Stdlib Require Import Ring Field QArith Qcanon Sorting.Sorted.
From Stdlib Require Import Sorting.Permutation.
Import ListNotations.
Local Close Scope Qc_scope.
Local Close Scope Q_scope.
Local Open Scope Z_scope.

(** ** Integer 3-vectors and 3x3 matrices *)

Definition vec3 : Type := (Z * Z * Z)%type.
Definition mat3 : Type := (vec3 * vec3 * vec3)%type.

Definition vx (v : vec3) : Z := fst (fst v).
Definition vy (v : vec3) : Z := snd (fst v).
Definition vz (v : vec3) : Z := snd v.

(** [iH @ strideH]: contraction of a vector with a stride vector. *)
Definition dot (u s : vec3) : Z := vx u * vx s + vy u * vy s + vz u * vz s.

(** [iH @ rot_i]: a row vector times a matrix given by its rows. *)
Definition vecmat (u : vec3) (m : mat3) : vec3 :=
  let '(r0, r1, r2) := m in
  (vx u * vx r0 + vy u * vx r1 + vz u * vx r2,
   vx u * vy r0 + vy u * vy r1 + vz u * vy r2,
   vx u * vz r0 + vy u * vz r1 + vz u * vz r2).

(** [iH % shapeR] (Python remainder: sign of the divisor) and [-iH]. *)
Definition vmod (u s : vec3) : vec3 :=
  (vx u mod vx s, vy u mod vy s, vz u mod vz s).
Definition vneg (u : vec3) : vec3 := (- vx u, - vy u, - vz u).

Definition I3 : mat3 := ((1, 0, 0), (0, 1, 0), (0, 0, 1)).

(** ** The index reduction [get_index]

    [shapeR] is [grid.shape], [shapeH] is [grid.shapeH];
    [strideH = [shapeH[1] * shapeH[2], shapeH[2], 1]]. *)

Definition strideH_of (shapeH : vec3) : vec3 :=
  (vy shapeH * vz shapeH, vz shapeH, 1).

Definition wrapped (shapeR iH : vec3) : vec3 := vmod iH shapeR.

Definition conj_needed (shapeR shapeH iH : vec3) : bool :=
  vz shapeH <=? vz (wrapped shapeR iH).

Definition folded (shapeR shapeH iH : vec3) : vec3 :=
  if conj_needed shapeR shapeH iH
  then vmod (vneg (wrapped shapeR iH)) shapeR
  else wrapped shapeR iH.

Definition get_index (shapeR shapeH iH : vec3) : Z * bool :=
  (dot (folded shapeR shapeH iH) (strideH_of shapeH),
   conj_needed shapeR shapeH iH).

(** Modelled from the spec: the half-space shape of the grid ([Grid.shapeH],
    declared outside this module): the last axis keeps one point of every
    Hermitian-conjugate pair, [shapeH = (S0, S1, 1 + S2 // 2)]. *)
Definition shapeH_of (shapeR : vec3) : vec3 :=
  (vx shapeR, vy shapeR, 1 + vz shapeR / 2).

Definition shape_pos (shapeR : vec3) : Prop :=
  0 < vx shapeR /\ 0 < vy shapeR /\ 0 < vz shapeR.

Definition n_tot_of (shapeH : vec3) : Z := vx shapeH * vy shapeH * vz shapeH.


(** ** Exact scalars and complex numbers

    Field data is complex ([v.data]), the phase table is complex and the
    weights [inv_multiplicity] are real.  The real scalars are any field of
    characteristic zero (exact arithmetic); a complex number is a pair of a
    real and an imaginary part. *)

Class Scalar (R : Type) : Type := {
  r0 : R;
  r1 : R;
  radd : R -> R -> R;
  rmul : R -> R -> R;
  rsub : R -> R -> R;
  ropp : R -> R;
  rdiv : R -> R -> R;
  rinv : R -> R;
  scalar_field : field_theory r0 r1 radd rmul rsub ropp rdiv rinv eq;
  scalar_eq_dec : forall x y : R, {x = y} + {x <> y}
}.

Section ScalarOps.
Context {R : Type} {SR : Scalar R}.

(** The value of a positive integer, of an integer: [float(n)]. *)
Fixpoint of_pos (p : positive) : R :=
  match p with
  | xH => r1
  | xO q => radd (of_pos q) (of_pos q)
  | xI q => radd r1 (radd (of_pos q) (of_pos q))
  end.

Definition of_Z (z : Z) : R :=
  match z with
  | Z0 => r0
  | Zpos p => of_pos p
  | Zneg p => ropp (of_pos p)
  end.

Definition complex : Type := (R * R)%type.
Definition re (z : complex) : R := fst z.
Definition im (z : complex) : R := snd z.

Definition c0 : complex := (r0, r0).
Definition c1 : complex := (r1, r0).
Definition cadd (a b : complex) : complex :=
  (radd (re a) (re b), radd (im a) (im b)).
Definition cmul (a b : complex) : complex :=
  (rsub (rmul (re a) (re b)) (rmul (im a) (im b)),
   radd (rmul (re a) (im b)) (rmul (im a) (re b))).
Definition cconj (a : complex) : complex := (re a, ropp (im a)).
(** complex tensor times real tensor, as in [v_data *= inv_multiplicity]. *)
Definition cscale (a : complex) (x : R) : complex :=
  (rmul (re a) x, rmul (im a) x).
Definition csum (l : list complex) : complex := fold_right cadd c0 l.
End ScalarOps.
Arguments complex : clear implicits.

(** Characteristic zero: no positive integer vanishes in [R]. *)
Definition char0 (R : Type) {SR : Scalar R} : Prop :=
  forall p : positive, of_pos p <> r0.

(** The rationals are such scalars. *)
#[export] Instance Qc_Scalar : Scalar Qc := {|
  r0 := 0%Qc; r1 := 1%Qc;
  radd := Qcplus; rmul := Qcmult; rsub := Qcminus; ropp := Qcopp;
  rdiv := Qcdiv; rinv := Qcinv;
  scalar_field := Qcft;
  scalar_eq_dec := Qc_eq_dec
|}.

(** ** Errors and tensor primitives

    A tensor is a list (a matrix a list of rows).  An operation that can
    raise returns a [result]. *)

Inductive error : Type :=
| AssertionError
| IndexError
| ShapeError
| ZeroDivisionError
| RuntimeError.

Inductive result (A : Type) : Type :=
| Ok (a : A)
| Err (e : error).
Arguments Ok {A} a.
Arguments Err {A} e.

Definition bind {A B : Type} (r : result A) (k : A -> result B) : result B :=
  match r with
  | Ok a => k a
  | Err e => Err e
  end.

Notation "x <- e1 ;; e2" := (bind e1 (fun x => e2))
  (at level 61, e1 at next level, right associativity).

Fixpoint mapM {A B : Type} (f : A -> result B) (l : list A)
  : result (list B) :=
  match l with
  | [] => Ok []
  | a :: t => b <- f a ;; bs <- mapM f t ;; Ok (b :: bs)
  end.

Definition zlen {A : Type} (l : list A) : Z := Z.of_nat (length l).

(** [torch.arange(n)]. *)
Definition arange (n : Z) : list Z :=
  map Z.of_nat (seq 0 (Z.to_nat n)).

(** [t[k]] for an integer [k]: a negative index counts from the end, an
    index out of range raises. *)
Definition tget {A : Type} (l : list A) (k : Z) : result A :=
  let k' := if k <? 0 then k + zlen l else k in
  if (k' <? 0) || (zlen l <=? k') then Err IndexError
  else match nth_error l (Z.to_nat k') with
       | Some a => Ok a
       | None => Err IndexError
       end.

(** [t[index]] for an index tensor. *)
Definition tgets {A : Type} (l : list A) (ks : list Z) : result (list A) :=
  mapM (tget l) ks.

(** [t[a:b]] (Python slice: negative bounds count from the end, bounds are
    clipped). *)
Definition slice_bound (n k : Z) : Z :=
  let k' := if k <? 0 then k + n else k in
  Z.max 0 (Z.min n k').

Definition py_slice {A : Type} (l : list A) (a b : Z) : list A :=
  let a' := slice_bound (zlen l) a in
  let b' := slice_bound (zlen l) b in
  firstn (Z.to_nat (b' - a')) (skipn (Z.to_nat a') l).

(** [t.unique()] (sorted): the distinct values in increasing order. *)
Fixpoint insert_unique (x : Z) (l : list Z) : list Z :=
  match l with
  | [] => [x]
  | y :: t =>
      if x <? y then x :: l
      else if x =? y then l
      else y :: insert_unique x t
  end.

Definition unique (l : list Z) : list Z := fold_right insert_unique [] l.

(** Number of occurrences of [x] in [l]. *)
Definition count_of (x : Z) (l : list Z) : Z :=
  zlen (filter (Z.eqb x) l).

(** [t.unique(sorted=True, return_counts=True)]. *)
Definition unique_counts (l : list Z) : list Z * list Z :=
  (unique l, map (fun u => count_of u l) (unique l)).

(** [torch.searchsorted(seq, v)] ([right=False]) on a sorted sequence: the
    number of leading elements smaller than [v]. *)
Fixpoint searchsorted (sorted_seq : list Z) (v : Z) : Z :=
  match sorted_seq with
  | [] => 0
  | x :: t => if x <? v then 1 + searchsorted t v else 0
  end.

(** [np.diff(a)] and [a[:-1]]. *)
Fixpoint diff (l : list Z) : list Z :=
  match l with
  | x :: ((y :: _) as t) => (y - x) :: diff t
  | _ => []
  end.

Definition but_last {A : Type} (l : list A) : list A := removelast l.

(** [keys.argsort()]: the positions of the keys in increasing key order
    (insertion of (key, position) pairs, stable). *)
Fixpoint insert_key (p : Z * Z) (l : list (Z * Z)) : list (Z * Z) :=
  match l with
  | [] => [p]
  | q :: t => if fst q <=? fst p then q :: insert_key p t else p :: l
  end.

Definition sort_keys (l : list (Z * Z)) : list (Z * Z) :=
  fold_right insert_key [] l.

Definition argsort (keys : list Z) : list Z :=
  map snd (sort_keys (combine keys (arange (zlen keys)))).

(** [t[k] = x] for one position (no effect out of range, where the
    callers never write). *)
Fixpoint list_set {A : Type} (l : list A) (k : nat) (x : A) : list A :=
  match l, k with
  | [], _ => []
  | _ :: t, O => x :: t
  | y :: t, S k' => y :: list_set t k' x
  end.

(** [np.prod] of a shape. *)
Definition prod_list (l : list Z) : Z := fold_right Z.mul 1 l.

(** [t.reshape(n_rows, n_cols)] of a flat, contiguous buffer. *)
Fixpoint chunk {A : Type} (n_cols : nat) (n_rows : nat) (l : list A)
  : list (list A) :=
  match n_rows with
  | O => []
  | S k => firstn n_cols l :: chunk n_cols k (skipn n_cols l)
  end.

(** Rows and columns of a table numbered in row-major order:
    [(row, column, entry)]. *)
Definition enumerate2 {A : Type} (tbl : list (list A)) : list (Z * Z * A) :=
  concat (map (fun ro =>
                 map (fun ce => (fst ro, fst ce, snd ce))
                     (combine (arange (zlen (snd ro))) (snd ro)))
              (combine (arange (zlen tbl)) tbl)).

(** ** The collaborators: task division and grid *)

(** Modelled from the spec: [qp.utils.TaskDivision], the contiguous block
    partition of [n_tot] tasks over [n_procs] workers (declared outside this
    module): blocks of size [n_each = ceil(n_tot / n_procs)], the last ones
    possibly shorter; [n_prev] holds the [n_procs + 1] block boundaries and
    worker [p] owns [[n_prev[p], n_prev[p+1])]. *)
Record TaskDivision : Type := mkTaskDivision {
  td_n_tot : Z;
  td_n_procs : Z;
  td_i_proc : Z;
  td_n_each : Z;
  td_n_prev : list Z;
  td_i_start : Z;
  td_i_stop : Z
}.

Definition ceildiv (a b : Z) : Z := (a + b - 1) / b.

Definition TaskDivision_new (n_tot n_procs i_proc : Z) : TaskDivision :=
  let n_each := ceildiv n_tot (Z.max 1 n_procs) in
  let n_prev := map (fun p => Z.min n_tot (n_each * p))
                    (arange (n_procs + 1)) in
  mkTaskDivision n_tot n_procs i_proc n_each n_prev
    (nth (Z.to_nat i_proc) n_prev 0)
    (nth (Z.to_nat (i_proc + 1)) n_prev 0).

(** [div.whose_each(i)]: the owner of task [i] (floor division). *)
Definition whose_each (div : TaskDivision) (i : Z) : Z := i / td_n_each div.

Section Symmetrizer.
Context {R : Type} {SR : Scalar R}.
Local Abbreviation cplx := (complex R).

(** Modelled from the spec: [qp.utils.cis] composed with the factor [2 pi]
    (both outside this module): [cis_turn t] stands for
    [cis(2 pi t) = exp(2 pi i t)], exactly. *)
Variable cis_turn : R -> cplx.

(** The dtype of a complex tensor. *)
Inductive dtype : Type := complex64 | complex128.

Definition dtype_eqb (a b : dtype) : bool :=
  match a, b with
  | complex64, complex64 | complex128, complex128 => true
  | _, _ => false
  end.

(** What the constructor and the call read of the grid object.  [grid_id]
    is the identity of the object, which [v.grid == grid] compares;
    [mesh_H] is [grid.get_mesh('H', mine=False).view(-1, 3)];
    [symmetries] lists the pairs of [grid.symmetries.rot] and
    [grid.symmetries.trans]; [trans_dtype] is the complex dtype of the
    precision of [grid.symmetries.trans], which [cis] gives to the phase
    table. *)
Record Grid : Type := mkGrid {
  grid_id : nat;
  shape : vec3;
  shapeH : vec3;
  shapeH_mine : vec3;
  mesh_H : list vec3;
  symmetries : list (mat3 * (R * R * R));
  n_procs : Z;
  i_proc : Z;
  split2H : TaskDivision;
  trans_dtype : dtype
}.

Definition rot (g : Grid) : list mat3 := map fst (symmetries g).
Definition trans (g : Grid) : list (R * R * R) := map snd (symmetries g).

(** ** The engine state set up by [__init__] *)

Inductive Layout : Type :=
| Serial (index : list (list Z))
| Distributed (send_prev recv_prev : list Z)
              (grid_index recv_index orbit_index : list Z).

Record Engine : Type := mkEngine {
  e_grid : Grid;
  e_layout : Layout;
  imag_scale : list (list bool);
  phase : list (list cplx);
  phase_dtype : dtype;
  n_orbits_mine : Z;
  n_sym : Z;
  inv_multiplicity : list R
}.

(** *** Orbits *)

Definition gi (g : Grid) (iH : vec3) : Z * bool :=
  get_index (shape g) (shapeH g) iH.

(** [min_equiv_index]: the lowest equivalent index of every mesh point. *)
Definition min_equiv_key (g : Grid) (iH : vec3) : Z :=
  fold_left (fun m rot_i => Z.min m (fst (gi g (vecmat iH rot_i))))
            (rot g) (fst (gi g iH)).

Definition min_equiv_index (g : Grid) : list Z :=
  map (min_equiv_key g) (mesh_H g).

Definition orbit_keys (g : Grid) : list Z := unique (min_equiv_index g).

(** [iH_reduced = iH[min_equiv_index.unique()]]. *)
Definition iH_reduced (g : Grid) : result (list vec3) :=
  tgets (mesh_H g) (orbit_keys g).

(** [get_index((iH_reduced @ rot).transpose(0, 1))]: one row per orbit,
    one column per operation. *)
Definition orbit_images (g : Grid) (reduced : list vec3)
  : list (list (Z * bool)) :=
  map (fun r => map (fun rot_i => gi g (vecmat r rot_i)) (rot g)) reduced.

Definition index_of (images : list (list (Z * bool))) : list (list Z) :=
  map (map fst) images.
Definition is_conj_of (images : list (list (Z * bool)))
  : list (list bool) :=
  map (map snd) images.

(** [_, multiplicity = index.unique(sorted=True, return_counts=True)]. *)
Definition multiplicity_of (index : list (list Z)) : list Z :=
  snd (unique_counts (concat index)).

(** *** Conjugation scale and phase

    [is_conj] is the result of the comparison [>=], a tensor of dtype
    bool; [torch.ones_like(is_conj)] has the same dtype, so that every
    entry is [True]; [imag_scale[is_conj] = -1] stores [-1] converted to
    bool, which is [True] again. *)
Definition bool_of_int (z : Z) : bool := negb (z =? 0).

Definition imag_scale_of (is_conj : list (list bool)) : list (list bool) :=
  map (map (fun c : bool => if c then bool_of_int (-1) else bool_of_int 1))
      is_conj.

Definition vdot_trans (iH : vec3) (t : R * R * R) : R :=
  radd (radd (rmul (of_Z (vx iH)) (fst (fst t)))
             (rmul (of_Z (vy iH)) (snd (fst t))))
       (rmul (of_Z (vz iH)) (snd t)).

(** [cis((-2 pi) * (iH_reduced[:, None] * trans).sum(dim=-1))]. *)
Definition phase_of (g : Grid) (reduced : list vec3)
  : list (list cplx) :=
  map (fun r => map (fun t => cis_turn (ropp (vdot_trans r t))) (trans g))
      reduced.

(** *** The distributed branch of [__init__] ([grid.n_procs > 1]) *)

Record DistSetup : Type := mkDistSetup {
  ds_layout : Layout;
  ds_is_conj : list (list bool);
  ds_reduced : list vec3;
  ds_multiplicity : list Z
}.

Definition zip_tables {A B : Type} (a : list (list A)) (b : list (list B))
  : list (list (A * B)) :=
  map (fun p => combine (fst p) (snd p)) (combine a b).

(** [orbit_index[recv_index] = local_index] on an uninitialised tensor. *)
Definition inverse_perm (recv_index : list Z) : list Z :=
  fold_left (fun acc p => list_set acc (Z.to_nat (fst p)) (snd p))
            (combine recv_index (arange (zlen recv_index)))
            (map (fun _ => 0) recv_index).

Definition init_distributed (g : Grid) (reduced : list vec3)
           (index : list (list Z)) (is_conj : list (list bool))
           (multiplicity : list Z) : result DistSetup :=
  let div_dest := TaskDivision_new (zlen reduced) (n_procs g) (i_proc g) in
  let is_conj_mine :=
    py_slice is_conj (td_i_start div_dest) (td_i_stop div_dest) in
  let reduced_mine :=
    py_slice reduced (td_i_start div_dest) (td_i_stop div_dest) in
  let div_src := split2H g in
  whose_src <-
    mapM (mapM (fun k => v <- tget (mesh_H g) k ;;
                         Ok (whose_each div_src (vz v)))) index ;;
  let mine_src :=
    filter (fun e => snd (snd e) =? i_proc g)
           (enumerate2 (zip_tables index whose_src)) in
  let dest_n_prev := td_n_prev div_dest in
  let send_prev :=
    map (searchsorted (map (fun e => fst (fst e)) mine_src)) dest_n_prev in
  let strideH_local :=
    (vy (shapeH g) * vz (shapeH_mine g), vz (shapeH_mine g), 1) in
  grid_index <-
    mapM (fun e =>
            v <- tget (mesh_H g) (fst (snd e)) ;;
            let w := vmod v (shape g) in
            Ok (dot (vx w, vy w, vz w - td_i_start div_src) strideH_local))
         mine_src ;;
  if negb (zlen multiplicity =? n_tot_of (shapeH g)) then Err ShapeError
  else
  let multiplicity_mine :=
    concat (map (fun r => py_slice r (td_i_start div_src)
                                   (td_i_stop div_src))
                (chunk (Z.to_nat (vz (shapeH g)))
                       (Z.to_nat (vx (shapeH g) * vy (shapeH g)))
                       multiplicity)) in
  let whose_src_mine :=
    concat (py_slice whose_src (td_i_start div_dest)
                     (td_i_stop div_dest)) in
  let local_index := arange (zlen whose_src_mine) in
  let recv_index :=
    argsort (map (fun p => fst p * zlen whose_src_mine + snd p)
                 (combine whose_src_mine local_index)) in
  sorted_whose <- tgets whose_src_mine recv_index ;;
  let recv_prev :=
    map (searchsorted sorted_whose) (arange (n_procs g + 1)) in
  Ok (mkDistSetup
        (Distributed send_prev recv_prev grid_index recv_index
                     (inverse_perm recv_index))
        is_conj_mine reduced_mine multiplicity_mine).

(** *** [FieldSymmetrizer.__init__] *)

Definition init (g : Grid) : result Engine :=
  reduced <- iH_reduced g ;;
  let images := orbit_images g reduced in
  let index := index_of images in
  let is_conj := is_conj_of images in
  let multiplicity := multiplicity_of index in
  ds <- (if 1 <? n_procs g
         then init_distributed g reduced index is_conj multiplicity
         else Ok (mkDistSetup (Serial index) is_conj reduced
                              multiplicity)) ;;
  let n_sym := zlen (rot g) in
  if n_sym =? 0 then Err ZeroDivisionError
  else
    Ok (mkEngine g (ds_layout ds)
          (imag_scale_of (ds_is_conj ds))
          (phase_of g (ds_reduced ds))
          (trans_dtype g)
          (zlen (ds_is_conj ds))
          n_sym
          (map (fun m => rdiv (rdiv r1 (of_Z n_sym)) (of_Z m))
               (ds_multiplicity ds))).

(** ** The field and the collective exchange *)

(** A [FieldH]: its grid, and the tensor [v.data] as shape, dtype and
    entries in row-major order.  [f_view] tells how the entries lie in
    memory: whether the strides of [v.data] let
    [v.data.reshape((n_batch, n_grid))] (line 110) be a view on the memory
    of [v.data], as for every contiguous tensor; otherwise [reshape]
    returns a copy. *)
Record FieldH : Type := mkFieldH {
  f_grid : Grid;
  f_shape : list Z;
  f_dtype : dtype;
  f_view : bool;
  f_data : list cplx
}.

(** One side of [Alltoallv]: [(BufferView(data), counts, offsets, type)]. *)
Record BufSpec : Type := mkBufSpec {
  b_data : list cplx;
  b_counts : list Z;
  b_offsets : list Z
}.

Record Alltoallv_call : Type := mkAlltoallv {
  a_send : BufSpec;
  a_recv : BufSpec
}.

(** The communicator, seen from one worker: what every worker sends to
    this one in answer to a call. *)
Variable comm : Alltoallv_call -> list (list cplx).

Fixpoint write_at {A : Type} (l : list A) (off : nat) (d : list A)
  : list A :=
  match l, off with
  | [], _ => []
  | x :: t, S k => x :: write_at t k d
  | x :: t, O =>
      match d with
      | [] => l
      | y :: d' => y :: write_at t O d'
      end
  end.

(** The receive buffer after the exchange: the message of worker [p] is
    stored from [offsets[p]] on, [counts[p]] entries at most. *)
Definition receive (recv : BufSpec)
           (msgs : list (list cplx)) : list cplx :=
  fold_left
    (fun b m =>
       write_at b (Z.to_nat (snd (fst m)))
                (firstn (Z.to_nat (fst (fst m))) (snd m)))
    (combine (combine (b_counts recv) (b_offsets recv)) msgs)
    (b_data recv).

(** ** The steps of [__call__] *)

(** [_conjugate]: [v_orbits.imag *= self.imag_scale]. *)
Definition real_of_bool (b : bool) : R := if b then r1 else r0.

Definition conjugate (e : Engine) (v_orbits : list (list (list cplx)))
  : list (list (list cplx)) :=
  map (fun vb =>
         map (fun p =>
                map (fun q => (re (fst q),
                               rmul (im (fst q)) (real_of_bool (snd q))))
                    (combine (fst p) (snd p)))
             (combine vb (imag_scale e)))
      v_orbits.

(** [torch.einsum('bos, os -> bo', v_orbits, self.phase)]. *)
Definition einsum_bos_os (e : Engine)
           (v_orbits : list (list (list cplx))) : list (list cplx) :=
  map (fun vb =>
         map (fun p =>
                csum (map (fun q => cmul (fst q) (snd q))
                          (combine (fst p) (snd p))))
             (combine vb (phase e)))
      v_orbits.

(** [v_sym[..., None] * self.phase[None].conj()]. *)
Definition expand (e : Engine) (v_sym : list (list cplx))
  : list (list (list cplx)) :=
  map (fun sb =>
         map (fun p => map (fun ph => cmul (fst p) (cconj ph)) (snd p))
             (combine sb (phase e)))
      v_sym.

(** One entry of [index_put_(..., accumulate=True)]. *)
Fixpoint add_at (l : list cplx) (k : nat) (x : cplx)
  : list cplx :=
  match l, k with
  | [], _ => []
  | y :: t, O => cadd y x :: t
  | y :: t, S k' => y :: add_at t k' x
  end.

Definition norm_index (len k : Z) : nat :=
  Z.to_nat (if k <? 0 then k + len else k).

Definition accumulate (row : list cplx) (ks : list Z)
           (xs : list cplx) : list cplx :=
  fold_left (fun acc p => add_at acc (norm_index (zlen row) (fst p))
                                 (snd p))
            (combine ks xs) row.

(** [v_data *= self.inv_multiplicity[None]], with broadcasting. *)
Definition scale_rows (e : Engine) (n_grid : Z)
           (v_data : list (list cplx)) : result (list (list cplx)) :=
  let w := inv_multiplicity e in
  if zlen w =? n_grid then
    Ok (map (fun row => map (fun p => cscale (fst p) (snd p))
                            (combine row w)) v_data)
  else if zlen w =? 1 then
    Ok (map (map (fun x => cscale x (hd r0 w))) v_data)
  else Err ShapeError.

Definition scaled_counts (n_batch : Z) (prev : list Z) : list Z :=
  map (fun c => c * n_batch) (diff prev).
Definition scaled_offsets (n_batch : Z) (prev : list Z) : list Z :=
  map (fun c => c * n_batch) (but_last prev).

(** The state a call works on: the engine ([self]), the caller's field,
    and the collective calls issued so far. *)
Record CallState : Type := mkCallState {
  cs_self : Engine;
  cs_v : FieldH;
  cs_trace : list Alltoallv_call
}.

(** [v.data = v_data.view(v.data.shape)] (line 171): the field holds the
    buffer [v_data], of which it is a view from then on. *)
Definition set_data (st : CallState) (v_data : list (list cplx))
  : CallState :=
  mkCallState (cs_self st)
    (mkFieldH (f_grid (cs_v st)) (f_shape (cs_v st)) (f_dtype (cs_v st))
              true (concat v_data))
    (cs_trace st).

(** An operation in place on [v_data] ([zero_], [index_put_]) changes
    [v.data] at once when [v_data] is a view of it; it leaves [v.data]
    alone when [reshape] made a copy. *)
Definition write_through (st : CallState) (v_data : list (list cplx))
  : CallState :=
  if f_view (cs_v st) then set_data st v_data else st.

Definition log_call (st : CallState) (c : Alltoallv_call) : CallState :=
  mkCallState (cs_self st) (cs_v st) (cs_trace st ++ [c]).

Definition zeros_like (v_data : list (list cplx))
  : list (list cplx) :=
  map (map (fun _ => c0)) v_data.

(** The symmetrization within the orbits, lines 139 to 148. *)
Definition symmetrize_orbits (e : Engine)
           (v_orbits : list (list (list cplx)))
  : list (list (list cplx)) :=
  conjugate e (expand e (einsum_bos_os e (conjugate e v_orbits))).

(** Lines 139 to 148 on the orbits of a field of dtype [dt]:
    [torch.einsum] (line 143) takes operands of one dtype, and raises when
    the dtype of the field is not the one of the phase table. *)
Definition symmetrized (e : Engine) (dt : dtype)
           (v_orbits : list (list (list cplx)))
  : result (list (list (list cplx))) :=
  if dtype_eqb dt (phase_dtype e) then Ok (symmetrize_orbits e v_orbits)
  else Err RuntimeError.

(** The last steps, shared by both branches: the weights, and the
    assignment of [v.data].  When the multiplication raises, the buffer
    holds the accumulated values. *)
Definition finish (st : CallState) (n_grid : Z)
           (v_data : list (list cplx)) : result unit * CallState :=
  match scale_rows (cs_self st) n_grid v_data with
  | Err x => (Err x, write_through st v_data)
  | Ok v_data' => (Ok tt, set_data st v_data')
  end.

(** Lines 115 to 165 in the serial branch: the orbits are read off the
    grid data, symmetrized, and accumulated into the zeroed buffer. *)
Definition accumulate_serial (st : CallState) (index : list (list Z))
           (v_data : list (list cplx))
  : result (list (list cplx)) * CallState :=
  let e := cs_self st in
  match mapM (fun row => mapM (tgets row) index) v_data with
  | Err x => (Err x, st)
  | Ok v_orbits =>
      match symmetrized e (f_dtype (cs_v st)) v_orbits with
      | Err x => (Err x, st)
      | Ok v_orbits =>
          let v_zero := zeros_like v_data in
          (Ok (map (fun p => accumulate (fst p) (concat index)
                                        (concat (snd p)))
                   (combine v_zero v_orbits)), st)
      end
  end.

(** The same lines in the distributed branch, with the two exchanges. *)
Definition accumulate_distributed (st : CallState)
           (send_prev recv_prev grid_index recv_index orbit_index : list Z)
           (n_batch : Z) (v_data : list (list cplx))
  : result (list (list cplx)) * CallState :=
  let e := cs_self st in
  match mapM (fun k => mapM (fun row => tget row k) v_data) grid_index with
  | Err x => (Err x, st)
  | Ok src_data =>
      let dest_data :=
        map (fun _ => c0)
            (seq 0 (length recv_index * Z.to_nat n_batch)) in
      let send_counts := scaled_counts n_batch send_prev in
      let send_offsets := scaled_offsets n_batch send_prev in
      let recv_counts := scaled_counts n_batch recv_prev in
      let recv_offsets := scaled_offsets n_batch recv_prev in
      let gather :=
        mkAlltoallv
          (mkBufSpec (concat src_data) send_counts send_offsets)
          (mkBufSpec dest_data recv_counts recv_offsets) in
      let st := log_call st gather in
      let dest_rows :=
        chunk (Z.to_nat n_batch) (length recv_index)
              (receive (a_recv gather) (comm gather)) in
      match tgets dest_rows orbit_index with
      | Err x => (Err x, st)
      | Ok picked =>
          if negb (zlen picked =? n_orbits_mine e * n_sym e)
          then (Err ShapeError, st)
          else
          let v_orbits :=
            map (fun b =>
                   chunk (Z.to_nat (n_sym e))
                         (Z.to_nat (n_orbits_mine e))
                         (map (fun row => nth b row c0) picked))
                (seq 0 (Z.to_nat n_batch)) in
          match symmetrized e (f_dtype (cs_v st)) v_orbits with
          | Err x => (Err x, st)
          | Ok v_orbits =>
          let v_zero := zeros_like v_data in
          match mapM (fun k => mapM (fun vb => tget (concat vb) k)
                                    v_orbits) recv_index with
          | Err x => (Err x, write_through st v_zero)
          | Ok dest_data2 =>
              let scatter :=
                mkAlltoallv
                  (mkBufSpec (concat dest_data2) recv_counts recv_offsets)
                  (mkBufSpec (concat src_data) send_counts send_offsets) in
              let st := log_call st scatter in
              let src_rows :=
                chunk (Z.to_nat n_batch) (length grid_index)
                      (receive (a_recv scatter) (comm scatter)) in
              (Ok (map (fun p =>
                          accumulate (snd p) grid_index
                                     (map (fun row => nth (fst p) row c0)
                                          src_rows))
                       (combine (seq 0 (length v_zero)) v_zero)), st)
          end
          end
      end
  end.

(** ** [FieldSymmetrizer.__call__] *)

(** [int(np.prod(v.data.shape[:-3]))] and [int(np.prod(grid.shapeH_mine))]. *)
Definition n_batch_of (v : FieldH) : Z :=
  prod_list (firstn (length (f_shape v) - 3) (f_shape v)).

Definition n_grid_of (grid : Grid) : Z :=
  vx (shapeH_mine grid) * vy (shapeH_mine grid) * vz (shapeH_mine grid).

(** Lines 105 to 167: the buffer of accumulated values, before the
    weights are applied. *)
Definition accumulated (st : CallState)
  : result (list (list cplx)) * CallState :=
  let e := cs_self st in
  let v := cs_v st in
  let grid := e_grid e in
  if negb (Nat.eqb (grid_id (f_grid v)) (grid_id grid))
  then (Err AssertionError, st)
  else
    let n_batch := n_batch_of v in
    let n_grid := n_grid_of grid in
    if (n_batch <? 0) || (n_grid <? 0)
       || negb (zlen (f_data v) =? n_batch * n_grid)
    then (Err ShapeError, st)
    else
      let v_data :=
        chunk (Z.to_nat n_grid) (Z.to_nat n_batch) (f_data v) in
      match e_layout e with
      | Distributed send_prev recv_prev grid_index recv_index
                    orbit_index =>
          accumulate_distributed st send_prev recv_prev grid_index
                                 recv_index orbit_index n_batch v_data
      | Serial index => accumulate_serial st index v_data
      end.

(** The whole call: lines 169 to 171 after the accumulation. *)
Definition call (st : CallState) : result unit * CallState :=
  match accumulated st with
  | (Err x, st') => (Err x, st')
  | (Ok v_acc, st') =>
      finish st' (n_grid_of (e_grid (cs_self st))) v_acc
  end.

(** ** A model of the grid object

    Modelled from the spec: the grid collaborator ([Grid], declared
    outside this module) supplies the half-space shape, the frequency
    vector of every half-space index (each component taken in the
    centred range of its period) and the partition of the last
    half-space axis over the workers; the translations of the symmetry
    operations are held in double precision. *)

Definition centered (s c : Z) : Z := if s / 2 <? c then c - s else c.

Definition get_mesh_H (shapeR : vec3) : list vec3 :=
  let sH := shapeH_of shapeR in
  flat_map (fun i0 =>
    flat_map (fun i1 =>
      map (fun i2 => (centered (vx shapeR) i0, centered (vy shapeR) i1,
                      centered (vz shapeR) i2))
          (arange (vz sH)))
      (arange (vy sH)))
    (arange (vx sH)).

(** A grid whose partition of the last half-space axis was computed for
    [n_procs_split] workers. *)
Definition make_grid_split (id : nat) (shapeR : vec3)
           (syms : list (mat3 * (R * R * R)))
           (n_procs i_proc n_procs_split : Z) : Grid :=
  let sH := shapeH_of shapeR in
  let split := TaskDivision_new (vz sH) n_procs_split i_proc in
  mkGrid id shapeR sH
         (vx sH, vy sH, td_i_stop split - td_i_start split)
         (get_mesh_H shapeR) syms n_procs i_proc split complex128.

Definition make_grid (id : nat) (shapeR : vec3)
           (syms : list (mat3 * (R * R * R))) (n_procs i_proc : Z)
  : Grid :=
  make_grid_split id shapeR syms n_procs i_proc n_procs.

Definition no_trans : R * R * R := (r0, r0, r0).

(** The state of a fresh call of the engine [e] on the field [v]. *)
Definition start (e : Engine) (v : FieldH) : CallState :=
  mkCallState e v [].

(** [FieldSymmetrizer(grid)(v)]: construction, then one call. *)
Definition symmetrize (g : Grid) (v : FieldH)
  : result (result unit * CallState) :=
  e <- init g ;; Ok (call (start e v)).

(** A matrix of [k] rows of [n] entries. *)
Definition has_shape (k n : nat) (v : list (list cplx)) : Prop :=
  length v = k /\ Forall (fun r => length r = n) v.


(** What a call leaves alone: the engine, and the grid, shape and dtype
    of the field; the buffer keeps its length. *)
Definition same_frame (st st' : CallState) : Prop :=
  cs_self st' = cs_self st /\
  f_grid (cs_v st') = f_grid (cs_v st) /\
  f_shape (cs_v st') = f_shape (cs_v st) /\
  f_dtype (cs_v st') = f_dtype (cs_v st) /\
  length (f_data (cs_v st')) = length (f_data (cs_v st)).


(** The engine after a series of calls, one for each field of [vs]. *)
Definition run_calls (e : Engine) (vs : list FieldH) : Engine :=
  fold_left (fun e' v => cs_self (snd (call (start e' v)))) vs e.

(** The detection of a worker-count mismatch as the specification words
    it: when the partition of the grid assumes another worker count than
    the engine's, either the construction aborts, or the call aborts
    before its first exchange. *)
Definition mismatch_detected (g : Grid) (v : FieldH) : Prop :=
  td_n_procs (split2H g) <> n_procs g ->
  match symmetrize g v with
  | Err _ => True
  | Ok (Err _, st) => cs_trace st = []
  | Ok (Ok _, _) => False
  end.

(** The claim on failures as the specification states it: no failure of
    a call leaves a partially symmetrized buffer, the caller's buffer is
    what it was. *)
Definition no_partial_buffer (st : CallState) : Prop :=
  forall x st', call st = (Err x, st') ->
                f_data (cs_v st') = f_data (cs_v st).

(** Offsets that are the exclusive prefix sums of the counts, in rank
    order: the offset of a rank is the sum of the counts of the lower
    ranks (so that the first offset is 0). *)
Definition exclusive_prefix_sums (counts offsets : list Z) : Prop :=
  length offsets = length counts /\
  forall p, (p < length counts)%nat ->
            nth p offsets 0 = fold_right Z.add 0 (firstn p counts).

(** Cumulative bounds: [n + 1] entries, the first of which is 0. *)
Definition bounds_from_zero (n : Z) (prev : list Z) : Prop :=
  0 <= n /\ hd 0 prev = 0 /\ zlen prev = n + 1.

Definition rank_schedule (n : Z) (b : BufSpec) : Prop :=
  zlen (b_counts b) = n /\
  exclusive_prefix_sums (b_counts b) (b_offsets b).

(** The scatter exchange takes the counts and offsets of the gather
    exchange with the two sides swapped (and receives into the buffer the
    gather sent from). *)
Definition swapped_roles (gather scatter : Alltoallv_call) : Prop :=
  b_counts (a_send scatter) = b_counts (a_recv gather) /\
  b_offsets (a_send scatter) = b_offsets (a_recv gather) /\
  a_recv scatter = a_send gather.

(** ** The weights of the last step *)

(** The table of member indices of all the orbits: [index] before any
    restriction to the orbits of one worker. *)
Definition index_table (g : Grid) : list (list Z) :=
  match iH_reduced g with
  | Ok reduced => index_of (orbit_images g reduced)
  | Err _ => []
  end.

(** The global (flattened half-space) index of the local grid point [k]
    of this worker. *)
Definition global_of (g : Grid) (k : Z) : Z :=
  (k / vz (shapeH_mine g)) * vz (shapeH g)
  + td_i_start (split2H g) + k mod vz (shapeH_mine g).

(** The number of (orbit, operation) pairs whose image is the grid index
    [k]: the number of values accumulated at [k]. *)
Definition occurrences (g : Grid) (k : Z) : Z :=
  count_of k (concat (index_table g)).

(** The weight the code applies at the local grid point [k]. *)
Definition weight_of (g : Grid) (m : Z) : R :=
  rdiv (rdiv r1 (of_Z (zlen (rot g)))) (of_Z m).

Definition code_weight (g : Grid) (k : Z) : R :=
  weight_of g (occurrences g (global_of g k)).

(** The weight as the specification words it: the multiplicity is the
    number of distinct member indices of the orbit of the grid index. *)
Definition orbit_row (index : list (list Z)) (k : Z) : list Z :=
  match find (fun row => existsb (Z.eqb k) row) index with
  | Some row => row
  | None => []
  end.

Definition distinct_members (g : Grid) (k : Z) : Z :=
  zlen (unique (orbit_row (index_table g) k)).

Definition stated_weight (g : Grid) (k : Z) : R :=
  rdiv r1 (rmul (of_Z (zlen (rot g)))
                (of_Z (distinct_members g (global_of g k)))).

(** The last step with a given table of weights. *)
Definition weighted (weight : Z -> R) (n_grid : Z)
           (v_acc : list (list cplx)) : list cplx :=
  concat (map (fun row => map (fun p => cscale (fst p) (weight (snd p)))
                              (combine row (arange n_grid)))
              v_acc).

(** What the constructor and the call assume of the grid object: positive
    dimensions, the half-space shape, and a local block of the last
    half-space axis (the whole axis when there is one worker). *)
Definition grid_wf (g : Grid) : Prop :=
  shape_pos (shape g) /\
  shapeH g = shapeH_of (shape g) /\
  vx (shapeH_mine g) = vx (shapeH g) /\
  vy (shapeH_mine g) = vy (shapeH g) /\
  0 <= td_i_start (split2H g) /\
  0 <= vz (shapeH_mine g) /\
  td_i_stop (split2H g) = td_i_start (split2H g) + vz (shapeH_mine g) /\
  td_i_stop (split2H g) <= vz (shapeH g) /\
  (n_procs g <= 1 ->
   td_i_start (split2H g) = 0 /\ vz (shapeH_mine g) = vz (shapeH g)).

(** Every point of the mesh is stored at its own index, which needs no
    Hermitian folding. *)
Definition mesh_stored (g : Grid) : Prop :=
  forall k iH, nth_error (mesh_H g) k = Some iH ->
               gi g iH = (Z.of_nat k, false).

(** The claim on the weights as the specification states it: the last
    step multiplies the accumulated buffer by the stated weights. *)
Definition final_step_as_stated (g : Grid) (st : CallState) : Prop :=
  forall st', call st = (Ok tt, st') ->
  exists v_acc st1,
    accumulated st = (Ok v_acc, st1) /\
    f_data (cs_v st') = weighted (stated_weight g) (n_grid_of g) v_acc.

(** ** Orbit completeness and idempotence, as the specification states
    them *)

(** The rotated-and-folded image of a grid point has the canonical key of
    the point. *)
Definition image_key_invariant (g : Grid) : Prop :=
  forall k iH m iH',
    nth_error (mesh_H g) k = Some iH -> In m (rot g) ->
    nth_error (mesh_H g) (Z.to_nat (fst (gi g (vecmat iH m)))) = Some iH' ->
    min_equiv_key g iH' = min_equiv_key g iH.

(** Every global index is a member of exactly one orbit. *)
Definition orbits_partition (g : Grid) : Prop :=
  forall k, 0 <= k < zlen (mesh_H g) ->
            length (filter (fun row => existsb (Z.eqb k) row)
                           (index_table g)) = 1%nat.

(** ** Shapes of the tables of the engine and of the orbit buffer *)

(** A table of [n_rows] rows of [n_cols] entries. *)
Definition table_shape {A : Type} (n_rows n_cols : Z) (t : list (list A))
  : Prop :=
  zlen t = n_rows /\ Forall (fun r => zlen r = n_cols) t.

(** [v_orbits] as a call forms it: one table of [n_orbits_mine] rows of
    [n_sym] entries for every batch entry. *)
Definition orbits_shape (e : Engine) (v_orbits : list (list (list cplx)))
  : Prop :=
  Forall (table_shape (n_orbits_mine e) (n_sym e)) v_orbits.

(** [recv_index] as lines 75 to 78 form it from [whose_src_mine]. *)
Definition recv_order (whose_src_mine : list Z) : list Z :=
  argsort (map (fun p => fst p * zlen whose_src_mine + snd p)
               (combine whose_src_mine
                        (arange (zlen whose_src_mine)))).

(** [whose_src] (line 58): the owner of the source of every entry of the
    index table. *)
Definition whose_src_of (g : Grid) (index : list (list Z))
  : result (list (list Z)) :=
  mapM (mapM (fun k => v <- tget (mesh_H g) k ;;
                       Ok (whose_each (split2H g) (vz v)))) index.

(** [mine_src[0]] (line 61): the rows of the entries of the index table
    whose source is this worker, in row-major order. *)
Definition mine_src_rows (g : Grid) (index whose_src : list (list Z))
  : list Z :=
  map (fun q => fst (fst q))
      (filter (fun q => snd (snd q) =? i_proc g)
              (enumerate2 (zip_tables index whose_src))).

(** [whose_src[mine_dest].flatten()] (line 74), for [n_orbits] orbits. *)
Definition whose_src_mine_of (g : Grid) (n_orbits : Z)
           (whose_src : list (list Z)) : list Z :=
  let div_dest := TaskDivision_new n_orbits (n_procs g) (i_proc g) in
  concat (py_slice whose_src (td_i_start div_dest) (td_i_stop div_dest)).

(** The sum of the entries of a tensor of integers. *)
Definition zsum (l : list Z) : Z := fold_right Z.add 0 l.

(** The order of the received entries: by source rank first, by position
    in [whose_src_mine] within one source. *)
Definition source_then_position (whose_src_mine : list Z) (a b : Z) : Prop :=
  let wa := nth (Z.to_nat a) whose_src_mine 0 in
  let wb := nth (Z.to_nat b) whose_src_mine 0 in
  wa < wb \/ (wa = wb /\ a < b).

(** The counts of one side of an exchange tile its buffer: none is
    negative, and they add up to the number of entries of the buffer. *)
Definition counts_cover (b : BufSpec) : Prop :=
  Forall (fun c => 0 <= c) (b_counts b) /\
  zsum (b_counts b) = zlen (b_data b).

(** ** Fields an engine accepts, and orbits that cover the grid *)

(** A field the engine of [g] accepts: its grid is [g], and its buffer
    holds [n_batch] values for every local grid point. *)
Definition field_fits (g : Grid) (v : FieldH) : Prop :=
  grid_id (f_grid v) = grid_id g /\
  0 <= n_batch_of v /\
  zlen (f_data v) = n_batch_of v * n_grid_of g.


(** ** One batch entry at a time *)

(** The field [v] with another buffer. *)
Definition with_data (v : FieldH) (d : list cplx) : FieldH :=
  mkFieldH (f_grid v) (f_shape v) (f_dtype v) (f_view v) d.

(** One batch entry of [v] as a field of its own: the grid dimensions
    alone, and the values [row] of the entry. *)
Definition batch_entry (v : FieldH) (row : list cplx) : FieldH :=
  mkFieldH (f_grid v) (skipn (length (f_shape v) - 3) (f_shape v))
           (f_dtype v) (f_view v) row.

(** Lines 134 to 165 of the single-process branch for the values [row]
    of one batch entry. *)
Definition row_pass (e : Engine) (index : list (list Z))
           (row : list cplx) : result (list cplx) :=
  vb <- mapM (tgets row) index ;;
  Ok (accumulate (map (fun _ => c0) row) (concat index)
                 (concat (hd [] (symmetrize_orbits e [vb])))).

(** Line 170 for one batch entry. *)
Definition row_weights (e : Engine) (n_grid : Z) (row : list cplx)
  : result (list cplx) :=
  r <- scale_rows e n_grid [row] ;; Ok (concat r).

Definition row_call (e : Engine) (index : list (list Z)) (n_grid : Z)
           (row : list cplx) : result (list cplx) :=
  acc <- row_pass e index row ;; row_weights e n_grid acc.

(** ** The mean over an orbit *)

(** The mean of the values of [row] over the members of the orbit row of
    the grid index [k], each member taken as often as it occurs in the
    row: the sum over the [n_sym] entries of the row, divided by
    [n_sym]. *)
Definition orbit_mean (index : list (list Z)) (n_sym : Z)
           (row : list cplx) (k : Z) : cplx :=
  cscale (csum (map (fun k' => nth (Z.to_nat k') row c0)
                    (orbit_row index k)))
         (rdiv r1 (of_Z n_sym)).

(** Every entry of the phase table is 1 (as without fractional
    translations). *)
Definition unit_phases (e : Engine) : Prop :=
  Forall (Forall (fun p => p = c1)) (phase e).

(** ** Linear combinations of buffers *)

(** [x * a + b] for a real [x], entry by entry. *)
Definition clin (x : R) (a b : cplx) : cplx := cadd (cscale a x) b.

Definition vlin (x : R) (a b : list cplx) : list cplx :=
  map (fun p => clin x (fst p) (snd p)) (combine a b).

(** ** Groups of operations on the grid *)

(** The operations act on the index vectors modulo the grid period. *)
Definition commensurate (g : Grid) : Prop :=
  forall m u u',
    In m (rot g) -> vmod u (shape g) = vmod u' (shape g) ->
    vmod (vecmat u m) (shape g) = vmod (vecmat u' m) (shape g).

(** The operations form a group: with two operations their composition,
    and with every operation its inverse. *)
Definition rot_group (g : Grid) : Prop :=
  (forall m1 m2, In m1 (rot g) -> In m2 (rot g) ->
     exists m3, In m3 (rot g) /\
                forall u, vecmat (vecmat u m1) m2 = vecmat u m3) /\
  (forall m, In m (rot g) ->
     exists m', In m' (rot g) /\ forall u, vecmat (vecmat u m) m' = u).

(** The group contains the inversion: with every operation its
    negative. *)
Definition rot_has_inversion (g : Grid) : Prop :=
  forall m, In m (rot g) ->
    exists m', In m' (rot g) /\ forall u, vecmat u m' = vneg (vecmat u m).

End Symmetrizer.

Arguments Grid R : clear implicits.
Arguments Engine R : clear implicits.
Arguments FieldH R : clear implicits.
Arguments CallState R : clear implicits.
Arguments Alltoallv_call R : clear implicits.
Arguments BufSpec R : clear implicits.

(** ** Buffers cut by cumulative bounds *)

(** The messages [msgs] fit the cumulative bounds [pv]: one message for
    every pair of consecutive bounds, of [nb] entries for every unit
    between them. *)
Inductive fits {A : Type} (nb : Z) : list Z -> list (list A) -> Prop :=
| fits_end x : fits nb [x] []
| fits_cons x y t m ms :
    x <= y -> Z.of_nat (length m) = (y - x) * nb ->
    fits nb (y :: t) ms -> fits nb (x :: y :: t) (m :: ms).

(** The part of a buffer between two consecutive bounds. *)
Definition part_of {A : Type} (nb : Z) (pv : list Z) (buf : list A)
           (q : nat) : list A :=
  firstn (Z.to_nat ((nth (S q) pv 0 - nth q pv 0) * nb))
         (skipn (Z.to_nat (nth q pv 0 * nb)) buf).

(** ** The workers of a run

    Modelled from the spec: the communicator and the grid partition are
    collaborators outside this module.  All the workers of a run hold
    the same grid, each with its own block of the last half-space axis,
    and take part in every [Alltoallv]. *)
Section Workers.
Context {R : Type} {SR : Scalar R}.
Variable cis_turn : R -> complex R.

(** The grid object of worker [p]: the grid [g] with the rank [p] and
    the block of [p] in the partition of the last half-space axis. *)
Definition grid_of_rank (g : Grid R) (p : Z) : Grid R :=
  let split := TaskDivision_new (vz (shapeH g)) (n_procs g) p in
  mkGrid (grid_id g) (shape g) (shapeH g)
         (vx (shapeH g), vy (shapeH g),
          td_i_stop split - td_i_start split)
         (mesh_H g) (symmetries g) (n_procs g) p split (trans_dtype g).

(** With one process the grid itself. *)
Definition worker_grid (g : Grid R) (p : Z) : Grid R :=
  if 1 <? n_procs g then grid_of_rank g p else g.

Definition n_workers (g : Grid R) : Z := Z.max 1 (n_procs g).

(** [Alltoallv]: the part of the send buffer of the call [c] that goes
    to worker [q], [counts[q]] entries from [offsets[q]] on. *)
Definition sent_to (c : Alltoallv_call R) (q : Z) : list (complex R) :=
  firstn (Z.to_nat (nth (Z.to_nat q) (b_counts (a_send c)) 0))
         (skipn (Z.to_nat (nth (Z.to_nat q) (b_offsets (a_send c)) 0))
                (b_data (a_send c))).

(** What worker [q] gets in the exchange number [i] of a run in which
    worker [p] issues the exchanges [trace p]: from every worker, in
    rank order, the part for [q] of what it sends in its exchange
    number [i]. *)
Definition delivered (n : Z) (trace : Z -> list (Alltoallv_call R))
           (i : nat) (q : Z) : list (list (complex R)) :=
  map (fun p => match nth_error (trace p) i with
                | Some c => sent_to c q
                | None => []
                end)
      (arange n).

(** The communicators [comm q] of the [n] workers of a run deliver what
    the workers send. *)
Definition delivers (n : Z)
           (comm : Z -> Alltoallv_call R -> list (list (complex R)))
           (trace : Z -> list (Alltoallv_call R)) : Prop :=
  forall q i c, 0 <= q < n -> nth_error (trace q) i = Some c ->
                comm q c = delivered n trace i q.

(** The exchanges of [FieldSymmetrizer(grid)(v)]. *)
Definition exchanges (r : result (result unit * CallState R))
  : list (Alltoallv_call R) :=
  match r with
  | Ok (_, st) => cs_trace st
  | Err _ => []
  end.

(** The run of the workers of [g], worker [p] on its field [v p]. *)
Definition run_of (g : Grid R)
           (comm : Z -> Alltoallv_call R -> list (list (complex R)))
           (v : Z -> FieldH R) (p : Z)
  : result (result unit * CallState R) :=
  symmetrize cis_turn (comm p) (worker_grid g p) (v p).

(** *** The partition for the group of the identity alone

    Every half-space index is an orbit of its own. *)

(** The worker that holds the plane of the half-space index [k]. *)
Definition plane_owner (g : Grid R) (k : Z) : Z :=
  whose_each (TaskDivision_new (vz (shapeH g)) (n_procs g) 0)
             (k mod vz (shapeH g)).

(** The bounds of the blocks of orbits. *)
Definition orbit_bound (g : Grid R) (q : Z) : Z :=
  Z.min (n_tot_of (shapeH g))
        (ceildiv (n_tot_of (shapeH g)) (Z.max 1 (n_procs g)) * q).

(** The indices whose plane worker [p] holds, in increasing order. *)
Definition owned_indices (g : Grid R) (p : Z) : list Z :=
  filter (fun k => plane_owner g k =? p) (arange (n_tot_of (shapeH g))).

(** The owners of the sources of the orbits of worker [q]. *)
Definition block_sources (g : Grid R) (q : Z) : list Z :=
  map (fun i => plane_owner g (orbit_bound g q + i))
      (arange (orbit_bound g (q + 1) - orbit_bound g q)).

Definition send_bounds (g : Grid R) (p : Z) : list Z :=
  map (fun q => searchsorted (owned_indices g p) (orbit_bound g q))
      (arange (n_procs g + 1)).

Definition recv_bounds (g : Grid R) (q : Z) : list Z :=
  map (searchsorted
         (map (fun k => nth (Z.to_nat k) (block_sources g q) 0)
              (recv_order (block_sources g q))))
      (arange (n_procs g + 1)).
End Workers.

(** ** Concrete scalars for the examples: Gaussian rationals *)

(** The exact value of [cis(2 pi t)] at the quarter turns, the only turns
    at which the examples evaluate it. *)
Definition cis_quarter (t : Qc) : complex Qc :=
  let q := (Q2Qc 4 * t)%Qc in
  if Pos.eqb (Qden q) 1 then
    match (Qnum q) mod 4 with
    | 0 => (1%Qc, 0%Qc)
    | 1 => (0%Qc, 1%Qc)
    | 2 => ((- (1))%Qc, 0%Qc)
    | _ => (0%Qc, (- (1))%Qc)
    end
  else (1%Qc, 0%Qc).

(** A communicator that delivers nothing (one worker alone). *)
Definition no_comm : Alltoallv_call Qc -> list (list (complex Qc)) :=
  fun _ => [].

Definition qc (n : Z) : Qc := Q2Qc (inject_Z n).
Definition creal (n : Z) : complex Qc := (qc n, 0%Qc).

(** ** The grids of the examples *)

Definition zero_trans : Qc * Qc * Qc := (0%Qc, 0%Qc, 0%Qc).

(** The two-fold rotation about the third axis. *)
Definition C2z : mat3 := ((-1, 0, 0), (0, -1, 0), (0, 0, 1)).

(** The three-fold rotation about the diagonal [111], and its square. *)
Definition C3d : mat3 := ((0, 1, 0), (0, 0, 1), (1, 0, 0)).
Definition C3d2 : mat3 := ((0, 0, 1), (1, 0, 0), (0, 1, 0)).

(** The inversion. *)
Definition Inv : mat3 := ((-1, 0, 0), (0, -1, 0), (0, 0, -1)).

Definition grid_C2z : Grid Qc :=
  make_grid 0 (4, 1, 1) [(I3, zero_trans); (C2z, zero_trans)] 1 0.

Definition grid_C3 : Grid Qc :=
  make_grid 0 (4, 4, 4)
            [(I3, zero_trans); (C3d, zero_trans); (C3d2, zero_trans)] 1 0.

(** The negative of an operation, and the same cubic grid with the group
    of the three-fold rotation and the inversion. *)
Definition neg3 (m : mat3) : mat3 :=
  let '(r0, r1, r2) := m in (vneg r0, vneg r1, vneg r2).

Definition grid_S6 : Grid Qc :=
  make_grid 0 (4, 4, 4)
            (map (fun m => (m, zero_trans))
                 [I3; C3d; C3d2; neg3 I3; neg3 C3d; neg3 C3d2]) 1 0.

(** Inversion about the point [(0, 0, 1/8)]: the inversion followed by
    the translation [(0, 0, 1/4)]. *)
Definition grid_inversion : Grid Qc :=
  make_grid 0 (1, 1, 4)
            [(I3, zero_trans); (Inv, (0%Qc, 0%Qc, Q2Qc (1 # 4)))] 1 0.



(** Worker 0 of two. *)
Definition grid_two_workers : Grid Qc :=
  make_grid 0 (2, 2, 4) [(I3, zero_trans)] 2 0.

(** Worker 0 of two, on a grid partitioned for three workers. *)
Definition grid_mismatch : Grid Qc :=
  make_grid_split 0 (1, 1, 4) [(I3, zero_trans)] 2 0 3.

(** A field on the local grid of [g], without batch dimensions: a
    contiguous tensor of double precision. *)
Definition field_on (g : Grid Qc) (d : list (complex Qc)) : FieldH Qc :=
  mkFieldH g [vx (shapeH_mine g); vy (shapeH_mine g); vz (shapeH_mine g)]
           complex128 true d.

(** The engine of a grid of the examples. *)
Definition engine_of (g : Grid Qc) : Engine Qc :=
  match init cis_quarter g with
  | Ok e => e
  | Err _ => mkEngine g (Serial []) [] [] complex128 0 0 []
  end.

(** The field data after [n] calls of the engine of [g]. *)
Definition data_after (n : nat) (g : Grid Qc) (d : list (complex Qc))
  : list (complex Qc) :=
  Nat.iter n (fun d' => f_data (cs_v (snd (call no_comm
                                              (start (engine_of g)
                                                     (field_on g d'))))))
           d.

(** The rational parts of a buffer, for display. *)
Definition parts (d : list (complex Qc)) : list (Q * Q) :=
  map (fun z => (this (fst z), this (snd z))) d.
(** ** Results on [get_index] *)

Ltac unvec :=
  cbv [vx vy vz vmod vneg dot strideH_of n_tot_of shapeH_of shape_pos
       fst snd] in *.

Lemma folded_in_half_space (shapeR iH : vec3) :
  shape_pos shapeR ->
  0 <= vx (folded shapeR (shapeH_of shapeR) iH) < vx (shapeH_of shapeR) /\
  0 <= vy (folded shapeR (shapeH_of shapeR) iH) < vy (shapeH_of shapeR) /\
  0 <= vz (folded shapeR (shapeH_of shapeR) iH) < vz (shapeH_of shapeR).
Proof.
  destruct shapeR as [[s0 s1] s2], iH as [[a b] c].
  unfold folded, conj_needed, wrapped. unvec. intros (H0 & H1 & H2).
  pose proof (Z.mod_pos_bound a s0 H0).
  pose proof (Z.mod_pos_bound b s1 H1).
  pose proof (Z.mod_pos_bound c s2 H2).
  destruct (Z.leb_spec (1 + s2 / 2) (c mod s2)); unvec.
  - pose proof (Z.mod_pos_bound (- (a mod s0)) s0 H0).
    pose proof (Z.mod_pos_bound (- (b mod s1)) s1 H1).
    pose proof (Z.div_mod s2 2 ltac:(lia)).
    pose proof (Z.mod_pos_bound s2 2 ltac:(lia)).
    assert (E : (- (c mod s2)) mod s2 = s2 - c mod s2).
    { symmetry. apply (Z.mod_unique _ _ (-1)); lia. }
    rewrite E. lia.
  - lia.
Qed.

Lemma flat_index_bound (sH v : vec3) :
  0 <= vx v < vx sH -> 0 <= vy v < vy sH -> 0 <= vz v < vz sH ->
  0 <= dot v (strideH_of sH) < n_tot_of sH.
Proof.
  destruct sH as [[h0 h1] h2], v as [[a b] c]. unvec.
  intros Ha Hb Hc.
  assert (0 <= h1 * h2) by (apply Z.mul_nonneg_nonneg; lia).
  assert (0 <= a * (h1 * h2)) by (apply Z.mul_nonneg_nonneg; lia).
  assert (0 <= b * h2) by (apply Z.mul_nonneg_nonneg; lia).
  assert ((b + 1) * h2 <= h1 * h2)
    by (apply Z.mul_le_mono_nonneg_r; lia).
  assert ((a + 1) * (h1 * h2) <= h0 * (h1 * h2))
    by (apply Z.mul_le_mono_nonneg_r; lia).
  lia.
Qed.

(** C2. For every integer index vector, [get_index] first wraps every
    component modulo the grid period; it flags conjugation exactly when the
    wrapped last component lies beyond the last stored half-space entry
    (is at least [shapeH[2]]), in which case the whole wrapped vector is
    negated modulo the period; and the flattened index it returns lies in
    [[0, prod(shapeH))]. *)
Theorem get_index_half_space (shapeR iH : vec3) :
  shape_pos shapeR ->
  let shapeH := shapeH_of shapeR in
  let w := vmod iH shapeR in
  let r := get_index shapeR shapeH iH in
  (snd r = true <-> vz shapeH <= vz w) /\
  (snd r = true ->
     fst r = dot (vmod (vneg w) shapeR) (strideH_of shapeH)) /\
  (snd r = false -> fst r = dot w (strideH_of shapeH)) /\
  0 <= fst r < n_tot_of shapeH.
Proof.
  intros Hpos shapeH w r.
  assert (Hc : snd r = conj_needed shapeR shapeH iH) by reflexivity.
  assert (Hf : fst r = dot (folded shapeR shapeH iH) (strideH_of shapeH))
    by reflexivity.
  repeat split.
  - rewrite Hc. unfold conj_needed. intros H. now apply Z.leb_le in H.
  - intros H. rewrite Hc. now apply Z.leb_le.
  - intros H. rewrite Hf. unfold folded. rewrite <- Hc, H. reflexivity.
  - intros H. rewrite Hf. unfold folded. rewrite <- Hc, H. reflexivity.
  - rewrite Hf. apply flat_index_bound;
      apply (folded_in_half_space shapeR iH Hpos).
  - rewrite Hf. apply flat_index_bound;
      apply (folded_in_half_space shapeR iH Hpos).
Qed.

Lemma get_index_half_space_witness :
  let shapeR := (4, 4, 4) in
  let r := get_index shapeR (shapeH_of shapeR) (2, 1, -1) in
  shape_pos shapeR /\ r = (34, true) /\ 0 <= fst r < 48.
Proof.
  split; [unvec; lia|].
  split; [reflexivity|].
  apply (get_index_half_space (4, 4, 4) (2, 1, -1)).
  unvec; lia.
Defined.

(** ** Lists: minimum folds, sorted deduplication, counting *)

Lemma fold_min_le_init {A : Type} (f : A -> Z) (l : list A) (a : Z) :
  fold_left (fun m x => Z.min m (f x)) l a <= a.
Proof.
  revert a. induction l as [|x l IH]; intros a; cbn; [lia|].
  specialize (IH (Z.min a (f x))). lia.
Qed.

Lemma fold_min_le_elt {A : Type} (f : A -> Z) (l : list A) (a : Z) (x : A) :
  In x l -> fold_left (fun m x => Z.min m (f x)) l a <= f x.
Proof.
  revert a. induction l as [|y l IH]; intros a Hin; [destruct Hin|].
  cbn. destruct Hin as [->|Hin].
  - pose proof (fold_min_le_init f l (Z.min a (f x))). lia.
  - now apply IH.
Qed.

Lemma fold_min_attained {A : Type} (f : A -> Z) (l : list A) (a : Z) :
  fold_left (fun m x => Z.min m (f x)) l a = a \/
  exists x, In x l /\ fold_left (fun m x => Z.min m (f x)) l a = f x.
Proof.
  revert a. induction l as [|y l IH]; intros a; cbn; [now left|].
  destruct (IH (Z.min a (f y))) as [E|(x & Hx & E)].
  - rewrite E. destruct (Z.min_spec a (f y)) as [[_ ->]|[_ ->]];
      [now left | right; exists y; auto].
  - right. exists x. auto.
Qed.

Lemma in_insert_unique (x y : Z) (l : list Z) :
  In x (insert_unique y l) <-> x = y \/ In x l.
Proof.
  induction l as [|z l IH]; cbn.
  - intuition.
  - destruct (Z.ltb_spec y z); [cbn; intuition|].
    destruct (Z.eqb_spec y z) as [->|Hne]; cbn; [intuition|].
    rewrite IH. intuition.
Qed.

Lemma in_unique (x : Z) (l : list Z) : In x (unique l) <-> In x l.
Proof.
  induction l as [|y l IH]; cbn; [tauto|].
  unfold unique in IH. rewrite in_insert_unique, IH. intuition.
Qed.

Lemma insert_unique_sorted (x : Z) (l : list Z) :
  StronglySorted Z.lt l -> StronglySorted Z.lt (insert_unique x l).
Proof.
  induction 1 as [|z l Hs IH Hall]; cbn.
  - repeat constructor.
  - destruct (Z.ltb_spec x z).
    + constructor; [now constructor|].
      constructor; [assumption|].
      eapply Forall_impl; [|exact Hall]. cbn; intros; lia.
    + destruct (Z.eqb_spec x z) as [->|Hne]; [now constructor|].
      constructor; [assumption|].
      apply Forall_forall. intros y Hy.
      apply in_insert_unique in Hy. destruct Hy as [->|Hy]; [lia|].
      rewrite Forall_forall in Hall. now apply Hall.
Qed.

Lemma unique_sorted (l : list Z) : StronglySorted Z.lt (unique l).
Proof.
  induction l as [|x l IH]; cbn; [constructor|].
  now apply insert_unique_sorted.
Qed.

Lemma insert_unique_below (x : Z) (l : list Z) :
  Forall (fun y => x < y) l -> insert_unique x l = x :: l.
Proof.
  destruct l as [|y l]; cbn; [reflexivity|].
  intros H. inversion H; subst.
  destruct (Z.ltb_spec x y); [reflexivity|lia].
Qed.

Lemma unique_of_sorted (l : list Z) :
  StronglySorted Z.lt l -> unique l = l.
Proof.
  induction 1 as [|x l Hs IH Hall]; cbn; [reflexivity|].
  unfold unique in IH. rewrite IH. now apply insert_unique_below.
Qed.

(** ** The canonical keys and the orbit list *)

Lemma vecmat_I3 (u : vec3) : vecmat u I3 = u.
Proof.
  destruct u as [[a b] c]. cbv [vecmat I3 vx vy vz fst snd].
  (f_equal; [f_equal|]); lia.
Qed.

Section OrbitFacts.
Context {R : Type} {SR : Scalar R}.
Implicit Types (g : Grid R) (iH : vec3) (m : mat3).

Lemma min_equiv_key_spec g iH :
  min_equiv_key g iH <= fst (gi g iH) /\
  (forall m, In m (rot g) ->
             min_equiv_key g iH <= fst (gi g (vecmat iH m))) /\
  (min_equiv_key g iH = fst (gi g iH) \/
   exists m, In m (rot g) /\
             min_equiv_key g iH = fst (gi g (vecmat iH m))).
Proof.
  unfold min_equiv_key.
  set (f := fun m => fst (gi g (vecmat iH m))).
  repeat split.
  - apply (fold_min_le_init f).
  - intros m Hm. now apply (fold_min_le_elt f).
  - apply (fold_min_attained f).
Qed.

(** C4. For every global grid index, the canonical key computed at set-up
    is the minimum, over all the operations of the group (which contains
    the identity), of the rotated-and-folded flattened index of that
    point; and the deduplicated orbit list holds exactly the distinct
    canonical keys, in strictly increasing order. *)
Theorem canonical_key_minimum_and_order g :
  In I3 (rot g) ->
  (forall k iH,
      nth_error (mesh_H g) k = Some iH ->
      exists key,
        nth_error (min_equiv_index g) k = Some key /\
        (forall m, In m (rot g) -> key <= fst (gi g (vecmat iH m))) /\
        (exists m, In m (rot g) /\ key = fst (gi g (vecmat iH m)))) /\
  StronglySorted Z.lt (orbit_keys g) /\
  (forall key, In key (orbit_keys g) <-> In key (min_equiv_index g)).
Proof.
  intros HI. split; [|split].
  - intros k iH Hk. exists (min_equiv_key g iH).
    destruct (min_equiv_key_spec g iH) as (_ & Hle & Hatt).
    split; [|split].
    + unfold min_equiv_index. now rewrite nth_error_map, Hk.
    + exact Hle.
    + destruct Hatt as [E|Hex]; [|exact Hex].
      exists I3. split; [exact HI|]. now rewrite vecmat_I3.
  - apply unique_sorted.
  - intros key. apply in_unique.
Qed.
End OrbitFacts.

(** ** Shapes of the buffers of a call *)

Lemma mapM_length {A B : Type} (f : A -> result B) (l : list A)
      (l' : list B) :
  mapM f l = Ok l' -> length l' = length l.
Proof.
  revert l'. induction l as [|a l IH]; cbn; intros l' H.
  - now inversion H.
  - destruct (f a); cbn in H; [|discriminate].
    destruct (mapM f l); cbn in H; [|discriminate].
    inversion H; subst. cbn. f_equal. now apply IH.
Qed.

Lemma chunk_length {A : Type} (n k : nat) (l : list A) :
  length (chunk n k l) = k.
Proof.
  revert l. induction k as [|k IH]; intros l; cbn; [reflexivity|].
  now rewrite IH.
Qed.

Lemma chunk_rows {A : Type} (n k : nat) (l : list A) :
  length l = (k * n)%nat ->
  Forall (fun r => length r = n) (chunk n k l).
Proof.
  revert l. induction k as [|k IH]; intros l H; cbn; [constructor|].
  constructor.
  - rewrite length_firstn. cbn in H. lia.
  - apply IH. rewrite length_skipn. cbn in H. lia.
Qed.

Lemma concat_chunk {A : Type} (n k : nat) (l : list A) :
  length l = (k * n)%nat -> concat (chunk n k l) = l.
Proof.
  revert l. induction k as [|k IH]; intros l H; cbn.
  - cbn in H. now destruct l.
  - rewrite IH.
    + apply firstn_skipn.
    + rewrite length_skipn. cbn in H. lia.
Qed.

Lemma concat_rows_length {A : Type} (n : nat) (v : list (list A)) :
  Forall (fun r => length r = n) v ->
  length (concat v) = (length v * n)%nat.
Proof.
  induction 1 as [|r v Hr Hv IH]; cbn; [reflexivity|].
  rewrite length_app, IH, Hr. reflexivity.
Qed.

Section FrameFacts.
Context {R : Type} {SR : Scalar R}.
Variable comm : Alltoallv_call R -> list (list (complex R)).
Implicit Types (st : CallState R) (e : Engine R).

Local Abbreviation cplx := (complex R).
Lemma add_at_length (l : list cplx) (k : nat) (x : cplx) :
  length (add_at l k x) = length l.
Proof.
  revert k. induction l as [|y l IH]; intros [|k]; cbn; auto.
Qed.

Lemma accumulate_length (row : list cplx) (ks : list Z)
      (xs : list cplx) :
  length (accumulate row ks xs) = length row.
Proof.
  unfold accumulate. generalize (zlen row) as n.
  generalize (combine ks xs) as ps. intros ps.
  revert row. induction ps as [|p ps IH]; intros row n; cbn;
    [reflexivity|].
  now rewrite IH, add_at_length.
Qed.

Lemma zeros_like_shape k n (v : list (list cplx)) :
  has_shape k n v -> has_shape k n (zeros_like v).
Proof.
  intros [Hk Hn]. split; unfold zeros_like.
  - now rewrite length_map.
  - apply Forall_map. eapply Forall_impl; [|exact Hn].
    cbn. intros r Hr. now rewrite length_map.
Qed.

Lemma scale_rows_shape e k n (v v' : list (list cplx)) :
  has_shape k n v ->
  scale_rows e (Z.of_nat n) v = Ok v' -> has_shape k n v'.
Proof.
  intros [Hk Hn]. unfold scale_rows, zlen.
  destruct (Z.eqb_spec (Z.of_nat (length (inv_multiplicity e)))
                       (Z.of_nat n)) as [E|_].
  - intros H; inversion H; subst; clear H. split.
    + now rewrite length_map.
    + apply Forall_map. eapply Forall_impl; [|exact Hn].
      cbn. intros r Hr. rewrite length_map, length_combine. lia.
  - destruct (_ =? 1); intros H; inversion H; subst; clear H. split.
    + now rewrite length_map.
    + apply Forall_map. eapply Forall_impl; [|exact Hn].
      cbn. intros r Hr. now rewrite length_map.
Qed.

Lemma set_data_frame st v :
  cs_self (set_data st v) = cs_self st /\
  f_grid (cs_v (set_data st v)) = f_grid (cs_v st) /\
  f_shape (cs_v (set_data st v)) = f_shape (cs_v st) /\
  f_dtype (cs_v (set_data st v)) = f_dtype (cs_v st).
Proof. repeat split. Qed.

Lemma same_frame_refl st : same_frame st st.
Proof. repeat split. Qed.

Lemma same_frame_trans st1 st2 st3 :
  same_frame st1 st2 -> same_frame st2 st3 -> same_frame st1 st3.
Proof.
  unfold same_frame. intros (a1 & a2 & a3 & a4 & a5) (b1 & b2 & b3 & b4 & b5).
  repeat split; congruence.
Qed.

Lemma same_frame_log st c : same_frame st (log_call st c).
Proof. repeat split. Qed.

Lemma same_frame_set_data st k n v :
  length (f_data (cs_v st)) = (k * n)%nat ->
  has_shape k n v -> same_frame st (set_data st v).
Proof.
  intros Hlen [Hk Hn]. repeat split. cbn.
  rewrite (concat_rows_length n v Hn). congruence.
Qed.

Lemma same_frame_write_through st k n v :
  length (f_data (cs_v st)) = (k * n)%nat ->
  has_shape k n v -> same_frame st (write_through st v).
Proof.
  intros Hlen Hv. unfold write_through.
  destruct (f_view (cs_v st)).
  - eapply same_frame_set_data; eauto.
  - apply same_frame_refl.
Qed.

Lemma write_through_trace st (v : list (list cplx)) :
  cs_trace (write_through st v) = cs_trace st.
Proof. unfold write_through. now destruct (f_view (cs_v st)). Qed.

Lemma write_through_self st (v : list (list cplx)) :
  cs_self (write_through st v) = cs_self st.
Proof. unfold write_through. now destruct (f_view (cs_v st)). Qed.

Lemma dtype_eqb_refl (dt : dtype) : dtype_eqb dt dt = true.
Proof. now destruct dt. Qed.

Lemma dtype_eqb_eq (a b : dtype) : dtype_eqb a b = true <-> a = b.
Proof. destruct a, b; cbn; split; congruence. Qed.

Lemma symmetrized_ok e dt (v r : list (list (list cplx))) :
  symmetrized e dt v = Ok r ->
  dtype_eqb dt (phase_dtype e) = true /\ r = symmetrize_orbits e v.
Proof.
  unfold symmetrized. destruct (dtype_eqb _ _); [|discriminate].
  intros [= <-]. auto.
Qed.

Lemma symmetrized_error e dt (v : list (list (list cplx))) x :
  symmetrized e dt v = Err x ->
  dtype_eqb dt (phase_dtype e) = false /\ x = RuntimeError.
Proof.
  unfold symmetrized. destruct (dtype_eqb _ _); [discriminate|].
  intros [= <-]. auto.
Qed.

Lemma finish_frame st k n v :
  length (f_data (cs_v st)) = (k * n)%nat ->
  has_shape k n v ->
  same_frame st (snd (finish st (Z.of_nat n) v)).
Proof.
  intros Hlen Hv. unfold finish.
  destruct (scale_rows (cs_self st) (Z.of_nat n) v) as [v'|x] eqn:E; cbn.
  - eapply same_frame_set_data; eauto. eapply scale_rows_shape; eauto.
  - eapply same_frame_write_through; eauto.
Qed.

Lemma symmetrize_orbits_length e (v : list (list (list cplx))) :
  length (symmetrize_orbits e v) = length v.
Proof.
  unfold symmetrize_orbits, conjugate, expand, einsum_bos_os.
  now rewrite !length_map.
Qed.

Lemma accumulate_serial_frame st index k n (v_data : list (list cplx))
      r st' :
  has_shape k n v_data ->
  accumulate_serial st index v_data = (r, st') ->
  st' = st /\ forall v, r = Ok v -> has_shape k n v.
Proof.
  intros [Hk Hn]. unfold accumulate_serial.
  destruct (mapM _ v_data) as [v_orbits|x] eqn:E.
  2:{ intros [= <- <-]. split; [reflexivity|discriminate]. }
  destruct (symmetrized _ _ _) as [v_sym|x] eqn:Es.
  2:{ intros [= <- <-]. split; [reflexivity|discriminate]. }
  apply symmetrized_ok in Es. destruct Es as [_ ->].
  intros [= <- <-]. split; [reflexivity|].
  intros v [= <-].
  apply mapM_length in E.
  destruct (zeros_like_shape k n v_data (conj Hk Hn)) as [Hzk Hzn].
  split.
  - rewrite length_map, length_combine, symmetrize_orbits_length. lia.
  - apply Forall_map, Forall_forall. intros [z o] Hin. cbn.
    rewrite accumulate_length.
    apply in_combine_l in Hin. rewrite Forall_forall in Hzn. auto.
Qed.

Lemma accumulate_distributed_frame st sp rp gix rix oix nb k n
      (v_data : list (list cplx)) r st' :
  length (f_data (cs_v st)) = (k * n)%nat ->
  has_shape k n v_data ->
  accumulate_distributed comm st sp rp gix rix oix nb v_data = (r, st') ->
  same_frame st st' /\ forall v, r = Ok v -> has_shape k n v.
Proof.
  intros Hlen Hv. unfold accumulate_distributed.
  pose proof (zeros_like_shape k n v_data Hv) as Hz.
  destruct (mapM _ gix) as [src_data|x].
  2:{ intros [= <- <-]. split;
      [apply same_frame_refl|discriminate]. }
  destruct (tgets _ oix) as [picked|x].
  2:{ intros [= <- <-]. split;
      [apply same_frame_log|discriminate]. }
  destruct (negb _).
  { intros [= <- <-]. split;
    [apply same_frame_log|discriminate]. }
  destruct (symmetrized _ _ _) as [v_sym|x].
  2:{ intros [= <- <-]. split;
      [apply same_frame_log|discriminate]. }
  destruct (mapM _ rix) as [dest2|x]; intros [= <- <-].
  - split.
    + eapply same_frame_trans; apply same_frame_log.
    + intros v [= <-].
      destruct Hz as [Hzk Hzn]. split.
      * now rewrite length_map, length_combine, length_seq, Nat.min_id.
      * apply Forall_map, Forall_forall. intros [b z] Hin. cbn.
        rewrite accumulate_length.
        apply in_combine_r in Hin. rewrite Forall_forall in Hzn. auto.
  - split; [|discriminate].
    eapply same_frame_trans; [apply same_frame_log|].
    eapply same_frame_write_through; [exact Hlen|exact Hz].
Qed.

Lemma accumulated_frame st r st' :
  accumulated comm st = (r, st') ->
  same_frame st st' /\
  forall v, r = Ok v ->
    0 <= n_grid_of (e_grid (cs_self st)) /\
    length (f_data (cs_v st))
    = (Z.to_nat (n_batch_of (cs_v st))
       * Z.to_nat (n_grid_of (e_grid (cs_self st))))%nat /\
    has_shape (Z.to_nat (n_batch_of (cs_v st)))
              (Z.to_nat (n_grid_of (e_grid (cs_self st)))) v.
Proof.
  unfold accumulated.
  destruct (negb (Nat.eqb _ _)).
  { intros [= <- <-]. split;
    [apply same_frame_refl|discriminate]. }
  set (n_batch := n_batch_of _). set (n_grid := n_grid_of _).
  destruct (Z.ltb_spec n_batch 0).
  { intros [= <- <-]. split;
    [apply same_frame_refl|discriminate]. }
  destruct (Z.ltb_spec n_grid 0).
  { intros [= <- <-]. split;
    [apply same_frame_refl|discriminate]. }
  cbn [orb].
  destruct (Z.eqb_spec (zlen (f_data (cs_v st))) (n_batch * n_grid))
    as [E|_].
  2:{ intros [= <- <-]. split;
      [apply same_frame_refl|discriminate]. }
  cbn [negb].
  assert (Hlen : length (f_data (cs_v st))
                 = (Z.to_nat n_batch * Z.to_nat n_grid)%nat).
  { unfold zlen in E. nia. }
  assert (Hv : has_shape (Z.to_nat n_batch) (Z.to_nat n_grid)
                 (chunk (Z.to_nat n_grid) (Z.to_nat n_batch)
                        (f_data (cs_v st)))).
  { split; [apply chunk_length | now apply chunk_rows]. }
  destruct (e_layout (cs_self st)); intros Hacc.
  - destruct (accumulate_serial_frame _ _ _ _ _ _ _ Hv Hacc) as [-> Hs].
    split; [apply same_frame_refl|]. intros v Hr. auto.
  - destruct (accumulate_distributed_frame _ _ _ _ _ _ _ _ _ _ _ _
                                           Hlen Hv Hacc) as [Hf Hs].
    split; [exact Hf|]. intros v Hr. auto.
Qed.

Lemma call_frame st : same_frame st (snd (call comm st)).
Proof.
  unfold call.
  destruct (accumulated comm st) as [[v_acc|x] st1] eqn:E;
    destruct (accumulated_frame _ _ _ E) as [Hf Hs]; [|exact Hf].
  destruct (Hs v_acc eq_refl) as (Hn & Hlen & Hv).
  eapply same_frame_trans; [exact Hf|].
  rewrite <- (Z2Nat.id (n_grid_of _)) by exact Hn.
  eapply finish_frame; [|exact Hv].
  destruct Hf as (_ & _ & _ & _ & ->). exact Hlen.
Qed.

Lemma run_calls_engine e (vs : list (FieldH R)) :
  run_calls comm e vs = e.
Proof.
  revert e. induction vs as [|v vs IH]; intros e; cbn; [reflexivity|].
  destruct (call_frame (start e v)) as (He & _).
  unfold run_calls in IH. rewrite He. cbn. apply IH.
Qed.

(** C10. A call mutates nothing but the entries of the field's data
    tensor: the engine (phase table, conjugation scale, weights, index
    arrays, communication bounds), the grid, and the shape and the dtype
    of the data tensor are the same after the call, the buffer keeps its
    number of entries, and the engine is the same after any series of
    calls. *)
Theorem call_mutates_only_field_data :
  (forall st, same_frame st (snd (call comm st))) /\
  (forall e (vs : list (FieldH R)), run_calls comm e vs = e).
Proof.
  split; [exact call_frame | exact run_calls_engine].
Qed.
End FrameFacts.

(** ** Failures of the constructor and of a call *)

Lemma tget_error {A : Type} (l : list A) (k : Z) (x : error) :
  tget l k = Err x -> x = IndexError.
Proof.
  unfold tget. destruct (_ || _); [now inversion 1|].
  destruct (nth_error _ _); now inversion 1.
Qed.

Lemma mapM_error {A B : Type} (f : A -> result B) (l : list A) (x : error) :
  mapM f l = Err x -> exists a, In a l /\ f a = Err x.
Proof.
  induction l as [|a l IH]; cbn; [discriminate|].
  destruct (f a) as [b|y] eqn:E; cbn.
  - destruct (mapM f l); cbn; [discriminate|].
    intros H. destruct (IH H) as (a' & Ha' & E'). eauto.
  - intros H. inversion H; subst. eauto.
Qed.

Lemma tgets_error {A : Type} (l : list A) (ks : list Z) (x : error) :
  tgets l ks = Err x -> x = IndexError.
Proof.
  intros H. apply mapM_error in H. destruct H as (k & _ & H).
  now apply tget_error in H.
Qed.

Section ErrorFacts.
Context {R : Type} {SR : Scalar R}.
Variable cis_turn : R -> complex R.
Variable comm : Alltoallv_call R -> list (list (complex R)).
Implicit Types (st : CallState R) (e : Engine R) (g : Grid R).

Lemma finish_error st n v x st' :
  finish st n v = (Err x, st') -> x = ShapeError.
Proof.
  unfold finish, scale_rows.
  destruct (_ =? n); [discriminate|].
  destruct (_ =? 1); [discriminate|].
  now inversion 1.
Qed.

Lemma accumulate_serial_error st index v x st' :
  accumulate_serial st index v = (Err x, st') -> x <> AssertionError.
Proof.
  unfold accumulate_serial.
  destruct (mapM _ v) as [vo|y] eqn:E.
  - destruct (symmetrized _ _ _) as [vs|y] eqn:Es; [discriminate|].
    intros [= <- <-]. apply symmetrized_error in Es.
    destruct Es as [_ ->]. discriminate.
  - intros [= <- <-].
    apply mapM_error in E. destruct E as (row & _ & E).
    apply mapM_error in E. destruct E as (ks & _ & E).
    apply tgets_error in E. now subst.
Qed.

Lemma accumulate_distributed_error st sp rp gix rix oix nb v x st' :
  accumulate_distributed comm st sp rp gix rix oix nb v = (Err x, st') ->
  x <> AssertionError.
Proof.
  unfold accumulate_distributed.
  destruct (mapM _ gix) as [src|y] eqn:E1.
  2:{ intros [= <- <-].
      apply mapM_error in E1. destruct E1 as (k & _ & E1).
      apply mapM_error in E1. destruct E1 as (row & _ & E1).
      apply tget_error in E1. now subst. }
  destruct (tgets _ oix) as [picked|y] eqn:E2.
  2:{ intros [= <- <-]. apply tgets_error in E2. now subst. }
  destruct (negb _); [intros [= <- <-]; discriminate|].
  destruct (symmetrized _ _ _) as [vs|y] eqn:Es.
  2:{ intros [= <- <-]. apply symmetrized_error in Es.
      destruct Es as [_ ->]. discriminate. }
  destruct (mapM _ rix) as [dest2|y] eqn:E3; [discriminate|].
  intros [= <- <-].
  apply mapM_error in E3. destruct E3 as (k & _ & E3).
  apply mapM_error in E3. destruct E3 as (vb & _ & E3).
  apply tget_error in E3. now subst.
Qed.

Lemma accumulated_wrong_grid st :
  grid_id (f_grid (cs_v st)) <> grid_id (e_grid (cs_self st)) ->
  accumulated comm st = (Err AssertionError, st).
Proof.
  intros NE. unfold accumulated.
  destruct (Nat.eqb_spec (grid_id (f_grid (cs_v st)))
                         (grid_id (e_grid (cs_self st)))); [tauto|].
  reflexivity.
Qed.

Lemma accumulated_assertion st st' :
  accumulated comm st = (Err AssertionError, st') ->
  grid_id (f_grid (cs_v st)) <> grid_id (e_grid (cs_self st)).
Proof.
  unfold accumulated.
  destruct (Nat.eqb_spec (grid_id (f_grid (cs_v st)))
                         (grid_id (e_grid (cs_self st)))) as [E|NE]; cbn;
    [|tauto].
  destruct (_ || _); cbn; [discriminate|].
  destruct (e_layout (cs_self st)); intros H; exfalso.
  - now apply accumulate_serial_error in H.
  - now apply accumulate_distributed_error in H.
Qed.

(** The assertion of line 107 is the only one of a call. *)
Lemma call_assertion_iff st :
  fst (call comm st) = Err AssertionError <->
  grid_id (f_grid (cs_v st)) <> grid_id (e_grid (cs_self st)).
Proof.
  split.
  - unfold call.
    destruct (accumulated comm st) as [[v_acc|x] st1] eqn:E; cbn.
    + destruct (finish _ _ _) as [[u|y] st2] eqn:Ef; cbn; [discriminate|].
      intros [= ->]. now apply finish_error in Ef.
    + intros [= ->]. eapply accumulated_assertion; eauto.
  - intros NE. unfold call. now rewrite accumulated_wrong_grid.
Qed.





(** A call that gets through the accumulation is a call on a field of
    the dtype of the phase table. *)
Lemma accumulated_ok_dtype st v_acc st1 :
  accumulated comm st = (Ok v_acc, st1) ->
  f_dtype (cs_v st) = phase_dtype (cs_self st).
Proof.
  unfold accumulated.
  destruct (negb (Nat.eqb _ _)); [discriminate|].
  destruct (_ || _); [discriminate|].
  destruct (e_layout (cs_self st)).
  - unfold accumulate_serial. destruct (mapM _ _); [|discriminate].
    destruct (symmetrized _ _ _) eqn:Es; [|discriminate].
    intros _. apply symmetrized_ok in Es. now apply dtype_eqb_eq.
  - unfold accumulate_distributed.
    destruct (mapM _ _); [|discriminate].
    destruct (tgets _ _); [|discriminate].
    destruct (negb _); [discriminate|].
    destruct (symmetrized _ _ _) eqn:Es; [|discriminate].
    intros _. apply symmetrized_ok in Es. now apply dtype_eqb_eq.
Qed.


Lemma init_distributed_error g reduced index is_conj mult x :
  init_distributed g reduced index is_conj mult = Err x ->
  x <> AssertionError.
Proof.
  unfold init_distributed.
  destruct (mapM _ index) as [whose|y] eqn:E1; cbn.
  2:{ intros H; inversion H; subst; clear H.
      apply mapM_error in E1. destruct E1 as (row & _ & E1).
      apply mapM_error in E1. destruct E1 as (k & _ & E1).
      destruct (tget (mesh_H g) k) eqn:E; cbn in E1; [discriminate|].
      inversion E1; subst. apply tget_error in E. now subst. }
  destruct (mapM _ (filter _ _)) as [gix|y] eqn:E2; cbn.
  2:{ intros H; inversion H; subst; clear H.
      apply mapM_error in E2. destruct E2 as (k & _ & E2).
      destruct (tget (mesh_H g) _) eqn:E; cbn in E2; [discriminate|].
      inversion E2; subst. apply tget_error in E. now subst. }
  destruct (negb _); [intros H; now inversion H|].
  destruct (tgets _ _) as [sw|y] eqn:E3; cbn; [discriminate|].
  intros H; inversion H; subst. apply tgets_error in E3. now subst.
Qed.

Lemma init_error g x :
  init cis_turn g = Err x -> x <> AssertionError.
Proof.
  unfold init, iH_reduced.
  destruct (tgets _ _) as [reduced|y] eqn:E1; cbn.
  2:{ intros H; inversion H; subst. apply tgets_error in E1. now subst. }
  destruct (1 <? n_procs g).
  - destruct (init_distributed _ _ _ _ _) as [ds|y] eqn:E2; cbn.
    + destruct (_ =? 0); [intros H; now inversion H|discriminate].
    + intros H; inversion H; subst.
      now apply init_distributed_error in E2.
  - cbn. destruct (_ =? 0); [intros H; now inversion H|discriminate].
Qed.

(** C8, as the code has it.  Neither the constructor nor a call checks
    the worker count of the grid partition against the one of the orbit
    partition: the constructor raises no assertion at all, and the one
    assertion of a call is the comparison of the grid of the field with
    the grid of the engine. *)
Theorem no_worker_count_check :
  (forall g, init cis_turn g <> Err AssertionError) /\
  (forall st,
      fst (call comm st) = Err AssertionError <->
      grid_id (f_grid (cs_v st)) <> grid_id (e_grid (cs_self st))).
Proof.
  split.
  - intros g H. now apply init_error in H.
  - exact call_assertion_iff.
Qed.
End ErrorFacts.

(** ** The communication schedule *)

Lemma diff_length (l : list Z) : length (diff l) = (length l - 1)%nat.
Proof.
  induction l as [|x [|y t] IH]; cbn in *; try reflexivity.
  rewrite IH. lia.
Qed.

Lemma but_last_length {A : Type} (l : list A) :
  length (but_last l) = (length l - 1)%nat.
Proof.
  unfold but_last. induction l as [|x [|y t] IH]; cbn in *; try reflexivity.
  rewrite IH. lia.
Qed.

Lemma nth_but_last_diff (l : list Z) (p : nat) :
  (p < length l - 1)%nat ->
  nth p (but_last l) 0 = hd 0 l + fold_right Z.add 0 (firstn p (diff l)).
Proof.
  unfold but_last. revert p.
  induction l as [|x [|y t] IH]; intros p Hp; cbn in Hp; try lia.
  destruct p as [|p].
  - cbn. lia.
  - change (removelast (x :: y :: t)) with (x :: removelast (y :: t)).
    change (diff (x :: y :: t)) with ((y - x) :: diff (y :: t)).
    cbn [nth firstn fold_right hd].
    rewrite IH by (cbn; lia). cbn [hd]. lia.
Qed.

Lemma sum_firstn_scale (n : Z) (l : list Z) (p : nat) :
  fold_right Z.add 0 (firstn p (map (fun c => c * n) l))
  = fold_right Z.add 0 (firstn p l) * n.
Proof.
  revert p. induction l as [|x l IH]; intros [|p]; cbn; try lia.
  rewrite IH. lia.
Qed.

Lemma prev_prefix_sums (n_batch : Z) (prev : list Z) :
  hd 0 prev = 0 ->
  exclusive_prefix_sums (scaled_counts n_batch prev)
                        (scaled_offsets n_batch prev).
Proof.
  intros H0. unfold exclusive_prefix_sums, scaled_counts, scaled_offsets.
  rewrite !length_map, diff_length, but_last_length. split; [reflexivity|].
  intros p Hp.
  rewrite sum_firstn_scale.
  change 0 with ((fun c => c * n_batch) 0) at 1. rewrite map_nth.
  rewrite nth_but_last_diff by exact Hp. rewrite H0. lia.
Qed.

Lemma searchsorted_zero (l : list Z) (v : Z) :
  Forall (fun x => v <= x) l -> searchsorted l v = 0.
Proof.
  destruct l as [|x l]; cbn; [reflexivity|].
  intros H. inversion H; subst.
  destruct (Z.ltb_spec x v); [lia|reflexivity].
Qed.

Lemma arange_succ (n : Z) :
  0 <= n -> arange (n + 1) = 0 :: map (fun k => k + 1) (arange n).
Proof.
  intros Hn. unfold arange.
  replace (Z.to_nat (n + 1)) with (S (Z.to_nat n)) by lia.
  cbn [seq map]. f_equal.
  rewrite <- seq_shift, !map_map. apply map_ext. intros; lia.
Qed.

Lemma arange_nonneg (n : Z) : Forall (fun k => 0 <= k) (arange n).
Proof.
  unfold arange. apply Forall_map, Forall_forall. intros; lia.
Qed.

Lemma arange_length (n : Z) : length (arange n) = Z.to_nat n.
Proof. unfold arange. now rewrite length_map, length_seq. Qed.

Lemma enumerate2_rows_nonneg {A : Type} (tbl : list (list A)) :
  Forall (fun e => 0 <= fst (fst e)) (enumerate2 tbl).
Proof.
  unfold enumerate2. apply Forall_concat, Forall_map, Forall_forall.
  intros [r row] Hin. apply Forall_map, Forall_forall. intros [c x] _.
  cbn. apply in_combine_l in Hin.
  pose proof (arange_nonneg (zlen tbl)) as H.
  rewrite Forall_forall in H. now apply H.
Qed.

Lemma Forall_filter_enum {A : Type} (f : Z * Z * A -> bool)
      (tbl : list (list A)) :
  Forall (fun e => 0 <= fst (fst e)) (filter f (enumerate2 tbl)).
Proof.
  apply Forall_forall. intros e He. apply filter_In in He.
  destruct He as [He _].
  pose proof (enumerate2_rows_nonneg tbl) as H.
  rewrite Forall_forall in H. now apply H.
Qed.

Lemma mapM_Forall {A B : Type} (f : A -> result B) (P : B -> Prop)
      (l : list A) (l' : list B) :
  (forall a b, In a l -> f a = Ok b -> P b) ->
  mapM f l = Ok l' -> Forall P l'.
Proof.
  revert l'. induction l as [|a l IH]; cbn; intros l' HP H.
  - inversion H. constructor.
  - destruct (f a) as [b|] eqn:E; cbn in H; [|discriminate].
    destruct (mapM f l) as [bs|] eqn:E'; cbn in H; [|discriminate].
    inversion H; subst. constructor; eauto.
Qed.

Lemma tget_In {A : Type} (l : list A) (k : Z) (a : A) :
  tget l k = Ok a -> In a l.
Proof.
  unfold tget. destruct (_ || _); [discriminate|].
  destruct (nth_error _ _) eqn:E; [|discriminate].
  intros H; inversion H; subst. eapply nth_error_In; eauto.
Qed.

Lemma firstn_incl {A : Type} (n : nat) (l : list A) (x : A) :
  In x (firstn n l) -> In x l.
Proof.
  revert n. induction l as [|y l IH]; intros [|n]; cbn; try tauto.
  intros [->|H]; eauto.
Qed.

Lemma skipn_incl {A : Type} (n : nat) (l : list A) (x : A) :
  In x (skipn n l) -> In x l.
Proof.
  revert n. induction l as [|y l IH]; intros [|n]; cbn; try tauto.
  intros H. right. eauto.
Qed.

Lemma py_slice_In {A : Type} (l : list A) (a b : Z) (x : A) :
  In x (py_slice l a b) -> In x l.
Proof.
  unfold py_slice. intros H.
  apply firstn_incl in H. now apply skipn_incl in H.
Qed.

Section ScheduleFacts.
Context {R : Type} {SR : Scalar R}.
Variable cis_turn : R -> complex R.
Variable comm : Alltoallv_call R -> list (list (complex R)).
Implicit Types (st : CallState R) (e : Engine R) (g : Grid R).

Lemma bounds_schedule n nb prev (data : list (complex R)) :
  bounds_from_zero n prev ->
  rank_schedule n (mkBufSpec data (scaled_counts nb prev)
                             (scaled_offsets nb prev)).
Proof.
  intros (Hn & H0 & Hlen). split; cbn.
  - unfold scaled_counts, zlen in *. rewrite length_map, diff_length. lia.
  - now apply prev_prefix_sums.
Qed.

Lemma whose_src_nonneg g index whose_src :
  Forall (fun v => 0 <= vz v) (mesh_H g) ->
  0 <= td_n_each (split2H g) ->
  mapM (mapM (fun k => v <- tget (mesh_H g) k ;;
                       Ok (whose_each (split2H g) (vz v)))) index
  = Ok whose_src ->
  Forall (Forall (fun w => 0 <= w)) whose_src.
Proof.
  intros Hz Hn. apply mapM_Forall. intros row ws _.
  apply mapM_Forall. intros k w _.
  destruct (tget (mesh_H g) k) as [v|] eqn:E; cbn; [|discriminate].
  intros H; inversion H; subst. unfold whose_each.
  apply tget_In in E. rewrite Forall_forall in Hz. specialize (Hz v E).
  destruct (Z.eq_dec (td_n_each (split2H g)) 0) as [->|NE].
  - rewrite Z.div_0_r. lia.
  - apply Z.div_pos; lia.
Qed.

Lemma init_distributed_bounds g reduced index is_conj mult ds :
  Forall (fun v => 0 <= vz v) (mesh_H g) ->
  0 <= td_n_each (split2H g) ->
  0 <= n_procs g ->
  init_distributed g reduced index is_conj mult = Ok ds ->
  exists sp rp gix rix oix,
    ds_layout ds = Distributed sp rp gix rix oix /\
    bounds_from_zero (n_procs g) sp /\ bounds_from_zero (n_procs g) rp.
Proof.
  intros Hz Hn Hp. unfold init_distributed.
  destruct (mapM _ index) as [whose|] eqn:E1; cbn; [|discriminate].
  destruct (mapM _ (filter _ _)) as [gix|] eqn:E2; cbn; [|discriminate].
  destruct (negb _); [discriminate|].
  destruct (tgets _ _) as [sw|] eqn:E3; cbn; [|discriminate].
  intros H; inversion H; subst; clear H. cbn.
  do 5 eexists. split; [reflexivity|].
  pose proof (whose_src_nonneg g index whose Hz Hn E1) as Hw.
  unfold bounds_from_zero, zlen.
  rewrite !length_map, !arange_length, (arange_succ _ Hp). cbn [map hd].
  repeat split; try lia.
  - apply searchsorted_zero.
    apply Forall_map. eapply Forall_impl; [|apply Forall_filter_enum].
    cbn. pose proof (Zle_0_nat (length reduced)). intros a Ha. lia.
  - apply searchsorted_zero.
    eapply (mapM_Forall _ (fun x => 0 <= x)); [|exact E3].
    intros k w _ Hk. apply tget_In in Hk.
    apply in_concat in Hk. destruct Hk as (row & Hrow & Hin).
    apply py_slice_In in Hrow.
    rewrite Forall_forall in Hw. specialize (Hw row Hrow).
    rewrite Forall_forall in Hw. now apply Hw.
Qed.

Lemma init_layout_bounds g e :
  init cis_turn g = Ok e -> 1 < n_procs g ->
  Forall (fun v => 0 <= vz v) (mesh_H g) ->
  0 <= td_n_each (split2H g) ->
  e_grid e = g /\
  exists sp rp gix rix oix,
    e_layout e = Distributed sp rp gix rix oix /\
    bounds_from_zero (n_procs g) sp /\ bounds_from_zero (n_procs g) rp.
Proof.
  intros Hi Hp Hz Hn. unfold init in Hi.
  destruct (iH_reduced g) as [reduced|]; cbn in Hi; [|discriminate].
  destruct (Z.ltb_spec 1 (n_procs g)); [|lia].
  destruct (init_distributed _ _ _ _ _) as [ds|] eqn:E; cbn in Hi;
    [|discriminate].
  destruct (_ =? 0); [discriminate|].
  inversion Hi; subst; clear Hi. cbn. split; [reflexivity|].
  eapply init_distributed_bounds; eauto. lia.
Qed.

(** The exchanges of a call, by cases on how far the call went. *)
Lemma call_exchanges g e st :
  init cis_turn g = Ok e -> 1 < n_procs g ->
  Forall (fun v => 0 <= vz v) (mesh_H g) ->
  0 <= td_n_each (split2H g) ->
  cs_self st = e ->
  exists new,
    cs_trace (snd (call comm st)) = cs_trace st ++ new /\
    Forall (fun c => rank_schedule (n_procs g) (a_send c) /\
                     rank_schedule (n_procs g) (a_recv c)) new /\
    match new with
    | [] => fst (call comm st) <> Ok tt
    | [gather] => fst (call comm st) <> Ok tt
    | [gather; scatter] => swapped_roles gather scatter
    | _ => False
    end.
Proof.
  intros Hi Hp Hz Hn He.
  destruct (init_layout_bounds g e Hi Hp Hz Hn)
    as (Hg & sp & rp & gix & rix & oix & Hl & Hsp & Hrp).
  set (ok := fun c : Alltoallv_call R =>
               rank_schedule (n_procs g) (a_send c) /\
               rank_schedule (n_procs g) (a_recv c)).
  assert (Hacc : exists new,
             cs_trace (snd (accumulated comm st)) = cs_trace st ++ new /\
             Forall ok new /\
             match new with
             | [] => forall v, fst (accumulated comm st) <> Ok v
             | [_] => forall v, fst (accumulated comm st) <> Ok v
             | [gather; scatter] => swapped_roles gather scatter
             | _ => False
             end).
  { assert (Hnone : forall (r : result (list (list (complex R)))),
              (forall v, r <> Ok v) ->
              exists new : list (Alltoallv_call R),
                cs_trace st = cs_trace st ++ new /\ Forall ok new /\
                match new with
                | [] => forall v, r <> Ok v
                | [_] => forall v, r <> Ok v
                | [gather; scatter] => swapped_roles gather scatter
                | _ => False
                end).
    { intros r Hr. exists []. rewrite app_nil_r. repeat split; auto. }
    unfold accumulated. rewrite He, Hl.
    destruct (negb (Nat.eqb _ _)); [apply Hnone; discriminate|].
    destruct (_ || _); [apply Hnone; discriminate|].
    unfold accumulate_distributed.
    destruct (mapM _ gix) as [src|]; [|apply Hnone; discriminate].
    set (gather := mkAlltoallv _ _).
    assert (Hgather : ok gather).
    { split; now apply bounds_schedule. }
    assert (Hone : forall (r : result (list (list (complex R)))),
              (forall v, r <> Ok v) ->
              exists new : list (Alltoallv_call R),
                cs_trace (log_call st gather) = cs_trace st ++ new /\
                Forall ok new /\
                match new with
                | [] => forall v, r <> Ok v
                | [_] => forall v, r <> Ok v
                | [gather; scatter] => swapped_roles gather scatter
                | _ => False
                end).
    { intros r Hr. exists [gather]. repeat split; auto. }
    destruct (tgets _ oix); [|apply Hone; discriminate].
    destruct (negb _); [apply Hone; discriminate|].
    destruct (symmetrized _ _ _); [|apply Hone; discriminate].
    destruct (mapM _ rix) as [dest2|].
    2:{ cbn [snd fst]. rewrite write_through_trace.
        apply Hone; discriminate. }
    set (scatter := mkAlltoallv _ _).
    exists [gather; scatter]. split; [|split].
    - cbn. now rewrite <- app_assoc.
    - repeat constructor; try apply Hgather; now apply bounds_schedule.
    - repeat split. }
  destruct Hacc as (new & Htr & Hok & Hnew). exists new.
  unfold call.
  destruct (accumulated comm st) as [[v_acc|x] st1]; cbn in *.
  - split; [|split; [exact Hok|]].
    + unfold finish. destruct (scale_rows _ _ _); cbn [snd];
        rewrite ?write_through_trace; exact Htr.
    + destruct new as [|c1 [|c2 [|c3 new]]]; auto;
        exfalso; now apply (Hnew v_acc).
  - split; [exact Htr|split; [exact Hok|]].
    destruct new as [|c1 [|c2 [|c3 new]]]; auto; discriminate.
Qed.

(** C7. In both exchanges of a call, the offsets of either side are the
    exclusive prefix sums of its counts in rank order, one count per
    worker (the offset of worker [p] is the sum of the counts of the
    workers below [p], 0 for worker 0); and the scatter exchange takes
    the counts and offsets of the gather exchange with the sending and
    the receiving side swapped.  A call issues the gather exchange, then
    the scatter exchange, and nothing else; a call that returns has
    issued both. *)
Theorem schedule_prefix_sums_and_swap g e st :
  init cis_turn g = Ok e -> 1 < n_procs g ->
  Forall (fun v => 0 <= vz v) (mesh_H g) ->
  0 <= td_n_each (split2H g) ->
  cs_self st = e ->
  exists new : list (Alltoallv_call R),
    cs_trace (snd (call comm st)) = cs_trace st ++ new /\
    Forall (fun c => rank_schedule (n_procs g) (a_send c) /\
                     rank_schedule (n_procs g) (a_recv c)) new /\
    (length new <= 2)%nat /\
    (forall gather scatter,
        new = [gather; scatter] -> swapped_roles gather scatter) /\
    (fst (call comm st) = Ok tt ->
     exists gather scatter, new = [gather; scatter]).
Proof.
  intros Hi Hp Hz Hn He.
  destruct (call_exchanges g e st Hi Hp Hz Hn He)
    as (new & Htr & Hok & Hnew).
  exists new. split; [exact Htr|]. split; [exact Hok|].
  destruct new as [|c1 [|c2 [|c3 new]]]; cbn [length].
  - split; [lia|]. split; [discriminate|]. intros H. contradiction.
  - split; [lia|]. split; [discriminate|]. intros H. contradiction.
  - split; [lia|]. split; [|eauto].
    intros gather scatter [= <- <-]. exact Hnew.
  - contradiction.
Qed.
End ScheduleFacts.

(** ** The weights of the last step *)

Lemma sorted_span (l : list Z) (lo hi : Z) :
  StronglySorted Z.lt l ->
  Forall (fun x => lo <= x < hi) l ->
  lo <= hi -> zlen l <= hi - lo.
Proof.
  intros Hs. revert lo. unfold zlen.
  induction Hs as [|x t Hs IH Hall]; intros lo Hr Hle; cbn [length].
  - cbn. lia.
  - inversion Hr as [|? ? Hx Ht]; subst.
    assert (Ht' : Forall (fun y => x + 1 <= y < hi) t).
    { rewrite Forall_forall in *. intros y Hy.
      specialize (Hall y Hy). specialize (Ht y Hy). lia. }
    specialize (IH (x + 1) Ht' ltac:(lia)). lia.
Qed.

Lemma sorted_full_range (l : list Z) (a : nat) :
  StronglySorted Z.lt l ->
  Forall (fun x => Z.of_nat a <= x < Z.of_nat a + zlen l) l ->
  l = map Z.of_nat (seq a (length l)).
Proof.
  intros Hs. revert a. unfold zlen.
  induction Hs as [|x t Hs IH Hall]; intros a Hr; [reflexivity|].
  cbn [length] in *. inversion Hr as [|? ? Hx Ht]; subst.
  assert (Ht' : Forall (fun y => x + 1 <= y
                                 < Z.of_nat a + Z.of_nat (S (length t))) t).
  { rewrite Forall_forall in *. intros y Hy.
    specialize (Hall y Hy). specialize (Ht y Hy). lia. }
  pose proof (sorted_span t _ _ Hs Ht' ltac:(lia)) as Hspan.
  unfold zlen in Hspan.
  assert (x = Z.of_nat a) by lia. subst x.
  cbn [seq map]. f_equal. apply IH.
  rewrite Forall_forall in *. intros y Hy. specialize (Ht' y Hy). lia.
Qed.

Lemma sorted_is_arange (l : list Z) (n : Z) :
  StronglySorted Z.lt l ->
  Forall (fun x => 0 <= x < n) l ->
  zlen l = n -> l = arange n.
Proof.
  intros Hs Hr Hn. unfold arange. rewrite <- Hn. unfold zlen.
  rewrite Nat2Z.id. apply (sorted_full_range l 0 Hs).
  cbn. now rewrite Hn.
Qed.

Lemma nth_arange (n : Z) (k : nat) :
  (k < Z.to_nat n)%nat -> nth k (arange n) 0 = Z.of_nat k.
Proof.
  intros Hk. unfold arange.
  change 0 with (Z.of_nat 0). rewrite map_nth, seq_nth by exact Hk.
  reflexivity.
Qed.

Lemma nth_firstn_lt {A : Type} (l : list A) (n j : nat) (d : A) :
  (j < n)%nat -> nth j (firstn n l) d = nth j l d.
Proof.
  revert n j. induction l as [|x l IH]; intros n j H.
  - now rewrite firstn_nil.
  - destruct n as [|n]; [lia|].
    destruct j as [|j]; cbn; [reflexivity|]. apply IH. lia.
Qed.

Lemma nth_skipn_add {A : Type} (l : list A) (n j : nat) (d : A) :
  nth j (skipn n l) d = nth (n + j) l d.
Proof.
  revert l. induction n as [|n IH]; intros l; [reflexivity|].
  destruct l as [|x l]; cbn [skipn Nat.add nth].
  - now destruct j.
  - apply IH.
Qed.

Lemma nth_chunk {A : Type} (n k : nat) (l : list A) (r : nat) :
  (r < k)%nat ->
  nth r (chunk n k l) [] = firstn n (skipn (r * n) l).
Proof.
  revert l r. induction k as [|k IH]; intros l r Hr; [lia|].
  destruct r as [|r]; cbn [chunk nth]; [reflexivity|].
  rewrite IH by lia. cbn [Nat.mul]. now rewrite skipn_skipn, Nat.add_comm.
Qed.

Lemma nth_concat_uniform {A : Type} (w : nat) (rows : list (list A))
      (k : nat) (d : A) :
  Forall (fun r => length r = w) rows ->
  (0 < w)%nat -> (k < length rows * w)%nat ->
  nth k (concat rows) d = nth (k mod w) (nth (k / w) rows []) d.
Proof.
  intros Hall Hw. revert k.
  induction Hall as [|r rows Hr Hall IH]; intros k Hk; [cbn in Hk; lia|].
  cbn [concat length] in *.
  destruct (Nat.lt_ge_cases k w) as [Hlt|Hge].
  - rewrite app_nth1 by lia.
    rewrite Nat.div_small, Nat.mod_small by exact Hlt. reflexivity.
  - rewrite app_nth2 by lia. rewrite Hr.
    rewrite IH by lia.
    replace k with ((k - w) + 1 * w)%nat at 3 4 by lia.
    rewrite Nat.div_add, Nat.Div0.mod_add by lia.
    replace ((k - w) / w + 1)%nat with (S ((k - w) / w)) by lia.
    reflexivity.
Qed.

Lemma combine_map_r {A B C D : Type} (f : B -> C) (h : A -> C -> D)
      (l : list A) (l' : list B) :
  map (fun p => h (fst p) (snd p)) (combine l (map f l'))
  = map (fun p => h (fst p) (f (snd p))) (combine l l').
Proof.
  revert l'. induction l as [|a l IH]; intros [|b l']; cbn;
    try reflexivity.
  now rewrite IH.
Qed.

Lemma count_of_pos (x : Z) (l : list Z) : In x l -> 1 <= count_of x l.
Proof.
  unfold count_of, zlen. induction l as [|y l IH]; cbn; [tauto|].
  destruct (Z.eqb_spec x y); cbn [length]; [lia|].
  intros [->|H]; [congruence|]. auto.
Qed.

Lemma arange_shift (a m : nat) :
  map Z.of_nat (seq a m)
  = map (fun k => Z.of_nat a + k) (map Z.of_nat (seq 0 m)).
Proof.
  revert a. induction m as [|m IH]; intros a; [reflexivity|].
  cbn [seq map]. f_equal; [lia|].
  rewrite (IH (S a)), (IH 1%nat), !map_map.
  apply map_ext. intros; lia.
Qed.

Lemma arange_app (n m : Z) :
  0 <= n -> 0 <= m ->
  arange (n + m) = arange n ++ map (fun k => n + k) (arange m).
Proof.
  intros Hn Hm. unfold arange.
  rewrite Z2Nat.inj_add, seq_app, map_app by lia. f_equal.
  cbn [Nat.add]. rewrite arange_shift, Z2Nat.id by lia. reflexivity.
Qed.

Lemma in_arange (n k : Z) : In k (arange n) <-> 0 <= k < n.
Proof.
  unfold arange. rewrite in_map_iff. split.
  - intros (i & <- & Hi). apply in_seq in Hi. lia.
  - intros Hk. exists (Z.to_nat k). split; [lia|]. apply in_seq. lia.
Qed.

Lemma firstn_exact {A : Type} (l1 l2 : list A) :
  firstn (length l1) (l1 ++ l2) = l1.
Proof. induction l1 as [|x l1 IH]; cbn; [now destruct l2 | now rewrite IH]. Qed.

Lemma skipn_exact {A : Type} (l1 l2 : list A) :
  skipn (length l1) (l1 ++ l2) = l2.
Proof. induction l1 as [|x l1 IH]; cbn; auto. Qed.

Lemma py_slice_inner {A : Type} (l : list A) (a b : Z) :
  0 <= a <= b -> b <= zlen l ->
  py_slice l a b = firstn (Z.to_nat (b - a)) (skipn (Z.to_nat a) l).
Proof.
  intros Hab Hb. unfold py_slice, slice_bound.
  destruct (Z.ltb_spec a 0); [lia|]. destruct (Z.ltb_spec b 0); [lia|].
  rewrite !Z.min_r, !Z.max_r by lia. reflexivity.
Qed.

Lemma py_slice_window {A : Type} (l1 l2 l3 : list A) :
  py_slice (l1 ++ l2 ++ l3) (zlen l1) (zlen l1 + zlen l2) = l2.
Proof.
  rewrite py_slice_inner.
  - unfold zlen. rewrite Nat2Z.id.
    replace (Z.to_nat _) with (length l2) by lia.
    rewrite skipn_exact. apply firstn_exact.
  - unfold zlen. lia.
  - unfold zlen. rewrite !length_app. lia.
Qed.

Lemma py_slice_arange (c : Z -> Z) (H2 a hm : Z) :
  0 <= a -> 0 <= hm -> a + hm <= H2 ->
  py_slice (map c (arange H2)) a (a + hm)
  = map (fun x => c (a + x)) (arange hm).
Proof.
  intros Ha Hhm Hle.
  set (l1 := map c (arange a)).
  set (l2 := map (fun x => c (a + x)) (arange hm)).
  set (l3 := map (fun x => c (a + (hm + x))) (arange (H2 - a - hm))).
  assert (E1 : zlen l1 = a).
  { unfold zlen, l1. rewrite length_map, arange_length. lia. }
  assert (E2 : zlen l2 = hm).
  { unfold zlen, l2. rewrite length_map, arange_length. lia. }
  transitivity (py_slice (l1 ++ l2 ++ l3) (zlen l1) (zlen l1 + zlen l2));
    [|apply py_slice_window].
  rewrite E1, E2. f_equal.
  replace H2 with (a + (hm + (H2 - a - hm))) at 1 by lia.
  rewrite (arange_app a), (arange_app hm) by lia.
  now rewrite !map_app, !map_map.
Qed.

Lemma slices_of_chunks (rows : nat) (c : Z -> Z) (H2 a hm : Z) :
  0 <= a -> 0 < hm -> a + hm <= H2 ->
  concat (map (fun r => py_slice r a (a + hm))
              (chunk (Z.to_nat H2) rows
                     (map c (arange (Z.of_nat rows * H2)))))
  = map (fun k => c (k / hm * H2 + a + k mod hm))
        (arange (Z.of_nat rows * hm)).
Proof.
  intros Ha Hhm Hle. revert c.
  induction rows as [|rows IH]; intros c; [reflexivity|].
  replace (Z.of_nat (S rows) * H2) with (H2 + Z.of_nat rows * H2) by lia.
  replace (Z.of_nat (S rows) * hm) with (hm + Z.of_nat rows * hm) by lia.
  rewrite (arange_app H2), (arange_app hm) by nia.
  rewrite !map_app, !map_map. cbn [chunk map concat].
  assert (Hlen : Z.to_nat H2 = length (map c (arange H2))).
  { now rewrite length_map, arange_length. }
  rewrite Hlen at 1 3. rewrite firstn_exact, skipn_exact. f_equal.
  - rewrite py_slice_arange by lia.
    apply map_ext_in. intros k Hk. apply in_arange in Hk.
    rewrite Z.div_small, Z.mod_small by lia. f_equal; lia.
  - rewrite (IH (fun x => c (H2 + x))).
    apply map_ext. intros k.
    replace (hm + k) with (k + 1 * hm) by lia.
    rewrite Z.div_add, Z.mod_add by lia. f_equal; lia.
Qed.

Section WeightFacts.
Context {R : Type} {SR : Scalar R}.
Variable cis_turn : R -> complex R.
Variable comm : Alltoallv_call R -> list (list (complex R)).
Implicit Types (st : CallState R) (e : Engine R) (g : Grid R).

Lemma gi_in_range g iH :
  shape_pos (shape g) -> shapeH g = shapeH_of (shape g) ->
  0 <= fst (gi g iH) < n_tot_of (shapeH g).
Proof.
  intros Hpos HH. unfold gi, get_index. cbn [fst]. rewrite HH.
  apply flat_index_bound; apply (folded_in_half_space (shape g) iH Hpos).
Qed.

Lemma index_table_in_range g :
  shape_pos (shape g) -> shapeH g = shapeH_of (shape g) ->
  Forall (fun x => 0 <= x < n_tot_of (shapeH g)) (concat (index_table g)).
Proof.
  intros Hpos HH. unfold index_table.
  destruct (iH_reduced g) as [reduced|]; [|constructor].
  unfold index_of, orbit_images. rewrite map_map.
  apply Forall_concat, Forall_map, Forall_forall. intros r _.
  rewrite map_map. apply Forall_map, Forall_forall. intros m _.
  now apply gi_in_range.
Qed.

Lemma multiplicity_full g :
  shape_pos (shape g) -> shapeH g = shapeH_of (shape g) ->
  zlen (multiplicity_of (index_table g)) = n_tot_of (shapeH g) ->
  multiplicity_of (index_table g)
  = map (occurrences g) (arange (n_tot_of (shapeH g))).
Proof.
  intros Hpos HH Hlen. unfold multiplicity_of, unique_counts in *.
  cbn [snd] in *. unfold zlen in Hlen. rewrite length_map in Hlen.
  rewrite (sorted_is_arange (unique (concat (index_table g)))
                            (n_tot_of (shapeH g))); [reflexivity| | |].
  - apply unique_sorted.
  - pose proof (index_table_in_range g Hpos HH) as Hr.
    rewrite Forall_forall in *. intros x Hx. apply Hr.
    now apply in_unique.
  - exact Hlen.
Qed.

Lemma occurrences_pos g k :
  shape_pos (shape g) -> shapeH g = shapeH_of (shape g) ->
  zlen (multiplicity_of (index_table g)) = n_tot_of (shapeH g) ->
  0 <= k < n_tot_of (shapeH g) -> 1 <= occurrences g k.
Proof.
  intros Hpos HH Hlen Hk. unfold occurrences. apply count_of_pos.
  apply in_unique.
  unfold multiplicity_of, unique_counts, zlen in Hlen. cbn [snd] in Hlen.
  rewrite length_map in Hlen.
  rewrite (sorted_is_arange (unique (concat (index_table g)))
                            (n_tot_of (shapeH g))).
  - unfold arange. apply in_map_iff. exists (Z.to_nat k).
    split; [lia|]. apply in_seq. lia.
  - apply unique_sorted.
  - pose proof (index_table_in_range g Hpos HH) as Hr.
    rewrite Forall_forall in *. intros x Hx. apply Hr.
    now apply in_unique.
  - exact Hlen.
Qed.

Lemma init_weights g e :
  init cis_turn g = Ok e ->
  e_grid e = g /\
  ((n_procs g <= 1 /\
    inv_multiplicity e = map (weight_of g) (multiplicity_of (index_table g)))
   \/
   (1 < n_procs g /\
    zlen (multiplicity_of (index_table g)) = n_tot_of (shapeH g) /\
    inv_multiplicity e
    = map (weight_of g)
          (concat (map (fun r => py_slice r (td_i_start (split2H g))
                                          (td_i_stop (split2H g)))
                       (chunk (Z.to_nat (vz (shapeH g)))
                              (Z.to_nat (vx (shapeH g) * vy (shapeH g)))
                              (multiplicity_of (index_table g))))))).
Proof.
  unfold init, index_table.
  destruct (iH_reduced g) as [reduced|]; cbn [bind]; [|discriminate].
  destruct (Z.ltb_spec 1 (n_procs g)) as [Hp|Hp].
  - destruct (init_distributed _ _ _ _ _) as [ds|] eqn:E; cbn [bind];
      [|discriminate].
    destruct (zlen (rot g) =? 0); [discriminate|].
    intros [= <-]. cbn [e_grid inv_multiplicity].
    split; [reflexivity|]. right. split; [exact Hp|].
    unfold init_distributed in E.
    destruct (mapM _ _) as [whose|]; cbn [bind] in E; [|discriminate].
    destruct (mapM _ (filter _ _)) as [gix|]; cbn [bind] in E;
      [|discriminate].
    destruct (Z.eqb_spec (zlen (multiplicity_of
                                  (index_of (orbit_images g reduced))))
                         (n_tot_of (shapeH g))) as [Hlen|];
      cbn [negb] in E; [|discriminate].
    destruct (tgets _ _); cbn [bind] in E; [|discriminate].
    injection E as <-. cbn [ds_multiplicity].
    split; [exact Hlen|reflexivity].
  - cbn [bind]. destruct (zlen (rot g) =? 0); [discriminate|].
    intros [= <-]. cbn [e_grid inv_multiplicity ds_multiplicity].
    split; [reflexivity|]. left. split; [lia|]. reflexivity.
Qed.

Lemma n_tot_as_rows g :
  grid_wf g ->
  0 < vz (shapeH g) /\ 0 <= vx (shapeH g) * vy (shapeH g) /\
  n_tot_of (shapeH g)
  = Z.of_nat (Z.to_nat (vx (shapeH g) * vy (shapeH g))) * vz (shapeH g) /\
  n_grid_of g
  = Z.of_nat (Z.to_nat (vx (shapeH g) * vy (shapeH g)))
    * vz (shapeH_mine g).
Proof.
  intros (Hpos & HH & Hx & Hy & _).
  unfold n_grid_of, n_tot_of. rewrite Hx, Hy, HH.
  destruct (shape g) as [[s0 s1] s2]. unvec. destruct Hpos as (? & ? & ?).
  pose proof (Z.div_pos s2 2 ltac:(lia) ltac:(lia)).
  assert (0 <= s0 * s1) by nia.
  rewrite Z2Nat.id by lia. repeat split; lia.
Qed.

Lemma global_of_range g k :
  grid_wf g -> 0 <= k < n_grid_of g ->
  0 <= global_of g k < n_tot_of (shapeH g).
Proof.
  intros Hwf Hk.
  destruct (n_tot_as_rows g Hwf) as (HH2 & Hrows & -> & Hng).
  destruct Hwf as (_ & _ & _ & _ & Ha & Hhm & Hstop & Hle & _).
  rewrite Hng in Hk. unfold global_of.
  set (rows := Z.of_nat _) in *. set (hm := vz (shapeH_mine g)) in *.
  set (H2 := vz (shapeH g)) in *. set (a := td_i_start _) in *.
  assert (0 < hm) by nia.
  pose proof (Z.mod_pos_bound k hm ltac:(lia)).
  pose proof (Z.div_pos k hm ltac:(lia) ltac:(lia)).
  assert (k / hm < rows) by (apply Z.div_lt_upper_bound; nia).
  assert (0 <= rows) by (unfold rows; lia).
  nia.
Qed.

Lemma weights_table g e :
  grid_wf g -> init cis_turn g = Ok e ->
  zlen (inv_multiplicity e) = n_grid_of g ->
  zlen (multiplicity_of (index_table g)) = n_tot_of (shapeH g) /\
  inv_multiplicity e = map (code_weight g) (arange (n_grid_of g)).
Proof.
  intros Hwf Hi Hlen.
  destruct (n_tot_as_rows g Hwf) as (HH2 & Hrows & Hnt & Hng).
  pose proof Hwf as (Hpos & HH & _ & _ & Ha & Hhm & Hstop & Hle & Hser).
  destruct (init_weights g e Hi) as (_ & [[Hp Hw]|(Hp & Hcov & Hw)]).
  - destruct (Hser Hp) as [Ha0 Hfull].
    assert (Heq : n_grid_of g = n_tot_of (shapeH g))
      by (rewrite Hng, Hnt, Hfull; reflexivity).
    assert (Hcov : zlen (multiplicity_of (index_table g))
                   = n_tot_of (shapeH g)).
    { rewrite <- Heq, <- Hlen, Hw. unfold zlen. now rewrite length_map. }
    split; [exact Hcov|].
    rewrite Hw, (multiplicity_full g Hpos HH Hcov), map_map, Heq.
    apply map_ext_in. intros k Hk. apply in_arange in Hk.
    unfold code_weight, global_of. rewrite Ha0, Hfull. do 2 f_equal.
    pose proof (Z.div_mod k (vz (shapeH g)) ltac:(lia)). lia.
  - split; [exact Hcov|].
    destruct (Z.eq_dec (vz (shapeH_mine g)) 0) as [Hz|Hnz].
    + rewrite Hng, Hz, Z.mul_0_r in *.
      destruct (inv_multiplicity e); [reflexivity|discriminate].
    + rewrite Hw, (multiplicity_full g Hpos HH Hcov), Hnt, Hstop.
      rewrite slices_of_chunks by lia.
      rewrite map_map, Hng. reflexivity.
Qed.

(** C1, as the code has it.  The last step of a call multiplies the value
    accumulated at every grid index by [1 / (|group| * multiplicity)],
    where the multiplicity of a grid index is the number of (orbit,
    operation) pairs whose folded image is that index, that is the number
    of values that were accumulated there (at least one); this holds when
    the weight table has one weight per grid point. *)
Theorem final_step_weights g e st st' :
  grid_wf g -> init cis_turn g = Ok e -> cs_self st = e ->
  zlen (inv_multiplicity e) = n_grid_of g ->
  call comm st = (Ok tt, st') ->
  exists v_acc st1,
    accumulated comm st = (Ok v_acc, st1) /\
    f_data (cs_v st') = weighted (code_weight g) (n_grid_of g) v_acc /\
    forall k, 0 <= k < n_grid_of g -> 1 <= occurrences g (global_of g k).
Proof.
  intros Hwf Hi He Hlen Hcall.
  destruct (weights_table g e Hwf Hi Hlen) as [Hcov Hw].
  pose proof Hwf as (Hpos & HH & _).
  assert (Hg : e_grid e = g) by (apply (init_weights g e Hi)).
  unfold call in Hcall.
  destruct (accumulated comm st) as [[v_acc|x] st1] eqn:Ea;
    [|discriminate].
  exists v_acc, st1. split; [reflexivity|]. split.
  - destruct (accumulated_frame comm st _ _ Ea) as [(Hs & _) _].
    unfold finish, scale_rows in Hcall. rewrite Hs, He, Hg in Hcall.
    destruct (Z.eqb_spec (zlen (inv_multiplicity e)) (n_grid_of g));
      [|contradiction].
    injection Hcall as <-. cbn [set_data cs_v f_data].
    unfold weighted. f_equal. apply map_ext. intros row.
    rewrite Hw. apply (combine_map_r (code_weight g) cscale).
  - intros k Hk. apply (occurrences_pos g _ Hpos HH Hcov).
    now apply global_of_range.
Qed.
End WeightFacts.

(** ** The trivial group *)

Lemma tget_nat {A : Type} (l : list A) (k : nat) (x : A) :
  nth_error l k = Some x -> tget l (Z.of_nat k) = Ok x.
Proof.
  intros H. unfold tget, zlen.
  assert (k < length l)%nat by (apply nth_error_Some; congruence).
  destruct (Z.ltb_spec (Z.of_nat k) 0); [lia|].
  destruct (Z.ltb_spec (Z.of_nat k) 0); [lia|].
  destruct (Z.leb_spec (Z.of_nat (length l)) (Z.of_nat k)); [lia|].
  cbn [orb]. now rewrite Nat2Z.id, H.
Qed.

Lemma skipn_cons_nth {A : Type} (l : list A) (a : nat) (x : A) :
  nth_error l a = Some x -> skipn a l = x :: skipn (S a) l.
Proof.
  revert l. induction a as [|a IH]; intros [|y l] H; cbn in H;
    try discriminate.
  - now inversion H.
  - cbn [skipn]. now apply IH.
Qed.

Lemma mapM_tget_seq {A B : Type} (f : A -> B) (l : list A) (m a : nat) :
  (a + m <= length l)%nat ->
  mapM (fun k => x <- tget l k ;; Ok (f x)) (map Z.of_nat (seq a m))
  = Ok (map f (firstn m (skipn a l))).
Proof.
  revert a. induction m as [|m IH]; intros a Hle; [reflexivity|].
  cbn [seq map mapM].
  destruct (nth_error l a) as [x|] eqn:E.
  2:{ apply nth_error_None in E. lia. }
  rewrite (tget_nat l a x E). cbn [bind].
  rewrite IH by lia. cbn [bind].
  rewrite (skipn_cons_nth l a x E). reflexivity.
Qed.

Lemma mapM_ext {A B : Type} (f h : A -> result B) (l : list A) :
  (forall a, f a = h a) -> mapM f l = mapM h l.
Proof.
  intros E. induction l as [|a l IH]; cbn; [reflexivity|].
  now rewrite E, IH.
Qed.

Lemma bind_ok {A : Type} (r : result A) : (x <- r ;; Ok x) = r.
Proof. now destruct r. Qed.

Lemma tgets_arange {A : Type} (l : list A) :
  tgets l (arange (zlen l)) = Ok l.
Proof.
  unfold tgets, arange, zlen. rewrite Nat2Z.id.
  rewrite (mapM_ext _ (fun k => x <- tget l k ;; Ok (id x)))
    by (intros; now rewrite bind_ok).
  rewrite mapM_tget_seq by lia.
  cbn [skipn]. now rewrite firstn_all, map_id.
Qed.


Lemma map_by_index {A B : Type} (f : A -> B) (h : nat -> B) (l : list A)
      (a : nat) :
  (forall k x, nth_error l k = Some x -> f x = h (a + k)%nat) ->
  map f l = map h (seq a (length l)).
Proof.
  revert a. induction l as [|x l IH]; intros a H; [reflexivity|].
  cbn [map length seq]. f_equal.
  - rewrite (H 0%nat x eq_refl). f_equal. lia.
  - apply IH. intros k y Hk. rewrite (H (S k) y Hk). f_equal. lia.
Qed.

Lemma arange_sorted (n : Z) : StronglySorted Z.lt (arange n).
Proof.
  unfold arange. generalize (Z.to_nat n) as m. intros m.
  generalize 0%nat as a. induction m as [|m IH]; intros a; cbn;
    constructor; [apply IH|].
  apply Forall_map, Forall_forall. intros k Hk. apply in_seq in Hk. lia.
Qed.

Lemma count_of_notin (x : Z) (l : list Z) : ~ In x l -> count_of x l = 0.
Proof.
  unfold count_of, zlen. induction l as [|y l IH]; cbn; [reflexivity|].
  intros H. destruct (Z.eqb_spec x y);
    [exfalso; apply H; left; congruence|]. apply IH. tauto.
Qed.

Lemma count_of_sorted (x : Z) (l : list Z) :
  StronglySorted Z.lt l -> In x l -> count_of x l = 1.
Proof.
  induction 1 as [|y l Hs IH Hall]; [intros []|].
  intros Hin. unfold count_of, zlen in *. cbn [filter].
  rewrite Forall_forall in Hall.
  destruct (Z.eqb_spec x y) as [->|NE].
  - cbn [length].
    assert (H0 : count_of y l = 0).
    { apply count_of_notin. intros Hy. specialize (Hall y Hy). lia. }
    unfold count_of, zlen in H0. lia.
  - destruct Hin as [->|Hin]; [congruence|]. now apply IH.
Qed.

Lemma concat_singletons {A B : Type} (f : A -> B) (l : list A) :
  concat (map (fun x => [f x]) l) = map f l.
Proof. induction l as [|x l IH]; cbn; [reflexivity|]. now rewrite IH. Qed.

Lemma combine_const_r {A B : Type} (c : B) (l1 : list A) {D : Type}
      (l2 : list D) :
  length l2 = length l1 ->
  combine l1 (map (fun _ => c) l2) = map (fun x => (x, c)) l1.
Proof.
  revert l2. induction l1 as [|x l1 IH]; intros [|y l2] H; cbn in *;
    try discriminate; try reflexivity.
  f_equal. apply IH. lia.
Qed.

Section TrivialGroup.
Context {R : Type} {SR : Scalar R}.
Variable cis_turn : R -> complex R.
Variable comm : Alltoallv_call R -> list (list (complex R)).
Implicit Types (st : CallState R) (e : Engine R) (g : Grid R).

Add Field scalar_field_tactics : (scalar_field (R := R)).

Lemma cadd_c0_l (x : complex R) : cadd c0 x = x.
Proof. destruct x as [a b]. unfold cadd, c0, re, im; cbn. f_equal; ring. Qed.

Lemma cmul_c1_r (x : complex R) : cmul x c1 = x.
Proof. destruct x as [a b]. unfold cmul, c1, re, im; cbn. f_equal; ring. Qed.

Lemma cmul_conj_c1_r (x : complex R) : cmul x (cconj c1) = x.
Proof.
  destruct x as [a b]. unfold cmul, cconj, c1, re, im; cbn. f_equal; ring.
Qed.

Lemma cscale_r1 (x : complex R) : cscale x r1 = x.
Proof. destruct x as [a b]. unfold cscale, re, im; cbn. f_equal; ring. Qed.

Lemma imag_scale_true (x : complex R) :
  (re x, rmul (im x) (real_of_bool true)) = x.
Proof. destruct x as [a b]. unfold re, im; cbn. f_equal; ring. Qed.

Lemma csum_one (x : complex R) : csum [x] = x.
Proof.
  destruct x as [a b]. unfold csum, cadd, c0, re, im; cbn. f_equal; ring.
Qed.

Lemma vdot_no_trans (iH : vec3) : ropp (vdot_trans iH no_trans) = r0.
Proof. unfold vdot_trans, no_trans; cbn. ring. Qed.

Lemma unit_weight : rdiv (rdiv r1 (of_Z 1)) (of_Z 1) = r1.
Proof.
  cbn. pose proof (F_1_neq_0 scalar_field). field. assumption.
Qed.


Lemma conjugate_rows {D : Type} (mesh : list D) (row : list (complex R)) :
  length mesh = length row ->
  map (fun p : list (complex R) * list bool =>
         map (fun q => (re (fst q),
                        rmul (im (fst q)) (real_of_bool (snd q))))
             (combine (fst p) (snd p)))
      (combine (map (fun x => [x]) row) (map (fun _ => [true]) mesh))
  = map (fun x => [x]) row.
Proof.
  intros Hlen. rewrite combine_const_r by (now rewrite length_map).
  rewrite !map_map. apply map_ext. intros x. cbn.
  now rewrite imag_scale_true.
Qed.

Lemma einsum_rows {D : Type} (mesh : list D) (row : list (complex R)) :
  length mesh = length row ->
  map (fun p : list (complex R) * list (complex R) =>
         csum (map (fun q => cmul (fst q) (snd q))
                   (combine (fst p) (snd p))))
      (combine (map (fun x => [x]) row) (map (fun _ => [c1]) mesh))
  = row.
Proof.
  intros Hlen. rewrite combine_const_r by (now rewrite length_map).
  rewrite !map_map. rewrite <- (map_id row) at 2.
  apply map_ext. intros x. cbn [fst snd combine map].
  now rewrite cmul_c1_r, csum_one.
Qed.

Lemma expand_rows {D : Type} (mesh : list D) (row : list (complex R)) :
  length mesh = length row ->
  map (fun p : complex R * list (complex R) =>
         map (fun ph => cmul (fst p) (cconj ph)) (snd p))
      (combine row (map (fun _ => [c1]) mesh))
  = map (fun x => [x]) row.
Proof.
  intros Hlen. rewrite combine_const_r by exact Hlen.
  rewrite map_map. apply map_ext. intros x. cbn.
  now rewrite cmul_conj_c1_r.
Qed.

Lemma add_at_app (done : list (complex R)) (y x : complex R)
      (rest : list (complex R)) :
  add_at (done ++ y :: rest) (length done) x = done ++ cadd y x :: rest.
Proof. induction done as [|d done IH]; cbn; [reflexivity|]. now rewrite IH. Qed.

Lemma norm_index_nat (n : Z) (k : nat) : norm_index n (Z.of_nat k) = k.
Proof.
  unfold norm_index. destruct (Z.ltb_spec (Z.of_nat k) 0); lia.
Qed.

Lemma accumulate_fold_zeros (n : Z) (xs done : list (complex R)) :
  0 <= n ->
  fold_left (fun acc p => add_at acc (norm_index n (fst p)) (snd p))
            (combine (map Z.of_nat (seq (length done) (length xs))) xs)
            (done ++ map (fun _ => c0) xs)
  = done ++ xs.
Proof.
  intros Hn. revert done. induction xs as [|x xs IH]; intros done;
    [reflexivity|].
  cbn [length seq map combine fold_left fst snd].
  rewrite norm_index_nat, add_at_app, cadd_c0_l.
  specialize (IH (done ++ [x])).
  rewrite length_app, Nat.add_1_r, <- !app_assoc in IH. exact IH.
Qed.

Lemma accumulate_identity (row : list (complex R)) :
  accumulate (map (fun _ => c0) row) (arange (zlen row)) row = row.
Proof.
  unfold accumulate, arange, zlen. rewrite length_map, Nat2Z.id.
  apply (accumulate_fold_zeros _ row []). lia.
Qed.

Lemma combine_map_same {A B C : Type} (f : A -> B) (h : A -> C)
      (l : list A) :
  combine (map f l) (map h l) = map (fun x => (f x, h x)) l.
Proof. induction l as [|x l IH]; cbn; [reflexivity|]. now rewrite IH. Qed.


Lemma symmetrize_orbits_trivial e {D : Type} (mesh : list D)
      (rows : list (list (complex R))) :
  imag_scale e = map (fun _ => [true]) mesh ->
  phase e = map (fun _ => [c1]) mesh ->
  (forall row, In row rows -> length mesh = length row) ->
  symmetrize_orbits e (map (fun row => map (fun x => [x]) row) rows)
  = map (fun row => map (fun x => [x]) row) rows.
Proof.
  intros Hi Hph Hrow.
  assert (Hc : conjugate e (map (fun row => map (fun x => [x]) row) rows)
               = map (fun row => map (fun x => [x]) row) rows).
  { unfold conjugate. rewrite Hi, map_map. apply map_ext_in.
    intros row Hin. now apply conjugate_rows, Hrow. }
  unfold symmetrize_orbits. rewrite Hc.
  assert (He : einsum_bos_os e
                 (map (fun row => map (fun x => [x]) row) rows) = rows).
  { unfold einsum_bos_os. rewrite Hph, map_map.
    rewrite <- (map_id rows) at 2. apply map_ext_in.
    intros row Hin. now apply einsum_rows, Hrow. }
  rewrite He.
  assert (Hx : expand e rows
               = map (fun row => map (fun x => [x]) row) rows).
  { unfold expand. rewrite Hph. apply map_ext_in.
    intros row Hin. now apply expand_rows, Hrow. }
  now rewrite Hx.
Qed.


End TrivialGroup.

(** ** The examples *)

Ltac by_computation := vm_compute; solve [reflexivity | congruence].
Ltac conjuncts := repeat match goal with |- _ /\ _ => split end.

Lemma init_engine_of_C2z : init cis_quarter grid_C2z = Ok (engine_of grid_C2z).
Proof. vm_compute. reflexivity. Qed.

Lemma canonical_key_minimum_and_order_witness :
  In I3 (rot grid_C2z) /\
  StronglySorted Z.lt (orbit_keys grid_C2z) /\
  orbit_keys grid_C2z = [0; 1; 2] /\
  min_equiv_index grid_C2z = [0; 1; 2; 1].
Proof.
  assert (H : In I3 (rot grid_C2z)) by (left; reflexivity).
  destruct (canonical_key_minimum_and_order grid_C2z H) as (_ & Hs & _).
  split; [exact H|]. split; [exact Hs|].
  split; vm_compute; reflexivity.
Defined.

Lemma call_C3_fails :
  let st := start (engine_of grid_C3)
                  (field_on grid_C3 (map creal (arange 48))) in
  call no_comm st = (Err ShapeError, snd (call no_comm st)).
Proof.
  intros st.
  transitivity (fst (call no_comm st), snd (call no_comm st));
    [apply surjective_pairing|].
  apply (f_equal2 pair); [by_computation | reflexivity].
Qed.


(** C9 as stated fails.  On the cubic grid with the three-fold rotation
    a call raises at the multiplication by the weights, and leaves in the
    caller's buffer the accumulated values without their weights: the
    value at the index 9, which is in no orbit, is zero. *)
Lemma failed_call_leaves_partial_buffer :
  ~ no_partial_buffer no_comm
      (start (engine_of grid_C3)
             (field_on grid_C3 (map creal (arange 48)))).
Proof.
  intros H. specialize (H _ _ call_C3_fails).
  apply (f_equal (fun d => parts (firstn 10 d))) in H.
  vm_compute in H. discriminate H.
Qed.

(** C8 as stated fails: worker 0 of two workers, on a grid partitioned
    for three, builds its engine and goes through both exchanges of a
    call, which returns normally. *)
Lemma mismatch_is_not_detected :
  ~ mismatch_detected cis_quarter no_comm grid_mismatch
      (field_on grid_mismatch [creal 1]).
Proof.
  unfold mismatch_detected. intros H.
  assert (Hne : td_n_procs (split2H grid_mismatch) <> n_procs grid_mismatch)
    by (vm_compute; discriminate).
  specialize (H Hne). vm_compute in H. exact H.
Qed.

Lemma mismatch_goes_through_both_exchanges :
  match symmetrize cis_quarter no_comm grid_mismatch
                   (field_on grid_mismatch [creal 1]) with
  | Ok (Ok tt, st) => length (cs_trace st) = 2%nat
  | _ => False
  end.
Proof. vm_compute. reflexivity. Qed.


Lemma schedule_prefix_sums_and_swap_witness :
  let g := grid_two_workers in
  let st := start (engine_of g)
                  (field_on g (map creal [1; 2; 3; 4; 5; 6; 7; 8])) in
  fst (call no_comm st) = Ok tt /\
  exists gather scatter,
    cs_trace (snd (call no_comm st)) = [gather; scatter] /\
    rank_schedule 2 (a_send gather) /\ rank_schedule 2 (a_recv gather) /\
    rank_schedule 2 (a_send scatter) /\ rank_schedule 2 (a_recv scatter) /\
    swapped_roles gather scatter.
Proof.
  intros g st.
  assert (Hcall : fst (call no_comm st) = Ok tt) by by_computation.
  split; [exact Hcall|].
  assert (Hi : init cis_quarter g = Ok (engine_of g)) by by_computation.
  assert (Hp : 1 < n_procs g) by by_computation.
  assert (Hz : Forall (fun v => 0 <= vz v) (mesh_H g)).
  { apply Forall_forall. intros v Hv.
    assert (H : forallb (fun v => 0 <=? vz v) (mesh_H g) = true)
      by by_computation.
    rewrite forallb_forall in H. apply Z.leb_le. now apply H. }
  assert (Hn : 0 <= td_n_each (split2H g)) by by_computation.
  destruct (schedule_prefix_sums_and_swap cis_quarter no_comm g
              (engine_of g) st Hi Hp Hz Hn eq_refl)
    as (new & Htr & Hok & _ & Hsw & Htwo).
  destruct (Htwo Hcall) as (gather & scatter & ->).
  exists gather, scatter.
  inversion Hok as [|c1 l1 (H1 & H2) Hok1]; subst.
  inversion Hok1 as [|c2 l2 (H3 & H4) _]; subst.
  split; [exact Htr|]. change (n_procs g) with 2 in *.
  split; [exact H1|]. split; [exact H2|]. split; [exact H3|].
  split; [exact H4|]. now apply Hsw.
Defined.

Lemma grid_C2z_wf : grid_wf grid_C2z.
Proof.
  unfold grid_wf, shape_pos.
  conjuncts; try by_computation. intros _. conjuncts; by_computation.
Qed.

Lemma call_C2z_ok :
  let st := start (engine_of grid_C2z)
                  (field_on grid_C2z (map creal [1; 2; 3; 4])) in
  call no_comm st = (Ok tt, snd (call no_comm st)).
Proof.
  intros st.
  transitivity (fst (call no_comm st), snd (call no_comm st));
    [apply surjective_pairing|].
  apply (f_equal2 pair); [by_computation | reflexivity].
Qed.

Lemma final_step_weights_witness :
  let g := grid_C2z in
  let st := start (engine_of g) (field_on g (map creal [1; 2; 3; 4])) in
  exists v_acc st1,
    accumulated no_comm st = (Ok v_acc, st1) /\
    f_data (cs_v (snd (call no_comm st)))
    = weighted (code_weight g) (n_grid_of g) v_acc /\
    forall k, 0 <= k < n_grid_of g -> 1 <= occurrences g (global_of g k).
Proof.
  intros g st.
  apply (final_step_weights cis_quarter no_comm g (engine_of g) st).
  - exact grid_C2z_wf.
  - by_computation.
  - reflexivity.
  - by_computation.
  - exact call_C2z_ok.
Defined.

(** C1 as stated fails.  The grid of four points with the two-fold
    rotation: the orbits are [{0}], [{1, 3}] and [{2}]; the index 1, whose
    orbit has two distinct members, is weighted by [1/2] and not by
    [1/4], and the index 0, whose orbit has one member, by [1/4] and not
    by [1/2]. *)
Lemma final_step_not_as_stated :
  ~ final_step_as_stated no_comm grid_C2z
      (start (engine_of grid_C2z)
             (field_on grid_C2z (map creal [1; 2; 3; 4]))).
Proof.
  intros H.
  destruct (H _ call_C2z_ok) as (v_acc & st1 & Hacc & Hdata).
  vm_compute in Hacc. injection Hacc as <- <-.
  apply (f_equal parts) in Hdata. vm_compute in Hdata. discriminate Hdata.
Qed.

Lemma weights_C2z :
  map this (inv_multiplicity (engine_of grid_C2z))
  = [(1 # 4)%Q; (1 # 2)%Q; (1 # 4)%Q; (1 # 2)%Q] /\
  map (fun k => this (stated_weight grid_C2z k)) [0; 1; 2; 3]
  = [(1 # 2)%Q; (1 # 4)%Q; (1 # 2)%Q; (1 # 4)%Q] /\
  parts (data_after 1 grid_C2z (map creal [1; 2; 3; 4]))
  = [(1%Q, 0%Q); (3%Q, 0%Q); (3%Q, 0%Q); (3%Q, 0%Q)].
Proof. conjuncts; by_computation. Qed.



(** The three operations [I3], [C3d], [C3d2] form a group, and map the
    periods of the cubic grid to themselves. *)
Lemma C3_group :
  (forall u, vecmat (vecmat u C3d) C3d = vecmat u C3d2) /\
  (forall u, vecmat (vecmat u C3d2) C3d = u) /\
  (forall u, vecmat (vecmat u C3d) C3d2 = u) /\
  (forall u, vecmat (vecmat u C3d2) C3d2 = vecmat u C3d).
Proof.
  conjuncts; intros [[a b] c];
    cbv [vecmat C3d C3d2 vx vy vz fst snd];
    (f_equal; [f_equal|]); lia.
Qed.

(** C3 fails on the code.  On the cubic 4 x 4 x 4 grid with the
    three-fold rotation about the diagonal, the grid index 23 (frequency
    [(1, -1, 2)], in the plane of the highest frequency of the folded
    axis) has the canonical key 23, while its image under the rotation,
    which folds to the index 34, has the canonical key 34; the index 34
    is a member of two orbits and the index 9 of none; the weight table
    has 39 entries for the 48 grid points, on which the last step of
    every call fails. *)
Theorem orbit_keys_not_invariant :
  nth_error (mesh_H grid_C3) 23 = Some (1, -1, 2) /\
  gi grid_C3 (vecmat (1, -1, 2) C3d) = (34, true) /\
  nth_error (min_equiv_index grid_C3) 23 = Some 23 /\
  nth_error (min_equiv_index grid_C3) 34 = Some 34 /\
  filter (fun row => existsb (Z.eqb 34) row) (index_table grid_C3)
  = [[23; 34; 43]; [34; 43; 41]] /\
  occurrences grid_C3 9 = 0 /\
  zlen (inv_multiplicity (engine_of grid_C3)) = 39 /\
  n_grid_of grid_C3 = 48 /\
  init cis_quarter grid_C3 = Ok (engine_of grid_C3) /\
  fst (call no_comm (start (engine_of grid_C3)
                           (field_on grid_C3 (map creal (arange 48)))))
  = Err ShapeError /\
  ~ image_key_invariant grid_C3 /\
  ~ orbits_partition grid_C3.
Proof.
  do 10 (split; [by_computation|]). split.
  - intros H.
    specialize (H 23%nat (1, -1, 2) C3d (2, -1, 1)).
    assert (E : min_equiv_key grid_C3 (2, -1, 1)
                = min_equiv_key grid_C3 (1, -1, 2)).
    { apply H; [by_computation | right; left; reflexivity
                | by_computation]. }
    vm_compute in E. discriminate E.
  - intros H. specialize (H 34 ltac:(vm_compute; split; congruence)).
    vm_compute in H. discriminate H.
Qed.

(** C5 fails on the code.  On the grid of one column of four points with
    the inversion about [(0, 0, 1/8)], the operation that maps the
    frequency [(0, 0, 1)] to [(0, 0, -1)] is flagged for conjugation, but
    the conjugation scale is [True] (that is 1) everywhere; a first pass
    turns the data [[0; 1; 0]] into [[0; 1/2; 0]], and a second pass turns
    these into [[0; 1/4; 0]]. *)
Theorem second_pass_changes_field :
  init cis_quarter grid_inversion = Ok (engine_of grid_inversion) /\
  index_table grid_inversion = [[0; 0]; [1; 1]; [2; 2]] /\
  match iH_reduced grid_inversion with
  | Ok reduced => is_conj_of (orbit_images grid_inversion reduced)
  | Err _ => []
  end = [[false; false]; [false; true]; [false; false]] /\
  imag_scale (engine_of grid_inversion)
  = [[true; true]; [true; true]; [true; true]] /\
  map parts (phase (engine_of grid_inversion))
  = [[(1%Q, 0%Q); (1%Q, 0%Q)]; [(1%Q, 0%Q); (0%Q, (-1)%Q)];
     [(1%Q, 0%Q); ((-1)%Q, 0%Q)]] /\
  fst (call no_comm (start (engine_of grid_inversion)
                           (field_on grid_inversion
                                     [creal 0; creal 1; creal 0])))
  = Ok tt /\
  parts (data_after 1 grid_inversion [creal 0; creal 1; creal 0])
  = [(0%Q, 0%Q); ((1 # 2)%Q, 0%Q); (0%Q, 0%Q)] /\
  fst (call no_comm
            (start (engine_of grid_inversion)
                   (field_on grid_inversion
                             (data_after 1 grid_inversion
                                         [creal 0; creal 1; creal 0]))))
  = Ok tt /\
  parts (data_after 2 grid_inversion [creal 0; creal 1; creal 0])
  = [(0%Q, 0%Q); ((1 # 4)%Q, 0%Q); (0%Q, 0%Q)] /\
  data_after 2 grid_inversion [creal 0; creal 1; creal 0]
  <> data_after 1 grid_inversion [creal 0; creal 1; creal 0].
Proof.
  do 9 (split; [by_computation|]).
  intros H. apply (f_equal parts) in H. vm_compute in H. discriminate H.
Qed.

(** ** Further results on [get_index]: periodicity, stored
    representatives and Hermitian partners *)

Lemma neg_mod_small (a s : Z) :
  0 < s -> 0 < a < s -> (- a) mod s = s - a.
Proof.
  intros Hs Ha. symmetry. apply (Z.mod_unique _ _ (-1)); lia.
Qed.

Lemma neg_mod_involutive (a s : Z) :
  0 < s -> (- ((- a) mod s)) mod s = a mod s.
Proof.
  intros Hs.
  pose proof (Z.mod_pos_bound a s Hs) as Ha.
  destruct (Z.eq_dec (a mod s) 0) as [E|NE].
  - rewrite (Z.mod_opp_l_z a s) by lia. rewrite E. reflexivity.
  - rewrite (Z.mod_opp_l_nz a s) by lia.
    rewrite neg_mod_small by lia. lia.
Qed.

Lemma mod_neg_mod (a s : Z) :
  0 < s -> (- (a mod s)) mod s = (- a) mod s.
Proof.
  intros Hs.
  pose proof (Z.mod_pos_bound a s Hs) as Ha.
  destruct (Z.eq_dec (a mod s) 0) as [E|NE].
  - rewrite (Z.mod_opp_l_z a s) by lia. rewrite E. reflexivity.
  - rewrite (Z.mod_opp_l_nz a s) by lia.
    rewrite neg_mod_small by lia. lia.
Qed.

Lemma half_bound (s : Z) : 0 < s -> 1 + s / 2 <= s.
Proof.
  intros Hs. pose proof (Z.div_mod s 2 ltac:(lia)).
  pose proof (Z.mod_pos_bound s 2 ltac:(lia)). lia.
Qed.

(** The flat index of a point of the half space determines the point. *)
Lemma flat_index_injective (sH u v : vec3) :
  0 <= vy u < vy sH -> 0 <= vz u < vz sH ->
  0 <= vy v < vy sH -> 0 <= vz v < vz sH ->
  dot u (strideH_of sH) = dot v (strideH_of sH) -> u = v.
Proof.
  destruct sH as [[h0 h1] h2], u as [[a b] c], v as [[a' b'] c']. unvec.
  intros Hb Hc Hb' Hc' E.
  assert (E1 : (a * h1 + b) * h2 + c = (a' * h1 + b') * h2 + c') by lia.
  assert (Ec : c = c').
  { transitivity (((a * h1 + b) * h2 + c) mod h2).
    - rewrite Z.add_comm, Z.mod_add by lia. symmetry.
      apply Z.mod_small. lia.
    - rewrite E1, Z.add_comm, Z.mod_add by lia. apply Z.mod_small. lia. }
  subst c'.
  assert (E2 : a * h1 + b = a' * h1 + b').
  { apply (Z.mul_cancel_r _ _ h2); lia. }
  assert (Eb : b = b').
  { transitivity ((a * h1 + b) mod h1).
    - rewrite Z.add_comm, Z.mod_add by lia. symmetry.
      apply Z.mod_small. lia.
    - rewrite E2, Z.add_comm, Z.mod_add by lia. apply Z.mod_small. lia. }
  subst b'.
  assert (a = a') by (apply (Z.mul_cancel_r _ _ h1); lia).
  now subst.
Qed.

(** X1. [get_index] depends on its argument only through the residues
    modulo the grid period: a shift of any component by a multiple of its
    period changes neither the index nor the conjugation flag (whatever
    the shapes). *)
Theorem get_index_periodic (shapeR shapeH iH n : vec3) :
  get_index shapeR shapeH
            (vx iH + vx n * vx shapeR, vy iH + vy n * vy shapeR,
             vz iH + vz n * vz shapeR)
  = get_index shapeR shapeH iH.
Proof.
  destruct shapeR as [[s0 s1] s2], iH as [[a b] c], n as [[n0 n1] n2].
  unfold get_index, folded, conj_needed, wrapped. unvec.
  now rewrite !Z_mod_plus_full.
Qed.

(** X2. The vector [get_index] forms the index of (the wrapped vector, or
    its negative modulo the period when conjugation is needed) is a stored
    point of the half space: handed back to [get_index], it gets the
    same index and needs no conjugation. *)
Theorem get_index_of_stored_representative (shapeR iH : vec3) :
  shape_pos shapeR ->
  let shapeH := shapeH_of shapeR in
  get_index shapeR shapeH (folded shapeR shapeH iH)
  = (fst (get_index shapeR shapeH iH), false).
Proof.
  intros Hpos shapeH.
  pose proof (folded_in_half_space shapeR iH Hpos) as (Hx & Hy & Hz).
  fold shapeH in Hx, Hy, Hz.
  set (f := folded shapeR shapeH iH) in *.
  assert (Hw : wrapped shapeR f = f).
  { subst shapeH. clearbody f.
    destruct shapeR as [[s0 s1] s2], f as [[a b] c].
    unfold wrapped. unvec. destruct Hpos as (H0 & H1 & H2).
    pose proof (half_bound s2 H2).
    rewrite !Z.mod_small by lia. reflexivity. }
  assert (Hc : conj_needed shapeR shapeH f = false).
  { unfold conj_needed. rewrite Hw. apply Z.leb_gt. lia. }
  unfold get_index at 1. unfold folded at 1. rewrite Hc, Hw.
  reflexivity.
Qed.

Lemma get_index_of_stored_representative_witness :
  shape_pos (4, 4, 4) /\
  get_index (4, 4, 4) (shapeH_of (4, 4, 4))
            (folded (4, 4, 4) (shapeH_of (4, 4, 4)) (2, 1, -1))
  = (fst (get_index (4, 4, 4) (shapeH_of (4, 4, 4)) (2, 1, -1)), false).
Proof.
  split; [unvec; lia|].
  apply (get_index_of_stored_representative (4, 4, 4) (2, 1, -1)).
  unvec; lia.
Defined.

(** X3. Hermitian partners share their index: when [get_index] flags a
    vector for conjugation, the negative of the vector gets the same
    index and is not flagged; and a vector that is not flagged and whose
    wrapped last component lies strictly between 0 and half the period
    has a flagged negative, with the same index.  (On the planes of the
    wrapped last component 0 and, for an even period, half the period,
    neither a vector nor its negative is flagged.) *)
Theorem get_index_hermitian_partner (shapeR iH : vec3) :
  shape_pos shapeR ->
  let shapeH := shapeH_of shapeR in
  let r := get_index shapeR shapeH iH in
  let r' := get_index shapeR shapeH (vneg iH) in
  let wz := vz iH mod vz shapeR in
  (snd r = true -> r' = (fst r, false)) /\
  (0 < wz -> 2 * wz < vz shapeR -> snd r = false /\ r' = (fst r, true)) /\
  (wz = 0 \/ 2 * wz = vz shapeR -> snd r = false /\ snd r' = false).
Proof.
  intros Hpos shapeH r r' wz. subst r r' shapeH wz.
  destruct shapeR as [[s0 s1] s2], iH as [[a b] c].
  destruct Hpos as (H0 & H1 & H2). unvec.
  unfold get_index, folded, conj_needed, wrapped. unvec.
  pose proof (Z.mod_pos_bound c s2 H2) as Hc.
  pose proof (Z.div_mod s2 2 ltac:(lia)) as Hd.
  pose proof (Z.mod_pos_bound s2 2 ltac:(lia)) as Hm.
  rewrite (neg_mod_involutive a _ H0), (neg_mod_involutive b _ H1),
          (neg_mod_involutive c _ H2).
  rewrite <- (mod_neg_mod a _ H0), <- (mod_neg_mod b _ H1),
          <- (mod_neg_mod c _ H2).
  split; [|split].
  - destruct (Z.leb_spec (1 + s2 / 2) (c mod s2)) as [Hge|Hlt];
      [intros _|discriminate].
    rewrite (neg_mod_small (c mod s2) s2 H2) by lia.
    destruct (Z.leb_spec (1 + s2 / 2) (s2 - c mod s2)); [lia|].
    cbn [fst]. reflexivity.
  - intros Hpos' Hhalf.
    destruct (Z.leb_spec (1 + s2 / 2) (c mod s2)) as [Hge|Hlt]; [lia|].
    split; [reflexivity|].
    rewrite (neg_mod_small (c mod s2) s2 H2) by lia.
    destruct (Z.leb_spec (1 + s2 / 2) (s2 - c mod s2)); [|lia].
    reflexivity.
  - intros [E0|Eh].
    + rewrite E0. cbn [Z.opp]. rewrite Z.mod_0_l by lia.
      destruct (Z.leb_spec (1 + s2 / 2) 0); [lia|]. split; reflexivity.
    + destruct (Z.leb_spec (1 + s2 / 2) (c mod s2)) as [Hge|Hlt]; [lia|].
      split; [reflexivity|].
      rewrite (neg_mod_small (c mod s2) s2 H2) by lia.
      destruct (Z.leb_spec (1 + s2 / 2) (s2 - c mod s2)); [lia|].
      reflexivity.
Qed.

Lemma get_index_hermitian_partner_witness :
  shape_pos (4, 4, 4) /\
  get_index (4, 4, 4) (shapeH_of (4, 4, 4)) (2, 1, -1) = (34, true) /\
  get_index (4, 4, 4) (shapeH_of (4, 4, 4)) (-2, -1, 1) = (34, false).
Proof.
  split; [unvec; lia|].
  split; [reflexivity|].
  apply (get_index_hermitian_partner (4, 4, 4) (2, 1, -1)).
  - unvec; lia.
  - reflexivity.
Defined.

(** The residues of two index vectors with the same index. *)
Lemma same_index_residues (shapeR u v : vec3) :
  shape_pos shapeR ->
  let shapeH := shapeH_of shapeR in
  (get_index shapeR shapeH u = get_index shapeR shapeH v ->
   vmod u shapeR = vmod v shapeR) /\
  (fst (get_index shapeR shapeH u) = fst (get_index shapeR shapeH v) ->
   vmod u shapeR = vmod v shapeR \/
   vmod u shapeR = vmod (vneg v) shapeR).
Proof.
  intros Hpos shapeH.
  assert (Hf : fst (get_index shapeR shapeH u)
               = fst (get_index shapeR shapeH v) ->
               folded shapeR shapeH u = folded shapeR shapeH v).
  { cbn [get_index fst]. intros E.
    pose proof (folded_in_half_space shapeR u Hpos) as (_ & ? & ?).
    pose proof (folded_in_half_space shapeR v Hpos) as (_ & ? & ?).
    now apply (flat_index_injective shapeH). }
  assert (Hneg : forall a b : vec3,
             vmod (vneg (vmod a shapeR)) shapeR = vmod b shapeR ->
             vmod a shapeR = vmod (vneg b) shapeR).
  { intros a b. destruct shapeR as [[s0 s1] s2], a as [[a0 a1] a2],
      b as [[b0 b1] b2]. destruct Hpos as (H0 & H1 & H2). unvec.
    intros [= E0 E1 E2].
    rewrite <- (mod_neg_mod b0 _ H0), <- (mod_neg_mod b1 _ H1),
            <- (mod_neg_mod b2 _ H2), <- E0, <- E1, <- E2.
    now rewrite !neg_mod_involutive, !Z.mod_mod by lia. }
  assert (Hnm : forall b : vec3,
             vmod (vneg (vmod b shapeR)) shapeR = vmod (vneg b) shapeR).
  { intros b. destruct shapeR as [[s0 s1] s2], b as [[b0 b1] b2].
    destruct Hpos as (H0 & H1 & H2). unvec.
    now rewrite (mod_neg_mod b0 _ H0), (mod_neg_mod b1 _ H1),
                (mod_neg_mod b2 _ H2). }
  assert (Hinv : forall a b : vec3,
             vmod (vneg (vmod a shapeR)) shapeR
             = vmod (vneg (vmod b shapeR)) shapeR ->
             vmod a shapeR = vmod b shapeR).
  { intros a b E. rewrite (Hnm b) in E. apply Hneg in E. rewrite E.
    destruct shapeR as [[s0 s1] s2], b as [[b0 b1] b2]. unvec.
    now rewrite !Z.opp_involutive. }
  split.
  - intros E.
    assert (Ef := Hf (f_equal fst E)).
    assert (Ec := f_equal snd E). cbn [get_index snd] in Ec.
    unfold folded in Ef. rewrite <- Ec in Ef.
    destruct (conj_needed shapeR shapeH u); unfold wrapped in Ef.
    + now apply Hinv.
    + exact Ef.
  - intros E. specialize (Hf E). unfold folded, wrapped in Hf.
    destruct (conj_needed shapeR shapeH u),
             (conj_needed shapeR shapeH v).
    + left. now apply Hinv.
    + right. now apply Hneg.
    + right. now rewrite Hf, Hnm.
    + left. exact Hf.
Qed.

(** X4. The index and the flag together identify the index vector up to
    the grid period, and the index alone identifies it up to the period
    and a sign: two vectors with the same index agree modulo the period,
    or one is the negative of the other modulo the period. *)
Theorem get_index_injective (shapeR u v : vec3) :
  shape_pos shapeR ->
  let shapeH := shapeH_of shapeR in
  (get_index shapeR shapeH u = get_index shapeR shapeH v ->
   vmod u shapeR = vmod v shapeR) /\
  (fst (get_index shapeR shapeH u) = fst (get_index shapeR shapeH v) ->
   vmod u shapeR = vmod v shapeR \/
   vmod u shapeR = vmod (vneg v) shapeR).
Proof.
  intros Hpos shapeH.
  destruct (same_index_residues shapeR u v Hpos) as (Hpair & Hindex).
  split; [exact Hpair|exact Hindex].
Qed.

Lemma get_index_injective_witness :
  shape_pos (4, 4, 4) /\
  vmod (2, 1, -1) (4, 4, 4) = vmod (-2, 5, 3) (4, 4, 4).
Proof.
  split; [unvec; lia|].
  apply (get_index_injective (4, 4, 4) (2, 1, -1) (-2, 5, 3)).
  - unvec; lia.
  - reflexivity.
Defined.

(** ** Further results on the constructor: multiplicities, outcome,
    shapes of the tables, the conjugation scale *)

Lemma zsum_app (a b : list Z) : zsum (a ++ b) = zsum a + zsum b.
Proof.
  unfold zsum. induction a as [|x a IH]; cbn; [reflexivity|]. lia.
Qed.

Lemma zsum_map_add {A : Type} (f h : A -> Z) (l : list A) :
  zsum (map (fun u => f u + h u) l) = zsum (map f l) + zsum (map h l).
Proof.
  unfold zsum. induction l as [|x l IH]; cbn; [reflexivity|]. lia.
Qed.

Lemma zsum_indicator_absent (U : list Z) (x : Z) :
  ~ In x U -> zsum (map (fun u => if u =? x then 1 else 0) U) = 0.
Proof.
  unfold zsum. induction U as [|u U IH]; cbn; [reflexivity|].
  intros H. destruct (Z.eqb_spec u x); [exfalso; apply H; now left|].
  rewrite IH; tauto.
Qed.

Lemma zsum_indicator (U : list Z) (x : Z) :
  NoDup U -> In x U ->
  zsum (map (fun u => if u =? x then 1 else 0) U) = 1.
Proof.
  induction 1 as [|u U Hu Hnd IH]; [intros []|].
  intros Hin. unfold zsum in *. cbn.
  destruct (Z.eqb_spec u x) as [->|NE].
  - fold (zsum (map (fun u => if u =? x then 1 else 0) U)).
    now rewrite zsum_indicator_absent.
  - destruct Hin as [E|Hin]; [contradiction|]. now rewrite IH.
Qed.

Lemma count_of_cons (u x : Z) (l : list Z) :
  count_of u (x :: l) = (if x =? u then 1 else 0) + count_of u l.
Proof.
  unfold count_of, zlen. cbn [filter]. rewrite (Z.eqb_sym u x).
  destruct (x =? u); cbn [length]; lia.
Qed.

(** The counts of the distinct values add up to the number of entries. *)
Lemma zsum_counts (U l : list Z) :
  NoDup U -> (forall x, In x l -> In x U) ->
  zsum (map (fun u => count_of u l) U) = zlen l.
Proof.
  intros Hnd. induction l as [|x l IH]; intros Hin.
  - clear Hnd Hin. unfold zsum, count_of, zlen. cbn.
    induction U as [|u U IHU]; cbn; auto.
  - rewrite (map_ext _ (fun u => (if u =? x then 1 else 0) + count_of u l)).
    2:{ intros u. rewrite count_of_cons, (Z.eqb_sym x u). reflexivity. }
    rewrite zsum_map_add.
    rewrite zsum_indicator by (auto; apply Hin; now left).
    rewrite IH by (intros; apply Hin; now right).
    unfold zlen. cbn [length]. lia.
Qed.

Lemma sorted_NoDup (l : list Z) : StronglySorted Z.lt l -> NoDup l.
Proof.
  induction 1 as [|x l Hs IH Hall]; constructor; [|exact IH].
  intros Hin. rewrite Forall_forall in Hall. specialize (Hall x Hin). lia.
Qed.

Lemma multiplicity_sum (index : list (list Z)) :
  zsum (multiplicity_of index) = zlen (concat index) /\
  Forall (fun m => 1 <= m) (multiplicity_of index).
Proof.
  unfold multiplicity_of, unique_counts. cbn [snd]. split.
  - apply zsum_counts.
    + apply sorted_NoDup, unique_sorted.
    + intros x Hx. now apply in_unique.
  - apply Forall_map, Forall_forall. intros u Hu.
    apply count_of_pos. now apply in_unique.
Qed.

Lemma tget_in_range {A : Type} (l : list A) (k : Z) :
  0 <= k < zlen l -> exists a, tget l k = Ok a /\ nth_error l (Z.to_nat k) = Some a.
Proof.
  intros Hk. unfold tget.
  destruct (Z.ltb_spec k 0); [lia|].
  destruct (Z.ltb_spec k 0); [lia|].
  destruct (Z.leb_spec (zlen l) k); [lia|]. cbn.
  destruct (nth_error l (Z.to_nat k)) as [a|] eqn:E; [eauto|].
  apply nth_error_None in E. unfold zlen in Hk. lia.
Qed.

Lemma mapM_ok {A B : Type} (f : A -> result B) (l : list A) :
  Forall (fun a => exists b, f a = Ok b) l -> exists l', mapM f l = Ok l'.
Proof.
  induction 1 as [|a l (b & Hb) Hl (l' & IH)]; cbn; [eauto|].
  rewrite Hb, IH. cbn. eauto.
Qed.

Lemma tgets_in_range {A : Type} (l : list A) (ks : list Z) :
  Forall (fun k => 0 <= k < zlen l) ks -> exists r, tgets l ks = Ok r.
Proof.
  intros H. apply mapM_ok. eapply Forall_impl; [|exact H].
  intros k Hk. destruct (tget_in_range l k Hk) as (a & Ha & _). eauto.
Qed.

Lemma py_slice_length {A B : Type} (l : list A) (l' : list B) (a b : Z) :
  length l = length l' -> length (py_slice l a b) = length (py_slice l' a b).
Proof.
  intros E. unfold py_slice, zlen.
  now rewrite !length_firstn, !length_skipn, E.
Qed.

Lemma py_slice_Forall {A : Type} (P : A -> Prop) (l : list A) (a b : Z) :
  Forall P l -> Forall P (py_slice l a b).
Proof.
  intros H. apply Forall_forall. intros x Hx. apply py_slice_In in Hx.
  rewrite Forall_forall in H. now apply H.
Qed.

Section InitFacts.
Context {R : Type} {SR : Scalar R}.
Variable cis_turn : R -> complex R.
Implicit Types (e : Engine R) (g : Grid R).

Add Field scalar_field_init : (scalar_field (R := R)).

Lemma orbit_keys_in_range g :
  shape_pos (shape g) -> shapeH g = shapeH_of (shape g) ->
  Forall (fun k => 0 <= k < n_tot_of (shapeH g)) (orbit_keys g).
Proof.
  intros Hpos HH. apply Forall_forall. intros k Hk.
  unfold orbit_keys in Hk. apply (proj1 (in_unique _ _)) in Hk.
  unfold min_equiv_index in Hk. apply in_map_iff in Hk. destruct Hk as (iH & <- & _).
  destruct (min_equiv_key_spec g iH) as (_ & _ & [E|(m & _ & E)]);
    rewrite E; now apply gi_in_range.
Qed.

Lemma iH_reduced_ok g :
  shape_pos (shape g) -> shapeH g = shapeH_of (shape g) ->
  zlen (mesh_H g) = n_tot_of (shapeH g) ->
  exists reduced, iH_reduced g = Ok reduced /\
                  length reduced = length (orbit_keys g).
Proof.
  intros Hpos HH Hlen. unfold iH_reduced.
  destruct (tgets_in_range (mesh_H g) (orbit_keys g)) as (r & Hr).
  { rewrite Hlen. now apply orbit_keys_in_range. }
  exists r. split; [exact Hr|]. now apply mapM_length in Hr.
Qed.

Lemma orbit_images_shape g (reduced : list vec3) :
  table_shape (zlen reduced) (zlen (rot g))
              (index_of (orbit_images g reduced)) /\
  table_shape (zlen reduced) (zlen (rot g))
              (is_conj_of (orbit_images g reduced)).
Proof.
  unfold table_shape, index_of, is_conj_of, orbit_images, zlen.
  rewrite !length_map. repeat split.
  - rewrite map_map. apply Forall_map, Forall_forall. intros r _.
    now rewrite !length_map.
  - rewrite map_map. apply Forall_map, Forall_forall. intros r _.
    now rewrite !length_map.
Qed.

(** X5. The multiplicities behind the weights of a single-process engine
    are all at least 1 (no weight divides by a zero multiplicity), and
    they add up to the number of orbits times the number of operations:
    every (orbit, operation) pair is counted at exactly one grid
    index. *)
Theorem multiplicity_total g e :
  init cis_turn g = Ok e -> n_procs g <= 1 ->
  exists multiplicity,
    inv_multiplicity e = map (weight_of g) multiplicity /\
    Forall (fun m => 1 <= m) multiplicity /\
    zsum multiplicity = n_orbits_mine e * n_sym e.
Proof.
  intros Hi Hp. unfold init in Hi.
  destruct (iH_reduced g) as [reduced|] eqn:Er; cbn [bind] in Hi;
    [|discriminate].
  destruct (Z.ltb_spec 1 (n_procs g)); [lia|]. cbn [bind] in Hi.
  destruct (zlen (rot g) =? 0); [discriminate|].
  inversion Hi; subst; clear Hi. cbn.
  exists (multiplicity_of (index_of (orbit_images g reduced))).
  destruct (multiplicity_sum (index_of (orbit_images g reduced)))
    as (Hsum & Hpos).
  split; [reflexivity|]. split; [exact Hpos|].
  rewrite Hsum.
  destruct (orbit_images_shape g reduced) as ((Hn & Hrows) & (Hn' & _)).
  unfold zlen in *.
  rewrite (concat_rows_length (length (rot g))).
  - rewrite Hn' at 1. rewrite <- Hn. lia.
  - eapply Forall_impl; [|exact Hrows]. cbn. intros; lia.
Qed.

(** X6. The constructor of a single-process engine on a grid with
    positive dimensions, whose mesh lists one vector per half-space
    index, raises exactly when the list of operations is empty (the
    division [1./n_sym]); no index it forms is out of range.  When it
    returns, the engine holds the table of member indices of all the
    orbits, one row per orbit key and one column per operation. *)
Theorem init_serial_outcome g :
  shape_pos (shape g) -> shapeH g = shapeH_of (shape g) ->
  zlen (mesh_H g) = n_tot_of (shapeH g) -> n_procs g <= 1 ->
  match init cis_turn g with
  | Ok e =>
      rot g <> [] /\ e_grid e = g /\ e_layout e = Serial (index_table g) /\
      n_sym e = zlen (rot g) /\ n_orbits_mine e = zlen (orbit_keys g)
  | Err x => rot g = [] /\ x = ZeroDivisionError
  end.
Proof.
  intros Hpos HH Hlen Hp.
  destruct (iH_reduced_ok g Hpos HH Hlen) as (reduced & Er & Hl).
  unfold init, index_table. rewrite Er. cbn [bind].
  destruct (Z.ltb_spec 1 (n_procs g)); [lia|]. cbn [bind].
  destruct (Z.eqb_spec (zlen (rot g)) 0) as [E|NE].
  - split; [|reflexivity]. unfold zlen in E.
    destruct (rot g); [reflexivity|discriminate].
  - cbn. repeat split.
    + intros E. apply NE. now rewrite E.
    + unfold is_conj_of, orbit_images, zlen. rewrite !length_map.
      now rewrite Hl.
Qed.

(** The shapes of the tables of a constructed engine. *)
Lemma init_shapes g e :
  init cis_turn g = Ok e ->
  0 < n_sym e /\
  table_shape (n_orbits_mine e) (n_sym e) (imag_scale e) /\
  table_shape (n_orbits_mine e) (n_sym e) (phase e) /\
  (forall index, e_layout e = Serial index ->
                 table_shape (n_orbits_mine e) (n_sym e) index).
Proof.
  intros Hi. unfold init in Hi.
  destruct (iH_reduced g) as [reduced|] eqn:Er; cbn [bind] in Hi;
    [|discriminate].
  destruct (orbit_images_shape g reduced) as ((Hn & Hrows) & (Hn' & Hrows')).
  set (images := orbit_images g reduced) in *.
  assert (Hds : exists ds,
             (if 1 <? n_procs g
              then init_distributed g reduced (index_of images)
                     (is_conj_of images) (multiplicity_of (index_of images))
              else Ok (mkDistSetup (Serial (index_of images))
                         (is_conj_of images) reduced
                         (multiplicity_of (index_of images)))) = Ok ds /\
             length (ds_is_conj ds) = length (ds_reduced ds) /\
             Forall (fun r => zlen r = zlen (rot g)) (ds_is_conj ds) /\
             (forall index, ds_layout ds = Serial index ->
                            index = index_of images /\
                            ds_is_conj ds = is_conj_of images)).
  { destruct (1 <? n_procs g).
    - destruct (init_distributed _ _ _ _ _) as [ds|] eqn:Ed;
        cbn [bind] in Hi; [|discriminate].
      exists ds. split; [reflexivity|].
      unfold init_distributed in Ed.
      destruct (mapM _ (index_of images)); cbn [bind] in Ed;
        [|discriminate].
      destruct (mapM _ (filter _ _)); cbn [bind] in Ed; [|discriminate].
      destruct (negb _); [discriminate|].
      destruct (tgets _ _); cbn [bind] in Ed; [|discriminate].
      inversion Ed; subst; clear Ed. cbn. split; [|split].
      + apply py_slice_length. unfold zlen in Hn'. lia.
      + now apply py_slice_Forall.
      + discriminate.
    - eexists. split; [reflexivity|]. cbn. split; [|split].
      + unfold zlen in Hn'. lia.
      + exact Hrows'.
      + intros index [= <-]. auto. }
  destruct Hds as (ds & Eds & Hlen & Hconj & Hser).
  rewrite Eds in Hi. cbn [bind] in Hi.
  destruct (Z.eqb_spec (zlen (rot g)) 0) as [E|NE]; [discriminate|].
  inversion Hi; subst; clear Hi. cbn.
  split; [unfold zlen in *; lia|].
  split; [|split].
  - unfold table_shape, imag_scale_of, zlen. rewrite length_map.
    split; [reflexivity|].
    apply Forall_map. eapply Forall_impl; [|exact Hconj].
    cbn. intros r Hr. unfold zlen in *. now rewrite length_map.
  - unfold table_shape, phase_of, trans, rot, zlen in *.
    rewrite length_map. split; [now rewrite Hlen|].
    apply Forall_map, Forall_forall. intros r _.
    now rewrite !length_map.
  - intros index Hl. destruct (Hser index Hl) as (-> & ->).
    unfold table_shape in *. rewrite Hn, Hn'. split; [reflexivity|].
    exact Hrows.
Qed.

(** X7. The tables a constructed engine holds have one row for each of
    its [n_orbits_mine] orbits and one column for each of its [n_sym]
    operations: the conjugation scale, the phases and, on a single
    process, the member indices; and [n_sym] is positive. *)
Theorem init_table_shapes g e :
  init cis_turn g = Ok e ->
  0 < n_sym e /\
  table_shape (n_orbits_mine e) (n_sym e) (imag_scale e) /\
  table_shape (n_orbits_mine e) (n_sym e) (phase e) /\
  (forall index, e_layout e = Serial index ->
                 table_shape (n_orbits_mine e) (n_sym e) index).
Proof.
  intros Hi.
  destruct (init_shapes g e Hi) as (Hn & Hscale & Hphase & Hindex).
  split; [exact Hn|]. split; [exact Hscale|]. split; [exact Hphase|].
  exact Hindex.
Qed.

Lemma imag_scale_all_true g e :
  init cis_turn g = Ok e ->
  Forall (Forall (fun s => s = true)) (imag_scale e).
Proof.
  intros Hi. unfold init in Hi.
  destruct (iH_reduced g) as [reduced|]; cbn [bind] in Hi; [|discriminate].
  destruct (if 1 <? n_procs g then _ else _) as [ds|]; cbn [bind] in Hi;
    [|discriminate].
  destruct (_ =? 0); [discriminate|].
  inversion Hi; subst; clear Hi. cbn. unfold imag_scale_of.
  apply Forall_map, Forall_forall. intros r _.
  apply Forall_map, Forall_forall. intros c _. now destruct c.
Qed.

Lemma scale_row_true (row : list (complex R)) (sc : list bool) :
  length row = length sc -> Forall (fun s => s = true) sc ->
  map (fun q : complex R * bool =>
         (re (fst q), rmul (im (fst q)) (real_of_bool (snd q))))
      (combine row sc) = row.
Proof.
  revert sc. induction row as [|x row IH]; intros [|s sc] Hl Hs;
    cbn in *; try discriminate; [reflexivity|].
  inversion Hs; subst. rewrite imag_scale_true. f_equal.
  apply IH; [lia|assumption].
Qed.

Lemma scale_table_true (vb : list (list (complex R)))
      (sc : list (list bool)) :
  length vb = length sc ->
  Forall2 (fun row s => length row = length s) vb sc ->
  Forall (Forall (fun s => s = true)) sc ->
  map (fun p : list (complex R) * list bool =>
         map (fun q : complex R * bool =>
                (re (fst q), rmul (im (fst q)) (real_of_bool (snd q))))
             (combine (fst p) (snd p)))
      (combine vb sc) = vb.
Proof.
  intros _ H2. induction H2 as [|row s vb sc Hrs H2 IH]; intros Hs;
    [reflexivity|].
  inversion Hs; subst. cbn. rewrite scale_row_true by assumption.
  f_equal. now apply IH.
Qed.

Lemma same_shape_Forall2 {A B : Type} (n m : Z) (a : list (list A))
      (b : list (list B)) :
  table_shape n m a -> table_shape n m b ->
  Forall2 (fun r s => length r = length s) a b.
Proof.
  intros (Ha & Hra) (Hb & Hrb). unfold zlen in *.
  assert (Hl : length a = length b) by lia. clear Ha Hb.
  revert b Hl Hrb. induction Hra as [|r a Hr Hra IH]; intros [|s b] Hl Hrb;
    cbn in Hl; try discriminate; constructor.
  - inversion Hrb; subst. lia.
  - apply IH; [lia|]. now inversion Hrb.
Qed.

(** X8. [_conjugate] changes nothing: [imag_scale] takes the dtype of
    [is_conj] (bool), so that the [-1] stored at the flagged entries is
    [True], like the ones everywhere else, and the imaginary parts of an
    orbit buffer of the shape of the engine's tables are all multiplied
    by one. *)
Theorem conjugate_changes_nothing g e (v_orbits : list (list (list (complex R)))) :
  init cis_turn g = Ok e -> orbits_shape e v_orbits ->
  Forall (Forall (fun s => s = true)) (imag_scale e) /\
  conjugate e v_orbits = v_orbits.
Proof.
  intros Hi Hv.
  pose proof (imag_scale_all_true g e Hi) as Ht.
  destruct (init_shapes g e Hi) as (_ & Hsc & _).
  split; [exact Ht|].
  unfold conjugate. rewrite <- (map_id v_orbits) at 2.
  apply map_ext_in. intros vb Hvb.
  unfold orbits_shape in Hv. rewrite Forall_forall in Hv.
  specialize (Hv vb Hvb).
  apply scale_table_true; [|now apply (same_shape_Forall2 _ _ _ _ Hv Hsc)|exact Ht].
  destruct Hv as (Hv & _), Hsc as (Hsc & _). unfold zlen in *. lia.
Qed.
End InitFacts.

(** ** Further results on the set-up for several workers *)

Lemma insert_key_perm (p : Z * Z) (l : list (Z * Z)) :
  Permutation (insert_key p l) (p :: l).
Proof.
  induction l as [|q l IH]; cbn; [reflexivity|].
  destruct (fst q <=? fst p); [|reflexivity].
  rewrite IH. apply perm_swap.
Qed.

Lemma sort_keys_perm (l : list (Z * Z)) : Permutation (sort_keys l) l.
Proof.
  induction l as [|p l IH]; cbn; [constructor|].
  rewrite insert_key_perm. now constructor.
Qed.

Lemma map_snd_combine {A B : Type} (a : list A) (b : list B) :
  length a = length b -> map snd (combine a b) = b.
Proof.
  revert b. induction a as [|x a IH]; intros [|y b] H; cbn in *;
    try discriminate; [reflexivity|]. f_equal. apply IH. lia.
Qed.

Lemma map_fst_combine {A B : Type} (a : list A) (b : list B) :
  length a = length b -> map fst (combine a b) = a.
Proof.
  revert b. induction a as [|x a IH]; intros [|y b] H; cbn in *;
    try discriminate; [reflexivity|]. f_equal. apply IH. lia.
Qed.

Lemma zlen_arange (n : Z) : 0 <= n -> zlen (arange n) = n.
Proof. intros H. unfold zlen. rewrite arange_length. lia. Qed.

Lemma arange_zlen {A : Type} (l : list A) :
  length (arange (zlen l)) = length l.
Proof. unfold zlen. rewrite arange_length. lia. Qed.

Lemma argsort_perm (keys : list Z) :
  Permutation (argsort keys) (arange (zlen keys)).
Proof.
  unfold argsort.
  rewrite (Permutation_map snd (sort_keys_perm _)).
  rewrite map_snd_combine; [reflexivity|]. now rewrite arange_zlen.
Qed.

Lemma insert_key_sorted (p : Z * Z) (l : list (Z * Z)) :
  StronglySorted (fun a b => fst a <= fst b) l ->
  StronglySorted (fun a b => fst a <= fst b) (insert_key p l).
Proof.
  induction 1 as [|q l Hs IH Hall]; cbn; [repeat constructor|].
  destruct (Z.leb_spec (fst q) (fst p)).
  - constructor; [exact IH|].
    apply Forall_forall. intros x Hx.
    apply (Permutation_in _ (insert_key_perm p l)) in Hx.
    destruct Hx as [<-|Hx]; [assumption|].
    rewrite Forall_forall in Hall. now apply Hall.
  - constructor; [now constructor|].
    constructor; [lia|].
    eapply Forall_impl; [|exact Hall]. cbn. intros; lia.
Qed.

Lemma sort_keys_sorted (l : list (Z * Z)) :
  StronglySorted (fun a b => fst a <= fst b) (sort_keys l).
Proof.
  induction l as [|p l IH]; cbn; [constructor|].
  now apply insert_key_sorted.
Qed.

Lemma StronglySorted_map {A B : Type} (f : A -> B) (P : A -> A -> Prop)
      (Q : B -> B -> Prop) (l : list A) :
  (forall a b, In a l -> In b l -> P a b -> Q (f a) (f b)) ->
  StronglySorted P l -> StronglySorted Q (map f l).
Proof.
  intros HPQ Hs. induction Hs as [|x l Hs IH Hall]; cbn; [constructor|].
  constructor.
  - apply IH. intros a b Ha Hb. apply HPQ; now right.
  - apply Forall_map, Forall_forall. intros y Hy.
    rewrite Forall_forall in Hall.
    apply HPQ; [now left|now right|now apply Hall].
Qed.

Lemma StronglySorted_NoDup_strict {A : Type} (P Q : A -> A -> Prop)
      (l : list A) :
  (forall a b, In a l -> In b l -> a <> b -> P a b -> Q a b) -> NoDup l ->
  StronglySorted P l -> StronglySorted Q l.
Proof.
  intros HPQ Hnd Hs. induction Hs as [|x l Hs IH Hall]; [constructor|].
  inversion Hnd; subst. constructor.
  - apply IH; [|assumption]. intros a b Ha Hb. apply HPQ; now right.
  - apply Forall_forall. intros y Hy. rewrite Forall_forall in Hall.
    apply HPQ; [now left|now right| |now apply Hall].
    intros ->. contradiction.
Qed.

Lemma tget_nth {A : Type} (l : list A) (k : Z) (d : A) :
  0 <= k < zlen l -> tget l k = Ok (nth (Z.to_nat k) l d).
Proof.
  intros Hk. destruct (tget_in_range l k Hk) as (a & -> & Hn).
  f_equal. symmetry. now apply nth_error_nth.
Qed.

Lemma tgets_nth {A : Type} (l : list A) (ks : list Z) (d : A) :
  Forall (fun k => 0 <= k < zlen l) ks ->
  tgets l ks = Ok (map (fun k => nth (Z.to_nat k) l d) ks).
Proof.
  unfold tgets. induction 1 as [|k ks Hk Hks IH]; cbn; [reflexivity|].
  rewrite (tget_nth l k d Hk), IH. reflexivity.
Qed.

(** The pairs (key, position) that [recv_order] sorts. *)
Lemma recv_pairs (w : list Z) (p : Z * Z) :
  In p (combine (map (fun q => fst q * zlen w + snd q)
                     (combine w (arange (zlen w))))
                (arange (zlen w))) ->
  0 <= snd p < zlen w /\
  fst p = nth (Z.to_nat (snd p)) w 0 * zlen w + snd p.
Proof.
  intros Hin. apply In_nth_error in Hin. destruct Hin as (i & Hi).
  assert (Hlt : (i < length w)%nat).
  { assert (H : nth_error (combine (map (fun q => fst q * zlen w + snd q)
                                        (combine w (arange (zlen w))))
                                   (arange (zlen w))) i <> None)
      by congruence.
    apply nth_error_Some in H.
    rewrite length_combine, length_map, length_combine, arange_zlen in H.
    lia. }
  destruct p as [key pos].
  assert (Hpos : pos = Z.of_nat i).
  { assert (H := f_equal (option_map snd) Hi). cbn in H.
    rewrite <- nth_error_map, map_snd_combine in H
      by (now rewrite length_map, length_combine, arange_zlen, Nat.min_id).
    unfold arange in H. rewrite nth_error_map in H.
    unfold zlen in H. rewrite Nat2Z.id in H.
    rewrite nth_error_seq in H.
    destruct (Nat.ltb_spec i (length w)); [|lia].
    cbn in H. congruence. }
  assert (Hkey : key = nth i w 0 * zlen w + Z.of_nat i).
  { assert (H := f_equal (option_map fst) Hi). cbn in H.
    rewrite <- nth_error_map, map_fst_combine in H
      by (now rewrite length_map, length_combine, arange_zlen, Nat.min_id).
    rewrite nth_error_map in H.
    destruct (nth_error (combine w (arange (zlen w))) i) as [[wi ai]|] eqn:E;
      [|discriminate].
    cbn in H. inversion H; subst key; clear H.
    assert (H1 := f_equal (option_map fst) E).
    rewrite <- nth_error_map, map_fst_combine in H1
      by (now rewrite arange_zlen).
    assert (H2 := f_equal (option_map snd) E).
    rewrite <- nth_error_map, map_snd_combine in H2
      by (now rewrite arange_zlen).
    cbn in H1, H2.
    rewrite (nth_error_nth _ _ 0 H1).
    unfold arange in H2. rewrite nth_error_map in H2.
    unfold zlen in H2. rewrite Nat2Z.id in H2.
    rewrite nth_error_seq in H2.
    destruct (Nat.ltb_spec i (length w)); [|lia].
    cbn in H2. inversion H2; subst. reflexivity. }
  subst. cbn [fst snd]. rewrite Nat2Z.id. unfold zlen. split; [lia|].
  reflexivity.
Qed.

Lemma zlen_recv_keys (w : list Z) :
  zlen (map (fun p => fst p * zlen w + snd p)
            (combine w (arange (zlen w)))) = zlen w.
Proof.
  unfold zlen.
  now rewrite length_map, length_combine, arange_length, Nat2Z.id,
              Nat.min_id.
Qed.

Lemma recv_order_perm (w : list Z) :
  Permutation (recv_order w) (arange (zlen w)).
Proof.
  unfold recv_order.
  pose proof (argsort_perm (map (fun p => fst p * zlen w + snd p)
                                (combine w (arange (zlen w))))) as H.
  now rewrite zlen_recv_keys in H.
Qed.

Lemma recv_order_in_range (w : list Z) :
  Forall (fun k => 0 <= k < zlen w) (recv_order w).
Proof.
  apply Forall_forall. intros k Hk.
  apply (Permutation_in _ (recv_order_perm w)) in Hk.
  now apply in_arange.
Qed.

Lemma arange_NoDup (n : Z) : NoDup (arange n).
Proof. apply sorted_NoDup, arange_sorted. Qed.

Lemma recv_order_NoDup (w : list Z) : NoDup (recv_order w).
Proof.
  eapply Permutation_NoDup; [symmetry; apply recv_order_perm|].
  apply arange_NoDup.
Qed.

Lemma recv_order_sorted (w : list Z) :
  StronglySorted (source_then_position w) (recv_order w).
Proof.
  apply (StronglySorted_NoDup_strict
           (fun a b => nth (Z.to_nat a) w 0 * zlen w + a
                       <= nth (Z.to_nat b) w 0 * zlen w + b)).
  - intros a b Ha Hb Hab Hle. unfold source_then_position. cbn zeta.
    pose proof (recv_order_in_range w) as Hr.
    rewrite Forall_forall in Hr.
    pose proof (Hr a Ha). pose proof (Hr b Hb).
    set (wa := nth (Z.to_nat a) w 0) in *.
    set (wb := nth (Z.to_nat b) w 0) in *.
    destruct (Z.lt_trichotomy wa wb) as [Hlt|[Heq|Hgt]]; [now left| |].
    + right. split; [exact Heq|]. rewrite Heq in Hle. lia.
    + exfalso.
      assert ((wb + 1) * zlen w <= wa * zlen w)
        by (apply Z.mul_le_mono_nonneg_r; lia).
      lia.
  - apply recv_order_NoDup.
  - unfold recv_order, argsort.
    set (pairs := combine _ _).
    apply (StronglySorted_map snd (fun a b => fst a <= fst b)).
    + intros p q Hp Hq Hle.
      apply (Permutation_in _ (sort_keys_perm pairs)) in Hp, Hq.
      subst pairs. rewrite zlen_recv_keys in Hp, Hq.
      apply recv_pairs in Hp, Hq.
      destruct Hp as (_ & <-), Hq as (_ & <-). exact Hle.
    + apply sort_keys_sorted.
Qed.

(** *** The inverse permutation *)

Lemma list_set_length {A : Type} (l : list A) (k : nat) (x : A) :
  length (list_set l k x) = length l.
Proof.
  revert k. induction l as [|y l IH]; intros [|k]; cbn; auto.
Qed.

Lemma nth_list_set_eq {A : Type} (l : list A) (k : nat) (x d : A) :
  (k < length l)%nat -> nth k (list_set l k x) d = x.
Proof.
  revert k. induction l as [|y l IH]; intros [|k] H; cbn in *; try lia;
    auto. apply IH. lia.
Qed.

Lemma nth_list_set_neq {A : Type} (l : list A) (k j : nat) (x d : A) :
  j <> k -> nth j (list_set l k x) d = nth j l d.
Proof.
  revert k j. induction l as [|y l IH]; intros [|k] [|j] H; cbn; auto;
    try contradiction.
Qed.

Lemma fold_set_length (pairs : list (Z * Z)) (acc : list Z) :
  length (fold_left (fun acc p => list_set acc (Z.to_nat (fst p)) (snd p))
                    pairs acc) = length acc.
Proof.
  revert acc. induction pairs as [|p pairs IH]; intros acc; cbn;
    [reflexivity|]. now rewrite IH, list_set_length.
Qed.

Lemma fold_set_notin (pairs : list (Z * Z)) (acc : list Z) (j : nat) :
  ~ In j (map (fun p => Z.to_nat (fst p)) pairs) ->
  nth j (fold_left (fun acc p => list_set acc (Z.to_nat (fst p)) (snd p))
                   pairs acc) 0 = nth j acc 0.
Proof.
  revert acc. induction pairs as [|p pairs IH]; intros acc H; cbn;
    [reflexivity|].
  rewrite IH by (intros Hin; apply H; now right).
  apply nth_list_set_neq. intros ->. apply H. now left.
Qed.

Lemma fold_set_in (pairs : list (Z * Z)) (acc : list Z) (k x : Z) :
  NoDup (map (fun p => Z.to_nat (fst p)) pairs) ->
  In (k, x) pairs -> (Z.to_nat k < length acc)%nat ->
  nth (Z.to_nat k)
      (fold_left (fun acc p => list_set acc (Z.to_nat (fst p)) (snd p))
                 pairs acc) 0 = x.
Proof.
  revert acc. induction pairs as [|p pairs IH]; intros acc Hnd Hin Hk;
    [destruct Hin|].
  cbn in Hnd. inversion Hnd; subst. cbn [fold_left].
  destruct Hin as [->|Hin].
  - cbn [fst snd]. rewrite fold_set_notin by assumption.
    now apply nth_list_set_eq.
  - apply IH; [assumption|assumption|]. now rewrite list_set_length.
Qed.

Lemma In_combine_nth {A B : Type} (a : list A) (b : list B) (i : nat)
      (da : A) (db : B) :
  length a = length b -> (i < length a)%nat ->
  In (nth i a da, nth i b db) (combine a b).
Proof.
  intros Hl Hi. rewrite <- combine_nth by exact Hl.
  apply nth_In. rewrite length_combine. lia.
Qed.

Lemma inverse_perm_spec (rix : list Z) :
  Permutation rix (arange (zlen rix)) ->
  length (inverse_perm rix) = length rix /\
  forall i, (i < length rix)%nat ->
            nth (Z.to_nat (nth i rix 0)) (inverse_perm rix) 0 = Z.of_nat i.
Proof.
  intros Hp. unfold inverse_perm. split.
  - now rewrite fold_set_length, length_map.
  - intros i Hi.
    rewrite <- (nth_arange (zlen rix) i)
      by (unfold zlen; rewrite Nat2Z.id; exact Hi).
    apply fold_set_in.
    + rewrite <- (map_map fst Z.to_nat), map_fst_combine
        by (now rewrite arange_zlen).
      apply (Permutation_NoDup
               (l := map Z.to_nat (arange (zlen rix)))).
      * symmetry. now apply Permutation_map.
      * unfold arange. rewrite map_map.
        rewrite (map_ext _ (fun x => x)) by (intros; apply Nat2Z.id).
        rewrite map_id. apply seq_NoDup.
    + apply In_combine_nth; [now rewrite arange_zlen|exact Hi].
    + rewrite length_map.
      assert (Hin : In (nth i rix 0) (arange (zlen rix))).
      { apply (Permutation_in _ Hp). now apply nth_In. }
      apply in_arange in Hin. unfold zlen in Hin. lia.
Qed.

Lemma searchsorted_all (l : list Z) (v : Z) :
  Forall (fun x => x < v) l -> searchsorted l v = zlen l.
Proof.
  unfold zlen. induction 1 as [|x l Hx Hl IH]; cbn [searchsorted length];
    [reflexivity|].
  destruct (Z.ltb_spec x v); lia.
Qed.

Lemma searchsorted_bounds (l : list Z) (v : Z) :
  0 <= searchsorted l v <= zlen l.
Proof.
  unfold zlen. induction l as [|x l IH]; cbn [searchsorted length]; [lia|].
  destruct (x <? v); lia.
Qed.

Lemma searchsorted_mono (l : list Z) (u v : Z) :
  u <= v -> searchsorted l u <= searchsorted l v.
Proof.
  intros Huv. induction l as [|x l IH]; cbn [searchsorted]; [lia|].
  pose proof (searchsorted_bounds l v).
  destruct (Z.ltb_spec x u), (Z.ltb_spec x v); lia.
Qed.

Lemma source_sorted (w : list Z) :
  StronglySorted Z.le (map (fun k => nth (Z.to_nat k) w 0) (recv_order w)).
Proof.
  apply (StronglySorted_map _ (source_then_position w)).
  - intros a b _ _. unfold source_then_position. cbn zeta. lia.
  - apply recv_order_sorted.
Qed.

Section DistFacts.
Context {R : Type} {SR : Scalar R}.
Variable cis_turn : R -> complex R.
Variable comm : Alltoallv_call R -> list (list (complex R)).
Implicit Types (st : CallState R) (e : Engine R) (g : Grid R).

(** What the distributed branch of the constructor stores. *)
Lemma init_distributed_inv g reduced index is_conj mult ds :
  init_distributed g reduced index is_conj mult = Ok ds ->
  exists whose_src gix s,
    mapM (mapM (fun k => v <- tget (mesh_H g) k ;;
                         Ok (whose_each (split2H g) (vz v)))) index
    = Ok whose_src /\
    let div_dest := TaskDivision_new (zlen reduced) (n_procs g) (i_proc g) in
    let mine_src :=
      filter (fun q => snd (snd q) =? i_proc g)
             (enumerate2 (zip_tables index whose_src)) in
    let w := concat (py_slice whose_src (td_i_start div_dest)
                              (td_i_stop div_dest)) in
    length gix = length mine_src /\
    tgets w (recv_order w) = Ok s /\
    ds_layout ds
    = Distributed
        (map (searchsorted (map (fun q => fst (fst q)) mine_src))
             (td_n_prev div_dest))
        (map (searchsorted s) (arange (n_procs g + 1)))
        gix (recv_order w) (inverse_perm (recv_order w)).
Proof.
  unfold init_distributed.
  destruct (mapM _ index) as [whose|] eqn:E1; cbn [bind]; [|discriminate].
  destruct (mapM _ (filter _ _)) as [gix|] eqn:E2; cbn [bind];
    [|discriminate].
  destruct (negb _); [discriminate|].
  destruct (tgets _ _) as [s|] eqn:E3; cbn [bind]; [|discriminate].
  intros H; inversion H; subst; clear H. cbn [ds_layout].
  exists whose, gix, s. split; [reflexivity|]. cbn zeta.
  split; [now apply mapM_length in E2|].
  split; [exact E3|reflexivity].
Qed.

Lemma init_layout_inv g e sp rp gix rix oix :
  init cis_turn g = Ok e -> e_layout e = Distributed sp rp gix rix oix ->
  1 < n_procs g /\ e_grid e = g /\
  exists reduced ds,
    iH_reduced g = Ok reduced /\
    init_distributed g reduced (index_of (orbit_images g reduced))
                     (is_conj_of (orbit_images g reduced))
                     (multiplicity_of (index_of (orbit_images g reduced)))
    = Ok ds /\
    ds_layout ds = Distributed sp rp gix rix oix.
Proof.
  intros Hi Hl. unfold init in Hi.
  destruct (iH_reduced g) as [reduced|]; cbn [bind] in Hi; [|discriminate].
  destruct (Z.ltb_spec 1 (n_procs g)).
  - destruct (init_distributed _ _ _ _ _) as [ds|] eqn:Ed;
      cbn [bind] in Hi; [|discriminate].
    destruct (_ =? 0); [discriminate|].
    inversion Hi; subst; clear Hi. cbn in Hl.
    split; [assumption|]. split; [reflexivity|]. eauto.
  - cbn [bind] in Hi. destruct (_ =? 0); [discriminate|].
    inversion Hi; subst; clear Hi. cbn in Hl. discriminate.
Qed.

(** X9. [orbit_index] is the inverse of [recv_index]: in the engine of
    a worker among several, [recv_index] is a permutation of
    [0 .. len - 1], [orbit_index] has the same length, and indexing one
    with an entry of the other gives back the position of that entry (so
    that every entry of the uninitialised [orbit_index] is written by
    line 89). *)
Theorem orbit_index_inverts_recv_index g e sp rp gix rix oix :
  init cis_turn g = Ok e -> e_layout e = Distributed sp rp gix rix oix ->
  Permutation rix (arange (zlen rix)) /\
  zlen oix = zlen rix /\
  (forall i, 0 <= i < zlen rix -> (k <- tget rix i ;; tget oix k) = Ok i) /\
  (forall j, 0 <= j < zlen rix -> (k <- tget oix j ;; tget rix k) = Ok j).
Proof.
  intros Hi Hl.
  destruct (init_layout_inv g e sp rp gix rix oix Hi Hl)
    as (_ & _ & reduced & ds & _ & Hd & Hds).
  destruct (init_distributed_inv _ _ _ _ _ _ Hd)
    as (whose & gix' & s & _ & _ & _ & Hlay).
  rewrite Hlay in Hds. inversion Hds; subst; clear Hds.
  set (w := concat _) in *.
  assert (Hp : Permutation (recv_order w) (arange (zlen (recv_order w)))).
  { replace (zlen (recv_order w)) with (zlen w); [apply recv_order_perm|].
    unfold zlen. f_equal.
    rewrite (Permutation_length (recv_order_perm w)).
    now rewrite arange_zlen. }
  set (rix := recv_order w) in *.
  destruct (inverse_perm_spec rix Hp) as (Hlen & Hinv).
  assert (Hfwd : forall i, 0 <= i < zlen rix ->
             0 <= nth (Z.to_nat i) rix 0 < zlen rix /\
             nth (Z.to_nat (nth (Z.to_nat i) rix 0)) (inverse_perm rix) 0
             = i).
  { intros i Hir. split.
    - apply in_arange, (Permutation_in _ Hp), nth_In.
      unfold zlen in Hir. lia.
    - rewrite Hinv by (unfold zlen in Hir; lia). lia. }
  split; [exact Hp|]. split; [unfold zlen; now rewrite Hlen|]. split.
  - intros i Hir. destruct (Hfwd i Hir) as (Hk & Hv).
    rewrite (tget_nth rix i 0 Hir). cbn [bind].
    rewrite (tget_nth (inverse_perm rix) _ 0)
      by (unfold zlen in *; rewrite Hlen; exact Hk).
    now rewrite Hv.
  - intros j Hj.
    assert (Hin : In j rix).
    { apply (Permutation_in _ (Permutation_sym Hp)). now apply in_arange. }
    apply (In_nth _ _ 0) in Hin. destruct Hin as (i & Hi' & Hij).
    assert (Hir : 0 <= Z.of_nat i < zlen rix) by (unfold zlen; lia).
    destruct (Hfwd _ Hir) as (_ & Hv). rewrite Nat2Z.id, Hij in Hv.
    rewrite (tget_nth (inverse_perm rix) j 0)
      by (unfold zlen in *; rewrite Hlen; exact Hj).
    cbn [bind]. rewrite Hv.
    rewrite (tget_nth rix _ 0 Hir). now rewrite Nat2Z.id, Hij.
Qed.
End DistFacts.

(** ** Further results on the exchanges: sorted sequences, counts that
    tile the buffers *)

Lemma StronglySorted_app {A : Type} (P : A -> A -> Prop) (a b : list A) :
  StronglySorted P a -> StronglySorted P b ->
  (forall x y, In x a -> In y b -> P x y) ->
  StronglySorted P (a ++ b).
Proof.
  intros Ha Hb Hab. induction Ha as [|x a Ha IH Hall]; cbn; [exact Hb|].
  constructor.
  - apply IH. intros u v Hu Hv. apply Hab; [now right|exact Hv].
  - apply Forall_app. split; [exact Hall|].
    apply Forall_forall. intros y Hy. apply Hab; [now left|exact Hy].
Qed.

Lemma StronglySorted_filter {A : Type} (P : A -> A -> Prop)
      (f : A -> bool) (l : list A) :
  StronglySorted P l -> StronglySorted P (filter f l).
Proof.
  induction 1 as [|x l Hs IH Hall]; cbn; [constructor|].
  destruct (f x); [|exact IH]. constructor; [exact IH|].
  apply Forall_forall. intros y Hy. apply filter_In in Hy.
  rewrite Forall_forall in Hall. now apply Hall.
Qed.

Lemma StronglySorted_combine {A : Type} (l : list Z) (t : list A) :
  StronglySorted Z.lt l ->
  StronglySorted (fun a b : Z * A => fst a <= fst b) (combine l t).
Proof.
  intros Hs. revert t. induction Hs as [|x l Hs IH Hall]; intros [|y t];
    cbn; try constructor; [apply IH|].
  apply Forall_forall. intros [a b] Hin. apply in_combine_l in Hin.
  rewrite Forall_forall in Hall. specialize (Hall a Hin). cbn. lia.
Qed.

(** [torch.where] lists the positions of a table in row-major order: the
    row numbers do not decrease. *)
Lemma enumerate2_rows_sorted {A : Type} (tbl : list (list A)) :
  StronglySorted (fun a b : Z * Z * A => fst (fst a) <= fst (fst b))
                 (enumerate2 tbl).
Proof.
  unfold enumerate2.
  pose proof (StronglySorted_combine (arange (zlen tbl)) tbl
                (arange_sorted _)) as Hs.
  induction Hs as [|ro l Hs IH Hall]; cbn; [constructor|].
  apply StronglySorted_app; [|exact IH|].
  - generalize (combine (arange (zlen (snd ro))) (snd ro)) as cs.
    intros cs. induction cs as [|c cs IHc]; cbn; constructor;
      [exact IHc|].
    apply Forall_map, Forall_forall. intros; cbn; lia.
  - intros x y Hx Hy. apply in_map_iff in Hx.
    destruct Hx as (c & <- & _). cbn.
    apply in_concat in Hy. destruct Hy as (blk & Hblk & Hy).
    apply in_map_iff in Hblk. destruct Hblk as (ro' & <- & Hro').
    apply in_map_iff in Hy. destruct Hy as (c' & <- & _). cbn.
    rewrite Forall_forall in Hall. now apply Hall.
Qed.

Lemma enumerate2_rows_bound {A : Type} (tbl : list (list A)) :
  Forall (fun q => 0 <= fst (fst q) < zlen tbl) (enumerate2 tbl).
Proof.
  unfold enumerate2. apply Forall_concat, Forall_map, Forall_forall.
  intros [r row] Hin. apply Forall_map, Forall_forall. intros [c x] _.
  cbn. apply in_combine_l in Hin. now apply in_arange.
Qed.

Lemma zsum_scale (n : Z) (l : list Z) :
  zsum (map (fun c => c * n) l) = zsum l * n.
Proof.
  unfold zsum. induction l as [|x l IH]; cbn [map fold_right]; [lia|].
  rewrite IH. lia.
Qed.

Lemma zsum_diff (l : list Z) : zsum (diff l) = last l 0 - hd 0 l.
Proof.
  unfold zsum. induction l as [|x [|y t] IH]; try (cbn; lia).
  change (diff (x :: y :: t)) with ((y - x) :: diff (y :: t)).
  change (last (x :: y :: t) 0) with (last (y :: t) 0).
  cbn [fold_right hd] in *. rewrite IH. lia.
Qed.

Lemma diff_nonneg (l : list Z) :
  StronglySorted Z.le l -> Forall (fun c => 0 <= c) (diff l).
Proof.
  induction 1 as [|x l Hs IH Hall]; [constructor|].
  destruct l as [|y t]; [constructor|]. cbn [diff].
  constructor; [|exact IH]. inversion Hall; subst. lia.
Qed.

Lemma last_map_arange (f : Z -> Z) (n : Z) :
  0 <= n -> last (map f (arange (n + 1))) 0 = f n.
Proof.
  intros Hn. rewrite (arange_app n 1) by lia.
  change (arange 1) with [0]. cbn [map].
  rewrite map_app. cbn [map]. rewrite last_last. f_equal. lia.
Qed.

Lemma sorted_map_arange (f : Z -> Z) (n : Z) :
  (forall a b, 0 <= a <= b -> f a <= f b) ->
  StronglySorted Z.le (map f (arange n)).
Proof.
  intros Hf. apply (StronglySorted_map f Z.lt); [|apply arange_sorted].
  intros a b Ha _ Hab. apply in_arange in Ha. apply Hf. lia.
Qed.

Lemma ceildiv_covers (n p : Z) : 0 < p -> n <= ceildiv n p * p.
Proof.
  intros Hp. unfold ceildiv.
  pose proof (Z.div_mod (n + p - 1) p ltac:(lia)).
  pose proof (Z.mod_pos_bound (n + p - 1) p Hp). lia.
Qed.

Lemma ceildiv_nonneg (n p : Z) : 0 <= n -> 0 < p -> 0 <= ceildiv n p.
Proof.
  intros Hn Hp. unfold ceildiv. apply Z.div_pos; lia.
Qed.

(** The counts formed from cumulative bounds tile a buffer whose length
    is the last bound times the batch size. *)
Lemma scaled_counts_cover (nb : Z) (prev : list Z) (len : Z) :
  0 <= nb -> StronglySorted Z.le prev -> hd 0 prev = 0 ->
  last prev 0 = len ->
  Forall (fun c => 0 <= c) (scaled_counts nb prev) /\
  zsum (scaled_counts nb prev) = len * nb.
Proof.
  intros Hnb Hs H0 Hl. unfold scaled_counts. split.
  - apply Forall_map. eapply Forall_impl; [|apply diff_nonneg, Hs].
    cbn. intros. now apply Z.mul_nonneg_nonneg.
  - rewrite zsum_scale, zsum_diff, H0, Hl. lia.
Qed.

Section ExchangeFacts.
Context {R : Type} {SR : Scalar R}.
Variable cis_turn : R -> complex R.
Variable comm : Alltoallv_call R -> list (list (complex R)).
Implicit Types (st : CallState R) (e : Engine R) (g : Grid R).

(** X10. Both [searchsorted] calls of the constructor of a worker among
    several get what they need.  With [whose_src] the owners of the
    sources of the entries of the index table (line 58): the first call
    (line 63) searches the bounds of the orbit partition in
    [mine_src[0]], the rows of the entries whose source is this worker,
    which is sorted; [recv_index] (line 77) is the argsort of
    [whose_src[mine_dest].flatten()] by source, then position; the second
    call (line 79) searches the ranks in [whose_src_mine[recv_index]],
    which is sorted; and [send_prev] and [recv_prev] of the engine are
    the results of these two calls. *)
Theorem searchsorted_inputs_sorted g e sp rp gix rix oix :
  init cis_turn g = Ok e -> e_layout e = Distributed sp rp gix rix oix ->
  exists whose_src sorted_whose,
    whose_src_of g (index_table g) = Ok whose_src /\
    StronglySorted Z.le (mine_src_rows g (index_table g) whose_src) /\
    sp = map (searchsorted (mine_src_rows g (index_table g) whose_src))
             (td_n_prev (TaskDivision_new (zlen (orbit_keys g))
                                          (n_procs g) (i_proc g))) /\
    rix = recv_order (whose_src_mine_of g (zlen (orbit_keys g)) whose_src) /\
    StronglySorted
      (source_then_position
         (whose_src_mine_of g (zlen (orbit_keys g)) whose_src)) rix /\
    tgets (whose_src_mine_of g (zlen (orbit_keys g)) whose_src) rix
    = Ok sorted_whose /\
    StronglySorted Z.le sorted_whose /\
    rp = map (searchsorted sorted_whose) (arange (n_procs g + 1)).
Proof.
  intros Hi Hl.
  destruct (init_layout_inv cis_turn g e sp rp gix rix oix Hi Hl)
    as (_ & _ & reduced & ds & Hr & Hd & Hds).
  destruct (init_distributed_inv _ _ _ _ _ _ Hd)
    as (whose & gix' & s & Hw & _ & Hs & Hlay).
  rewrite Hlay in Hds. inversion Hds; subst; clear Hds.
  assert (Hlen : zlen reduced = zlen (orbit_keys g)).
  { unfold iH_reduced in Hr. apply mapM_length in Hr.
    unfold zlen. now rewrite Hr. }
  assert (Hidx : index_table g = index_of (orbit_images g reduced)).
  { unfold index_table. now rewrite Hr. }
  unfold whose_src_of, mine_src_rows, whose_src_mine_of.
  rewrite Hidx, <- Hlen.
  set (w := concat _) in *.
  set (mine_src := filter _ _).
  exists whose, s.
  split; [exact Hw|]. split.
  { apply (StronglySorted_map _
             (fun a b : Z * Z * (Z * Z) => fst (fst a) <= fst (fst b)));
      [auto|].
    apply StronglySorted_filter, enumerate2_rows_sorted. }
  split; [reflexivity|].
  split; [reflexivity|]. split; [apply recv_order_sorted|].
  split; [exact Hs|]. split; [|reflexivity].
  rewrite (tgets_nth w (recv_order w) 0 (recv_order_in_range w)) in Hs.
  inversion Hs; subst. apply source_sorted.
Qed.

(** The cumulative bounds of a worker among several, when every mesh
    vector belongs to a worker of the communicator. *)
Lemma init_bounds_cover g e sp rp gix rix oix :
  init cis_turn g = Ok e -> e_layout e = Distributed sp rp gix rix oix ->
  Forall (fun v => 0 <= whose_each (split2H g) (vz v) < n_procs g)
         (mesh_H g) ->
  (StronglySorted Z.le sp /\ hd 0 sp = 0 /\ last sp 0 = zlen gix) /\
  (StronglySorted Z.le rp /\ hd 0 rp = 0 /\ last rp 0 = zlen rix).
Proof.
  intros Hi Hl Hown.
  destruct (init_layout_inv cis_turn g e sp rp gix rix oix Hi Hl)
    as (Hp & _ & reduced & ds & Hr & Hd & Hds).
  destruct (init_distributed_inv _ _ _ _ _ _ Hd)
    as (whose & gix' & s & Hw & Hgix & Hs & Hlay).
  cbn zeta in Hgix, Hs, Hlay.
  rewrite Hlay in Hds. inversion Hds; subst; clear Hds.
  set (w := concat _) in *.
  set (mine_src := filter _ _) in *.
  set (rows := map (fun q => fst (fst q)) mine_src).
  assert (Hrows : Forall (fun r => 0 <= r < zlen reduced) rows).
  { subst rows mine_src. apply Forall_map, Forall_forall.
    intros q Hq. apply filter_In in Hq. destruct Hq as (Hq & _).
    pose proof (enumerate2_rows_bound
                  (zip_tables (index_of (orbit_images g reduced)) whose))
      as Hb.
    rewrite Forall_forall in Hb. specialize (Hb q Hq).
    assert (zlen (zip_tables (index_of (orbit_images g reduced)) whose)
            <= zlen reduced).
    { unfold zip_tables, index_of, orbit_images, zlen.
      rewrite length_map, length_combine, !length_map. lia. }
    lia. }
  assert (Hw_range : Forall (fun x => 0 <= x < n_procs g) w).
  { subst w. apply Forall_concat, py_slice_Forall.
    eapply (mapM_Forall _ _ _ _ _ Hw). Unshelve.
    intros row ws _. apply mapM_Forall. intros k x _.
    destruct (tget (mesh_H g) k) as [v|] eqn:E; cbn [bind];
      [|discriminate].
    intros [= <-]. apply tget_In in E.
    rewrite Forall_forall in Hown. now apply Hown. }
  split.
  - unfold td_n_prev, TaskDivision_new. rewrite map_map.
    set (n_each := ceildiv (zlen reduced) (Z.max 1 (n_procs g))).
    assert (Hne : 0 <= n_each).
    { apply ceildiv_nonneg; [apply Zle_0_nat|lia]. }
    assert (Hcov : zlen reduced <= n_each * n_procs g).
    { pose proof (ceildiv_covers (zlen reduced) (Z.max 1 (n_procs g))
                    ltac:(lia)) as H.
      fold n_each in H. rewrite Z.max_r in H by lia. exact H. }
    split; [|split].
    + apply sorted_map_arange. intros a b Hab.
      apply searchsorted_mono.
      assert (n_each * a <= n_each * b)
        by (apply Z.mul_le_mono_nonneg_l; lia).
      lia.
    + rewrite (arange_succ (n_procs g) ltac:(lia)). cbn [map hd].
      apply searchsorted_zero.
      eapply Forall_impl; [|exact Hrows]. cbn. intros. lia.
    + rewrite (last_map_arange
                 (fun p => searchsorted rows
                             (Z.min (zlen reduced) (n_each * p))))
        by lia.
      rewrite Z.min_l by exact Hcov.
      rewrite searchsorted_all
        by (eapply Forall_impl; [|exact Hrows]; cbn; intros; lia).
      subst rows. unfold zlen. now rewrite length_map, Hgix.
  - rewrite (tgets_nth w (recv_order w) 0 (recv_order_in_range w)) in Hs.
    inversion Hs as [Hs']; clear Hs.
    assert (Hs_range : Forall (fun x => 0 <= x < n_procs g)
                              (map (fun k => nth (Z.to_nat k) w 0)
                                   (recv_order w))).
    { apply Forall_map, Forall_forall. intros k Hk.
      pose proof (recv_order_in_range w) as Hr'.
      rewrite Forall_forall in Hr', Hw_range.
      apply Hw_range, nth_In. specialize (Hr' k Hk).
      unfold zlen in Hr'. lia. }
    split; [|split].
    + apply sorted_map_arange. intros a b Hab.
      apply searchsorted_mono. lia.
    + rewrite (arange_succ (n_procs g) ltac:(lia)). cbn [map hd].
      apply searchsorted_zero.
      eapply Forall_impl; [|exact Hs_range]. cbn. intros. lia.
    + rewrite (last_map_arange (searchsorted _)) by lia.
      rewrite searchsorted_all
        by (eapply Forall_impl; [|exact Hs_range]; cbn; intros; lia).
      unfold zlen. now rewrite length_map.
Qed.

Lemma gathered_length {A B : Type} (f : Z -> B -> result A)
      (ks : list Z) (rows : list B) (out : list (list A)) :
  mapM (fun k => mapM (f k) rows) ks = Ok out ->
  zlen (concat out) = zlen ks * zlen rows.
Proof.
  intros H. unfold zlen.
  rewrite (concat_rows_length (length rows)).
  - apply mapM_length in H. rewrite H. lia.
  - eapply mapM_Forall; [|exact H]. cbn.
    intros k r _ Hr. now apply mapM_length in Hr.
Qed.

Lemma accumulate_distributed_cover st sp rp gix rix oix nb
      (v_data : list (list (complex R))) :
  0 <= nb -> length v_data = Z.to_nat nb ->
  StronglySorted Z.le sp -> hd 0 sp = 0 -> last sp 0 = zlen gix ->
  StronglySorted Z.le rp -> hd 0 rp = 0 -> last rp 0 = zlen rix ->
  exists new,
    cs_trace (snd (accumulate_distributed comm st sp rp gix rix oix nb
                                          v_data))
    = cs_trace st ++ new /\
    Forall (fun c => counts_cover (a_send c) /\ counts_cover (a_recv c))
           new.
Proof.
  intros Hnb Hlen Hsp Hsp0 Hspl Hrp Hrp0 Hrpl.
  destruct (scaled_counts_cover nb sp (zlen gix) Hnb Hsp Hsp0 Hspl)
    as (Hs1 & Hs2).
  destruct (scaled_counts_cover nb rp (zlen rix) Hnb Hrp Hrp0 Hrpl)
    as (Hr1 & Hr2).
  assert (Hvd : zlen v_data = nb) by (unfold zlen; lia).
  unfold accumulate_distributed.
  destruct (mapM _ gix) as [src|] eqn:E1.
  2:{ exists []. cbn. now rewrite app_nil_r. }
  assert (Hsrc : zlen (concat src) = zlen gix * nb).
  { rewrite <- Hvd.
    apply (gathered_length (fun k row => tget row k) gix v_data src E1). }
  set (gather := mkAlltoallv _ _).
  assert (Hgather : counts_cover (a_send gather) /\
                    counts_cover (a_recv gather)).
  { subst gather. unfold counts_cover.
    cbn [a_send a_recv b_counts b_data]. repeat split; auto.
    - now rewrite Hsrc.
    - rewrite Hr2. unfold zlen. rewrite length_map, length_seq. lia. }
  destruct (tgets _ oix) as [picked|].
  2:{ exists [gather]. cbn. split; [reflexivity|]. now constructor. }
  destruct (negb _).
  { exists [gather]. cbn. split; [reflexivity|]. now constructor. }
  destruct (symmetrized _ _ _) as [v_sym|] eqn:Es.
  2:{ exists [gather]. cbn. split; [reflexivity|]. now constructor. }
  apply symmetrized_ok in Es. destruct Es as [_ ->].
  destruct (mapM _ rix) as [dest2|] eqn:E3.
  2:{ exists [gather]. cbn [snd]. rewrite write_through_trace. cbn.
      split; [reflexivity|]. now constructor. }
  set (scatter := mkAlltoallv _ _).
  exists [gather; scatter]. cbn. split; [now rewrite <- app_assoc|].
  constructor; [exact Hgather|]. constructor; [|constructor].
  subst scatter. unfold counts_cover.
  cbn [a_send a_recv b_counts b_data]. repeat split; auto.
  - rewrite Hr2.
    rewrite (gathered_length (fun k vb => tget (concat vb) k) rix _ _ E3).
    unfold zlen. rewrite symmetrize_orbits_length, length_map, length_seq.
    lia.
  - now rewrite Hsrc.
Qed.

(** X11. When every mesh vector belongs to a worker of the communicator
    (the owner [whose_each] gives for its last component is a rank below
    [n_procs]), the counts of both sides of every exchange of a call tile
    the buffers handed to [Alltoallv]: no count is negative, the send
    counts add up to the number of entries of the send buffer and the
    receive counts to the number of entries of the receive buffer. *)
Theorem exchange_counts_cover_buffers g e st :
  init cis_turn g = Ok e -> 1 < n_procs g -> cs_self st = e ->
  Forall (fun v => 0 <= whose_each (split2H g) (vz v) < n_procs g)
         (mesh_H g) ->
  exists new,
    cs_trace (snd (call comm st)) = cs_trace st ++ new /\
    Forall (fun c => counts_cover (a_send c) /\ counts_cover (a_recv c))
           new.
Proof.
  intros Hi Hp He Hown.
  assert (Hnone : exists new : list (Alltoallv_call R),
             cs_trace st = cs_trace st ++ new /\
             Forall (fun c => counts_cover (a_send c) /\
                              counts_cover (a_recv c)) new).
  { exists []. now rewrite app_nil_r. }
  assert (Hacc : exists new,
             cs_trace (snd (accumulated comm st)) = cs_trace st ++ new /\
             Forall (fun c => counts_cover (a_send c) /\
                              counts_cover (a_recv c)) new).
  { unfold accumulated.
    destruct (negb (Nat.eqb _ _)); [exact Hnone|].
    destruct (Z.ltb_spec (n_batch_of (cs_v st)) 0); [exact Hnone|].
    cbn [orb].
    destruct (_ || _); [exact Hnone|].
    destruct (e_layout (cs_self st)) as [index|sp rp gix rix oix] eqn:El.
    - unfold accumulate_serial. destruct (mapM _ _); [|exact Hnone].
      destruct (symmetrized _ _ _); exact Hnone.
    - rewrite He in El.
      destruct (init_bounds_cover g e sp rp gix rix oix Hi El Hown)
        as ((Hs1 & Hs2 & Hs3) & (Hr1 & Hr2 & Hr3)).
      apply accumulate_distributed_cover; auto.
      apply chunk_length. }
  unfold call.
  destruct (accumulated comm st) as [[v_acc|x] st1]; cbn [snd] in *;
    [|exact Hacc].
  unfold finish. destruct (scale_rows _ _ _); cbn [snd];
    rewrite ?write_through_trace; exact Hacc.
Qed.
End ExchangeFacts.

(** ** Further results on a call of the single-process engine *)

Lemma unique_NoDup (l : list Z) : NoDup (unique l).
Proof. apply sorted_NoDup, unique_sorted. Qed.

Lemma unique_length_full (l : list Z) (n : Z) :
  0 <= n -> Forall (fun x => 0 <= x < n) l ->
  (zlen (unique l) = n <-> forall k, 0 <= k < n -> In k l).
Proof.
  intros Hn Hr. split.
  - intros Hlen k Hk. apply in_unique.
    rewrite (sorted_is_arange (unique l) n (unique_sorted l)); auto.
    + now apply in_arange.
    + apply Forall_forall. intros x Hx.
      apply (proj1 (in_unique _ _)) in Hx.
      rewrite Forall_forall in Hr. now apply Hr.
  - intros Hall.
    assert (Hp : Permutation (unique l) (arange n)).
    { apply NoDup_Permutation;
        [apply unique_NoDup|apply arange_NoDup|].
      intros x. rewrite in_unique, in_arange. split.
      - rewrite Forall_forall in Hr. apply Hr.
      - apply Hall. }
    unfold zlen. rewrite (Permutation_length Hp), arange_length. lia.
Qed.


Section CallFacts.
Context {R : Type} {SR : Scalar R}.
Variable cis_turn : R -> complex R.
Variable comm : Alltoallv_call R -> list (list (complex R)).
Implicit Types (st : CallState R) (e : Engine R) (g : Grid R)
         (v : FieldH R).

Lemma init_serial_inv g e :
  init cis_turn g = Ok e -> n_procs g <= 1 ->
  e_grid e = g /\ e_layout e = Serial (index_table g) /\
  inv_multiplicity e
  = map (weight_of g) (multiplicity_of (index_table g)).
Proof.
  unfold init, index_table.
  destruct (iH_reduced g) as [reduced|]; cbn [bind]; [|discriminate].
  destruct (Z.ltb_spec 1 (n_procs g)); [lia|]. cbn [bind].
  destruct (zlen (rot g) =? 0); [discriminate|].
  intros [= <-] _. cbn. auto.
Qed.

Lemma n_grid_serial g :
  grid_wf g -> n_procs g <= 1 -> n_grid_of g = n_tot_of (shapeH g).
Proof.
  intros (_ & _ & Hx & Hy & _ & _ & _ & _ & Hser) Hp.
  destruct (Hser Hp) as (_ & Hz).
  unfold n_grid_of, n_tot_of. now rewrite Hx, Hy, Hz.
Qed.


Lemma init_phase_dtype g e :
  init cis_turn g = Ok e -> phase_dtype e = trans_dtype g.
Proof.
  unfold init.
  destruct (iH_reduced g) as [reduced|]; cbn [bind]; [|discriminate].
  destruct (if 1 <? n_procs g then _ else _) as [ds|]; cbn [bind];
    [|discriminate].
  destruct (zlen (rot g) =? 0); [discriminate|].
  now intros [= <-].
Qed.







End CallFacts.

(** ** A single-process call, one batch entry at a time *)

Lemma mapM_Forall2 {A B : Type} (f : A -> result B) (l : list A)
      (l' : list B) :
  mapM f l = Ok l' <-> Forall2 (fun a b => f a = Ok b) l l'.
Proof.
  revert l'. induction l as [|a l IH]; intros l'; cbn.
  - split; [intros [= <-]; constructor|]. intros H. now inversion H.
  - destruct (f a) as [b|x] eqn:E; cbn.
    + destruct (mapM f l) as [bs|y] eqn:E'; cbn.
      * split.
        -- intros [= <-]. constructor; [exact E|]. now apply IH.
        -- intros H. inversion H; subst.
           apply IH in H4. congruence.
      * split; [discriminate|]. intros H. inversion H; subst.
        apply IH in H4. discriminate.
    + split; [discriminate|]. intros H. inversion H; subst. congruence.
Qed.

Lemma mapM_pure {A B : Type} (f : A -> result B) (h : A -> B)
      (l : list A) :
  (forall a, f a = Ok (h a)) -> mapM f l = Ok (map h l).
Proof.
  intros H. induction l as [|a l IH]; cbn; [reflexivity|].
  now rewrite H, IH.
Qed.

Lemma chunk_one {A : Type} (n : nat) (l : list A) :
  length l = n -> chunk n 1 l = [l].
Proof.
  intros H. cbn. f_equal. subst n. apply firstn_all.
Qed.

Section RowFacts.
Context {R : Type} {SR : Scalar R}.
Variable comm : Alltoallv_call R -> list (list (complex R)).
Implicit Types (st : CallState R) (e : Engine R) (v : FieldH R).

Lemma symmetrize_orbits_map e (vs : list (list (list (complex R)))) :
  symmetrize_orbits e vs
  = map (fun vb => hd [] (symmetrize_orbits e [vb])) vs.
Proof.
  unfold symmetrize_orbits, conjugate, expand, einsum_bos_os.
  rewrite !map_map. apply map_ext. intros vb. reflexivity.
Qed.

Lemma rows_pass e (index : list (list Z))
      (v_data : list (list (complex R))) :
  mapM (row_pass e index) v_data
  = match mapM (fun row => mapM (tgets row) index) v_data with
    | Ok v_orbits =>
        Ok (map (fun p => accumulate (fst p) (concat index)
                                     (concat (snd p)))
                (combine (zeros_like v_data)
                         (symmetrize_orbits e v_orbits)))
    | Err x => Err x
    end.
Proof.
  induction v_data as [|row rows IH]; [reflexivity|].
  cbn [mapM]. unfold row_pass at 1.
  destruct (mapM (tgets row) index) as [vb|x]; cbn [bind]; [|reflexivity].
  rewrite IH.
  destruct (mapM (fun row => mapM (tgets row) index) rows) as [vo|x];
    cbn [bind]; [|reflexivity].
  rewrite !symmetrize_orbits_map. reflexivity.
Qed.

Lemma accumulate_serial_rows st (index : list (list Z))
      (v_data : list (list (complex R))) :
  f_dtype (cs_v st) = phase_dtype (cs_self st) ->
  accumulate_serial st index v_data
  = (mapM (row_pass (cs_self st) index) v_data, st).
Proof.
  intros Hdt. unfold accumulate_serial, symmetrized.
  rewrite rows_pass, Hdt, dtype_eqb_refl.
  now destruct (mapM _ v_data).
Qed.

Lemma scale_rows_each e (n : Z) (v v' : list (list (complex R))) :
  scale_rows e n v = Ok v' -> mapM (row_weights e n) v = Ok v'.
Proof.
  unfold row_weights, scale_rows.
  destruct (zlen (inv_multiplicity e) =? n).
  - intros [= <-]. apply mapM_pure. intros row.
    cbn [map bind concat]. now rewrite app_nil_r.
  - destruct (zlen (inv_multiplicity e) =? 1); [|discriminate].
    intros [= <-]. apply mapM_pure. intros row.
    cbn [map bind concat]. now rewrite app_nil_r.
Qed.

Lemma n_batch_of_entry v (row : list (complex R)) :
  n_batch_of (batch_entry v row) = 1.
Proof.
  unfold n_batch_of, batch_entry. cbn [f_shape].
  rewrite length_skipn.
  replace (length (f_shape v) - (length (f_shape v) - 3) - 3)%nat
    with 0%nat by lia.
  reflexivity.
Qed.

(** A call on one batch entry. *)
Lemma call_entry e (index : list (list Z)) v (row out : list (complex R)) :
  e_layout e = Serial index ->
  grid_id (f_grid v) = grid_id (e_grid e) ->
  f_dtype v = phase_dtype e ->
  0 <= n_grid_of (e_grid e) -> zlen row = n_grid_of (e_grid e) ->
  row_call e index (n_grid_of (e_grid e)) row = Ok out ->
  call comm (start e (batch_entry v row))
  = (Ok tt, set_data (start e (batch_entry v row)) [out]).
Proof.
  intros Hl Hid Hdt Hn Hrow Hcall.
  unfold call, accumulated, start. cbn [cs_self cs_v].
  rewrite n_batch_of_entry. cbn [batch_entry f_grid f_data].
  rewrite Hid, Nat.eqb_refl, Hl. cbn [negb].
  destruct (Z.ltb_spec (n_grid_of (e_grid e)) 0); [lia|].
  rewrite Z.mul_1_l, Hrow, Z.eqb_refl. cbn [orb negb Z.ltb Z.compare].
  rewrite accumulate_serial_rows by exact Hdt. cbn [cs_self].
  change (Z.to_nat 1) with 1%nat.
  rewrite chunk_one by (unfold zlen in Hrow; lia).
  cbn [mapM]. unfold row_call in Hcall.
  destruct (row_pass e index row) as [acc|]; cbn [bind] in *;
    [|discriminate].
  unfold finish. cbn [cs_self]. unfold row_weights in Hcall.
  destruct (scale_rows e (n_grid_of (e_grid e)) [acc]) as [r|] eqn:Es;
    cbn [bind] in Hcall; [|discriminate].
  injection Hcall as <-.
  assert (Hr : r = [concat r]).
  { unfold scale_rows in Es.
    destruct (_ =? n_grid_of _); [|destruct (_ =? 1); [|discriminate]];
      injection Es as <-; cbn; now rewrite app_nil_r. }
  now rewrite <- Hr.
Qed.

(** X15. The batch entries of a field are symmetrized independently of
    one another: when a call of the single-process engine returns, a
    call on every batch entry taken as a field of its own (the grid
    dimensions alone) returns too, and the buffer of the whole field
    after the call is the concatenation of the buffers of the entries
    after theirs. *)
Theorem batch_entries_independent e (index : list (list Z)) v st' :
  e_layout e = Serial index ->
  call comm (start e v) = (Ok tt, st') ->
  let rows := chunk (Z.to_nat (n_grid_of (e_grid e)))
                    (Z.to_nat (n_batch_of v)) (f_data v) in
  exists outs,
    Forall2 (fun row out =>
               exists st1,
                 call comm (start e (batch_entry v row)) = (Ok tt, st1) /\
                 f_data (cs_v st1) = out)
            rows outs /\
    f_data (cs_v st') = concat outs.
Proof.
  intros Hl Hcall rows.
  unfold call in Hcall.
  destruct (accumulated comm (start e v)) as [[v_acc|x] st1] eqn:Hacc;
    [|discriminate].
  destruct (accumulated_frame comm _ _ _ Hacc) as (_ & Hshape).
  destruct (Hshape v_acc eq_refl) as (Hn & Hlen & _). clear Hshape.
  pose proof (accumulated_ok_dtype comm _ _ _ Hacc) as Hdt.
  cbn [start cs_self cs_v] in Hn, Hlen, Hdt.
  unfold accumulated, start in Hacc. cbn [cs_self cs_v] in Hacc.
  rewrite Hl in Hacc.
  destruct (Nat.eqb_spec (grid_id (f_grid v)) (grid_id (e_grid e)))
    as [Hid|]; cbn [negb] in Hacc; [|discriminate].
  destruct (_ || _); [discriminate|].
  rewrite accumulate_serial_rows in Hacc by exact Hdt.
  cbn [cs_self] in Hacc.
  fold rows in Hacc. injection Hacc as Hrows <-.
  unfold finish, start in Hcall. cbn [cs_self] in Hcall.
  destruct (scale_rows e (n_grid_of (e_grid e)) v_acc) as [outs|] eqn:Es;
    [|discriminate].
  injection Hcall as <-. cbn [set_data cs_v f_data].
  exists outs. split; [|reflexivity].
  apply scale_rows_each in Es.
  apply mapM_Forall2 in Hrows, Es.
  assert (Hrl : Forall (fun row => zlen row = n_grid_of (e_grid e)) rows).
  { eapply Forall_impl; [|apply chunk_rows; exact Hlen].
    cbn. intros row Hr. unfold zlen. rewrite Hr. lia. }
  clear Hlen. revert outs Es Hrl.
  induction Hrows as [|row acc rows' accs Hrow Hrows IH]; intros outs Es Hrl.
  - inversion Es; subst. constructor.
  - inversion Es as [|? out ? outs' Ho Hos]; subst.
    inversion Hrl; subst.
    constructor; [|now apply IH].
    eexists. split.
    + apply (call_entry e index v row out); auto.
      unfold row_call. now rewrite Hrow.
    + cbn [set_data cs_v f_data concat]. apply app_nil_r.
Qed.
End RowFacts.

(** ** The orbit mean and idempotence, for unit phases and orbits that
    partition the grid *)

Lemma const_table {A B : Type} (c : B) (index : list (list A))
      (t : list (list B)) :
  Forall2 (fun r s => length r = length s) index t ->
  Forall (Forall (fun x => x = c)) t ->
  t = map (map (fun _ => c)) index.
Proof.
  induction 1 as [|r s index t Hrs H2 IH]; intros Hc; [reflexivity|].
  inversion Hc as [|? ? Hs Ht]; subst. cbn [map]. f_equal; [|now apply IH].
  clear - Hrs Hs. revert s Hrs Hs.
  induction r as [|x r IHr]; intros [|y s] Hl Hs; cbn in *;
    try discriminate; [reflexivity|].
  inversion Hs; subst. f_equal. apply IHr; [lia|assumption].
Qed.

Lemma combine_app {A B : Type} (a a' : list A) (b b' : list B) :
  length a = length b ->
  combine (a ++ a') (b ++ b') = combine a b ++ combine a' b'.
Proof.
  revert b. induction a as [|x a IH]; intros [|y b] H; cbn in *;
    try discriminate; [reflexivity|]. f_equal. apply IH. lia.
Qed.

Lemma find_filter {A : Type} (p : A -> bool) (l : list A) :
  find p l = hd_error (filter p l).
Proof.
  induction l as [|x l IH]; cbn; [reflexivity|].
  destruct (p x); [reflexivity|exact IH].
Qed.

Lemma mapM_pure_in {A B : Type} (f : A -> result B) (h : A -> B)
      (l : list A) :
  (forall a, In a l -> f a = Ok (h a)) -> mapM f l = Ok (map h l).
Proof.
  intros H. induction l as [|a l IH]; cbn; [reflexivity|].
  rewrite H by now left. rewrite IH by (intros; apply H; now right).
  reflexivity.
Qed.

Lemma nth_map_arange {A : Type} (f : Z -> A) (n k : Z) (d : A) :
  0 <= k < n -> nth (Z.to_nat k) (map f (arange n)) d = f k.
Proof.
  intros Hk. rewrite (nth_indep _ d (f 0))
    by (rewrite length_map, arange_length; lia).
  rewrite (map_nth f (arange n) 0), nth_arange by lia. f_equal. lia.
Qed.

Section ScalarSums.
Context {R : Type} {SR : Scalar R}.
Add Field scalar_field_sums : (scalar_field (R := R)).

Lemma of_pos_succ (p : positive) :
  of_pos (Pos.succ p) = radd r1 (of_pos p).
Proof.
  induction p as [p IH|p IH|]; cbn [Pos.succ of_pos].
  - rewrite IH. ring.
  - reflexivity.
  - ring.
Qed.

Lemma of_Z_succ (z : Z) : 0 <= z -> of_Z (z + 1) = radd r1 (of_Z z).
Proof.
  intros Hz. destruct z as [|p|p]; try lia.
  - cbn. ring.
  - change (Z.pos p + 1) with (Z.pos (p + 1)). cbn [of_Z].
    rewrite Pos.add_1_r. apply of_pos_succ.
Qed.

Lemma of_Z_nonzero (z : Z) : char0 R -> 0 < z -> of_Z z <> r0.
Proof.
  intros Hc Hz. destruct z as [|p|p]; try lia. apply Hc.
Qed.

Lemma csum_app (a b : list (complex R)) :
  csum (a ++ b) = cadd (csum a) (csum b).
Proof.
  induction a as [|x a IH]; cbn [app csum fold_right].
  - fold (csum b). destruct (csum b) as [u w].
    unfold cadd, c0, re, im; cbn. f_equal; ring.
  - fold (csum (a ++ b)). fold (csum a). rewrite IH.
    destruct x, (csum a), (csum b). unfold cadd, re, im; cbn.
    f_equal; ring.
Qed.

Lemma csum_const {A : Type} (x : complex R) (l : list A) :
  csum (map (fun _ => x) l) = cscale x (of_Z (zlen l)).
Proof.
  unfold zlen. induction l as [|a l IH]; cbn [map csum fold_right length].
  - destruct x. unfold cscale, c0, re, im; cbn. f_equal; ring.
  - fold (csum (map (fun _ : A => x) l)). rewrite IH.
    rewrite Nat2Z.inj_succ, <- Z.add_1_r, of_Z_succ by lia.
    destruct x. unfold cadd, cscale, re, im; cbn. f_equal; ring.
Qed.

Lemma csum_zero {A : Type} (l : list A) :
  csum (map (fun _ => c0) l) = (c0 : complex R).
Proof.
  rewrite csum_const. unfold cscale, c0, re, im; cbn. f_equal; ring.
Qed.

Lemma cadd_assoc (a b c : complex R) :
  cadd (cadd a b) c = cadd a (cadd b c).
Proof.
  destruct a, b, c. unfold cadd, re, im; cbn. f_equal; ring.
Qed.

Lemma cadd_c0_r (a : complex R) : cadd a c0 = a.
Proof. destruct a. unfold cadd, c0, re, im; cbn. f_equal; ring. Qed.

Lemma mean_of_multiple (s : complex R) (c n : R) :
  c <> r0 -> n <> r0 ->
  cscale (cadd c0 (cscale s c)) (rdiv (rdiv r1 n) c) = cscale s (rdiv r1 n).
Proof.
  intros Hc Hn. destruct s as [a b].
  unfold cscale, cadd, c0, re, im; cbn. f_equal; field; auto.
Qed.

Lemma multiple_of_mean (s : complex R) (n : R) :
  n <> r0 -> cscale (cscale (cscale s (rdiv r1 n)) n) (rdiv r1 n)
             = cscale s (rdiv r1 n).
Proof.
  intros Hn. destruct s as [a b].
  unfold cscale, re, im; cbn. f_equal; field; auto.
Qed.

Lemma nth_scaled (acc : list (complex R)) (w : list R) (i : nat) :
  (i < length acc)%nat -> (i < length w)%nat ->
  nth i (map (fun p : complex R * R => cscale (fst p) (snd p))
             (combine acc w)) c0
  = cscale (nth i acc c0) (nth i w r0).
Proof.
  revert w i. induction acc as [|a acc IH]; intros [|x w] [|i] Ha Hw;
    cbn in *; try lia; [reflexivity|]. apply IH; lia.
Qed.

(** *** [index_put_] with [accumulate=True], entry by entry *)

Lemma nth_add_at (l : list (complex R)) (i k : nat) (x : complex R) :
  (i < length l)%nat ->
  nth k (add_at l i x) c0
  = if Nat.eqb i k then cadd (nth k l c0) x else nth k l c0.
Proof.
  revert i k. induction l as [|y l IH]; intros i k Hi; cbn in Hi; [lia|].
  destruct i as [|i], k as [|k]; cbn; try reflexivity.
  apply IH. lia.
Qed.

Lemma nth_accumulated (n : Z) (ps : list (Z * complex R))
      (acc : list (complex R)) (k : nat) :
  Forall (fun p => (norm_index n (fst p) < length acc)%nat) ps ->
  nth k (fold_left (fun a p => add_at a (norm_index n (fst p)) (snd p))
                   ps acc) c0
  = cadd (nth k acc c0)
         (csum (map snd (filter (fun p => Nat.eqb (norm_index n (fst p)) k)
                                ps))).
Proof.
  revert acc. induction ps as [|p ps IH]; intros acc Hr.
  - cbn. now rewrite cadd_c0_r.
  - inversion Hr; subst. cbn [fold_left filter].
    rewrite IH by (now rewrite add_at_length).
    rewrite nth_add_at by assumption.
    destruct (Nat.eqb (norm_index n (fst p)) k); [|reflexivity].
    cbn [map csum fold_right].
    fold (csum (map snd (filter
                  (fun p0 => Nat.eqb (norm_index n (fst p0)) k) ps))).
    apply cadd_assoc.
Qed.
End ScalarSums.

Lemma zsum_only {A : Type} (f : A -> Z) (p : A -> bool) (l : list A) :
  (forall a, In a l -> p a = false -> f a = 0) ->
  zsum (map f l) = zsum (map f (filter p l)).
Proof.
  unfold zsum. induction l as [|a l IH]; intros H; cbn [map filter fold_right];
    [reflexivity|].
  rewrite IH by (intros; apply H; [now right|assumption]).
  destruct (p a) eqn:E; [reflexivity|].
  rewrite (H a) by (auto; now left). lia.
Qed.

Lemma count_of_concat (k : Z) (idx : list (list Z)) :
  count_of k (concat idx) = zsum (map (count_of k) idx).
Proof.
  unfold count_of, zsum, zlen.
  induction idx as [|irow idx IH]; cbn [concat map fold_right];
    [reflexivity|].
  rewrite filter_app, length_app, Nat2Z.inj_add, IH. reflexivity.
Qed.

Lemma nth_const {A B : Type} (c : B) (l : list A) (k : nat) :
  nth k (map (fun _ => c) l) c = c.
Proof.
  revert k. induction l as [|x l IH]; intros [|k]; cbn; auto.
Qed.

Lemma existsb_eqb_false (k : Z) (l : list Z) :
  existsb (Z.eqb k) l = false -> count_of k l = 0.
Proof.
  intros H. apply count_of_notin. intros Hin.
  assert (E : existsb (Z.eqb k) l = true).
  { apply existsb_exists. exists k. split; [exact Hin|apply Z.eqb_refl]. }
  congruence.
Qed.

Section OrbitMean.
Context {R : Type} {SR : Scalar R}.
Variable comm : Alltoallv_call R -> list (list (complex R)).
Add Field scalar_field_mean : (scalar_field (R := R)).

Variable e : Engine R.
Variable index : list (list Z).
Variables n ns : Z.
Hypothesis Hchar : char0 R.
Hypothesis Hn : 0 <= n.
Hypothesis Hns : 0 < ns.
Hypothesis Hrows : Forall (fun irow => zlen irow = ns) index.
Hypothesis Him : imag_scale e = map (map (fun _ => true)) index.
Hypothesis Hph : phase e = map (map (fun _ => c1)) index.
Hypothesis Hrange : Forall (Forall (fun k => 0 <= k < n)) index.
Hypothesis Hpart :
  forall k, 0 <= k < n ->
            length (filter (fun irow => existsb (Z.eqb k) irow) index)
            = 1%nat.
Hypothesis Hw :
  inv_multiplicity e
  = map (fun k => rdiv (rdiv r1 (of_Z ns))
                       (of_Z (count_of k (concat index))))
        (arange n).

Local Abbreviation get row := (fun k : Z => nth (Z.to_nat k) row (@c0 R SR)).
Local Abbreviation orbit_sum row :=
  (fun irow : list Z => csum (map (get row) irow)).

Lemma gather_row (row : list (complex R)) :
  zlen row = n ->
  mapM (tgets row) index = Ok (map (map (get row)) index).
Proof.
  intros Hrow. apply mapM_pure_in. intros irow Hin.
  apply tgets_nth. rewrite Hrow.
  rewrite Forall_forall in Hrange. now apply Hrange.
Qed.

Lemma conjugate_index (F : list Z -> list (complex R)) :
  (forall irow, length (F irow) = length irow) ->
  map (fun p : list (complex R) * list bool =>
         map (fun q : complex R * bool =>
                (re (fst q), rmul (im (fst q)) (real_of_bool (snd q))))
             (combine (fst p) (snd p)))
      (combine (map F index) (map (map (fun _ => true)) index))
  = map F index.
Proof.
  intros HF. rewrite combine_map_same, map_map. apply map_ext.
  intros irow. cbn [fst snd]. apply scale_row_true.
  - now rewrite HF, length_map.
  - apply Forall_map, Forall_forall. reflexivity.
Qed.

Lemma orbit_pass_sums (row : list (complex R)) :
  hd [] (symmetrize_orbits e [map (map (get row)) index])
  = map (fun irow => map (fun _ => orbit_sum row irow) irow) index.
Proof.
  unfold symmetrize_orbits, conjugate, einsum_bos_os, expand.
  cbn [map hd]. rewrite Him, Hph.
  rewrite (conjugate_index (map (get row)))
    by (intros; apply length_map).
  assert (Hein : map (fun p : list (complex R) * list (complex R) =>
                        csum (map (fun q => cmul (fst q) (snd q))
                                  (combine (fst p) (snd p))))
                     (combine (map (map (get row)) index)
                              (map (map (fun _ => c1)) index))
                 = map (orbit_sum row) index).
  { rewrite combine_map_same, map_map. apply map_ext. intros irow.
    cbn [fst snd]. f_equal.
    rewrite combine_map_same, map_map. apply map_ext. intros k.
    cbn [fst snd]. apply cmul_c1_r. }
  rewrite Hein.
  assert (Hexp : map (fun p : complex R * list (complex R) =>
                        map (fun ph => cmul (fst p) (cconj ph)) (snd p))
                     (combine (map (orbit_sum row) index)
                              (map (map (fun _ => c1)) index))
                 = map (fun irow => map (fun _ => orbit_sum row irow) irow)
                       index).
  { rewrite combine_map_same, map_map. apply map_ext. intros irow.
    cbn [fst snd]. rewrite map_map. apply map_ext. intros k.
    apply cmul_conj_c1_r. }
  rewrite Hexp.
  apply (conjugate_index (fun irow => map (fun _ => orbit_sum row irow) irow)).
  intros; apply length_map.
Qed.

Lemma orbit_row_spec (k : Z) :
  0 <= k < n ->
  In (orbit_row index k) index /\
  existsb (Z.eqb k) (orbit_row index k) = true /\
  filter (fun irow => existsb (Z.eqb k) irow) index = [orbit_row index k] /\
  forall irow, In irow index -> In k irow -> irow = orbit_row index k.
Proof.
  intros Hk. specialize (Hpart k Hk).
  unfold orbit_row. rewrite find_filter.
  destruct (filter (fun irow => existsb (Z.eqb k) irow) index)
    as [|irow [|irow' t]] eqn:E; cbn in Hpart; try lia.
  cbn [hd_error].
  assert (Hin : In irow (filter (fun irow => existsb (Z.eqb k) irow) index))
    by (rewrite E; now left).
  apply filter_In in Hin. destruct Hin as (Hin & Hex).
  repeat split; auto.
  intros irow2 Hin2 Hk2.
  assert (H2 : In irow2 (filter (fun irow => existsb (Z.eqb k) irow) index)).
  { apply filter_In. split; [exact Hin2|].
    apply existsb_exists. exists k. split; [exact Hk2|apply Z.eqb_refl]. }
  rewrite E in H2. destruct H2 as [<-|[]]. reflexivity.
Qed.

Lemma occurrences_in_row (k : Z) :
  0 <= k < n ->
  count_of k (concat index) = count_of k (orbit_row index k) /\
  0 < count_of k (orbit_row index k).
Proof.
  intros Hk. destruct (orbit_row_spec k Hk) as (Hin & Hex & Hf & _).
  split.
  - rewrite count_of_concat.
    rewrite (zsum_only _ (fun irow => existsb (Z.eqb k) irow))
      by (intros; now apply existsb_eqb_false).
    rewrite Hf. unfold zsum. cbn. lia.
  - apply existsb_exists in Hex. destruct Hex as (x & Hx & E).
    apply Z.eqb_eq in E. subst x.
    pose proof (count_of_pos k (orbit_row index k) Hx). lia.
Qed.

Lemma selected_in_row (k : Z) (s : complex R) (irow : list Z) :
  0 <= k < n -> Forall (fun k' => 0 <= k' < n) irow ->
  map snd (filter (fun p : Z * complex R =>
                     Nat.eqb (norm_index n (fst p)) (Z.to_nat k))
                  (combine irow (map (fun _ => s) irow)))
  = map (fun _ => s) (filter (Z.eqb k) irow).
Proof.
  intros Hk. induction 1 as [|k' irow Hk' Hr IH]; [reflexivity|].
  cbn [map combine filter fst snd].
  assert (E : Nat.eqb (norm_index n k') (Z.to_nat k) = (k =? k')).
  { unfold norm_index. destruct (Z.ltb_spec k' 0); [lia|].
    destruct (Nat.eqb_spec (Z.to_nat k') (Z.to_nat k)),
             (Z.eqb_spec k k'); try reflexivity; lia. }
  rewrite E. destruct (k =? k'); cbn [map]; now rewrite IH.
Qed.

Lemma selected_sum (row : list (complex R)) (k : Z)
      (idx : list (list Z)) :
  0 <= k < n -> Forall (Forall (fun k' => 0 <= k' < n)) idx ->
  csum (map snd
            (filter (fun p : Z * complex R =>
                       Nat.eqb (norm_index n (fst p)) (Z.to_nat k))
                    (combine (concat idx)
                             (concat (map (fun irow =>
                                             map (fun _ => orbit_sum row irow)
                                                 irow) idx)))))
  = csum (map (fun irow => cscale (orbit_sum row irow)
                                  (of_Z (count_of k irow))) idx).
Proof.
  intros Hk. induction 1 as [|irow idx Hr Hidx IH]; [reflexivity|].
  cbn [concat map].
  rewrite combine_app by (now rewrite length_map).
  rewrite filter_app, map_app, csum_app, IH.
  rewrite selected_in_row by assumption.
  rewrite csum_const. reflexivity.
Qed.

Lemma csum_only {A : Type} (f : A -> complex R) (p : A -> bool)
      (l : list A) :
  (forall a, In a l -> p a = false -> f a = c0) ->
  csum (map f l) = csum (map f (filter p l)).
Proof.
  induction l as [|a l IH]; intros H; [reflexivity|].
  cbn [map filter csum fold_right]. fold (csum (map f l)).
  rewrite IH by (intros; apply H; [now right|assumption]).
  destruct (p a) eqn:E; [reflexivity|].
  rewrite (H a) by (auto; now left). apply cadd_c0_l.
Qed.

Lemma cscale_zero (x : complex R) : cscale x (of_Z 0) = c0.
Proof.
  destruct x. unfold cscale, c0, re, im; cbn. f_equal; ring.
Qed.

(** The buffer of one batch entry after the accumulation. *)
Lemma accumulated_entry (row : list (complex R)) (k : Z) :
  zlen row = n -> 0 <= k < n ->
  nth (Z.to_nat k)
      (accumulate (map (fun _ => c0) row) (concat index)
                  (concat (map (fun irow =>
                                  map (fun _ => orbit_sum row irow) irow)
                               index)))
      c0
  = cadd c0 (cscale (orbit_sum row (orbit_row index k))
                    (of_Z (count_of k (concat index)))).
Proof.
  intros Hrow Hk. unfold accumulate.
  assert (Hz : zlen (map (fun _ : complex R => @c0 R SR) row) = n)
    by (unfold zlen in *; now rewrite length_map).
  rewrite Hz, nth_accumulated.
  - rewrite nth_const. f_equal.
    rewrite selected_sum by assumption.
    rewrite (csum_only _ (fun irow => existsb (Z.eqb k) irow)).
    + destruct (orbit_row_spec k Hk) as (_ & _ & -> & _).
      cbn [map]. rewrite csum_one.
      now rewrite (proj1 (occurrences_in_row k Hk)).
    + intros irow _ Hex. rewrite (existsb_eqb_false _ _ Hex).
      apply cscale_zero.
  - apply Forall_forall. intros [k' x] Hin. cbn [fst].
    apply in_combine_l in Hin. apply in_concat in Hin.
    destruct Hin as (irow & Hirow & Hk').
    rewrite Forall_forall in Hrange. specialize (Hrange irow Hirow).
    rewrite Forall_forall in Hrange. specialize (Hrange k' Hk').
    unfold norm_index. destruct (Z.ltb_spec k' 0); [lia|].
    rewrite length_map. unfold zlen in Hrow. lia.
Qed.

Lemma row_pass_sums (row : list (complex R)) :
  zlen row = n ->
  row_pass e index row
  = Ok (accumulate (map (fun _ => c0) row) (concat index)
                   (concat (map (fun irow =>
                                   map (fun _ => orbit_sum row irow) irow)
                                index))).
Proof.
  intros Hrow. unfold row_pass. rewrite (gather_row row Hrow).
  cbn [bind]. now rewrite orbit_pass_sums.
Qed.

Lemma weights_full : zlen (inv_multiplicity e) = n.
Proof.
  rewrite Hw. unfold zlen. rewrite length_map, arange_length. lia.
Qed.

(** One batch entry after the call: the orbit means. *)
Lemma row_call_mean (row : list (complex R)) :
  zlen row = n ->
  row_call e index n row = Ok (map (orbit_mean index ns row) (arange n)).
Proof.
  intros Hrow. unfold row_call. rewrite (row_pass_sums row Hrow).
  cbn [bind]. unfold row_weights, scale_rows.
  rewrite weights_full, Z.eqb_refl. cbn [bind map concat].
  rewrite app_nil_r. f_equal.
  set (acc := accumulate _ _ _).
  assert (Hacc : length acc = Z.to_nat n).
  { subst acc. rewrite accumulate_length, length_map.
    unfold zlen in Hrow. lia. }
  apply (nth_ext _ _ c0 c0).
  - rewrite !length_map, length_combine, Hw, length_map, arange_length.
    lia.
  - intros i Hi.
    rewrite length_map, length_combine, Hw, length_map, arange_length
      in Hi.
    assert (Hin : 0 <= Z.of_nat i < n) by lia.
    rewrite nth_scaled
      by (rewrite ?Hw, ?length_map, ?arange_length; lia).
    rewrite Hw.
    replace i with (Z.to_nat (Z.of_nat i)) by apply Nat2Z.id.
    rewrite (nth_map_arange _ n (Z.of_nat i) r0 Hin).
    rewrite (nth_map_arange _ n (Z.of_nat i) c0 Hin).
    subst acc.
    rewrite (accumulated_entry row (Z.of_nat i) Hrow Hin).
    unfold orbit_mean.
    destruct (occurrences_in_row _ Hin) as (Hocc & Hpos).
    apply mean_of_multiple.
    + apply of_Z_nonzero; [exact Hchar|lia].
    + now apply of_Z_nonzero.
Qed.

(** The orbit means of orbit means are the orbit means. *)
Lemma mean_idempotent (row : list (complex R)) :
  map (orbit_mean index ns (map (orbit_mean index ns row) (arange n)))
      (arange n)
  = map (orbit_mean index ns row) (arange n).
Proof.
  apply map_ext_in. intros k Hk. apply in_arange in Hk.
  destruct (orbit_row_spec k Hk) as (Hin & Hex & _ & _).
  unfold orbit_mean at 1.
  rewrite (map_ext_in _ (fun _ => orbit_mean index ns row k)).
  - rewrite csum_const.
    rewrite Forall_forall in Hrows. rewrite (Hrows _ Hin).
    unfold orbit_mean. apply multiple_of_mean.
    now apply of_Z_nonzero.
  - intros k' Hk'.
    assert (Hr' : 0 <= k' < n).
    { rewrite Forall_forall in Hrange. specialize (Hrange _ Hin).
      rewrite Forall_forall in Hrange. now apply Hrange. }
    rewrite (nth_map_arange _ n k' c0 Hr').
    destruct (orbit_row_spec k' Hr') as (_ & _ & _ & Huniq).
    unfold orbit_mean. now rewrite <- (Huniq _ Hin Hk').
Qed.
End OrbitMean.

Lemma chunk_concat {A : Type} (n : nat) (rows : list (list A)) :
  Forall (fun r => length r = n) rows ->
  chunk n (length rows) (concat rows) = rows.
Proof.
  induction 1 as [|r rows Hr Hrows IH]; [reflexivity|].
  cbn [length chunk concat]. subst n.
  now rewrite firstn_exact, skipn_exact, IH.
Qed.

Section MeanTheorems.
Context {R : Type} {SR : Scalar R}.
Variable cis_turn : R -> complex R.
Variable comm : Alltoallv_call R -> list (list (complex R)).
Implicit Types (st : CallState R) (e : Engine R) (g : Grid R)
         (v : FieldH R).

(** A single-process call whose batch entries all go through. *)
Lemma call_by_rows e (index : list (list Z)) v
      (T : list (complex R) -> list (complex R)) :
  e_layout e = Serial index ->
  grid_id (f_grid v) = grid_id (e_grid e) ->
  f_dtype v = phase_dtype e ->
  0 <= n_batch_of v -> 0 <= n_grid_of (e_grid e) ->
  zlen (f_data v) = n_batch_of v * n_grid_of (e_grid e) ->
  zlen (inv_multiplicity e) = n_grid_of (e_grid e) ->
  (forall row, zlen row = n_grid_of (e_grid e) ->
               row_call e index (n_grid_of (e_grid e)) row = Ok (T row)) ->
  call comm (start e v)
  = (Ok tt,
     set_data (start e v)
              (map T (chunk (Z.to_nat (n_grid_of (e_grid e)))
                            (Z.to_nat (n_batch_of v)) (f_data v)))).
Proof.
  intros Hl Hid Hdt Hnb Hng Hlen Hw HT.
  set (n := n_grid_of (e_grid e)) in *.
  set (rows := chunk _ _ _).
  assert (Hrows : forall row, In row rows -> zlen row = n).
  { assert (H : Forall (fun r => length r = Z.to_nat n) rows).
    { apply chunk_rows. unfold zlen in Hlen. nia. }
    rewrite Forall_forall in H. intros row Hin.
    unfold zlen. rewrite (H row Hin). lia. }
  set (S := fun acc : list (complex R) =>
              map (fun p : complex R * R => cscale (fst p) (snd p))
                  (combine acc (inv_multiplicity e))).
  set (A := fun row => match row_pass e index row with
                       | Ok a => a
                       | Err _ => []
                       end).
  assert (HA : forall row, In row rows ->
                row_pass e index row = Ok (A row) /\ S (A row) = T row).
  { intros row Hin. specialize (HT row (Hrows row Hin)).
    unfold row_call in HT. subst A. cbn beta.
    destruct (row_pass e index row) as [a|]; cbn [bind] in HT;
      [|discriminate].
    split; [reflexivity|].
    unfold row_weights, scale_rows in HT. fold n in HT.
    rewrite Hw, Z.eqb_refl in HT. cbn [bind map concat] in HT.
    rewrite app_nil_r in HT. now injection HT. }
  unfold call, accumulated, start. cbn [cs_self cs_v].
  rewrite Hid, Nat.eqb_refl, Hl. cbn [negb]. fold n.
  destruct (Z.ltb_spec (n_batch_of v) 0); [lia|].
  destruct (Z.ltb_spec n 0); [lia|].
  rewrite Hlen, Z.eqb_refl. cbn [orb negb].
  rewrite accumulate_serial_rows by exact Hdt. cbn [cs_self]. fold rows.
  rewrite (mapM_pure_in _ A) by (intros row Hin; apply (HA row Hin)).
  unfold finish, scale_rows. cbn [cs_self]. fold n.
  rewrite Hw, Z.eqb_refl. do 2 f_equal.
  rewrite map_map. apply map_ext_in. intros row Hin.
  apply (HA row Hin).
Qed.

Lemma init_n_sym g e : init cis_turn g = Ok e -> n_sym e = zlen (rot g).
Proof.
  unfold init.
  destruct (iH_reduced g); cbn [bind]; [|discriminate].
  destruct (if 1 <? n_procs g then _ else _); cbn [bind]; [|discriminate].
  destruct (_ =? 0); [discriminate|]. now intros [= <-].
Qed.

(** What the constructor provides for the orbit means. *)
Lemma init_mean_setting g e :
  grid_wf g -> init cis_turn g = Ok e -> n_procs g <= 1 ->
  zlen (mesh_H g) = n_tot_of (shapeH g) ->
  orbits_partition g -> unit_phases e ->
  e_grid e = g /\ e_layout e = Serial (index_table g) /\
  0 <= n_grid_of g /\ 0 < zlen (rot g) /\
  Forall (fun irow => zlen irow = zlen (rot g)) (index_table g) /\
  imag_scale e = map (map (fun _ => true)) (index_table g) /\
  phase e = map (map (fun _ => c1)) (index_table g) /\
  Forall (Forall (fun k => 0 <= k < n_grid_of g)) (index_table g) /\
  (forall k, 0 <= k < n_grid_of g ->
             length (filter (fun irow => existsb (Z.eqb k) irow)
                            (index_table g)) = 1%nat) /\
  inv_multiplicity e
  = map (fun k => rdiv (rdiv r1 (of_Z (zlen (rot g))))
                       (of_Z (count_of k (concat (index_table g)))))
        (arange (n_grid_of g)).
Proof.
  intros Hwf Hi Hp Hmesh Hpart Hph.
  destruct (init_serial_inv cis_turn g e Hi Hp) as (Hg & Hl & Hinv).
  pose proof (n_grid_serial g Hwf Hp) as Hng.
  destruct (n_tot_as_rows g Hwf) as (Hz & Hxy & Hnt & _).
  pose proof Hwf as (Hpos & HH & _).
  assert (Hn0 : 0 <= n_grid_of g).
  { rewrite Hng, Hnt. apply Z.mul_nonneg_nonneg; lia. }
  pose proof (init_n_sym g e Hi) as Hns.
  destruct (init_shapes cis_turn g e Hi)
    as (Hnspos & Hsc & Hphs & Hidx).
  specialize (Hidx _ Hl). rewrite Hns in *.
  assert (Hrange : Forall (fun k => 0 <= k < n_grid_of g)
                          (concat (index_table g))).
  { rewrite Hng. now apply index_table_in_range. }
  assert (Hpart' : forall k, 0 <= k < n_grid_of g ->
             length (filter (fun irow => existsb (Z.eqb k) irow)
                            (index_table g)) = 1%nat).
  { intros k Hk. apply Hpart. rewrite Hmesh, <- Hng. exact Hk. }
  split; [exact Hg|]. split; [exact Hl|]. split; [exact Hn0|].
  split; [exact Hnspos|]. split; [apply Hidx|].
  split.
  { apply const_table; [|now apply (imag_scale_all_true cis_turn g)].
    apply (same_shape_Forall2 _ _ _ _ Hidx Hsc). }
  split.
  { apply const_table; [|exact Hph].
    apply (same_shape_Forall2 _ _ _ _ Hidx Hphs). }
  split; [now apply Forall_concat|]. split; [exact Hpart'|].
  rewrite Hinv.
  rewrite (multiplicity_full g Hpos HH).
  - rewrite map_map, <- Hng. reflexivity.
  - unfold multiplicity_of, unique_counts, zlen. cbn [snd].
    rewrite length_map. fold (zlen (unique (concat (index_table g)))).
    apply unique_length_full.
    + rewrite <- Hng. exact Hn0.
    + now apply index_table_in_range.
    + intros k Hk. rewrite <- Hng in Hk. specialize (Hpart' k Hk).
      destruct (filter _ (index_table g)) as [|irow t] eqn:E;
        [discriminate|].
      assert (Hin : In irow (filter (fun irow => existsb (Z.eqb k) irow)
                                    (index_table g)))
        by (rewrite E; now left).
      apply filter_In in Hin. destruct Hin as (Hin & Hex).
      apply existsb_exists in Hex. destruct Hex as (x & Hx & Ex).
      apply Z.eqb_eq in Ex. subst x.
      apply in_concat. eauto.
Qed.


(** X17. Under the same conditions (every phase is 1, orbits that
    partition the grid, a field that fits and has the dtype of the phase
    table) symmetrization is idempotent: a second call on the field the
    first call returned returns normally and leaves the buffer as the
    first call left it. *)
Theorem symmetrization_idempotent_for_unit_phases g e v :
  char0 R -> grid_wf g -> init cis_turn g = Ok e -> n_procs g <= 1 ->
  zlen (mesh_H g) = n_tot_of (shapeH g) ->
  orbits_partition g -> unit_phases e -> field_fits g v ->
  f_dtype v = trans_dtype g ->
  exists st' st'',
    call comm (start e v) = (Ok tt, st') /\
    call comm (start e (cs_v st')) = (Ok tt, st'') /\
    f_data (cs_v st'') = f_data (cs_v st').
Proof.
  intros Hchar Hwf Hi Hp Hmesh Hpart Hph Hfit Hdt.
  pose proof Hfit as (Hid & Hnb & Hlen).
  destruct (init_mean_setting g e Hwf Hi Hp Hmesh Hpart Hph)
    as (Hg & Hl & Hn0 & Hns & Hrows & Him & Hphs & Hrange & Hpart' & Hw).
  rewrite <- (init_phase_dtype cis_turn g e Hi) in Hdt.
  subst g.
  set (n := n_grid_of (e_grid e)) in *.
  set (index := index_table (e_grid e)) in *.
  set (T := fun row : list (complex R) =>
              map (orbit_mean index (zlen (rot (e_grid e))) row)
                  (arange n)).
  set (rows := chunk (Z.to_nat n) (Z.to_nat (n_batch_of v)) (f_data v)).
  assert (Hwlen : zlen (inv_multiplicity e) = n).
  { rewrite Hw. unfold zlen. rewrite length_map, arange_length. lia. }
  assert (HT : forall row, zlen row = n ->
                row_call e index n row = Ok (T row)).
  { intros row Hrow.
    now apply (row_call_mean e index n (zlen (rot (e_grid e)))). }
  assert (H1 : call comm (start e v)
               = (Ok tt, set_data (start e v) (map T rows))).
  { now apply (call_by_rows e index v T). }
  set (v' := cs_v (set_data (start e v) (map T rows))).
  assert (HTrows : Forall (fun r => length r = Z.to_nat n) (map T rows)).
  { apply Forall_map, Forall_forall. intros row _. subst T. cbn beta.
    now rewrite length_map, arange_length. }
  assert (Hrl : length (map T rows) = Z.to_nat (n_batch_of v)).
  { subst rows. now rewrite length_map, chunk_length. }
  assert (Hnb' : n_batch_of v' = n_batch_of v) by reflexivity.
  assert (Hlen' : zlen (f_data v') = n_batch_of v' * n).
  { rewrite Hnb'. subst v'. cbn [set_data cs_v f_data]. unfold zlen.
    rewrite (concat_rows_length _ _ HTrows), Hrl. lia. }
  assert (H2 : call comm (start e v')
               = (Ok tt,
                  set_data (start e v')
                           (map T (chunk (Z.to_nat n)
                                         (Z.to_nat (n_batch_of v'))
                                         (f_data v'))))).
  { apply (call_by_rows e index v' T); auto. }
  exists (set_data (start e v) (map T rows)).
  eexists. split; [exact H1|]. split; [exact H2|].
  cbn [set_data cs_v f_data]. f_equal.
  rewrite Hnb'. subst v'. cbn [set_data cs_v f_data].
  rewrite <- Hrl, (chunk_concat _ _ HTrows), map_map.
  apply map_ext. intros row. subst T. cbn beta.
  apply mean_idempotent; auto.
Qed.
End MeanTheorems.

(** ** Linearity of a single-process call *)

(** Two lists combined entry by entry. *)
Lemma zip_hom {A S C : Type} (plusA : A -> A -> A) (plusC : C -> C -> C)
      (f : A -> S -> C) (P : A -> A -> Prop) (Q : C -> C -> Prop) :
  (forall a1 a2 s, P a1 a2 ->
                   f (plusA a1 a2) s = plusC (f a1 s) (f a2 s) /\
                   Q (f a1 s) (f a2 s)) ->
  forall l1 l2 (t : list S),
    Forall2 P l1 l2 ->
    map (fun p => f (fst p) (snd p))
        (combine (map (fun p => plusA (fst p) (snd p)) (combine l1 l2)) t)
    = map (fun p => plusC (fst p) (snd p))
          (combine (map (fun p => f (fst p) (snd p)) (combine l1 t))
                   (map (fun p => f (fst p) (snd p)) (combine l2 t))) /\
    Forall2 Q (map (fun p => f (fst p) (snd p)) (combine l1 t))
              (map (fun p => f (fst p) (snd p)) (combine l2 t)).
Proof.
  intros Hf l1 l2 t H. revert t.
  induction H as [|a1 a2 l1 l2 Ha Hl IH]; intros t.
  - split; [reflexivity|constructor].
  - destruct t as [|s t]; [split; [reflexivity|constructor]|].
    cbn [combine map fst snd].
    destruct (Hf a1 a2 s Ha) as (E & HQ).
    destruct (IH t) as (IH1 & IH2).
    split; [now rewrite E, IH1|now constructor].
Qed.

Lemma map_hom {A C : Type} (plusA : A -> A -> A) (plusC : C -> C -> C)
      (f : A -> C) (P : A -> A -> Prop) (Q : C -> C -> Prop) :
  (forall a1 a2, P a1 a2 ->
                 f (plusA a1 a2) = plusC (f a1) (f a2) /\
                 Q (f a1) (f a2)) ->
  forall l1 l2,
    Forall2 P l1 l2 ->
    map f (map (fun p => plusA (fst p) (snd p)) (combine l1 l2))
    = map (fun p => plusC (fst p) (snd p))
          (combine (map f l1) (map f l2)) /\
    Forall2 Q (map f l1) (map f l2).
Proof.
  intros Hf l1 l2 H.
  induction H as [|a1 a2 l1 l2 Ha Hl (IH1 & IH2)].
  - split; [reflexivity|constructor].
  - cbn [combine map fst snd].
    destruct (Hf a1 a2 Ha) as (E & HQ).
    split; [now rewrite E, IH1|now constructor].
Qed.

Lemma Forall2_same_length {A B : Type} (l1 : list A) (l2 : list B) :
  Forall2 (fun _ _ => True) l1 l2 <-> length l1 = length l2.
Proof.
  split.
  - induction 1; cbn; auto.
  - revert l2. induction l1 as [|a l1 IH]; intros [|b l2] H; cbn in H;
      try discriminate; constructor; auto.
Qed.

Lemma zip_map_same {A B C D : Type} (plus : B -> C -> D) (g1 : A -> B)
      (g2 : A -> C) (l : list A) :
  map (fun p => plus (fst p) (snd p)) (combine (map g1 l) (map g2 l))
  = map (fun a => plus (g1 a) (g2 a)) l.
Proof.
  induction l as [|a l IH]; cbn; [reflexivity|]. now rewrite IH.
Qed.

Lemma zip_app {A B C : Type} (plus : A -> B -> C) (a a' : list A)
      (b b' : list B) :
  length a = length b ->
  map (fun p => plus (fst p) (snd p)) (combine (a ++ a') (b ++ b'))
  = map (fun p => plus (fst p) (snd p)) (combine a b)
    ++ map (fun p => plus (fst p) (snd p)) (combine a' b').
Proof.
  intros H. now rewrite combine_app, map_app.
Qed.

Lemma zip_firstn {A B C : Type} (plus : A -> B -> C) (m : nat)
      (a : list A) (b : list B) :
  firstn m (map (fun p => plus (fst p) (snd p)) (combine a b))
  = map (fun p => plus (fst p) (snd p)) (combine (firstn m a) (firstn m b)).
Proof.
  revert a b. induction m as [|m IH]; intros [|x a] [|y b]; cbn;
    try reflexivity. now rewrite IH.
Qed.

Lemma zip_skipn {A B C : Type} (plus : A -> B -> C) (m : nat)
      (a : list A) (b : list B) :
  length a = length b ->
  skipn m (map (fun p => plus (fst p) (snd p)) (combine a b))
  = map (fun p => plus (fst p) (snd p)) (combine (skipn m a) (skipn m b)).
Proof.
  revert a b. induction m as [|m IH]; intros [|x a] [|y b] H; cbn in *;
    try reflexivity; try discriminate. apply IH. lia.
Qed.

Lemma zip_chunk {A B C : Type} (plus : A -> B -> C) (n k : nat)
      (a : list A) (b : list B) :
  length a = length b ->
  chunk n k (map (fun p => plus (fst p) (snd p)) (combine a b))
  = map (fun p => map (fun q => plus (fst q) (snd q))
                      (combine (fst p) (snd p)))
        (combine (chunk n k a) (chunk n k b)).
Proof.
  revert a b. induction k as [|k IH]; intros a b H; [reflexivity|].
  cbn [chunk combine map fst snd].
  rewrite zip_firstn, zip_skipn by exact H.
  rewrite IH by (rewrite !length_skipn; lia). reflexivity.
Qed.

Lemma zip_concat {A B C : Type} (plus : A -> B -> C)
      (t1 : list (list A)) (t2 : list (list B)) :
  Forall2 (fun r1 r2 => length r1 = length r2) t1 t2 ->
  concat (map (fun p => map (fun q => plus (fst q) (snd q))
                            (combine (fst p) (snd p)))
              (combine t1 t2))
  = map (fun q => plus (fst q) (snd q)) (combine (concat t1) (concat t2)).
Proof.
  induction 1 as [|r1 r2 t1 t2 Hr Ht IH]; [reflexivity|].
  cbn [combine map concat fst snd]. rewrite IH.
  symmetry. now apply zip_app.
Qed.

Lemma zip_length {A B C : Type} (plus : A -> B -> C) (a : list A)
      (b : list B) :
  length a = length b ->
  length (map (fun p => plus (fst p) (snd p)) (combine a b)) = length a.
Proof. intros H. rewrite length_map, length_combine. lia. Qed.

Lemma nth_error_zip {A B C : Type} (plus : A -> B -> C) (l1 : list A)
      (l2 : list B) (i : nat) (a : A) (b : B) :
  nth_error l1 i = Some a -> nth_error l2 i = Some b ->
  nth_error (map (fun p => plus (fst p) (snd p)) (combine l1 l2)) i
  = Some (plus a b).
Proof.
  revert l2 i. induction l1 as [|x l1 IH]; intros [|y l2] [|i] H1 H2;
    cbn in *; try discriminate.
  - now inversion H1; inversion H2.
  - now apply IH.
Qed.

Section Linear.
Context {R : Type} {SR : Scalar R}.
Variable comm : Alltoallv_call R -> list (list (complex R)).
Implicit Types (st : CallState R) (e : Engine R) (v : FieldH R).
Add Field scalar_field_linear : (scalar_field (R := R)).

Variable x : R.
Local Abbreviation same_len :=
  (fun r1 r2 : list (complex R) => length r1 = length r2).
Local Abbreviation tlin :=
  (fun t1 t2 : list (list (complex R)) =>
     map (fun p => vlin x (fst p) (snd p)) (combine t1 t2)).

Lemma vlin_length (a b : list (complex R)) :
  length a = length b -> length (vlin x a b) = length a.
Proof. apply zip_length. Qed.

Lemma tget_lin (r1 r2 : list (complex R)) (k : Z) (a1 a2 : complex R) :
  length r1 = length r2 ->
  tget r1 k = Ok a1 -> tget r2 k = Ok a2 ->
  tget (vlin x r1 r2) k = Ok (clin x a1 a2).
Proof.
  intros Hl. unfold tget, zlen. rewrite (vlin_length r1 r2 Hl), <- Hl.
  destruct (_ || _); [discriminate|].
  destruct (nth_error r1 _) as [b1|] eqn:E1; [|discriminate].
  destruct (nth_error r2 _) as [b2|] eqn:E2; [|discriminate].
  intros [= <-] [= <-]. unfold vlin.
  now rewrite (nth_error_zip (clin x) r1 r2 _ b1 b2 E1 E2).
Qed.

Lemma tgets_lin (r1 r2 : list (complex R)) (ks : list Z)
      (xs1 xs2 : list (complex R)) :
  length r1 = length r2 ->
  tgets r1 ks = Ok xs1 -> tgets r2 ks = Ok xs2 ->
  tgets (vlin x r1 r2) ks = Ok (vlin x xs1 xs2) /\
  length xs1 = length xs2.
Proof.
  intros Hl. unfold tgets. revert xs1 xs2.
  induction ks as [|k ks IH]; intros xs1 xs2; cbn [mapM].
  - intros [= <-] [= <-]. split; reflexivity.
  - destruct (tget r1 k) as [a1|] eqn:E1; cbn [bind]; [|discriminate].
    destruct (mapM (tget r1) ks) as [t1|]; cbn [bind]; [|discriminate].
    destruct (tget r2 k) as [a2|] eqn:E2; cbn [bind]; [|discriminate].
    destruct (mapM (tget r2) ks) as [t2|]; cbn [bind]; [|discriminate].
    intros [= <-] [= <-].
    rewrite (tget_lin r1 r2 k a1 a2 Hl E1 E2). cbn [bind].
    destruct (IH t1 t2 eq_refl eq_refl) as (-> & Hlen). cbn [bind].
    split; [reflexivity|]. cbn. now rewrite Hlen.
Qed.

Lemma gather_lin (r1 r2 : list (complex R)) (index : list (list Z))
      (vb1 vb2 : list (list (complex R))) :
  length r1 = length r2 ->
  mapM (tgets r1) index = Ok vb1 -> mapM (tgets r2) index = Ok vb2 ->
  mapM (tgets (vlin x r1 r2)) index = Ok (tlin vb1 vb2) /\
  Forall2 same_len vb1 vb2.
Proof.
  intros Hl. revert vb1 vb2.
  induction index as [|ks index IH]; intros vb1 vb2; cbn [mapM].
  - intros [= <-] [= <-]. split; [reflexivity|constructor].
  - destruct (tgets r1 ks) as [a1|] eqn:E1; cbn [bind]; [|discriminate].
    destruct (mapM (tgets r1) index) as [t1|]; cbn [bind];
      [|discriminate].
    destruct (tgets r2 ks) as [a2|] eqn:E2; cbn [bind]; [|discriminate].
    destruct (mapM (tgets r2) index) as [t2|]; cbn [bind];
      [|discriminate].
    intros [= <-] [= <-].
    destruct (tgets_lin r1 r2 ks a1 a2 Hl E1 E2) as (-> & Hlen).
    cbn [bind].
    destruct (IH t1 t2 eq_refl eq_refl) as (-> & H2). cbn [bind].
    split; [reflexivity|now constructor].
Qed.

(** *** The steps within the orbits *)

Lemma clin_zero : clin x c0 c0 = (c0 : complex R).
Proof. unfold clin, cadd, cscale, c0, re, im; cbn. f_equal; ring. Qed.

Lemma conj_row_lin (r1 r2 : list (complex R)) (s : list bool) :
  length r1 = length r2 ->
  map (fun q : complex R * bool =>
         (re (fst q), rmul (im (fst q)) (real_of_bool (snd q))))
      (combine (vlin x r1 r2) s)
  = vlin x
      (map (fun q : complex R * bool =>
              (re (fst q), rmul (im (fst q)) (real_of_bool (snd q))))
           (combine r1 s))
      (map (fun q : complex R * bool =>
              (re (fst q), rmul (im (fst q)) (real_of_bool (snd q))))
           (combine r2 s)) /\
  length (map (fun q : complex R * bool =>
                 (re (fst q), rmul (im (fst q)) (real_of_bool (snd q))))
              (combine r1 s))
  = length (map (fun q : complex R * bool =>
                   (re (fst q), rmul (im (fst q)) (real_of_bool (snd q))))
                (combine r2 s)).
Proof.
  intros Hl.
  destruct (zip_hom (clin x) (clin x)
              (fun (a : complex R) (b : bool) =>
                 (re a, rmul (im a) (real_of_bool b)))
              (fun _ _ => True) (fun _ _ => True)) with
    (l1 := r1) (l2 := r2) (t := s) as (E & H2).
  - intros [a1 b1] [a2 b2] b _. split; [|exact I].
    unfold clin, cadd, cscale, re, im; cbn. f_equal; ring.
  - now apply Forall2_same_length.
  - split; [exact E|]. now apply Forall2_same_length in H2.
Qed.

Lemma conjugate_lin e (vb1 vb2 : list (list (complex R))) :
  Forall2 same_len vb1 vb2 ->
  hd [] (conjugate e [tlin vb1 vb2])
  = tlin (hd [] (conjugate e [vb1])) (hd [] (conjugate e [vb2])) /\
  Forall2 same_len (hd [] (conjugate e [vb1])) (hd [] (conjugate e [vb2])).
Proof.
  intros H. unfold conjugate. cbn [map hd].
  destruct (zip_hom (vlin x) (vlin x)
              (fun (row : list (complex R)) (s : list bool) =>
                 map (fun q : complex R * bool =>
                        (re (fst q),
                         rmul (im (fst q)) (real_of_bool (snd q))))
                     (combine row s))
              same_len same_len) with
    (l1 := vb1) (l2 := vb2) (t := imag_scale e) as (E & H2).
  - intros r1 r2 s Hl. now apply conj_row_lin.
  - exact H.
  - split; [exact E|exact H2].
Qed.

Lemma csum_lin (a b : list (complex R)) :
  length a = length b ->
  csum (vlin x a b) = clin x (csum a) (csum b).
Proof.
  revert b. induction a as [|u a IH]; intros [|w b] H; cbn in H;
    try discriminate.
  - cbn. now rewrite clin_zero.
  - unfold vlin. cbn [combine map csum fold_right fst snd].
    fold (csum (map (fun p => clin x (fst p) (snd p)) (combine a b))).
    fold (vlin x a b). fold (csum a). fold (csum b).
    rewrite IH by lia.
    destruct u, w, (csum a), (csum b).
    unfold clin, cadd, cscale, re, im; cbn. f_equal; ring.
Qed.

Lemma einsum_row_lin (r1 r2 p : list (complex R)) :
  length r1 = length r2 ->
  csum (map (fun q => cmul (fst q) (snd q)) (combine (vlin x r1 r2) p))
  = clin x (csum (map (fun q => cmul (fst q) (snd q)) (combine r1 p)))
           (csum (map (fun q => cmul (fst q) (snd q)) (combine r2 p))).
Proof.
  intros Hl.
  destruct (zip_hom (clin x) (clin x)
              (fun a b : complex R => cmul a b)
              (fun _ _ => True) (fun _ _ => True)) with
    (l1 := r1) (l2 := r2) (t := p) as (E & H2).
  - intros [a1 b1] [a2 b2] [c d] _. split; [|exact I].
    unfold clin, cadd, cscale, cmul, re, im; cbn. f_equal; ring.
  - now apply Forall2_same_length.
  - apply Forall2_same_length in H2.
    transitivity
      (csum (vlin x (map (fun q => cmul (fst q) (snd q)) (combine r1 p))
                    (map (fun q => cmul (fst q) (snd q)) (combine r2 p))));
      [f_equal; exact E|now apply csum_lin].
Qed.

Lemma einsum_lin e (vb1 vb2 : list (list (complex R))) :
  Forall2 same_len vb1 vb2 ->
  hd [] (einsum_bos_os e [tlin vb1 vb2])
  = vlin x (hd [] (einsum_bos_os e [vb1])) (hd [] (einsum_bos_os e [vb2]))
  /\ length (hd [] (einsum_bos_os e [vb1]))
     = length (hd [] (einsum_bos_os e [vb2])).
Proof.
  intros H. unfold einsum_bos_os. cbn [map hd].
  destruct (zip_hom (vlin x) (clin x)
              (fun (row p : list (complex R)) =>
                 csum (map (fun q => cmul (fst q) (snd q))
                           (combine row p)))
              same_len (fun _ _ => True)) with
    (l1 := vb1) (l2 := vb2) (t := phase e) as (E & H2).
  - intros r1 r2 p Hl. split; [now apply einsum_row_lin|exact I].
  - exact H.
  - apply Forall2_same_length in H2. split; [|exact H2].
    exact E.
Qed.

Lemma expand_row_lin (s1 s2 : complex R) (p : list (complex R)) :
  map (fun ph => cmul (clin x s1 s2) (cconj ph)) p
  = vlin x (map (fun ph => cmul s1 (cconj ph)) p)
           (map (fun ph => cmul s2 (cconj ph)) p).
Proof.
  unfold vlin. rewrite zip_map_same. apply map_ext. intros [c d].
  destruct s1, s2.
  unfold clin, cadd, cscale, cmul, cconj, re, im; cbn. f_equal; ring.
Qed.

Lemma expand_lin e (s1 s2 : list (complex R)) :
  length s1 = length s2 ->
  hd [] (expand e [vlin x s1 s2])
  = tlin (hd [] (expand e [s1])) (hd [] (expand e [s2])) /\
  Forall2 same_len (hd [] (expand e [s1])) (hd [] (expand e [s2])).
Proof.
  intros H. unfold expand. cbn [map hd].
  destruct (zip_hom (clin x) (vlin x)
              (fun (s : complex R) (p : list (complex R)) =>
                 map (fun ph => cmul s (cconj ph)) p)
              (fun _ _ => True) same_len) with
    (l1 := s1) (l2 := s2) (t := phase e) as (E & H2).
  - intros a1 a2 p _. split; [apply expand_row_lin|].
    now rewrite !length_map.
  - now apply Forall2_same_length.
  - split; [|exact H2]. exact E.
Qed.

Lemma symmetrize_orbits_lin e (vb1 vb2 : list (list (complex R))) :
  Forall2 same_len vb1 vb2 ->
  hd [] (symmetrize_orbits e [tlin vb1 vb2])
  = tlin (hd [] (symmetrize_orbits e [vb1]))
         (hd [] (symmetrize_orbits e [vb2])) /\
  Forall2 same_len (hd [] (symmetrize_orbits e [vb1]))
                   (hd [] (symmetrize_orbits e [vb2])).
Proof.
  intros H.
  assert (Hchain : forall t : list (list (complex R)),
             hd [] (symmetrize_orbits e [t])
             = hd [] (conjugate e
                        [hd [] (expand e
                                  [hd [] (einsum_bos_os e
                                            [hd [] (conjugate e [t])])])]))
    by reflexivity.
  rewrite !Hchain.
  destruct (conjugate_lin e vb1 vb2 H) as (E1 & H1). rewrite E1.
  destruct (einsum_lin e _ _ H1) as (E2 & H2). rewrite E2.
  destruct (expand_lin e _ _ H2) as (E3 & H3). rewrite E3.
  destruct (conjugate_lin e _ _ H3) as (E4 & H4). rewrite E4.
  split; [reflexivity|exact H4].
Qed.
(** *** Accumulation and weights *)

Lemma zeros_lin (r1 r2 : list (complex R)) :
  length r1 = length r2 ->
  map (fun _ => c0) (vlin x r1 r2)
  = vlin x (map (fun _ => c0) r1) (map (fun _ => c0) r2).
Proof.
  revert r2. induction r1 as [|a r1 IH]; intros [|b r2] H; cbn in H;
    try discriminate; [reflexivity|].
  unfold vlin in *. cbn [combine map fst snd].
  rewrite clin_zero. f_equal. apply IH. lia.
Qed.

Lemma add_at_lin (a1 a2 : list (complex R)) (i : nat) (u w : complex R) :
  length a1 = length a2 ->
  add_at (vlin x a1 a2) i (clin x u w)
  = vlin x (add_at a1 i u) (add_at a2 i w).
Proof.
  revert a2 i. induction a1 as [|y1 a1 IH]; intros [|y2 a2] i H;
    cbn in H; try discriminate.
  - now destruct i.
  - unfold vlin in *. destruct i as [|i]; cbn [combine map fst snd add_at].
    + f_equal. destruct y1, y2, u, w.
      unfold clin, cadd, cscale, re, im; cbn. f_equal; ring.
    + f_equal. apply IH. lia.
Qed.

Lemma accumulate_fold_lin (n : Z) (ks : list Z)
      (x1 x2 acc1 acc2 : list (complex R)) :
  length acc1 = length acc2 -> length x1 = length x2 ->
  fold_left (fun a p => add_at a (norm_index n (fst p)) (snd p))
            (combine ks (vlin x x1 x2)) (vlin x acc1 acc2)
  = vlin x
      (fold_left (fun a p => add_at a (norm_index n (fst p)) (snd p))
                 (combine ks x1) acc1)
      (fold_left (fun a p => add_at a (norm_index n (fst p)) (snd p))
                 (combine ks x2) acc2).
Proof.
  revert x1 x2 acc1 acc2.
  induction ks as [|k ks IH]; intros x1 x2 acc1 acc2 Ha Hx;
    [reflexivity|].
  destruct x1 as [|u x1], x2 as [|w x2]; cbn in Hx; try discriminate;
    [reflexivity|].
  unfold vlin at 1. cbn [combine map fst snd fold_left].
  fold (vlin x x1 x2).
  rewrite add_at_lin by exact Ha.
  apply IH; [now rewrite !add_at_length|lia].
Qed.

Lemma accumulate_lin (ks : list Z) (z1 z2 x1 x2 : list (complex R)) :
  length z1 = length z2 -> length x1 = length x2 ->
  accumulate (vlin x z1 z2) ks (vlin x x1 x2)
  = vlin x (accumulate z1 ks x1) (accumulate z2 ks x2).
Proof.
  intros Hz Hx. unfold accumulate, zlen.
  rewrite (vlin_length z1 z2 Hz), <- Hz.
  now apply accumulate_fold_lin.
Qed.

Lemma concat_same_len (t1 t2 : list (list (complex R))) :
  Forall2 same_len t1 t2 -> length (concat t1) = length (concat t2).
Proof.
  induction 1 as [|r1 r2 t1 t2 Hr Ht IH]; [reflexivity|].
  cbn [concat]. rewrite !length_app. lia.
Qed.

Lemma row_pass_lin e (index : list (list Z))
      (r1 r2 a1 a2 : list (complex R)) :
  length r1 = length r2 ->
  row_pass e index r1 = Ok a1 -> row_pass e index r2 = Ok a2 ->
  row_pass e index (vlin x r1 r2) = Ok (vlin x a1 a2) /\
  length a1 = length a2.
Proof.
  intros Hl. unfold row_pass.
  destruct (mapM (tgets r1) index) as [vb1|] eqn:E1; cbn [bind];
    [|discriminate].
  destruct (mapM (tgets r2) index) as [vb2|] eqn:E2; cbn [bind];
    [|discriminate].
  intros [= <-] [= <-].
  destruct (gather_lin r1 r2 index vb1 vb2 Hl E1 E2) as (-> & Hvb).
  cbn [bind].
  destruct (symmetrize_orbits_lin e vb1 vb2 Hvb) as (-> & Hs).
  split.
  - f_equal. rewrite zeros_lin by exact Hl.
    rewrite <- accumulate_lin.
    + f_equal. apply (zip_concat (clin x)). exact Hs.
    + now rewrite !length_map.
    + now apply concat_same_len.
  - now rewrite !accumulate_length, !length_map.
Qed.

Lemma rows_pass_lin e (index : list (list Z))
      (rows1 rows2 accs1 accs2 : list (list (complex R))) :
  Forall2 same_len rows1 rows2 ->
  mapM (row_pass e index) rows1 = Ok accs1 ->
  mapM (row_pass e index) rows2 = Ok accs2 ->
  mapM (row_pass e index) (tlin rows1 rows2) = Ok (tlin accs1 accs2) /\
  Forall2 same_len accs1 accs2.
Proof.
  intros H. revert accs1 accs2.
  induction H as [|r1 r2 rows1 rows2 Hr Hrows IH]; intros accs1 accs2;
    cbn [mapM combine map fst snd].
  - intros [= <-] [= <-]. split; [reflexivity|constructor].
  - destruct (row_pass e index r1) as [a1|] eqn:E1; cbn [bind];
      [|discriminate].
    destruct (mapM (row_pass e index) rows1) as [t1|]; cbn [bind];
      [|discriminate].
    destruct (row_pass e index r2) as [a2|] eqn:E2; cbn [bind];
      [|discriminate].
    destruct (mapM (row_pass e index) rows2) as [t2|]; cbn [bind];
      [|discriminate].
    intros [= <-] [= <-].
    destruct (row_pass_lin e index r1 r2 a1 a2 Hr E1 E2) as (-> & Hlen).
    cbn [bind].
    destruct (IH t1 t2 eq_refl eq_refl) as (-> & H2). cbn [bind].
    split; [reflexivity|now constructor].
Qed.

Lemma scale_row_lin (w : list R) (r1 r2 : list (complex R)) :
  length r1 = length r2 ->
  map (fun p : complex R * R => cscale (fst p) (snd p))
      (combine (vlin x r1 r2) w)
  = vlin x (map (fun p : complex R * R => cscale (fst p) (snd p))
                (combine r1 w))
           (map (fun p : complex R * R => cscale (fst p) (snd p))
                (combine r2 w)) /\
  length (map (fun p : complex R * R => cscale (fst p) (snd p))
              (combine r1 w))
  = length (map (fun p : complex R * R => cscale (fst p) (snd p))
                (combine r2 w)).
Proof.
  intros Hl.
  destruct (zip_hom (clin x) (clin x)
              (fun (a : complex R) (s : R) => cscale a s)
              (fun _ _ => True) (fun _ _ => True)) with
    (l1 := r1) (l2 := r2) (t := w) as (E & H2).
  - intros [a1 b1] [a2 b2] s _. split; [|exact I].
    unfold clin, cadd, cscale, re, im; cbn. f_equal; ring.
  - now apply Forall2_same_length.
  - split; [exact E|]. now apply Forall2_same_length in H2.
Qed.

Lemma scale_const_lin (c : R) (r1 r2 : list (complex R)) :
  length r1 = length r2 ->
  map (fun z => cscale z c) (vlin x r1 r2)
  = vlin x (map (fun z => cscale z c) r1) (map (fun z => cscale z c) r2)
  /\ length (map (fun z : complex R => cscale z c) r1)
     = length (map (fun z : complex R => cscale z c) r2).
Proof.
  intros Hl.
  destruct (map_hom (clin x) (clin x) (fun z : complex R => cscale z c)
              (fun _ _ => True) (fun _ _ => True)) with
    (l1 := r1) (l2 := r2) as (E & H2).
  - intros [a1 b1] [a2 b2] _. split; [|exact I].
    unfold clin, cadd, cscale, re, im; cbn. f_equal; ring.
  - now apply Forall2_same_length.
  - split; [exact E|]. now apply Forall2_same_length in H2.
Qed.

Lemma scale_rows_lin e (n : Z) (a1 a2 s1 s2 : list (list (complex R))) :
  Forall2 same_len a1 a2 ->
  scale_rows e n a1 = Ok s1 -> scale_rows e n a2 = Ok s2 ->
  scale_rows e n (tlin a1 a2) = Ok (tlin s1 s2) /\
  Forall2 same_len s1 s2.
Proof.
  intros H. unfold scale_rows.
  destruct (zlen (inv_multiplicity e) =? n).
  - intros [= <-] [= <-].
    destruct (map_hom (vlin x) (vlin x)
                (fun row : list (complex R) =>
                   map (fun p : complex R * R => cscale (fst p) (snd p))
                       (combine row (inv_multiplicity e)))
                same_len same_len) with (l1 := a1) (l2 := a2)
      as (E & H2).
    + intros r1 r2 Hl. now apply scale_row_lin.
    + exact H.
    + split; [f_equal; exact E|exact H2].
  - destruct (zlen (inv_multiplicity e) =? 1); [|discriminate].
    intros [= <-] [= <-].
    destruct (map_hom (vlin x) (vlin x)
                (map (fun z : complex R =>
                        cscale z (hd r0 (inv_multiplicity e))))
                same_len same_len) with (l1 := a1) (l2 := a2)
      as (E & H2).
    + intros r1 r2 Hl. now apply scale_const_lin.
    + exact H.
    + split; [f_equal; exact E|exact H2].
Qed.

(** *** The call *)

Lemma call_serial_inv e (index : list (list Z)) v st' :
  e_layout e = Serial index ->
  call comm (start e v) = (Ok tt, st') ->
  grid_id (f_grid v) = grid_id (e_grid e) /\
  f_dtype v = phase_dtype e /\
  0 <= n_batch_of v /\ 0 <= n_grid_of (e_grid e) /\
  zlen (f_data v) = n_batch_of v * n_grid_of (e_grid e) /\
  exists accs outs,
    mapM (row_pass e index)
         (chunk (Z.to_nat (n_grid_of (e_grid e)))
                (Z.to_nat (n_batch_of v)) (f_data v)) = Ok accs /\
    scale_rows e (n_grid_of (e_grid e)) accs = Ok outs /\
    st' = set_data (start e v) outs.
Proof.
  intros Hl Hcall.
  assert (Hdt : f_dtype v = phase_dtype e).
  { unfold call in Hcall.
    destruct (accumulated comm (start e v)) as [[a|] s] eqn:E;
      [|discriminate].
    exact (accumulated_ok_dtype comm _ _ _ E). }
  revert Hcall. unfold call, accumulated, start. cbn [cs_self cs_v].
  rewrite Hl.
  destruct (Nat.eqb_spec (grid_id (f_grid v)) (grid_id (e_grid e)))
    as [Hid|]; cbn [negb]; [|discriminate].
  destruct (Z.ltb_spec (n_batch_of v) 0); [discriminate|].
  destruct (Z.ltb_spec (n_grid_of (e_grid e)) 0); [discriminate|].
  destruct (Z.eqb_spec (zlen (f_data v))
                       (n_batch_of v * n_grid_of (e_grid e)));
    cbn [orb negb]; [|discriminate].
  rewrite accumulate_serial_rows by exact Hdt. cbn [cs_self].
  destruct (mapM _ _) as [accs|]; [|discriminate].
  unfold finish. cbn [cs_self].
  destruct (scale_rows _ _ accs) as [outs|] eqn:Es; [|discriminate].
  intros [= <-]. repeat split; auto. eauto.
Qed.

Lemma call_serial_intro e (index : list (list Z)) v
      (accs outs : list (list (complex R))) :
  e_layout e = Serial index ->
  grid_id (f_grid v) = grid_id (e_grid e) ->
  f_dtype v = phase_dtype e ->
  0 <= n_batch_of v -> 0 <= n_grid_of (e_grid e) ->
  zlen (f_data v) = n_batch_of v * n_grid_of (e_grid e) ->
  mapM (row_pass e index)
       (chunk (Z.to_nat (n_grid_of (e_grid e)))
              (Z.to_nat (n_batch_of v)) (f_data v)) = Ok accs ->
  scale_rows e (n_grid_of (e_grid e)) accs = Ok outs ->
  call comm (start e v) = (Ok tt, set_data (start e v) outs).
Proof.
  intros Hl Hid Hdt Hnb Hn Hlen Hrows Hs.
  unfold call, accumulated, start. cbn [cs_self cs_v].
  rewrite Hl, Hid, Nat.eqb_refl. cbn [negb].
  destruct (Z.ltb_spec (n_batch_of v) 0); [lia|].
  destruct (Z.ltb_spec (n_grid_of (e_grid e)) 0); [lia|].
  rewrite Hlen, Z.eqb_refl. cbn [orb negb].
  rewrite accumulate_serial_rows by exact Hdt. cbn [cs_self].
  rewrite Hrows.
  unfold finish. cbn [cs_self]. now rewrite Hs.
Qed.

Lemma chunk_same_len (n k : nat) (d1 d2 : list (complex R)) :
  length d1 = length d2 ->
  Forall2 same_len (chunk n k d1) (chunk n k d2).
Proof.
  revert d1 d2. induction k as [|k IH]; intros d1 d2 H; cbn [chunk];
    constructor.
  - rewrite !length_firstn. lia.
  - apply IH. rewrite !length_skipn. lia.
Qed.

(** X18. A call of the single-process engine is linear over the reals:
    when the calls on two fields of the same shape return, the call on
    the combination [x * v1 + v2] (entry by entry, [x] real) returns too,
    and leaves the same combination of the two results. *)
Theorem serial_call_linear e (index : list (list Z)) v
      (d1 d2 : list (complex R)) st1 st2 :
  e_layout e = Serial index ->
  call comm (start e (with_data v d1)) = (Ok tt, st1) ->
  call comm (start e (with_data v d2)) = (Ok tt, st2) ->
  exists st,
    call comm (start e (with_data v (vlin x d1 d2))) = (Ok tt, st) /\
    f_data (cs_v st) = vlin x (f_data (cs_v st1)) (f_data (cs_v st2)).
Proof.
  intros Hl H1 H2.
  destruct (call_serial_inv e index _ _ Hl H1)
    as (Hid & Hdt & Hnb & Hn & Hlen1 & accs1 & outs1 & Hr1 & Hs1 & ->).
  destruct (call_serial_inv e index _ _ Hl H2)
    as (_ & _ & _ & _ & Hlen2 & accs2 & outs2 & Hr2 & Hs2 & ->).
  cbn [with_data f_grid f_data f_dtype] in *.
  change (n_batch_of (with_data v d1)) with (n_batch_of v) in *.
  change (n_batch_of (with_data v d2)) with (n_batch_of v) in *.
  assert (Hd : length d1 = length d2)
    by (unfold zlen in Hlen1, Hlen2; lia).
  pose proof (chunk_same_len (Z.to_nat (n_grid_of (e_grid e)))
                (Z.to_nat (n_batch_of v)) d1 d2 Hd) as Hrows.
  destruct (rows_pass_lin e index _ _ _ _ Hrows Hr1 Hr2) as (Hr12 & Haccs).
  destruct (scale_rows_lin e _ _ _ _ _ Haccs Hs1 Hs2) as (Hs12 & Houts).
  eexists. split.
  - apply (call_serial_intro e index (with_data v (vlin x d1 d2))
             (tlin accs1 accs2) (tlin outs1 outs2)); auto.
    + cbn [with_data f_data].
      change (n_batch_of (with_data v (vlin x d1 d2)))
        with (n_batch_of v).
      unfold zlen. rewrite (vlin_length d1 d2 Hd). exact Hlen1.
    + cbn [with_data f_data].
      change (n_batch_of (with_data v (vlin x d1 d2)))
        with (n_batch_of v).
      unfold vlin at 1. rewrite zip_chunk by exact Hd. exact Hr12.
  - cbn [set_data cs_v f_data].
    apply (zip_concat (clin x)). exact Houts.
Qed.
End Linear.

(** ** Canonical keys and orbits of a group with the inversion *)

Lemma filter_map_length {A B : Type} (p : B -> bool) (f : A -> B)
      (l : list A) :
  length (filter p (map f l)) = length (filter (fun a => p (f a)) l).
Proof.
  induction l as [|a l IH]; cbn; [reflexivity|].
  destruct (p (f a)); cbn; now rewrite IH.
Qed.

Section KeyFacts.
Context {R : Type} {SR : Scalar R}.
Variable g : Grid R.
Hypothesis Hpos : shape_pos (shape g).
Hypothesis HH : shapeH g = shapeH_of (shape g).
Hypothesis Hstored : mesh_stored g.
Hypothesis HI : In I3 (rot g).
Hypothesis Hgroup : rot_group g.
Hypothesis Hinv : rot_has_inversion g.
Hypothesis Hcomm : commensurate g.

Lemma gi_mod (u u' : vec3) :
  vmod u (shape g) = vmod u' (shape g) -> gi g u = gi g u'.
Proof.
  intros E. unfold gi, get_index, folded, conj_needed, wrapped.
  now rewrite E.
Qed.

(** [u'] is, modulo the period, the image of [u] under an operation. *)
Local Abbreviation image_of u u' :=
  (exists m, In m (rot g) /\
             vmod u' (shape g) = vmod (vecmat u m) (shape g)).

Lemma image_of_sym (u u' : vec3) : image_of u u' -> image_of u' u.
Proof.
  intros (m & Hm & E).
  destruct (proj2 Hgroup m Hm) as (m' & Hm' & Hinv').
  exists m'. split; [exact Hm'|].
  rewrite (Hcomm m' _ _ Hm' E), Hinv'. reflexivity.
Qed.

Lemma image_of_image (u u' : vec3) (m2 : mat3) :
  image_of u u' -> In m2 (rot g) ->
  exists m3, In m3 (rot g) /\
             vmod (vecmat u' m2) (shape g) = vmod (vecmat u m3) (shape g).
Proof.
  intros (m & Hm & E) Hm2.
  destruct (proj1 Hgroup m m2 Hm Hm2) as (m3 & Hm3 & Hc).
  exists m3. split; [exact Hm3|].
  rewrite (Hcomm m2 _ _ Hm2 E), Hc. reflexivity.
Qed.

(** The mesh vector stored at the index of an image is an image. *)
Lemma stored_image (u iH' : vec3) (m : mat3) :
  In m (rot g) ->
  nth_error (mesh_H g) (Z.to_nat (fst (gi g (vecmat u m)))) = Some iH' ->
  image_of u iH'.
Proof.
  intros Hm Hnth.
  pose proof (gi_in_range g (vecmat u m) Hpos HH) as Hr.
  pose proof (Hstored _ _ Hnth) as Hs.
  rewrite Z2Nat.id in Hs by lia.
  assert (E : fst (get_index (shape g) (shapeH_of (shape g)) iH')
              = fst (get_index (shape g) (shapeH_of (shape g))
                               (vecmat u m))).
  { unfold gi in Hs. rewrite HH in Hs. rewrite Hs. reflexivity. }
  destruct (proj2 (same_index_residues (shape g) iH' (vecmat u m) Hpos) E)
    as [E'|E'].
  - exists m. auto.
  - destruct (Hinv m Hm) as (m' & Hm' & Hneg).
    exists m'. split; [exact Hm'|]. now rewrite Hneg.
Qed.

Lemma key_le_of_image (u u' : vec3) :
  image_of u u' -> min_equiv_key g u <= min_equiv_key g u'.
Proof.
  intros Him.
  destruct (min_equiv_key_spec g u') as (_ & _ & Hatt).
  destruct (min_equiv_key_spec g u) as (_ & Hle & _).
  destruct Hatt as [E|(m2 & Hm2 & E)]; rewrite E.
  - destruct Him as (m & Hm & Em).
    rewrite (gi_mod _ _ Em). now apply Hle.
  - destruct (image_of_image u u' m2 Him Hm2) as (m3 & Hm3 & E3).
    rewrite (gi_mod _ _ E3). now apply Hle.
Qed.

Lemma key_of_image (u u' : vec3) :
  image_of u u' -> min_equiv_key g u' = min_equiv_key g u.
Proof.
  intros Him.
  pose proof (key_le_of_image u u' Him).
  pose proof (key_le_of_image u' u (image_of_sym u u' Him)). lia.
Qed.

(** The key of a vector is the index of one of its images. *)
Lemma key_attained (u : vec3) :
  exists m, In m (rot g) /\ min_equiv_key g u = fst (gi g (vecmat u m)).
Proof.
  destruct (min_equiv_key_spec g u) as (_ & _ & [E|Hex]); [|exact Hex].
  exists I3. split; [exact HI|]. now rewrite vecmat_I3.
Qed.

Lemma keys_invariant : image_key_invariant g.
Proof.
  intros k iH m iH' _ Hm Hnth.
  apply key_of_image. now apply (stored_image iH iH' m).
Qed.

Hypothesis Hmesh : zlen (mesh_H g) = n_tot_of (shapeH g).

Local Abbreviation mesh_at k := (nth (Z.to_nat k) (mesh_H g) (0, 0, 0)).
Local Abbreviation row_of key :=
  (map (fun m => fst (gi g (vecmat (mesh_at key) m))) (rot g)).

Lemma index_table_rows :
  index_table g = map (fun key => row_of key) (orbit_keys g).
Proof.
  unfold index_table, iH_reduced.
  rewrite (tgets_nth (mesh_H g) (orbit_keys g) (0, 0, 0)).
  - unfold index_of, orbit_images. rewrite !map_map.
    apply map_ext. intros key. now rewrite map_map.
  - rewrite Hmesh. now apply orbit_keys_in_range.
Qed.

Lemma mesh_at_nth (k : Z) :
  0 <= k < zlen (mesh_H g) ->
  nth_error (mesh_H g) (Z.to_nat k) = Some (mesh_at k).
Proof.
  intros Hk. apply nth_error_nth'. unfold zlen in Hk. lia.
Qed.

(** The vector stored at a key has this key. *)
Lemma key_of_key (key : Z) :
  In key (orbit_keys g) -> min_equiv_key g (mesh_at key) = key.
Proof.
  intros Hin.
  pose proof (orbit_keys_in_range g Hpos HH) as Hr.
  rewrite Forall_forall in Hr. specialize (Hr key Hin).
  unfold orbit_keys in Hin. apply (proj1 (in_unique _ _)) in Hin.
  unfold min_equiv_index in Hin. apply in_map_iff in Hin.
  destruct Hin as (iH & Hkey & _).
  destruct (key_attained iH) as (m & Hm & Hatt).
  rewrite <- Hkey at 2.
  apply key_of_image. apply (stored_image iH _ m Hm).
  rewrite <- Hatt, Hkey. apply mesh_at_nth. now rewrite Hmesh.
Qed.

Lemma member_iff_key (k key : Z) :
  0 <= k < zlen (mesh_H g) -> In key (orbit_keys g) ->
  existsb (Z.eqb k) (row_of key) = (min_equiv_key g (mesh_at k) =? key).
Proof.
  intros Hk Hin.
  pose proof (orbit_keys_in_range g Hpos HH) as Hr.
  rewrite Forall_forall in Hr. pose proof (Hr key Hin) as Hkr.
  rewrite <- Hmesh in Hkr.
  pose proof (mesh_at_nth k Hk) as Hnk.
  pose proof (Hstored _ _ Hnk) as Hsk. rewrite Z2Nat.id in Hsk by lia.
  destruct (Z.eqb_spec (min_equiv_key g (mesh_at k)) key) as [E|NE].
  - apply existsb_exists.
    destruct (key_attained (mesh_at k)) as (m & Hm & Hatt).
    assert (Him : image_of (mesh_at k) (mesh_at key)).
    { apply (stored_image _ _ m Hm). rewrite <- Hatt, E.
      now apply mesh_at_nth. }
    destruct (image_of_sym _ _ Him) as (m' & Hm' & E').
    exists (fst (gi g (vecmat (mesh_at key) m'))). split.
    + apply in_map_iff. exists m'. auto.
    + rewrite <- (gi_mod _ _ E'), Hsk. apply Z.eqb_refl.
  - destruct (existsb (Z.eqb k) (row_of key)) eqn:Ex; [|reflexivity].
    exfalso. apply NE.
    apply existsb_exists in Ex. destruct Ex as (j & Hj & Ej).
    apply Z.eqb_eq in Ej. subst j.
    apply in_map_iff in Hj. destruct Hj as (m & Hgi & Hm).
    rewrite <- (key_of_key key Hin).
    apply key_of_image. apply (stored_image _ _ m Hm).
    now rewrite Hgi.
Qed.

Lemma orbits_partition_holds : orbits_partition g.
Proof.
  intros k Hk. rewrite index_table_rows.
  rewrite (filter_map_length (fun row => existsb (Z.eqb k) row)
                             (fun key => row_of key)).
  rewrite (filter_ext_in _ (Z.eqb (min_equiv_key g (mesh_at k)))).
  2:{ intros key Hin. now apply member_iff_key. }
  assert (Hin : In (min_equiv_key g (mesh_at k)) (orbit_keys g)).
  { apply in_unique. unfold min_equiv_index. apply in_map.
    apply nth_In. unfold zlen in Hk. lia. }
  pose proof (count_of_sorted _ _ (unique_sorted (min_equiv_index g)) Hin)
    as Hc.
  unfold count_of, zlen in Hc. fold (orbit_keys g) in Hc. lia.
Qed.
End KeyFacts.

Section KeyTheorems.
Context {R : Type} {SR : Scalar R}.
Implicit Types (g : Grid R).

(** X19. For a group of operations that acts on the index vectors modulo
    the grid period and contains the inversion, on a grid whose mesh
    vectors are stored at their own index, the canonical key is the same
    for a mesh vector and for the mesh vector stored at the index of any
    of its rotated-and-folded images. *)
Theorem keys_invariant_with_inversion g :
  shape_pos (shape g) -> shapeH g = shapeH_of (shape g) ->
  mesh_stored g ->
  rot_group g -> rot_has_inversion g -> commensurate g ->
  image_key_invariant g.
Proof.
  intros Hpos HH Hstored Hgroup Hinv Hcomm.
  intros k iH m iH' Hk Hm Hnth.
  eapply keys_invariant; eassumption.
Qed.

(** X20. Under the same conditions, with one mesh vector for every
    half-space index, the orbit rows of the index table partition the
    grid: every index is a member of exactly one row. *)
Theorem orbits_partition_with_inversion g :
  shape_pos (shape g) -> shapeH g = shapeH_of (shape g) ->
  mesh_stored g -> In I3 (rot g) ->
  rot_group g -> rot_has_inversion g -> commensurate g ->
  zlen (mesh_H g) = n_tot_of (shapeH g) ->
  orbits_partition g.
Proof.
  intros Hpos HH Hstored HI Hgroup Hinv Hcomm Hmesh k Hk.
  eapply orbits_partition_holds; eassumption.
Qed.
End KeyTheorems.

(** ** Examples for the further results *)

Lemma Forall_forallb {A : Type} (P : A -> Prop) (p : A -> bool)
      (l : list A) :
  (forall x, p x = true -> P x) -> forallb p l = true -> Forall P l.
Proof.
  intros HP H. apply Forall_forall. intros x Hx.
  apply HP. rewrite forallb_forall in H. now apply H.
Qed.





Lemma init_engine_of_two_workers :
  init cis_quarter grid_two_workers = Ok (engine_of grid_two_workers).
Proof. vm_compute. reflexivity. Qed.

Lemma layout_two_workers :
  e_layout (engine_of grid_two_workers)
  = Distributed [0; 4; 8] [0; 4; 6] [0; 1; 2; 3; 4; 5; 6; 7]
                [0; 1; 3; 4; 2; 5] [0; 1; 4; 2; 3; 5].
Proof. vm_compute. reflexivity. Qed.

Lemma multiplicity_total_witness :
  exists multiplicity,
    inv_multiplicity (engine_of grid_C2z)
    = map (weight_of grid_C2z) multiplicity /\
    Forall (fun m => 1 <= m) multiplicity /\
    zsum multiplicity
    = n_orbits_mine (engine_of grid_C2z) * n_sym (engine_of grid_C2z).
Proof.
  apply (multiplicity_total cis_quarter grid_C2z (engine_of grid_C2z)).
  - exact init_engine_of_C2z.
  - by_computation.
Defined.

Lemma init_serial_outcome_witness :
  match init cis_quarter grid_C2z with
  | Ok e =>
      rot grid_C2z <> [] /\ e_grid e = grid_C2z /\
      e_layout e = Serial (index_table grid_C2z) /\
      n_sym e = zlen (rot grid_C2z) /\
      n_orbits_mine e = zlen (orbit_keys grid_C2z)
  | Err x => rot grid_C2z = [] /\ x = ZeroDivisionError
  end.
Proof.
  apply (init_serial_outcome cis_quarter grid_C2z).
  - unfold shape_pos. conjuncts; by_computation.
  - by_computation.
  - by_computation.
  - by_computation.
Defined.

Lemma init_table_shapes_witness :
  let e := engine_of grid_inversion in
  0 < n_sym e /\
  table_shape (n_orbits_mine e) (n_sym e) (imag_scale e) /\
  table_shape (n_orbits_mine e) (n_sym e) (phase e) /\
  (forall index, e_layout e = Serial index ->
                 table_shape (n_orbits_mine e) (n_sym e) index).
Proof.
  intros e.
  apply (init_table_shapes cis_quarter grid_inversion e).
  by_computation.
Defined.

(** The orbit buffer of the field [0, i, 0] on the grid with the
    inversion: the entries of the second column are flagged for
    conjugation, and none is changed. *)
Lemma conjugate_changes_nothing_witness :
  let e := engine_of grid_inversion in
  let v_orbits :=
    [[[creal 0; creal 0]; [(0%Qc, 1%Qc); (0%Qc, 1%Qc)];
      [creal 0; creal 0]]] in
  Forall (Forall (fun s => s = true)) (imag_scale e) /\
  conjugate e v_orbits = v_orbits.
Proof.
  intros e v_orbits.
  apply (conjugate_changes_nothing cis_quarter grid_inversion e v_orbits).
  - by_computation.
  - unfold orbits_shape, table_shape.
    constructor; [|constructor]. split; [by_computation|].
    apply (Forall_forallb _ (fun r => zlen r =? n_sym e));
      [intros x Hx; now apply Z.eqb_eq|by_computation].
Defined.

Lemma orbit_index_inverts_recv_index_witness :
  let rix := [0; 1; 3; 4; 2; 5] in
  let oix := [0; 1; 4; 2; 3; 5] in
  Permutation rix (arange (zlen rix)) /\
  zlen oix = zlen rix /\
  (forall i, 0 <= i < zlen rix -> (k <- tget rix i ;; tget oix k) = Ok i) /\
  (forall j, 0 <= j < zlen rix -> (k <- tget oix j ;; tget rix k) = Ok j).
Proof.
  intros rix oix.
  apply (orbit_index_inverts_recv_index
           cis_quarter grid_two_workers (engine_of grid_two_workers)
           [0; 4; 8] [0; 4; 6] [0; 1; 2; 3; 4; 5; 6; 7] rix oix).
  - exact init_engine_of_two_workers.
  - exact layout_two_workers.
Defined.

Lemma searchsorted_inputs_sorted_witness :
  let g := grid_two_workers in
  let rix := [0; 1; 3; 4; 2; 5] in
  exists whose_src sorted_whose,
    whose_src_of g (index_table g) = Ok whose_src /\
    StronglySorted Z.le (mine_src_rows g (index_table g) whose_src) /\
    [0; 4; 8]
    = map (searchsorted (mine_src_rows g (index_table g) whose_src))
          (td_n_prev (TaskDivision_new (zlen (orbit_keys g))
                                       (n_procs g) (i_proc g))) /\
    rix = recv_order (whose_src_mine_of g (zlen (orbit_keys g)) whose_src) /\
    StronglySorted
      (source_then_position
         (whose_src_mine_of g (zlen (orbit_keys g)) whose_src)) rix /\
    tgets (whose_src_mine_of g (zlen (orbit_keys g)) whose_src) rix
    = Ok sorted_whose /\
    StronglySorted Z.le sorted_whose /\
    [0; 4; 6] = map (searchsorted sorted_whose) (arange (n_procs g + 1)).
Proof.
  intros g rix.
  apply (searchsorted_inputs_sorted
           cis_quarter g (engine_of g)
           [0; 4; 8] [0; 4; 6] [0; 1; 2; 3; 4; 5; 6; 7] rix
           [0; 1; 4; 2; 3; 5]).
  - exact init_engine_of_two_workers.
  - exact layout_two_workers.
Defined.

Lemma exchange_counts_cover_buffers_witness :
  let g := grid_two_workers in
  let st := start (engine_of g)
                  (field_on g (map creal [1; 2; 3; 4; 5; 6; 7; 8])) in
  exists new,
    cs_trace (snd (call no_comm st)) = cs_trace st ++ new /\
    Forall (fun c => counts_cover (a_send c) /\ counts_cover (a_recv c))
           new.
Proof.
  intros g st.
  apply (exchange_counts_cover_buffers cis_quarter no_comm g
                                       (engine_of g) st).
  - exact init_engine_of_two_workers.
  - by_computation.
  - reflexivity.
  - apply (Forall_forallb _ (fun v =>
             (0 <=? whose_each (split2H g) (vz v))
             && (whose_each (split2H g) (vz v) <? n_procs g)));
      [|by_computation].
    intros v Hv. apply andb_true_iff in Hv. destruct Hv as (H1 & H2).
    apply Z.leb_le in H1. apply Z.ltb_lt in H2. lia.
Defined.




(** The rationals have characteristic zero. *)
Lemma of_pos_Qc (p : positive) :
  (this (@of_pos Qc Qc_Scalar p) == inject_Z (Z.pos p))%Q.
Proof.
  induction p as [p IH|p IH|]; cbn [of_pos].
  - change (@radd Qc Qc_Scalar) with Qcplus.
    change (@r1 Qc Qc_Scalar) with (Q2Qc 1).
    unfold Qcplus. cbn [this Q2Qc].
    rewrite !Qred_correct, IH. change 1%Q with (inject_Z 1).
    rewrite <- !inject_Z_plus.
    replace (1 + (Z.pos p + Z.pos p)) with (Z.pos p~1) by lia.
    reflexivity.
  - change (@radd Qc Qc_Scalar) with Qcplus.
    unfold Qcplus. cbn [this Q2Qc].
    rewrite !Qred_correct, IH, <- !inject_Z_plus.
    replace (Z.pos p + Z.pos p) with (Z.pos p~0) by lia.
    reflexivity.
  - reflexivity.
Qed.

Lemma Qc_char0 : char0 Qc.
Proof.
  intros p H. pose proof (of_pos_Qc p) as E. rewrite H in E.
  unfold Qeq in E. cbn in E. lia.
Qed.

Lemma unit_phases_C2z : unit_phases (engine_of grid_C2z).
Proof.
  unfold unit_phases.
  assert (E : phase (engine_of grid_C2z)
              = map (map (fun _ => c1)) (index_table grid_C2z))
    by by_computation.
  rewrite E. apply Forall_map, Forall_forall. intros irow _.
  apply Forall_map, Forall_forall. reflexivity.
Qed.

Lemma orbits_partition_C2z : orbits_partition grid_C2z.
Proof.
  intros k Hk.
  assert (E : zlen (mesh_H grid_C2z) = 4) by by_computation.
  rewrite E in Hk.
  assert (Hc : k = 0 \/ k = 1 \/ k = 2 \/ k = 3) by lia.
  destruct Hc as [->|[->|[->| ->]]]; by_computation.
Qed.

Lemma field_fits_C2z :
  field_fits grid_C2z (field_on grid_C2z (map creal [1; 2; 3; 4])).
Proof. unfold field_fits. conjuncts; by_computation. Qed.

(** Two batch entries on the grid of four points with the two-fold
    rotation. *)
Lemma batch_entries_independent_witness :
  let e := engine_of grid_C2z in
  let v := mkFieldH grid_C2z [2; 4; 1; 1] complex128 true
                    (map creal [1; 2; 3; 4; 5; 6; 7; 8]) in
  let rows := chunk (Z.to_nat (n_grid_of (e_grid e)))
                    (Z.to_nat (n_batch_of v)) (f_data v) in
  exists outs,
    Forall2 (fun row out =>
               exists st1,
                 call no_comm (start e (batch_entry v row)) = (Ok tt, st1) /\
                 f_data (cs_v st1) = out)
            rows outs /\
    f_data (cs_v (snd (call no_comm (start e v)))) = concat outs.
Proof.
  intros e v.
  apply (batch_entries_independent no_comm e (index_table grid_C2z) v
                                   (snd (call no_comm (start e v)))).
  - by_computation.
  - transitivity (fst (call no_comm (start e v)),
                  snd (call no_comm (start e v)));
      [apply surjective_pairing|].
    apply (f_equal2 pair); [by_computation | reflexivity].
Defined.


Lemma symmetrization_idempotent_for_unit_phases_witness :
  let g := grid_C2z in
  let v := field_on g (map creal [1; 2; 3; 4]) in
  exists st' st'',
    call no_comm (start (engine_of g) v) = (Ok tt, st') /\
    call no_comm (start (engine_of g) (cs_v st')) = (Ok tt, st'') /\
    f_data (cs_v st'') = f_data (cs_v st').
Proof.
  intros g v.
  apply (symmetrization_idempotent_for_unit_phases
           cis_quarter no_comm g (engine_of g) v).
  - exact Qc_char0.
  - exact grid_C2z_wf.
  - exact init_engine_of_C2z.
  - by_computation.
  - by_computation.
  - exact orbits_partition_C2z.
  - exact unit_phases_C2z.
  - exact field_fits_C2z.
  - reflexivity.
Defined.

(** Twice the field [0, i, 0] plus the field [1, 2, 3], on the grid with
    the inversion about [(0, 0, 1/8)]. *)
Lemma serial_call_linear_witness :
  let e := engine_of grid_inversion in
  let v := field_on grid_inversion [] in
  let d1 := [creal 0; (0%Qc, 1%Qc); creal 0] in
  let d2 := map creal [1; 2; 3] in
  exists st,
    call no_comm (start e (with_data v (vlin (qc 2) d1 d2))) = (Ok tt, st) /\
    f_data (cs_v st)
    = vlin (qc 2)
           (f_data (cs_v (snd (call no_comm (start e (with_data v d1))))))
           (f_data (cs_v (snd (call no_comm (start e (with_data v d2)))))).
Proof.
  intros e v d1 d2.
  assert (Hcall : forall d,
             fst (call no_comm (start e (with_data v d))) = Ok tt ->
             call no_comm (start e (with_data v d))
             = (Ok tt, snd (call no_comm (start e (with_data v d))))).
  { intros d H. rewrite <- H. apply surjective_pairing. }
  apply (serial_call_linear no_comm (qc 2) e (index_table grid_inversion)
                            v d1 d2).
  - by_computation.
  - apply Hcall. by_computation.
  - apply Hcall. by_computation.
Defined.

(** The group of the three-fold rotation and the inversion on the cubic
    grid. *)
Lemma rot_S6 :
  rot grid_S6 = [I3; C3d; C3d2; neg3 I3; neg3 C3d; neg3 C3d2].
Proof. reflexivity. Qed.

Ltac S6_cases H :=
  rewrite rot_S6 in H; cbn [In] in H;
  repeat (destruct H as [H|H]; [symmetry in H|]); [..|contradiction].

Ltac S6_member :=
  rewrite rot_S6; cbn [In]; tauto.

Ltac S6_vectors :=
  intros [[a b] c];
  cbv [vecmat vneg neg3 I3 C3d C3d2 vx vy vz fst snd];
  (f_equal; [f_equal|]); lia.

Ltac S6_pick :=
  first [ exists I3; split; [S6_member|S6_vectors]
        | exists C3d; split; [S6_member|S6_vectors]
        | exists C3d2; split; [S6_member|S6_vectors]
        | exists (neg3 I3); split; [S6_member|S6_vectors]
        | exists (neg3 C3d); split; [S6_member|S6_vectors]
        | exists (neg3 C3d2); split; [S6_member|S6_vectors] ].

Lemma grid_S6_group : rot_group grid_S6.
Proof.
  split.
  - intros m1 m2 H1 H2. S6_cases H1; S6_cases H2; subst m1 m2; S6_pick.
  - intros m H. S6_cases H; subst m; S6_pick.
Qed.

Lemma grid_S6_inversion : rot_has_inversion grid_S6.
Proof. intros m H. S6_cases H; subst m; S6_pick. Qed.

Lemma linear_mod (n a b c a' b' c' x y z : Z) :
  a mod n = a' mod n -> b mod n = b' mod n -> c mod n = c' mod n ->
  (a * x + b * y + c * z) mod n = (a' * x + b' * y + c' * z) mod n.
Proof.
  intros Ha Hb Hc. destruct (Z.eq_dec n 0) as [->|Hn].
  - rewrite !Z.mod_0_r in *. now subst.
  - pose proof (Z.div_mod a n Hn). pose proof (Z.div_mod a' n Hn).
    pose proof (Z.div_mod b n Hn). pose proof (Z.div_mod b' n Hn).
    pose proof (Z.div_mod c n Hn). pose proof (Z.div_mod c' n Hn).
    replace (a * x + b * y + c * z)
      with (a' * x + b' * y + c' * z
            + ((a / n - a' / n) * x + (b / n - b' / n) * y
               + (c / n - c' / n) * z) * n) by nia.
    apply Z_mod_plus_full.
Qed.

(** On a cubic grid every integer operation acts modulo the period. *)
Lemma commensurate_cubic {R : Type} {SR : Scalar R} (g : Grid R) (n : Z) :
  shape g = (n, n, n) -> commensurate g.
Proof.
  intros Hs m u u' _.
  destruct m as [[[[m00 m01] m02] [[m10 m11] m12]] [[m20 m21] m22]].
  destruct u as [[a b] c], u' as [[a' b'] c'].
  rewrite Hs. cbv [vmod vecmat vx vy vz fst snd]. intros E.
  injection E as Ea Eb Ec.
  (f_equal; [f_equal|]); now apply linear_mod.
Qed.

Lemma mesh_stored_dec {R : Type} {SR : Scalar R} (g : Grid R) :
  forallb (fun p => let '(j, c) := gi g (snd p) in
                    (j =? Z.of_nat (fst p)) && negb c)
          (combine (seq 0 (length (mesh_H g))) (mesh_H g)) = true ->
  mesh_stored g.
Proof.
  intros H k iH Hnth. rewrite forallb_forall in H.
  assert (Hk : (k < length (mesh_H g))%nat).
  { apply nth_error_Some. congruence. }
  assert (Hin : In (k, iH) (combine (seq 0 (length (mesh_H g))) (mesh_H g))).
  { pose proof (In_combine_nth (seq 0 (length (mesh_H g))) (mesh_H g) k
                               0%nat iH) as Hc.
    rewrite length_seq in Hc. specialize (Hc eq_refl Hk).
    rewrite seq_nth in Hc by exact Hk.
    rewrite (nth_error_nth _ _ iH Hnth) in Hc. exact Hc. }
  specialize (H _ Hin). cbn [fst snd] in H.
  destruct (gi g iH) as [j c]. apply andb_true_iff in H.
  destruct H as [Hj Hc]. apply Z.eqb_eq in Hj.
  destruct c; [discriminate Hc|]. now subst.
Qed.

Lemma grid_S6_stored : mesh_stored grid_S6.
Proof. apply mesh_stored_dec. by_computation. Qed.

Lemma keys_invariant_with_inversion_witness :
  image_key_invariant grid_S6.
Proof.
  apply (keys_invariant_with_inversion grid_S6).
  - unfold shape_pos. conjuncts; by_computation.
  - by_computation.
  - exact grid_S6_stored.
  - exact grid_S6_group.
  - exact grid_S6_inversion.
  - apply (commensurate_cubic grid_S6 4). reflexivity.
Defined.

Lemma orbits_partition_with_inversion_witness :
  orbits_partition grid_S6.
Proof.
  apply (orbits_partition_with_inversion grid_S6).
  - unfold shape_pos. conjuncts; by_computation.
  - by_computation.
  - exact grid_S6_stored.
  - S6_member.
  - exact grid_S6_group.
  - exact grid_S6_inversion.
  - apply (commensurate_cubic grid_S6 4). reflexivity.
  - by_computation.
Defined.

(** ** The group of the identity alone, among several workers *)

(** *** Buffers cut by cumulative bounds *)

Lemma write_at_length {A : Type} (l : list A) (off : nat) (d : list A) :
  length (write_at l off d) = length l.
Proof.
  revert off d. induction l as [|x l IH]; intros off d; [reflexivity|].
  destruct off as [|off]; cbn [write_at].
  - destruct d as [|y d]; [reflexivity|]. cbn [length]. now rewrite IH.
  - cbn [length]. now rewrite IH.
Qed.

Lemma write_at_head {A : Type} (d rest : list A) :
  (length d <= length rest)%nat ->
  write_at rest 0 d = d ++ skipn (length d) rest.
Proof.
  revert rest. induction d as [|y d IH]; intros rest Hl.
  - destruct rest; reflexivity.
  - destruct rest as [|x rest]; cbn [length] in Hl; [lia|].
    cbn [write_at length skipn app]. rewrite IH by lia. reflexivity.
Qed.

Lemma write_at_app {A : Type} (done d rest : list A) :
  (length d <= length rest)%nat ->
  write_at (done ++ rest) (length done) d
  = done ++ d ++ skipn (length d) rest.
Proof.
  intros Hl. induction done as [|x done IH].
  - now apply write_at_head.
  - cbn [app length write_at]. now rewrite IH.
Qed.

Lemma receive_length {R : Type} (recv : BufSpec R)
      (msgs : list (list (complex R))) :
  length (receive recv msgs) = length (b_data recv).
Proof.
  unfold receive.
  generalize (combine (combine (b_counts recv) (b_offsets recv)) msgs).
  generalize (b_data recv).
  intros b l. revert b. induction l as [|m l IH]; intros b; [reflexivity|].
  cbn [fold_left]. rewrite IH. apply write_at_length.
Qed.

Lemma scaled_counts_cons (nb x y : Z) (t : list Z) :
  scaled_counts nb (x :: y :: t)
  = (y - x) * nb :: scaled_counts nb (y :: t).
Proof. reflexivity. Qed.

Lemma scaled_offsets_cons (nb x y : Z) (t : list Z) :
  scaled_offsets nb (x :: y :: t) = x * nb :: scaled_offsets nb (y :: t).
Proof. reflexivity. Qed.

Lemma fits_length {A : Type} (nb : Z) (pv : list Z) (msgs : list (list A)) :
  fits nb pv msgs -> length pv = S (length msgs).
Proof. induction 1; cbn [length] in *; congruence. Qed.

Lemma fits_total {A : Type} (nb : Z) (pv : list Z) (msgs : list (list A)) :
  fits nb pv msgs ->
  Z.of_nat (length (concat msgs)) = (last pv 0 - hd 0 pv) * nb.
Proof.
  induction 1 as [x|x y t m ms Hxy Hm Hf IH].
  - cbn. lia.
  - cbn [concat]. rewrite length_app, Nat2Z.inj_add, IH, Hm.
    change (last (x :: y :: t) 0) with (last (y :: t) 0).
    cbn [hd]. lia.
Qed.

(** Messages that fit the receive bounds fill the receive buffer one
    after the other. *)
Lemma receive_fold {A : Type} (nb : Z) (pv : list Z)
      (msgs : list (list A)) :
  fits nb pv msgs -> 0 <= nb -> 0 <= hd 0 pv ->
  forall done rest : list A,
    Z.of_nat (length done) = hd 0 pv * nb ->
    (length (concat msgs) <= length rest)%nat ->
    fold_left
      (fun b m =>
         write_at b (Z.to_nat (snd (fst m)))
                  (firstn (Z.to_nat (fst (fst m))) (snd m)))
      (combine (combine (scaled_counts nb pv) (scaled_offsets nb pv)) msgs)
      (done ++ rest)
    = done ++ concat msgs ++ skipn (length (concat msgs)) rest.
Proof.
  induction 1 as [x|x y t m ms Hxy Hm Hf IH]; intros Hnb Hx done rest Hd Hl.
  - cbn. reflexivity.
  - rewrite scaled_counts_cons, scaled_offsets_cons.
    cbn [combine fold_left fst snd]. cbn [hd] in Hd, Hx.
    cbn [concat] in Hl. rewrite length_app in Hl.
    rewrite <- Hm, <- Hd, !Nat2Z.id, firstn_all.
    rewrite write_at_app by lia.
    rewrite app_assoc.
    rewrite IH; cbn [hd]; try lia.
    + cbn [concat]. rewrite <- !app_assoc. do 2 f_equal.
      rewrite length_app, skipn_skipn. f_equal. f_equal. lia.
    + rewrite length_app, Nat2Z.inj_add. lia.
    + rewrite length_skipn. lia.
Qed.

Lemma receive_exact {R : Type} (nb : Z) (pv : list Z)
      (buf : list (complex R)) (msgs : list (list (complex R))) :
  fits nb pv msgs -> 0 <= nb -> hd 0 pv = 0 ->
  length buf = length (concat msgs) ->
  receive (mkBufSpec buf (scaled_counts nb pv) (scaled_offsets nb pv)) msgs
  = concat msgs.
Proof.
  intros Hf Hnb H0 Hl. unfold receive. cbn [b_counts b_offsets b_data].
  pose proof (receive_fold nb pv msgs Hf Hnb ltac:(lia) [] buf) as H.
  cbn [app length] in H. rewrite H by lia.
  rewrite <- Hl, skipn_all. apply app_nil_r.
Qed.

Lemma nth_scaled_counts (nb : Z) (pv : list Z) (q : nat) :
  (S q < length pv)%nat ->
  nth q (scaled_counts nb pv) 0 = (nth (S q) pv 0 - nth q pv 0) * nb.
Proof.
  revert q. induction pv as [|x [|y t] IH]; intros q Hq; cbn [length] in Hq;
    try lia.
  rewrite scaled_counts_cons. destruct q as [|q]; [reflexivity|].
  cbn [nth]. rewrite IH by (cbn [length]; lia). reflexivity.
Qed.

Lemma nth_scaled_offsets (nb : Z) (pv : list Z) (q : nat) :
  (S q < length pv)%nat ->
  nth q (scaled_offsets nb pv) 0 = nth q pv 0 * nb.
Proof.
  revert q. induction pv as [|x [|y t] IH]; intros q Hq; cbn [length] in Hq;
    try lia.
  rewrite scaled_offsets_cons. destruct q as [|q]; [reflexivity|].
  cbn [nth]. rewrite IH by (cbn [length]; lia). reflexivity.
Qed.

Lemma sent_to_part {R : Type} (nb : Z) (pv : list Z)
      (buf : list (complex R)) (recv : BufSpec R) (q : Z) :
  0 <= q -> (S (Z.to_nat q) < length pv)%nat ->
  sent_to (mkAlltoallv
             (mkBufSpec buf (scaled_counts nb pv) (scaled_offsets nb pv))
             recv) q
  = part_of nb pv buf (Z.to_nat q).
Proof.
  intros Hq Hl. unfold sent_to, part_of.
  cbn [a_send b_counts b_offsets b_data].
  now rewrite nth_scaled_counts, nth_scaled_offsets.
Qed.

(** The parts of the concatenation of messages that fit are the
    messages. *)
Lemma part_of_concat {A : Type} (nb : Z) (pv : list Z)
      (msgs : list (list A)) (q : nat) :
  fits nb pv msgs -> 0 <= nb ->
  forall done : list A,
    Z.of_nat (length done) = hd 0 pv * nb ->
    (q < length msgs)%nat ->
    part_of nb pv (done ++ concat msgs) q = nth q msgs [].
Proof.
  intros Hf Hnb. revert q.
  induction Hf as [x|x y t m ms Hxy Hm Hf IH]; intros q done Hd Hq;
    cbn [length] in Hq; [lia|].
  cbn [hd] in Hd. destruct q as [|q].
  - unfold part_of. cbn [nth concat].
    rewrite <- Hd, <- Hm, !Nat2Z.id.
    rewrite skipn_app, skipn_all, Nat.sub_diag. cbn [skipn app].
    rewrite firstn_app, firstn_all, Nat.sub_diag. cbn [firstn].
    apply app_nil_r.
  - specialize (IH q (done ++ m)).
    unfold part_of in *. cbn [nth concat]. cbn [nth] in IH.
    rewrite app_assoc. apply IH.
    + rewrite length_app, Nat2Z.inj_add. cbn [hd]. lia.
    + lia.
Qed.

Lemma sorted_nth_le (pv : list Z) (i j : nat) :
  StronglySorted Z.le pv -> (i <= j < length pv)%nat ->
  nth i pv 0 <= nth j pv 0.
Proof.
  intros Hs. revert i j. induction Hs as [|x pv Hs IH Hx]; intros i j Hij;
    cbn [length] in Hij; [lia|].
  destruct j as [|j].
  - replace i with 0%nat by lia. lia.
  - destruct i as [|i]; cbn [nth].
    + rewrite Forall_forall in Hx. apply Hx. apply nth_In. lia.
    + apply IH. lia.
Qed.

Lemma nth_last (pv : list Z) :
  nth (length pv - 1) pv 0 = last pv 0.
Proof.
  induction pv as [|x [|y t] IH]; try reflexivity.
  change (last (x :: y :: t) 0) with (last (y :: t) 0). rewrite <- IH.
  cbn [length]. rewrite !Nat.sub_succ, !Nat.sub_0_r. reflexivity.
Qed.

(** The parts of a buffer fit its bounds, and put together they give the
    buffer. *)
Lemma parts_fit {A : Type} (nb : Z) (pv : list Z) (buf : list A) :
  StronglySorted Z.le pv -> 0 <= nb -> 0 <= hd 0 pv ->
  (0 < length pv)%nat ->
  Z.of_nat (length buf) = last pv 0 * nb ->
  fits nb pv (map (part_of nb pv buf) (seq 0 (length pv - 1))).
Proof.
  intros Hs Hnb H0 Hpos Hlen.
  assert (Hgen : forall (k : nat) (l : list Z),
             (k + length l = length pv)%nat -> l <> [] ->
             (forall i, (i < length l)%nat -> nth i l 0 = nth (k + i) pv 0) ->
             fits nb l (map (part_of nb pv buf) (seq k (length l - 1)))).
  { intros k l. revert k.
    induction l as [|x [|y t] IH]; intros k Hk Hne Hnth; [congruence| |].
    - cbn. constructor.
    - cbn [length]. replace (S (S (length t)) - 1)%nat
        with (S (length t)) by lia.
      cbn [seq map].
      pose proof (Hnth 0%nat ltac:(cbn [length]; lia)) as Hx.
      pose proof (Hnth 1%nat ltac:(cbn [length]; lia)) as Hy.
      cbn [nth] in Hx, Hy. rewrite Nat.add_0_r in Hx.
      replace (k + 1)%nat with (S k) in Hy by lia.
      cbn [length] in Hk.
      assert (Hxy : x <= y).
      { rewrite Hx, Hy. apply sorted_nth_le; [exact Hs|lia]. }
      assert (Hyl : y <= last pv 0).
      { rewrite Hy, <- nth_last. apply sorted_nth_le; [exact Hs|lia]. }
      assert (Hx0 : 0 <= x).
      { rewrite Hx. transitivity (nth 0 pv 0).
        - destruct pv; cbn in *; lia.
        - apply sorted_nth_le; [exact Hs|lia]. }
      constructor; [exact Hxy| |].
      + unfold part_of. rewrite <- Hx, <- Hy.
        rewrite length_firstn, length_skipn. nia.
      + specialize (IH (S k)).
        cbn [length] in IH.
        replace (S (length t) - 1)%nat with (length t) in IH by lia.
        apply IH; [lia|discriminate|].
        intros i Hi. specialize (Hnth (S i) ltac:(cbn [length]; lia)).
        change (nth (S i) (x :: y :: t) 0) with (nth i (y :: t) 0) in Hnth.
        rewrite Hnth. f_equal. lia. }
  apply (Hgen 0%nat pv); [lia| |auto].
  destruct pv; [cbn in Hpos; lia|discriminate].
Qed.

Lemma firstn_skipn_add {A : Type} (a b : nat) (l : list A) :
  firstn a l ++ firstn b (skipn a l) = firstn (a + b) l.
Proof.
  revert l. induction a as [|a IH]; intros l; [reflexivity|].
  destruct l as [|x l]; cbn [firstn skipn app Nat.add].
  - now rewrite firstn_nil.
  - now rewrite IH.
Qed.

Lemma parts_concat {A : Type} (nb : Z) (pv : list Z) (buf : list A) :
  StronglySorted Z.le pv -> 0 <= nb -> hd 0 pv = 0 ->
  (0 < length pv)%nat ->
  Z.of_nat (length buf) = last pv 0 * nb ->
  concat (map (part_of nb pv buf) (seq 0 (length pv - 1))) = buf.
Proof.
  intros Hs Hnb H0 Hpos Hlen.
  assert (Hgen : forall q, (q < length pv)%nat ->
             concat (map (part_of nb pv buf) (seq 0 q))
             = firstn (Z.to_nat (nth q pv 0 * nb)) buf).
  { induction q as [|q IH]; intros Hq.
    - cbn [seq map concat]. destruct pv as [|x pv]; [cbn in Hpos; lia|].
      cbn [hd nth] in *. subst x. reflexivity.
    - rewrite seq_S, map_app, concat_app, IH by lia.
      cbn [map concat Nat.add]. rewrite app_nil_r. unfold part_of.
      rewrite firstn_skipn_add. f_equal.
      pose proof (sorted_nth_le pv q (S q) Hs ltac:(lia)).
      pose proof (sorted_nth_le pv 0 q Hs ltac:(lia)) as H1.
      assert (nth 0 pv 0 = 0) by (destruct pv; cbn in *; lia).
      nia. }
  rewrite Hgen by lia. rewrite nth_last, <- Hlen, Nat2Z.id.
  apply firstn_all.
Qed.

(** *** The call of one worker *)

Lemma chunk_singletons {A : Type} (l : list A) :
  chunk 1 (length l) l = map (fun x => [x]) l.
Proof.
  induction l as [|x l IH]; [reflexivity|].
  cbn [length chunk firstn skipn map]. now rewrite IH.
Qed.

Lemma map_nth_seq {A : Type} (l : list A) (d : A) :
  map (fun b => nth b l d) (seq 0 (length l)) = l.
Proof.
  transitivity (map (fun x => x) l); [symmetry|apply map_id].
  apply (map_by_index _ (fun b => nth b l d) l 0).
  intros k x Hk. cbn [Nat.add]. symmetry. now apply nth_error_nth.
Qed.

Lemma mapM_map {A B C : Type} (f : B -> result C) (h : A -> B)
      (l : list A) :
  mapM f (map h l) = mapM (fun x => f (h x)) l.
Proof.
  induction l as [|x l IH]; [reflexivity|].
  cbn [map mapM]. now rewrite IH.
Qed.

Lemma map_nth_arange {A : Type} (l : list A) (d : A) :
  map (fun k => nth (Z.to_nat k) l d) (arange (zlen l)) = l.
Proof.
  unfold arange, zlen. rewrite Nat2Z.id, map_map.
  transitivity (map (fun b => nth b l d) (seq 0 (length l)));
    [|apply map_nth_seq].
  apply map_ext. intros b. now rewrite Nat2Z.id.
Qed.

Lemma combine_seq_map {A B : Type} (h : A -> B) (l : list A) (d : A) :
  combine (seq 0 (length l)) (map h l)
  = map (fun b => (b, h (nth b l d))) (seq 0 (length l)).
Proof.
  assert (H : forall a,
             combine (seq a (length l)) (map h l)
             = map (fun b => (b, h (nth (b - a) l d))) (seq a (length l))).
  { induction l as [|x l IH]; intros a; [reflexivity|].
    cbn [length seq map combine]. rewrite Nat.sub_diag. cbn [nth].
    f_equal. rewrite IH. apply map_ext_in. intros b Hb.
    apply in_seq in Hb. replace (b - a)%nat with (S (b - S a)) by lia.
    reflexivity. }
  rewrite H. apply map_ext. intros b. now rewrite Nat.sub_0_r.
Qed.

Lemma nth_map_in {A B : Type} (h : A -> B) (l : list A) (b : nat)
      (dA : A) (dB : B) :
  (b < length l)%nat -> nth b (map h l) dB = h (nth b l dA).
Proof.
  intros Hb. rewrite (nth_indep _ dB (h dA)) by (rewrite length_map; lia).
  apply map_nth.
Qed.

Lemma inverse_perm_range (rix : list Z) :
  Permutation rix (arange (zlen rix)) ->
  Forall (fun k => 0 <= k < zlen rix) (inverse_perm rix).
Proof.
  intros Hp. destruct (inverse_perm_spec rix Hp) as (Hlen & Hinv).
  apply Forall_forall. intros x Hx.
  destruct (In_nth _ _ 0 Hx) as (j & Hj & <-).
  assert (Hin : In (Z.of_nat j) rix).
  { apply (Permutation_in _ (Permutation_sym Hp)).
    apply in_arange. unfold zlen. lia. }
  destruct (In_nth _ _ 0 Hin) as (i & Hi & Hnth).
  specialize (Hinv i Hi). rewrite Hnth, Nat2Z.id in Hinv.
  rewrite Hinv. unfold zlen. lia.
Qed.

Section WorkerCall.
Context {R : Type} {SR : Scalar R}.
Variable comm : Alltoallv_call R -> list (list (complex R)).
Variables (e : Engine R) (v : FieldH R) (sp rp rix : list Z) (ng nb : Z).
Hypothesis Hl :
  e_layout e = Distributed sp rp (arange ng) rix (inverse_perm rix).
Hypothesis Him : imag_scale e = map (fun _ => [true]) rix.
Hypothesis Hph : phase e = map (fun _ => [c1]) rix.
Hypothesis Hno : n_orbits_mine e = zlen rix.
Hypothesis Hns : n_sym e = 1.
Hypothesis Hw : inv_multiplicity e = map (fun _ => r1) (arange ng).
Hypothesis Hdt : f_dtype v = phase_dtype e.
Hypothesis Hid : grid_id (f_grid v) = grid_id (e_grid e).
Hypothesis Hng : n_grid_of (e_grid e) = ng.
Hypothesis Hng0 : 0 <= ng.
Hypothesis Hnb : n_batch_of v = nb.
Hypothesis Hnb0 : 0 <= nb.
Hypothesis Hlen : zlen (f_data v) = nb * ng.
Hypothesis Hperm : Permutation rix (arange (zlen rix)).

Lemma worker_rows :
  let v_data := chunk (Z.to_nat ng) (Z.to_nat nb) (f_data v) in
  length v_data = Z.to_nat nb /\
  Forall (fun r => length r = Z.to_nat ng) v_data /\
  concat v_data = f_data v.
Proof.
  intros v_data.
  assert (Hnat : length (f_data v) = (Z.to_nat nb * Z.to_nat ng)%nat)
    by (unfold zlen in Hlen; nia).
  split; [apply chunk_length|].
  split; [now apply chunk_rows|now apply concat_chunk].
Qed.

(** Line 118: the values at the grid indices, one row for every index. *)
Lemma worker_gather :
  let v_data := chunk (Z.to_nat ng) (Z.to_nat nb) (f_data v) in
  let src := map (fun k => map (fun row => nth (Z.to_nat k) row c0) v_data)
                 (arange ng) in
  mapM (fun k => mapM (fun row => tget row k) v_data) (arange ng) = Ok src /\
  length src = Z.to_nat ng /\
  Forall (fun r => length r = Z.to_nat nb) src.
Proof.
  intros v_data src. destruct worker_rows as (Hvl & Hvr & _).
  fold v_data in Hvl, Hvr.
  split; [|split].
  - apply mapM_pure_in. intros k Hk. apply in_arange in Hk.
    apply mapM_pure_in. intros row Hrow.
    apply tget_nth. rewrite Forall_forall in Hvr.
    unfold zlen. rewrite (Hvr row Hrow). lia.
  - subst src. now rewrite length_map, arange_length.
  - subst src. apply Forall_map, Forall_forall. intros k _.
    now rewrite length_map.
Qed.

(** The rows taken back from the scatter buffer, when it holds what the
    gather sent. *)
Lemma worker_scatter_back :
  let v_data := chunk (Z.to_nat ng) (Z.to_nat nb) (f_data v) in
  let src := map (fun k => map (fun row => nth (Z.to_nat k) row c0) v_data)
                 (arange ng) in
  map (fun p => accumulate (snd p) (arange ng)
                           (map (fun row => nth (fst p) row c0) src))
      (combine (seq 0 (length (zeros_like v_data))) (zeros_like v_data))
  = v_data.
Proof.
  intros v_data src. destruct worker_rows as (Hvl & Hvr & _).
  fold v_data in Hvl, Hvr.
  unfold zeros_like. rewrite length_map.
  rewrite (combine_seq_map _ v_data []), map_map.
  transitivity (map (fun b => nth b v_data []) (seq 0 (length v_data)));
    [|apply map_nth_seq].
  apply map_ext_in. intros b Hb. apply in_seq in Hb. cbn [fst snd].
  assert (Hrow : length (nth b v_data []) = Z.to_nat ng).
  { rewrite Forall_forall in Hvr. apply Hvr, nth_In. lia. }
  assert (Hcol : map (fun row => nth b row c0) src = nth b v_data []).
  { subst src. rewrite map_map.
    transitivity (map (fun k => nth (Z.to_nat k) (nth b v_data []) c0)
                      (arange (zlen (nth b v_data []))));
      [|apply map_nth_arange].
    unfold zlen. rewrite Hrow, Z2Nat.id by lia.
    apply map_ext. intros k.
    apply (nth_map_in (fun row : list (complex R) =>
                         nth (Z.to_nat k) row c0) v_data b [] c0). lia. }
  rewrite Hcol.
  replace (arange ng) with (arange (zlen (nth b v_data [])))
    by (unfold zlen; rewrite Hrow, Z2Nat.id by lia; reflexivity).
  apply accumulate_identity.
Qed.

(** Line 170 with weights that are all 1. *)
Lemma worker_weights (rows : list (list (complex R))) :
  Forall (fun r => length r = Z.to_nat ng) rows ->
  scale_rows e ng rows = Ok rows.
Proof.
  intros Hrows. unfold scale_rows. rewrite Hw.
  unfold zlen at 1. rewrite length_map, arange_length, Z2Nat.id by lia.
  rewrite Z.eqb_refl. f_equal.
  rewrite <- (map_id rows) at 2. apply map_ext_in. intros row Hin.
  rewrite Forall_forall in Hrows.
  rewrite combine_const_r by (rewrite arange_length; now rewrite Hrows).
  rewrite map_map. rewrite <- (map_id row) at 2.
  apply map_ext. intros x. apply cscale_r1.
Qed.

(** Lines 131 to 156: the received entries are rearranged by orbit,
    symmetrized, and rearranged back; for the group of the identity
    alone they are what they were. *)
Lemma worker_orbits (B : list (complex R)) :
  length B = (length rix * Z.to_nat nb)%nat ->
  let dest_rows := chunk (Z.to_nat nb) (length rix) B in
  exists picked,
    tgets dest_rows (inverse_perm rix) = Ok picked /\
    zlen picked = n_orbits_mine e * n_sym e /\
    let v_orbits :=
      map (fun b => chunk (Z.to_nat (n_sym e)) (Z.to_nat (n_orbits_mine e))
                          (map (fun row => nth b row c0) picked))
          (seq 0 (Z.to_nat nb)) in
    exists dest2,
      mapM (fun k => mapM (fun vb => tget (concat vb) k)
                          (symmetrize_orbits e v_orbits)) rix = Ok dest2 /\
      concat dest2 = B.
Proof.
  intros HB dest_rows.
  destruct (inverse_perm_spec rix Hperm) as (Holen & Hinv).
  pose proof (inverse_perm_range rix Hperm) as Horange.
  assert (Hdl : length dest_rows = length rix) by apply chunk_length.
  assert (Hdr : Forall (fun r => length r = Z.to_nat nb) dest_rows).
  { apply chunk_rows. exact HB. }
  exists (map (fun k => nth (Z.to_nat k) dest_rows []) (inverse_perm rix)).
  split.
  { apply tgets_nth. unfold zlen. rewrite Hdl. exact Horange. }
  split.
  { unfold zlen. rewrite length_map, Holen, Hno, Hns. unfold zlen. lia. }
  intros v_orbits.
  set (picked := map _ (inverse_perm rix)) in *.
  assert (Hpl : length picked = length rix).
  { subst picked. now rewrite length_map. }
  set (cols := map (fun b => map (fun row => nth b row c0) picked)
                   (seq 0 (Z.to_nat nb))).
  assert (Hvo : v_orbits = map (fun col => map (fun x => [x]) col) cols).
  { subst v_orbits cols. rewrite map_map. apply map_ext. intros b.
    rewrite Hns, Hno. change (Z.to_nat 1) with 1%nat.
    unfold zlen. rewrite Nat2Z.id.
    rewrite <- Hpl.
    rewrite <- (length_map (fun row : list (complex R) => nth b row c0)
                           picked).
    apply chunk_singletons. }
  assert (Hcl : forall col, In col cols -> length rix = length col).
  { intros col Hin. subst cols. apply in_map_iff in Hin.
    destruct Hin as (b & <- & _). now rewrite length_map. }
  rewrite Hvo, (symmetrize_orbits_trivial e rix cols Him Hph Hcl).
  exists (map (fun k => map (fun col => nth (Z.to_nat k) col c0) cols) rix).
  split.
  - apply mapM_pure_in. intros k Hk.
    rewrite mapM_map.
    apply mapM_pure_in. intros col Hcol.
    rewrite (concat_singletons (fun x => x)), map_id.
    apply tget_nth.
    pose proof (Permutation_in _ Hperm Hk) as Hka. apply in_arange in Hka.
    unfold zlen in *. rewrite <- (Hcl col Hcol). exact Hka.
  - transitivity (concat dest_rows); [|now apply concat_chunk].
    f_equal. apply (nth_ext _ _ [] []).
    + now rewrite length_map, Hdl.
    + intros i Hi. rewrite length_map in Hi.
      rewrite (nth_map_in _ rix i 0) by exact Hi.
      specialize (Hinv i Hi).
      assert (Hri : (Z.to_nat (nth i rix 0%Z) < length rix)%nat).
      { assert (Hin : In (nth i rix 0) (arange (zlen rix)))
          by (apply (Permutation_in _ Hperm), nth_In; exact Hi).
        apply in_arange in Hin. unfold zlen in Hin. lia. }
      assert (Hrow : length (nth i dest_rows []) = Z.to_nat nb).
      { rewrite Forall_forall in Hdr. apply Hdr, nth_In. lia. }
      transitivity (map (fun b => nth b (nth i dest_rows []) c0)
                        (seq 0 (length (nth i dest_rows []))));
        [|apply map_nth_seq].
      rewrite Hrow. subst cols. rewrite map_map.
      apply map_ext. intros b.
      rewrite (nth_map_in _ picked _ []) by lia.
      subst picked.
      rewrite (nth_map_in _ (inverse_perm rix) _ 0) by lia.
      now rewrite Hinv, Nat2Z.id.
Qed.

(** The call of a worker whose engine is the one of the group of the
    identity alone: it returns, whatever the communicator delivers, after
    the gather and the scatter exchange; and it leaves the field as it
    was when the scatter brings back what the gather sent. *)
Lemma worker_call :
  let v_data := chunk (Z.to_nat ng) (Z.to_nat nb) (f_data v) in
  let src := map (fun k => map (fun row => nth (Z.to_nat k) row c0) v_data)
                 (arange ng) in
  let gather :=
    mkAlltoallv
      (mkBufSpec (concat src) (scaled_counts nb sp) (scaled_offsets nb sp))
      (mkBufSpec (map (fun _ => c0) (seq 0 (length rix * Z.to_nat nb)))
                 (scaled_counts nb rp) (scaled_offsets nb rp)) in
  let scatter :=
    mkAlltoallv
      (mkBufSpec (receive (a_recv gather) (comm gather))
                 (scaled_counts nb rp) (scaled_offsets nb rp))
      (mkBufSpec (concat src) (scaled_counts nb sp) (scaled_offsets nb sp)) in
  exists st',
    call comm (start e v) = (Ok tt, st') /\
    cs_trace st' = [gather; scatter] /\
    (receive (a_recv scatter) (comm scatter) = concat src ->
     f_data (cs_v st') = f_data v).
Proof.
  intros v_data src gather scatter.
  destruct worker_rows as (Hvl & Hvr & Hvc). fold v_data in Hvl, Hvr, Hvc.
  destruct worker_gather as (Hsrc & Hsl & Hsr). fold v_data src in Hsrc, Hsl, Hsr.
  set (B := receive (a_recv gather) (comm gather)).
  assert (HB : length B = (length rix * Z.to_nat nb)%nat).
  { subst B. rewrite receive_length. subst gather.
    cbn [a_recv b_data]. now rewrite length_map, length_seq. }
  destruct (worker_orbits B HB) as (picked & Hpick & Hshape & dest2 & Hd2 & Hcat).
  set (back := receive (a_recv scatter) (comm scatter)).
  set (v_acc :=
         map (fun p => accumulate (snd p) (arange ng)
                         (map (fun row => nth (fst p) row c0)
                              (chunk (Z.to_nat nb) (length (arange ng)) back)))
             (combine (seq 0 (length (zeros_like v_data)))
                      (zeros_like v_data))).
  assert (Hacc_rows : Forall (fun r => length r = Z.to_nat ng) v_acc).
  { subst v_acc. apply Forall_map, Forall_forall. intros [b z] Hin.
    cbn [fst snd]. rewrite accumulate_length.
    apply in_combine_r in Hin. unfold zeros_like in Hin.
    apply in_map_iff in Hin. destruct Hin as (row & <- & Hrow).
    rewrite length_map. rewrite Forall_forall in Hvr. now apply Hvr. }
  exists (set_data (log_call (log_call (start e v) gather) scatter) v_acc).
  split; [|split].
  - unfold call, accumulated. cbn [start cs_self cs_v].
    rewrite Hid, Nat.eqb_refl, Hng, Hnb, Hl. cbn [negb].
    destruct (Z.ltb_spec nb 0); [lia|].
    destruct (Z.ltb_spec ng 0); [lia|].
    rewrite Hlen, Z.eqb_refl. cbn [orb negb].
    unfold accumulate_distributed. fold v_data. rewrite Hsrc.
    cbv zeta. fold gather. fold B. rewrite Hpick.
    rewrite Hshape, Z.eqb_refl. cbn [negb].
    unfold symmetrized. cbn [start log_call cs_v cs_self].
    rewrite Hdt, dtype_eqb_refl.
    rewrite Hd2, Hcat. unfold finish.
    change (match scale_rows e ng v_acc with
            | Ok v_data' =>
                (Ok tt,
                 set_data (log_call (log_call (start e v) gather) scatter)
                          v_data')
            | Err x =>
                (Err x,
                 write_through
                   (log_call (log_call (start e v) gather) scatter) v_acc)
            end
            = (Ok tt,
               set_data (log_call (log_call (start e v) gather) scatter)
                        v_acc)).
    now rewrite (worker_weights v_acc Hacc_rows).
  - reflexivity.
  - intros Hback. cbn [set_data cs_v f_data]. rewrite <- Hvc. f_equal.
    subst v_acc. fold back in Hback. rewrite Hback.
    rewrite arange_length, <- Hsl, (chunk_concat _ src Hsr).
    apply worker_scatter_back.
Qed.
End WorkerCall.

(** *** The bounds of the two directions *)

Lemma filter_all {A : Type} (f : A -> bool) (l : list A) :
  (forall x, In x l -> f x = true) -> filter f l = l.
Proof.
  intros H. rewrite (filter_ext_in f (fun _ => true) l H).
  apply filter_true.
Qed.

Lemma filter_none {A : Type} (f : A -> bool) (l : list A) :
  (forall x, In x l -> f x = false) -> filter f l = [].
Proof.
  induction l as [|x l IH]; intros H; [reflexivity|].
  cbn [filter]. rewrite (H x (or_introl eq_refl)).
  apply IH. intros y Hy. apply H. now right.
Qed.

Lemma searchsorted_count (l : list Z) (v : Z) :
  StronglySorted Z.le l ->
  searchsorted l v = zlen (filter (fun x => x <? v) l).
Proof.
  induction 1 as [|x l Hs IH Hx]; [reflexivity|].
  cbn [searchsorted filter]. destruct (Z.ltb_spec x v) as [Hlt|Hge].
  - rewrite IH. unfold zlen. cbn [length]. lia.
  - rewrite filter_none; [reflexivity|].
    rewrite Forall_forall in Hx. intros y Hy. specialize (Hx y Hy).
    destruct (Z.ltb_spec y v); [lia|reflexivity].
Qed.

Lemma filter_length_perm {A : Type} (f : A -> bool) (l l' : list A) :
  Permutation l l' -> length (filter f l) = length (filter f l').
Proof.
  induction 1 as [|x l l' Hp IH|x y l|l1 l2 l3 H1 IH1 H2 IH2];
    cbn [filter]; try reflexivity.
  - destruct (f x); cbn [length]; now rewrite IH.
  - destruct (f x), (f y); reflexivity.
  - congruence.
Qed.

Lemma filter_below_arange (v n : Z) :
  0 <= v <= n -> filter (fun x => x <? v) (arange n) = arange v.
Proof.
  intros Hv. replace n with (v + (n - v)) by lia.
  rewrite arange_app, filter_app by lia.
  rewrite filter_all, filter_none.
  - apply app_nil_r.
  - intros x Hx. apply in_map_iff in Hx. destruct Hx as (k & <- & Hk).
    apply in_arange in Hk. destruct (Z.ltb_spec (v + k) v); [lia|reflexivity].
  - intros x Hx. apply in_arange in Hx.
    destruct (Z.ltb_spec x v); [reflexivity|lia].
Qed.

Lemma filter_comm {A : Type} (f h : A -> bool) (l : list A) :
  filter f (filter h l) = filter h (filter f l).
Proof.
  induction l as [|x l IH]; [reflexivity|]. cbn [filter].
  destruct (h x) eqn:Eh, (f x) eqn:Ef; cbn [filter];
    rewrite ?Eh, ?Ef, IH; reflexivity.
Qed.

Lemma count_between (f : Z -> bool) (w : list Z) (p : Z) :
  zlen (filter (fun x => x <? p + 1) w) - zlen (filter (fun x => x <? p) w)
  = zlen (filter (fun x => x =? p) w).
Proof.
  unfold zlen. induction w as [|x w IH]; [reflexivity|].
  cbn [filter].
  destruct (Z.ltb_spec x (p + 1)), (Z.ltb_spec x p), (Z.eqb_spec x p);
    cbn [length]; lia.
Qed.

(** A searched list that is a filtered range. *)
Lemma searchsorted_filtered (f : Z -> bool) (n v : Z) :
  0 <= v <= n ->
  searchsorted (filter f (arange n)) v = zlen (filter f (arange v)).
Proof.
  intros Hv. rewrite searchsorted_count.
  - now rewrite filter_comm, filter_below_arange.
  - apply StronglySorted_filter. rewrite <- (map_id (arange n)).
    apply (StronglySorted_map (fun x : Z => x) Z.lt Z.le);
      [intros; lia|apply arange_sorted].
Qed.

Section Bounds.
Context {R : Type} {SR : Scalar R}.
Variable g : Grid R.
Hypothesis Hn : 1 < n_procs g.
Hypothesis Hpos : shape_pos (shape g).
Hypothesis HH : shapeH g = shapeH_of (shape g).

Lemma half_shape_pos :
  0 < vx (shapeH g) /\ 0 < vy (shapeH g) /\ 0 < vz (shapeH g) /\
  0 < n_tot_of (shapeH g).
Proof.
  rewrite HH. unfold n_tot_of, shapeH_of.
  destruct (shape g) as [[s0 s1] s2]. unvec. destruct Hpos as (? & ? & ?).
  pose proof (Z.div_pos s2 2 ltac:(lia) ltac:(lia)).
  repeat split; try lia; nia.
Qed.

Lemma ceildiv_pos (a b : Z) : 0 < a -> 0 < b -> 0 < ceildiv a b.
Proof.
  intros Ha Hb. unfold ceildiv.
  apply Z.div_str_pos. lia.
Qed.

Lemma plane_owner_eq (k : Z) :
  plane_owner g k
  = (k mod vz (shapeH g)) / ceildiv (vz (shapeH g)) (n_procs g).
Proof.
  unfold plane_owner, whose_each, TaskDivision_new. cbn [td_n_each].
  now rewrite Z.max_r by lia.
Qed.

Lemma plane_owner_range (k : Z) : 0 <= plane_owner g k < n_procs g.
Proof.
  rewrite plane_owner_eq.
  destruct half_shape_pos as (_ & _ & Hz & _).
  pose proof (ceildiv_pos (vz (shapeH g)) (n_procs g) Hz ltac:(lia)) as Hc.
  pose proof (ceildiv_covers (vz (shapeH g)) (n_procs g) ltac:(lia)) as Hcov.
  pose proof (Z.mod_pos_bound k (vz (shapeH g)) Hz) as Hm.
  split.
  - apply Z.div_pos; lia.
  - apply Z.div_lt_upper_bound; [lia|nia].
Qed.

Lemma orbit_bound_eq (q : Z) :
  orbit_bound g q
  = Z.min (n_tot_of (shapeH g))
          (ceildiv (n_tot_of (shapeH g)) (n_procs g) * q).
Proof. unfold orbit_bound. now rewrite Z.max_r by lia. Qed.

Lemma orbit_bound_range (q : Z) :
  0 <= q -> 0 <= orbit_bound g q <= n_tot_of (shapeH g).
Proof.
  intros Hq. rewrite orbit_bound_eq.
  destruct half_shape_pos as (_ & _ & _ & Hnt).
  pose proof (ceildiv_pos (n_tot_of (shapeH g)) (n_procs g) Hnt
                          ltac:(lia)) as Hc.
  split; [apply Z.min_glb; nia|apply Z.le_min_l].
Qed.

Lemma orbit_bound_mono (a b : Z) :
  0 <= a <= b -> orbit_bound g a <= orbit_bound g b.
Proof.
  intros Hab. rewrite !orbit_bound_eq.
  destruct half_shape_pos as (_ & _ & _ & Hnt).
  pose proof (ceildiv_pos (n_tot_of (shapeH g)) (n_procs g) Hnt
                          ltac:(lia)) as Hc.
  apply Z.min_le_compat_l. nia.
Qed.

Lemma orbit_bound_first : orbit_bound g 0 = 0.
Proof.
  rewrite orbit_bound_eq. destruct half_shape_pos as (_ & _ & _ & Hnt).
  rewrite Z.mul_0_r. lia.
Qed.

Lemma orbit_bound_last : orbit_bound g (n_procs g) = n_tot_of (shapeH g).
Proof.
  rewrite orbit_bound_eq.
  pose proof (ceildiv_covers (n_tot_of (shapeH g)) (n_procs g)
                             ltac:(lia)).
  lia.
Qed.

Lemma nth_send_bounds (p q : Z) :
  0 <= q <= n_procs g ->
  nth (Z.to_nat q) (send_bounds g p) 0
  = zlen (filter (fun k => plane_owner g k =? p)
                 (arange (orbit_bound g q))).
Proof.
  intros Hq. unfold send_bounds.
  rewrite nth_map_arange by lia. unfold owned_indices.
  apply searchsorted_filtered. apply orbit_bound_range. lia.
Qed.

Lemma sorted_sources (w : list Z) :
  Permutation (map (fun k => nth (Z.to_nat k) w 0) (recv_order w)) w.
Proof.
  transitivity (map (fun k => nth (Z.to_nat k) w 0) (arange (zlen w))).
  - apply Permutation_map, recv_order_perm.
  - now rewrite map_nth_arange.
Qed.

Lemma nth_recv_bounds (q r : Z) :
  0 <= r <= n_procs g ->
  nth (Z.to_nat r) (recv_bounds g q) 0
  = zlen (filter (fun x => x <? r) (block_sources g q)).
Proof.
  intros Hr. unfold recv_bounds. rewrite nth_map_arange by lia.
  rewrite searchsorted_count by apply source_sorted.
  unfold zlen. f_equal. apply filter_length_perm, sorted_sources.
Qed.

Lemma length_send_bounds (p : Z) :
  length (send_bounds g p) = Z.to_nat (n_procs g + 1).
Proof. unfold send_bounds. now rewrite length_map, arange_length. Qed.

Lemma length_recv_bounds (q : Z) :
  length (recv_bounds g q) = Z.to_nat (n_procs g + 1).
Proof. unfold recv_bounds. now rewrite length_map, arange_length. Qed.

Lemma hd_nth (l : list Z) : hd 0 l = nth 0 l 0.
Proof. now destruct l. Qed.

Lemma send_bounds_ok (p : Z) :
  StronglySorted Z.le (send_bounds g p) /\ hd 0 (send_bounds g p) = 0 /\
  last (send_bounds g p) 0 = zlen (owned_indices g p).
Proof.
  split; [|split].
  - unfold send_bounds. apply sorted_map_arange. intros a b Hab.
    apply searchsorted_mono. now apply orbit_bound_mono.
  - rewrite hd_nth. change 0%nat with (Z.to_nat 0).
    rewrite nth_send_bounds by lia. now rewrite orbit_bound_first.
  - unfold send_bounds.
    rewrite (last_map_arange
               (fun q => searchsorted (owned_indices g p) (orbit_bound g q)))
      by lia.
    rewrite orbit_bound_last. apply searchsorted_all.
    unfold owned_indices. apply Forall_forall. intros k Hk.
    apply filter_In in Hk. destruct Hk as (Hk & _).
    apply in_arange in Hk. lia.
Qed.

Lemma block_sources_range (q : Z) :
  Forall (fun x => 0 <= x < n_procs g) (block_sources g q).
Proof.
  unfold block_sources. apply Forall_map, Forall_forall.
  intros i _. apply plane_owner_range.
Qed.

Lemma recv_bounds_ok (q : Z) :
  StronglySorted Z.le (recv_bounds g q) /\ hd 0 (recv_bounds g q) = 0 /\
  last (recv_bounds g q) 0 = zlen (block_sources g q).
Proof.
  pose proof (block_sources_range q) as Hr. rewrite Forall_forall in Hr.
  split; [|split].
  - unfold recv_bounds. apply sorted_map_arange. intros a b Hab.
    apply searchsorted_mono. lia.
  - rewrite hd_nth. change 0%nat with (Z.to_nat 0).
    rewrite nth_recv_bounds by lia.
    rewrite filter_none; [reflexivity|].
    intros x Hx. specialize (Hr x Hx).
    destruct (Z.ltb_spec x 0); [lia|reflexivity].
  - rewrite <- nth_last, length_recv_bounds.
    replace (Z.to_nat (n_procs g + 1) - 1)%nat with (Z.to_nat (n_procs g))
      by lia.
    rewrite nth_recv_bounds by lia.
    rewrite filter_all; [reflexivity|].
    intros x Hx. specialize (Hr x Hx).
    destruct (Z.ltb_spec x (n_procs g)); [reflexivity|lia].
Qed.

(** What worker [p] sends to worker [q] is what worker [q] expects from
    worker [p]. *)
Lemma bounds_symmetric (p q : Z) :
  0 <= p < n_procs g -> 0 <= q < n_procs g ->
  nth (S (Z.to_nat q)) (send_bounds g p) 0
  - nth (Z.to_nat q) (send_bounds g p) 0
  = nth (S (Z.to_nat p)) (recv_bounds g q) 0
    - nth (Z.to_nat p) (recv_bounds g q) 0.
Proof.
  intros Hp Hq.
  replace (S (Z.to_nat q)) with (Z.to_nat (q + 1)) by lia.
  replace (S (Z.to_nat p)) with (Z.to_nat (p + 1)) by lia.
  rewrite !nth_send_bounds, !nth_recv_bounds by lia.
  rewrite (count_between (fun _ => true)).
  pose proof (orbit_bound_range q ltac:(lia)) as Hd.
  pose proof (orbit_bound_mono q (q + 1) ltac:(lia)) as Hm.
  replace (orbit_bound g (q + 1))
    with (orbit_bound g q + (orbit_bound g (q + 1) - orbit_bound g q))
    at 1 by lia.
  rewrite arange_app, filter_app by lia.
  unfold zlen, block_sources.
  rewrite length_app, !filter_map_length. lia.
Qed.
End Bounds.

(** ** The engine of one worker for the group of the identity alone *)


Lemma filter_of_map {A B : Type} (f : B -> bool) (h : A -> B)
      (l : list A) :
  filter f (map h l) = map h (filter (fun x => f (h x)) l).
Proof.
  induction l as [|a l IH]; [reflexivity|]. cbn [map filter].
  rewrite IH. now destruct (f (h a)).
Qed.

Lemma filter_of_concat {A : Type} (f : A -> bool) (ll : list (list A)) :
  filter f (concat ll) = concat (map (filter f) ll).
Proof.
  induction ll as [|l ll IH]; [reflexivity|]. cbn [concat map].
  now rewrite filter_app, IH.
Qed.

Lemma const_map_length {A B C : Type} (c : C) (l1 : list A)
      (l2 : list B) :
  length l1 = length l2 ->
  map (fun _ => c) l1 = map (fun _ => c) l2.
Proof.
  revert l2. induction l1 as [|x l1 IH]; intros [|y l2] H; cbn in *;
    try discriminate; [reflexivity|].
  f_equal. apply IH. lia.
Qed.

Lemma py_slice_map_arange {A : Type} (c : Z -> A) (H2 a hm : Z) :
  0 <= a -> 0 <= hm -> a + hm <= H2 ->
  py_slice (map c (arange H2)) a (a + hm)
  = map (fun x => c (a + x)) (arange hm).
Proof.
  intros Ha Hhm Hle.
  set (l1 := map c (arange a)).
  set (l2 := map (fun x => c (a + x)) (arange hm)).
  set (l3 := map (fun x => c (a + (hm + x))) (arange (H2 - a - hm))).
  assert (E1 : zlen l1 = a).
  { unfold zlen, l1. rewrite length_map, arange_length. lia. }
  assert (E2 : zlen l2 = hm).
  { unfold zlen, l2. rewrite length_map, arange_length. lia. }
  transitivity (py_slice (l1 ++ l2 ++ l3) (zlen l1) (zlen l1 + zlen l2));
    [|apply py_slice_window].
  rewrite E1, E2. f_equal.
  replace H2 with (a + (hm + (H2 - a - hm))) at 1 by lia.
  rewrite (arange_app a), (arange_app hm) by lia.
  now rewrite !map_app, !map_map.
Qed.

Lemma py_slice_empty {A : Type} (l : list A) (a : Z) : py_slice l a a = [].
Proof. unfold py_slice. now rewrite Z.sub_diag. Qed.

Lemma concat_empty {A B : Type} (l : list B) :
  concat (map (fun _ => @nil A) l) = [].
Proof. induction l as [|x l IH]; [reflexivity|]. exact IH. Qed.

Lemma combine_arange_map {A : Type} (h : Z -> A) (n : Z) :
  combine (arange n) (map h (arange n))
  = map (fun k => (k, h k)) (arange n).
Proof.
  generalize (arange n) as l. intros l.
  induction l as [|x l IH]; [reflexivity|]. cbn. now rewrite IH.
Qed.

Lemma enumerate2_singletons {A : Type} (h : Z -> A) (n : Z) :
  0 <= n ->
  enumerate2 (map (fun k => [h k]) (arange n))
  = map (fun k => (k, 0, h k)) (arange n).
Proof.
  intros Hn. unfold enumerate2.
  replace (zlen (map (fun k => [h k]) (arange n))) with n
    by (unfold zlen; rewrite length_map, arange_length; lia).
  rewrite (combine_arange_map (fun k => [h k])), map_map.
  cbn [fst snd]. apply (concat_singletons (fun k => (k, 0, h k))).
Qed.

(** The indices of a table of [rows] rows of [w] entries, row by row. *)
Lemma arange_rows (rows : nat) (w : Z) :
  0 <= w ->
  arange (Z.of_nat rows * w)
  = concat (map (fun r => map (fun z => r * w + z) (arange w))
                (arange (Z.of_nat rows))).
Proof.
  intros Hw. induction rows as [|rows IH]; [reflexivity|].
  replace (Z.of_nat (S rows) * w) with (Z.of_nat rows * w + w) by lia.
  replace (Z.of_nat (S rows)) with (Z.of_nat rows + 1) by lia.
  rewrite !arange_app by nia. rewrite IH.
  rewrite map_app, concat_app. f_equal.
  change (arange 1) with [0]. cbn [map concat].
  rewrite app_nil_r, Z.add_0_r. reflexivity.
Qed.

(** The planes of one worker: the block between two bounds. *)
Lemma filter_block (c p n : Z) :
  0 < c -> 0 <= p -> 0 <= n ->
  filter (fun z => z / c =? p) (arange n)
  = map (fun t => Z.min n (c * p) + t)
        (arange (Z.min n (c * (p + 1)) - Z.min n (c * p))).
Proof.
  intros Hc Hp Hn.
  set (a := Z.min n (c * p)). set (b := Z.min n (c * (p + 1))).
  assert (Hab : 0 <= a <= b /\ b <= n) by (unfold a, b; nia).
  replace n with (a + ((b - a) + (n - b))) at 1 by lia.
  rewrite (arange_app a), (arange_app (b - a)) by lia.
  rewrite map_app, !filter_app, map_map.
  rewrite (filter_none _ (arange a)).
  2:{ intros z Hz. apply in_arange in Hz.
      destruct (Z.eqb_spec (z / c) p) as [E|]; [|reflexivity].
      assert (z / c < p) by (apply Z.div_lt_upper_bound; unfold a in *; nia).
      lia. }
  rewrite filter_all.
  2:{ intros z Hz. apply in_map_iff in Hz. destruct Hz as (t & <- & Ht).
      apply in_arange in Ht. apply Z.eqb_eq.
      assert (a = c * p) by (unfold a, b in *; nia).
      symmetry. apply (Z.div_unique _ c p (a + t - c * p));
        unfold b in *; nia. }
  rewrite filter_none.
  2:{ intros z Hz. apply in_map_iff in Hz. destruct Hz as (t & <- & Ht).
      apply in_arange in Ht.
      destruct (Z.eqb_spec ((a + (b - a + t)) / c) p) as [E|];
        [|reflexivity].
      assert (b = c * (p + 1)) by (unfold b in *; lia).
      assert (p + 1 <= (a + (b - a + t)) / c)
        by (apply Z.div_le_lower_bound; nia).
      lia. }
  now rewrite app_nil_r.
Qed.

Section RankEngine.
Context {R : Type} {SR : Scalar R}.
Variable cis_turn : R -> complex R.
Variable g : Grid R.
Hypothesis Hn : 1 < n_procs g.
Hypothesis Hpos : shape_pos (shape g).
Hypothesis HH : shapeH g = shapeH_of (shape g).
Hypothesis Hsym : symmetries g = [(I3, no_trans)].
Hypothesis Hmesh : mesh_stored g.
Hypothesis Hlen : zlen (mesh_H g) = n_tot_of (shapeH g).
Hypothesis Hz : Forall (fun iH => 0 <= vz iH < vz (shapeH g)) (mesh_H g).
Hypothesis Hcis : cis_turn r0 = c1.

(** The mesh point stored at the index [k]: its plane and its row. *)
Lemma mesh_point (k : Z) :
  0 <= k < n_tot_of (shapeH g) ->
  let iH := nth (Z.to_nat k) (mesh_H g) (0, 0, 0) in
  let w := vmod iH (shape g) in
  vz iH = k mod vz (shapeH g) /\
  vx w * vy (shapeH g) + vy w = k / vz (shapeH g) /\
  vz w = k mod vz (shapeH g).
Proof.
  intros Hk iH w.
  assert (Hlt : (Z.to_nat k < length (mesh_H g))%nat)
    by (unfold zlen in Hlen; lia).
  assert (He : nth_error (mesh_H g) (Z.to_nat k) = Some iH)
    by (now apply nth_error_nth').
  pose proof (Hmesh _ _ He) as Hgi. rewrite Z2Nat.id in Hgi by lia.
  assert (Hin : In iH (mesh_H g)) by (eapply nth_error_In; eassumption).
  rewrite Forall_forall in Hz. pose proof (Hz iH Hin) as Hzi.
  unfold gi, get_index in Hgi. inversion Hgi as [[Hd Hc]].
  unfold folded in Hd. rewrite Hc in Hd.
  unfold conj_needed in Hc. apply Z.leb_gt in Hc.
  unfold wrapped in Hd, Hc. fold w in Hd, Hc.
  assert (Hw : 0 <= vx w /\ 0 <= vy w < vy (shapeH g) /\ 0 <= vz w).
  { unfold w. rewrite HH. destruct (shape g) as [[s0 s1] s2].
    destruct iH as [[a b] c]. unvec. destruct Hpos as (H0 & H1 & H2).
    pose proof (Z.mod_pos_bound a s0 H0).
    pose proof (Z.mod_pos_bound b s1 H1).
    pose proof (Z.mod_pos_bound c s2 H2). lia. }
  assert (Hwz : vz w = vz iH).
  { unfold w. rewrite HH in Hzi. destruct (shape g) as [[s0 s1] s2].
    destruct iH as [[a b] c]. unvec. destruct Hpos as (H0 & H1 & H2).
    apply Z.mod_small.
    pose proof (Z.div_mod s2 2 ltac:(lia)).
    pose proof (Z.mod_pos_bound s2 2 ltac:(lia)). lia. }
  assert (Hk' : k = (vx w * vy (shapeH g) + vy w) * vz (shapeH g) + vz w).
  { rewrite <- Hd. unfold dot, strideH_of. cbn [vx vy vz fst snd]. ring. }
  assert (Hq : 0 <= vx w * vy (shapeH g) + vy w) by nia.
  assert (Hmod : k mod vz (shapeH g) = vz w).
  { symmetry. apply (Z.mod_unique _ _ (vx w * vy (shapeH g) + vy w)); lia. }
  assert (Hdiv : k / vz (shapeH g) = vx w * vy (shapeH g) + vy w).
  { symmetry. apply (Z.div_unique _ _ _ (vz w)); lia. }
  repeat split; congruence.
Qed.

Lemma rank_split (p : Z) :
  0 <= p < n_procs g ->
  let c := ceildiv (vz (shapeH g)) (n_procs g) in
  td_i_start (split2H (grid_of_rank g p)) = Z.min (vz (shapeH g)) (c * p) /\
  td_i_stop (split2H (grid_of_rank g p))
  = Z.min (vz (shapeH g)) (c * (p + 1)) /\
  0 < c.
Proof.
  intros Hp c. destruct (half_shape_pos g Hpos HH) as (_ & _ & Hzp & _).
  cbn [grid_of_rank split2H TaskDivision_new td_i_start td_i_stop].
  rewrite !nth_map_arange by lia. rewrite Z.max_r by lia.
  repeat split. apply ceildiv_pos; lia.
Qed.

Lemma rank_whose_src (p : Z) :
  0 <= p < n_procs g ->
  whose_src_of (grid_of_rank g p)
               (map (fun k => [k]) (arange (n_tot_of (shapeH g))))
  = Ok (map (fun k => [plane_owner g k]) (arange (n_tot_of (shapeH g)))).
Proof.
  intros Hp. unfold whose_src_of. rewrite mapM_map.
  apply mapM_pure_in. intros k Hk. apply in_arange in Hk.
  cbn [mapM]. change (mesh_H (grid_of_rank g p)) with (mesh_H g).
  rewrite (tget_nth (mesh_H g) k (0, 0, 0)) by (rewrite Hlen; lia).
  cbn [bind]. destruct (mesh_point k Hk) as (E & _).
  rewrite E. reflexivity.
Qed.

Lemma rank_mine_src (p : Z) :
  filter (fun e : Z * Z * (Z * Z) => snd (snd e) =? p)
         (enumerate2
            (zip_tables
               (map (fun k => [k]) (arange (n_tot_of (shapeH g))))
               (map (fun k => [plane_owner g k])
                    (arange (n_tot_of (shapeH g))))))
  = map (fun k => (k, 0, (k, plane_owner g k))) (owned_indices g p).
Proof.
  destruct (half_shape_pos g Hpos HH) as (_ & _ & _ & Hnt).
  unfold zip_tables. rewrite combine_map_same, map_map.
  cbn [fst snd combine].
  rewrite (enumerate2_singletons (fun k => (k, plane_owner g k)))
    by lia.
  rewrite filter_of_map. reflexivity.
Qed.

(** The local indices of the planes of one worker, in the order of the
    global indices, are the positions of its buffer in order. *)
Lemma owned_local (p : Z) :
  0 <= p < n_procs g ->
  let a := td_i_start (split2H (grid_of_rank g p)) in
  let zm := vz (shapeH_mine (grid_of_rank g p)) in
  map (fun k => k / vz (shapeH g) * zm + (k mod vz (shapeH g) - a))
      (owned_indices g p)
  = arange (n_grid_of (grid_of_rank g p)).
Proof.
  intros Hp a zm.
  destruct (half_shape_pos g Hpos HH) as (Hx & Hy & Hzp & Hnt).
  destruct (rank_split p Hp) as (Ea & Eb & Hc).
  set (c := ceildiv (vz (shapeH g)) (n_procs g)) in *.
  set (Zh := vz (shapeH g)) in *.
  assert (Ezm : zm = Z.min Zh (c * (p + 1)) - Z.min Zh (c * p)).
  { unfold zm. cbn [grid_of_rank shapeH_mine vz snd].
    fold (split2H (grid_of_rank g p)).
    change (TaskDivision_new (vz (shapeH g)) (n_procs g) p)
      with (split2H (grid_of_rank g p)).
    now rewrite Ea, Eb. }
  assert (Hzm : 0 <= zm /\ a + zm <= Zh /\ 0 <= a).
  { rewrite Ezm. fold a in Ea. rewrite Ea. nia. }
  set (rows := Z.to_nat (vx (shapeH g) * vy (shapeH g))).
  assert (Erows : Z.of_nat rows = vx (shapeH g) * vy (shapeH g))
    by (unfold rows; nia).
  assert (EN : n_tot_of (shapeH g) = Z.of_nat rows * Zh)
    by (rewrite Erows; reflexivity).
  assert (ENG : n_grid_of (grid_of_rank g p) = Z.of_nat rows * zm)
    by (rewrite Erows; reflexivity).
  rewrite ENG. unfold owned_indices. rewrite EN.
  rewrite !arange_rows by lia.
  rewrite filter_of_concat, concat_map, !map_map. f_equal.
  apply map_ext_in. intros r Hr. apply in_arange in Hr.
  rewrite filter_of_map.
  rewrite (filter_ext_in _ (fun z => z / c =? p)).
  2:{ intros z Hzr. apply in_arange in Hzr.
      rewrite (plane_owner_eq g Hn). fold Zh c.
      rewrite Z.add_comm, Z.mod_add, Z.mod_small by lia. reflexivity. }
  rewrite filter_block by lia.
  rewrite <- Ezm, <- Ea. fold a. rewrite !map_map.
  apply map_ext_in. intros t Ht. apply in_arange in Ht.
  replace (r * Zh + (a + t)) with ((a + t) + r * Zh) by ring.
  rewrite Z.div_add, Z.mod_add by lia.
  rewrite Z.div_small, Z.mod_small by lia. ring.
Qed.

Lemma rank_grid_index (p : Z) :
  0 <= p < n_procs g ->
  let Gp := grid_of_rank g p in
  mapM (fun e : Z * Z * (Z * Z) =>
          v <- tget (mesh_H Gp) (fst (snd e)) ;;
          let w := vmod v (shape Gp) in
          Ok (dot (vx w, vy w, vz w - td_i_start (split2H Gp))
                  (vy (shapeH Gp) * vz (shapeH_mine Gp),
                   vz (shapeH_mine Gp), 1)))
       (map (fun k => (k, 0, (k, plane_owner g k))) (owned_indices g p))
  = Ok (arange (n_grid_of Gp)).
Proof.
  intros Hp Gp. rewrite mapM_map.
  pose proof (owned_local p Hp) as Hloc. cbv zeta in Hloc.
  fold Gp in Hloc. rewrite <- Hloc. apply mapM_pure_in.
  intros k Hk. apply filter_In in Hk. destruct Hk as (Hk & _).
  apply in_arange in Hk. cbn [fst snd].
  change (mesh_H Gp) with (mesh_H g). change (shape Gp) with (shape g).
  change (shapeH Gp) with (shapeH g).
  rewrite (tget_nth (mesh_H g) k (0, 0, 0)) by (rewrite Hlen; lia).
  cbn [bind]. destruct (mesh_point k Hk) as (_ & E2 & E3).
  cbv zeta in E2, E3. rewrite <- E2, <- E3. f_equal.
  unfold dot. cbn [vx vy vz fst snd]. fold Gp. ring.
Qed.

Lemma rank_multiplicity (p : Z) :
  0 <= p < n_procs g ->
  let Gp := grid_of_rank g p in
  concat (map (fun r => py_slice r (td_i_start (split2H Gp))
                                 (td_i_stop (split2H Gp)))
              (chunk (Z.to_nat (vz (shapeH g)))
                     (Z.to_nat (vx (shapeH g) * vy (shapeH g)))
                     (map (fun _ => 1) (arange (n_tot_of (shapeH g))))))
  = map (fun _ => 1) (arange (n_grid_of Gp)).
Proof.
  intros Hp Gp.
  destruct (half_shape_pos g Hpos HH) as (Hx & Hy & Hzp & Hnt).
  destruct (rank_split p Hp) as (Ea & Eb & Hc). fold Gp in Ea, Eb.
  set (c := ceildiv (vz (shapeH g)) (n_procs g)) in *.
  set (a := td_i_start (split2H Gp)) in *.
  set (b := td_i_stop (split2H Gp)) in *.
  assert (Hab : 0 <= a <= b /\ b <= vz (shapeH g)) by nia.
  set (rows := Z.to_nat (vx (shapeH g) * vy (shapeH g))).
  assert (Erows : Z.of_nat rows = vx (shapeH g) * vy (shapeH g))
    by (unfold rows; nia).
  assert (EN : n_tot_of (shapeH g) = Z.of_nat rows * vz (shapeH g))
    by (rewrite Erows; reflexivity).
  assert (ENG : n_grid_of Gp = Z.of_nat rows * (b - a))
    by (rewrite Erows; reflexivity).
  rewrite ENG, EN.
  destruct (Z.eq_dec b a) as [E|NE].
  - rewrite E, Z.sub_diag, Z.mul_0_r.
    rewrite (map_ext _ (fun _ => [])) by (intros; apply py_slice_empty).
    now rewrite concat_empty.
  - transitivity
      (concat
         (map (fun r => py_slice r a (a + (b - a)))
              (chunk (Z.to_nat (vz (shapeH g))) rows
                     (map (fun _ : Z => 1)
                          (arange (Z.of_nat rows * vz (shapeH g))))))).
    + now replace (a + (b - a)) with b by lia.
    + rewrite slices_of_chunks by lia. reflexivity.
Qed.

Lemma rank_block (p : Z) :
  0 <= p < n_procs g ->
  let div := TaskDivision_new (n_tot_of (shapeH g)) (n_procs g) p in
  td_i_start div = orbit_bound g p /\
  td_i_stop div = orbit_bound g (p + 1) /\
  td_n_prev div = map (orbit_bound g) (arange (n_procs g + 1)).
Proof.
  intros Hp div. unfold div, TaskDivision_new.
  cbn [td_i_start td_i_stop td_n_prev].
  rewrite !nth_map_arange by lia. repeat split.
Qed.

Lemma rank_distributed (p : Z) :
  0 <= p < n_procs g ->
  let Gp := grid_of_rank g p in
  let N := n_tot_of (shapeH g) in
  let rix := recv_order (block_sources g p) in
  init_distributed Gp (mesh_H g) (map (fun k => [k]) (arange N))
                   (map (fun _ => [false]) (mesh_H g))
                   (map (fun _ => 1) (arange N))
  = Ok (mkDistSetup
          (Distributed (send_bounds g p) (recv_bounds g p)
                       (arange (n_grid_of Gp)) rix (inverse_perm rix))
          (py_slice (map (fun _ => [false]) (mesh_H g))
                    (orbit_bound g p) (orbit_bound g (p + 1)))
          (py_slice (mesh_H g) (orbit_bound g p) (orbit_bound g (p + 1)))
          (map (fun _ => 1) (arange (n_grid_of Gp)))).
Proof.
  intros Hp Gp N rix. subst N.
  destruct (half_shape_pos g Hpos HH) as (Hx & Hy & Hzp & Hnt).
  destruct (rank_block p Hp) as (Es & Et & Epv).
  pose proof (orbit_bound_range g Hn Hpos HH p ltac:(lia)) as Hd.
  pose proof (orbit_bound_range g Hn Hpos HH (p + 1) ltac:(lia)) as Hd'.
  pose proof (orbit_bound_mono g Hn Hpos HH p (p + 1) ltac:(lia)) as Hm.
  unfold init_distributed.
  pose proof (rank_whose_src p Hp) as Hw. unfold whose_src_of in Hw.
  fold Gp in Hw. rewrite Hw. cbn [bind].
  change (i_proc Gp) with p. change (n_procs Gp) with (n_procs g).
  rewrite ?Hlen. rewrite (rank_mine_src p).
  pose proof (rank_grid_index p Hp) as Hgi. cbv zeta in Hgi.
  fold Gp in Hgi. rewrite Hgi. cbn [bind].
  change (shapeH Gp) with (shapeH g).
  replace (zlen (map (fun _ : Z => 1) (arange (n_tot_of (shapeH g)))))
    with (n_tot_of (shapeH g))
    by (unfold zlen; rewrite length_map, arange_length; lia).
  rewrite Z.eqb_refl. cbn [negb].
  pose proof (rank_multiplicity p Hp) as Hmu. cbv zeta in Hmu.
  fold Gp in Hmu. rewrite Hmu.
  rewrite Es, Et, Epv.
  assert (Hsrc : concat (py_slice (map (fun k => [plane_owner g k])
                                       (arange (n_tot_of (shapeH g))))
                                  (orbit_bound g p)
                                  (orbit_bound g (p + 1)))
                 = block_sources g p).
  { transitivity
      (concat (py_slice (map (fun k => [plane_owner g k]) (arange (n_tot_of (shapeH g))))
                        (orbit_bound g p)
                        (orbit_bound g p
                         + (orbit_bound g (p + 1) - orbit_bound g p)))).
    - now replace (orbit_bound g p
                   + (orbit_bound g (p + 1) - orbit_bound g p))
        with (orbit_bound g (p + 1)) by lia.
    - rewrite py_slice_map_arange by lia.
      apply (concat_singletons
               (fun x => plane_owner g (orbit_bound g p + x))). }
  rewrite Hsrc. fold (recv_order (block_sources g p)). fold rix.
  rewrite (tgets_nth _ _ 0) by apply recv_order_in_range.
  cbn [bind].
  assert (Hsp : map (fun e : Z * Z * (Z * Z) => fst (fst e))
                    (map (fun k => (k, 0, (k, plane_owner g k)))
                         (owned_indices g p))
                = owned_indices g p).
  { rewrite map_map. cbn [fst]. apply map_id. }
  rewrite Hsp, map_map. reflexivity.
Qed.

Lemma trivial_keys : min_equiv_index g = arange (zlen (mesh_H g)).
Proof.
  assert (Hrot : rot g = [I3]) by (unfold rot; now rewrite Hsym).
  unfold min_equiv_index, arange, zlen. rewrite Nat2Z.id.
  apply (map_by_index _ Z.of_nat _ 0). intros k x Hk.
  unfold min_equiv_key. rewrite Hrot. cbn [fold_left].
  rewrite vecmat_I3, (Hmesh k x Hk). apply Z.min_id.
Qed.

Lemma trivial_images :
  orbit_images g (mesh_H g)
  = map (fun k => [(k, false)]) (arange (zlen (mesh_H g))).
Proof.
  assert (Hrot : rot g = [I3]) by (unfold rot; now rewrite Hsym).
  unfold orbit_images, arange, zlen. rewrite Hrot, Nat2Z.id, map_map.
  apply (map_by_index _ (fun k => [(Z.of_nat k, false)]) _ 0).
  intros k x Hk. cbn [map]. now rewrite vecmat_I3, (Hmesh k x Hk).
Qed.

Lemma trivial_multiplicity (n : Z) :
  multiplicity_of (map (fun k => [k]) (arange n))
  = map (fun _ => 1) (arange n).
Proof.
  unfold multiplicity_of, unique_counts. cbn [snd].
  rewrite (concat_singletons (fun k => k)), map_id.
  rewrite (unique_of_sorted _ (arange_sorted _)).
  apply map_ext_in. intros k Hk.
  apply (count_of_sorted k _ (arange_sorted _) Hk).
Qed.

(** The engine of worker [p]: every orbit is one index; the orbits of
    the block of [p] come from the workers that hold their planes. *)
Lemma rank_engine (p : Z) :
  0 <= p < n_procs g ->
  let Gp := grid_of_rank g p in
  let rix := recv_order (block_sources g p) in
  init cis_turn Gp
  = Ok (mkEngine Gp
          (Distributed (send_bounds g p) (recv_bounds g p)
                       (arange (n_grid_of Gp)) rix (inverse_perm rix))
          (map (fun _ => [true]) rix)
          (map (fun _ => [c1]) rix)
          (trans_dtype g) (zlen rix) 1
          (map (fun _ => r1) (arange (n_grid_of Gp)))).
Proof.
  intros Hp Gp rix.
  destruct (half_shape_pos g Hpos HH) as (Hx & Hy & Hzp & Hnt).
  pose proof (orbit_bound_range g Hn Hpos HH p ltac:(lia)) as Hd.
  pose proof (orbit_bound_range g Hn Hpos HH (p + 1) ltac:(lia)) as Hd'.
  pose proof (orbit_bound_mono g Hn Hpos HH p (p + 1) ltac:(lia)) as Hm.
  assert (Hrix : length rix
                 = Z.to_nat (orbit_bound g (p + 1) - orbit_bound g p)).
  { unfold rix. rewrite (Permutation_length (recv_order_perm _)).
    rewrite arange_zlen. unfold block_sources.
    now rewrite length_map, arange_length. }
  assert (Hconj : py_slice (map (fun _ : vec3 => [false]) (mesh_H g))
                           (orbit_bound g p) (orbit_bound g (p + 1))
                  = map (fun _ => [false]) rix).
  { rewrite (const_map_length [false] (mesh_H g)
                              (arange (n_tot_of (shapeH g))))
      by (rewrite arange_length; unfold zlen in Hlen; lia).
    transitivity
      (py_slice (map (fun _ : Z => [false]) (arange (n_tot_of (shapeH g))))
                (orbit_bound g p)
                (orbit_bound g p
                 + (orbit_bound g (p + 1) - orbit_bound g p))).
    - now replace (orbit_bound g p
                   + (orbit_bound g (p + 1) - orbit_bound g p))
        with (orbit_bound g (p + 1)) by lia.
    - rewrite py_slice_map_arange by lia.
      apply const_map_length. now rewrite arange_length. }
  unfold init, iH_reduced, orbit_keys.
  change (min_equiv_index Gp) with (min_equiv_index g).
  change (mesh_H Gp) with (mesh_H g).
  rewrite trivial_keys.
  rewrite (unique_of_sorted _ (arange_sorted _)), tgets_arange.
  cbn [bind]. change (n_procs Gp) with (n_procs g).
  destruct (Z.ltb_spec 1 (n_procs g)); [|lia].
  change (orbit_images Gp (mesh_H g)) with (orbit_images g (mesh_H g)).
  rewrite trivial_images. unfold index_of, is_conj_of.
  rewrite !map_map. cbn [map fst snd].
  rewrite trivial_multiplicity, Hlen.
  rewrite (const_map_length [false] (arange (n_tot_of (shapeH g)))
                            (mesh_H g))
    by (rewrite arange_length; unfold zlen in Hlen; lia).
  pose proof (rank_distributed p Hp) as Hds. cbv zeta in Hds.
  fold Gp rix in Hds. rewrite Hds. cbn [bind].
  cbn [ds_layout ds_is_conj ds_reduced ds_multiplicity].
  assert (Hrot : rot Gp = [I3])
    by (unfold rot; cbn [Gp grid_of_rank symmetries]; now rewrite Hsym).
  assert (Htr : trans Gp = [no_trans])
    by (unfold trans; cbn [Gp grid_of_rank symmetries]; now rewrite Hsym).
  rewrite Hrot. cbn [zlen length Z.of_nat Z.eqb Pos.of_succ_nat].
  rewrite Hconj. f_equal. f_equal.
  - unfold imag_scale_of. rewrite map_map. reflexivity.
  - unfold phase_of. rewrite Htr.
    rewrite (map_ext _ (fun _ => [c1]))
      by (intros iH; cbn [map]; now rewrite vdot_no_trans, Hcis).
    apply const_map_length.
    rewrite (py_slice_length _ (map (fun _ : vec3 => [false]) (mesh_H g)))
      by (now rewrite length_map).
    now rewrite Hconj, length_map.
  - unfold zlen. now rewrite length_map.
  - rewrite map_map. apply map_ext. intros _. apply unit_weight.
Qed.
End RankEngine.
